(** * CasADi symbolic core: linearisation and sweeps of [SXFunctionInternal]

    A shallow embedding of
    - [XFunctionInternal::sort_depth_first] and [XFunctionInternal::jacGen]
      (symbolic/fx/x_function_internal.hpp),
    - [SXFunctionInternal::init], [evaluateGen] and [spEvaluate]
      (symbolic/fx/sx_function_internal.cpp),
    - [FXInternal::evaluateCompressed] (symbolic/fx/fx_internal.cpp),
    together with the properties of the linearised algorithm and of the
    derivative sweeps that the specification states. *)

From Stdlib Require Import ZArith NArith Lia Bool List Ring.
From Stdlib Require PrimFloat.
From stdpp Require Import base list.

Set Default Proof Using "Type".

(** ** Operation codes *)

(** The operation codes that the sources name.  The enumeration itself
    (casadi_math.hpp) is not part of the sources at hand; the constructors
    are the codes used by sx_function_internal.cpp and sx_tools.cpp. *)
Inductive Operation : Set :=
  | OP_CONST | OP_PARAMETER | OP_INPUT | OP_OUTPUT
  | OP_ADD | OP_SUB | OP_MUL | OP_DIV | OP_POW | OP_CONSTPOW
  | OP_FMIN | OP_FMAX
  | OP_NEG | OP_SQRT | OP_SIN | OP_COS | OP_TAN
  | OP_ASIN | OP_ACOS | OP_ATAN | OP_FLOOR | OP_CEIL
  | OP_SINH | OP_COSH | OP_TANH | OP_ASINH | OP_ACOSH | OP_ATANH.

Definition Operation_eqb (a b : Operation) : bool :=
  match a, b with
  | OP_CONST, OP_CONST | OP_PARAMETER, OP_PARAMETER | OP_INPUT, OP_INPUT
  | OP_OUTPUT, OP_OUTPUT | OP_ADD, OP_ADD | OP_SUB, OP_SUB | OP_MUL, OP_MUL
  | OP_DIV, OP_DIV | OP_POW, OP_POW | OP_CONSTPOW, OP_CONSTPOW
  | OP_FMIN, OP_FMIN | OP_FMAX, OP_FMAX | OP_NEG, OP_NEG | OP_SQRT, OP_SQRT
  | OP_SIN, OP_SIN | OP_COS, OP_COS | OP_TAN, OP_TAN | OP_ASIN, OP_ASIN
  | OP_ACOS, OP_ACOS | OP_ATAN, OP_ATAN | OP_FLOOR, OP_FLOOR
  | OP_CEIL, OP_CEIL | OP_SINH, OP_SINH | OP_COSH, OP_COSH
  | OP_TANH, OP_TANH | OP_ASINH, OP_ASINH | OP_ACOSH, OP_ACOSH
  | OP_ATANH, OP_ATANH => true
  | _, _ => false
  end.

(** Modelled from the spec: [casadi_math<double>::ndeps] lives in
    casadi_math.hpp, which is missing.  Constants, parameters and inputs
    have no operand; the binary built-ins ([CASADI_MATH_BINARY_BUILTIN] in
    [evalSX]) have two; everything else has one, the output marker
    included: [init] tests [ndeps==1 && it->op!=OP_OUTPUT]. *)
Definition ndeps (o : Operation) : nat :=
  match o with
  | OP_CONST | OP_PARAMETER | OP_INPUT => 0
  | OP_ADD | OP_SUB | OP_MUL | OP_DIV | OP_POW | OP_CONSTPOW
  | OP_FMIN | OP_FMAX => 2
  | _ => 1
  end.

(** The constant 0 of a scalar type; also what a read of storage that was
    never written gives in this model. *)
Class Zero (T : Type) : Type := zero : T.

(** ** Instructions of the virtual machine *)

(** [struct SXAlgEl] (sx_function.hpp).  The C union [arg] overlays the
    constant [d] with the two integers [i[0]], [i[1]]; the code reads [d]
    only for [OP_CONST] and [i] only otherwise, so the two views are kept
    as separate fields. *)
Record AlgEl (T : Type) : Type := mkAlgEl {
  op : Operation;
  res : nat;
  arg_d : T;
  arg_i0 : nat;
  arg_i1 : nat
}.
Arguments mkAlgEl {T}.
Arguments op {T}.
Arguments res {T}.
Arguments arg_d {T}.
Arguments arg_i0 {T}.
Arguments arg_i1 {T}.

(** [it->arg.i[c]] *)
Definition arg_i {T} (ae : AlgEl T) (c : nat) : nat :=
  match c with 0 => arg_i0 ae | _ => arg_i1 ae end.

Definition set_op {T} (o : Operation) (ae : AlgEl T) : AlgEl T :=
  mkAlgEl o (res ae) (arg_d ae) (arg_i0 ae) (arg_i1 ae).
Definition set_res {T} (r : nat) (ae : AlgEl T) : AlgEl T :=
  mkAlgEl (op ae) r (arg_d ae) (arg_i0 ae) (arg_i1 ae).
Definition set_arg_i {T} (c v : nat) (ae : AlgEl T) : AlgEl T :=
  match c with
  | 0 => mkAlgEl (op ae) (res ae) (arg_d ae) v (arg_i1 ae)
  | _ => mkAlgEl (op ae) (res ae) (arg_d ae) (arg_i0 ae) v
  end.

(** ** Expression nodes *)

(** Modelled from the spec: class [SXNode] (sx_node.hpp) is missing; only
    its use is visible.  A node has an operation code ([getOp]), a vector
    of operand handles ([ndep], [dep]), a constant payload ([getValue]) and
    the scratch integer [temp], which is kept outside the node because it is
    the only mutable part.  Nodes live in an arena; a handle is an index
    into it, and a null handle is [None]. *)
Record SXNode (T : Type) : Type := mkSXNode {
  node_op : Operation;
  node_dep : list (option nat);
  node_value : T
}.
Arguments mkSXNode {T}.
Arguments node_op {T}.
Arguments node_dep {T}.
Arguments node_value {T}.

(** How a call ends: normally, with [casadi_error], or never (a sort that
    does not come back). *)
Inductive casadi_exception : Set :=
  | FreeVariablesJIT (free_vars : list nat)
  | NoLLVM
  | FreeVariables (free_vars : list nat).

Inductive outcome (A : Type) : Type :=
  | Ret (a : A)
  | casadi_error (e : casadi_exception)
  | Diverges.
Arguments Ret {A}.
Arguments casadi_error {A}.
Arguments Diverges {A}.

Section Linearizer.
Context {T : Type} `{Zero T}.

Local Abbreviation Heap := (list (SXNode T)).
Local Abbreviation Temp := (nat -> nat).

Definition getOp (h : Heap) (p : nat) : Operation :=
  match h !! p with Some n => node_op n | None => OP_CONST end.
Definition getValue (h : Heap) (p : nat) : T :=
  match h !! p with Some n => node_value n | None => zero end.
Definition ndep (h : Heap) (p : nat) : nat :=
  match h !! p with Some n => length (node_dep n) | None => 0 end.
Definition dep (h : Heap) (p : nat) (i : nat) : option nat :=
  match h !! p with Some n => mjoin (node_dep n !! i) | None => None end.
Definition isConstant (h : Heap) (p : nat) : bool :=
  Operation_eqb (getOp h p) OP_CONST.
Definition isSymbolic (h : Heap) (p : nat) : bool :=
  Operation_eqb (getOp h p) OP_PARAMETER.

(** [p->temp = v] *)
Definition setTemp (temp : Temp) (p v : nat) : Temp :=
  fun q => if Nat.eqb q p then v else temp q.

(** *** [XFunctionInternal::sort_depth_first] *)

(** The scan that finds "which not yet added dependency has most number of
    dependencies": the state is [(max_deps, dep_with_max_deps)], both
    starting at -1. *)
Definition scan_dep (h : Heap) (temp : Temp) (t : nat)
    (st : Z * Z) (i : nat) : Z * Z :=
  match dep h t i with
  | Some d =>
      if Nat.eqb (temp d) 0 then
        let ndep_i := Z.of_nat (ndep h d) in
        if (fst st <? ndep_i)%Z then (ndep_i, Z.of_nat i) else st
      else st
  | None => st
  end.

Definition dep_with_max_deps (h : Heap) (temp : Temp) (t : nat) : Z :=
  snd (fold_left (scan_dep h temp t) (seq 0 (ndep h t)) ((-1)%Z, (-1)%Z)).

Record dfs_state : Type := mkDfs {
  dfs_s : list (option nat);        (* the stack, top first *)
  dfs_nodes : list (option nat);    (* the sorted nodes, in order *)
  dfs_temp : Temp
}.

(** One turn of the [while(!s.empty())] loop, for a stack with top [t]. *)
Definition dfs_turn (h : Heap) (t : option nat) (s' : list (option nat))
    (nodes : list (option nat)) (temp : Temp) : dfs_state :=
  match t with
  | Some p =>
      if Nat.eqb (temp p) 0 then
        let i := dep_with_max_deps h temp p in
        if (0 <=? i)%Z then
          mkDfs (dep h p (Z.to_nat i) :: Some p :: s') nodes temp
        else
          mkDfs s' (nodes ++ [Some p]) (setTemp temp p 1)
      else mkDfs s' nodes temp
  | None => mkDfs s' nodes temp
  end.

(** The loop itself; [None] when the fuel runs out. *)
Fixpoint sort_depth_first (fuel : nat) (h : Heap) (st : dfs_state)
    : option dfs_state :=
  match dfs_s st with
  | [] => Some st
  | t :: s' =>
      match fuel with
      | 0 => None
      | S fuel' =>
          sort_depth_first fuel' h (dfs_turn h t s' (dfs_nodes st) (dfs_temp st))
      end
  end.

(** *** [SXFunctionInternal::init] *)

(** What [init] leaves in the object. *)
Record SXFunctionInternal : Type := mkSXFunctionInternal {
  algorithm_ : list (AlgEl T);
  worksize_ : nat;                 (* work_.size() and s_work_.size() *)
  pdwork_size : nat;               (* pdwork_.size() *)
  constants_ : list nat;
  operations_ : list nat;
  free_vars_ : list nat;
  just_in_time_ : bool;
  temp_ : Temp                     (* the scratch fields when init is left *)
}.

(** The first loop: every output nonzero is pushed and sorted, then a null
    pointer marks the output instruction.  The two nested [for] loops run
    over the nonzeros of all outputs, that is over [concat outputv_]. *)
Definition sort_output (fuel : nat) (h : Heap)
    (acc : option (list (option nat) * Temp)) (o : nat)
    : option (list (option nat) * Temp) :=
  match acc with
  | Some (nodes, temp) =>
      match sort_depth_first fuel h (mkDfs [Some o] nodes temp) with
      | Some st => Some (dfs_nodes st ++ [None], dfs_temp st)
      | None => None
      end
  | None => None
  end.

Definition sort_outputs (fuel : nat) (h : Heap) (outputv_ : list (list nat))
    (temp : Temp) : option (list (option nat) * Temp) :=
  fold_left (sort_output fuel h) (concat outputv_) (Some ([], temp)).

(** "Make sure that all inputs have been added also" *)
Definition add_inputs (temp : Temp) (inputv_ : list (list nat))
    (nodes : list (option nat)) : list (option nat) :=
  fold_left (fun nodes p => if Nat.eqb (temp p) 0 then nodes ++ [Some p] else nodes)
            (concat inputv_) nodes.

(** [for(i...) if(nodes[i]) nodes[i]->temp = i], from index [i] on. *)
Fixpoint number_nodes (i : nat) (nodes : list (option nat)) (temp : Temp) : Temp :=
  match nodes with
  | [] => temp
  | Some p :: r => number_nodes (S i) r (setTemp temp p i)
  | None :: r => number_nodes (S i) r temp
  end.

(** [for(i...) if(nodes[i]) nodes[i]->temp = 0] *)
Definition reset_nodes (nodes : list (option nat)) (temp : Temp) : Temp :=
  fold_left (fun temp n => match n with Some p => setTemp temp p 0 | None => temp end)
            nodes temp.

Definition sort_by_type (h : Heap) (nodes : list (option nat))
    : list nat * list nat :=
  fold_left (fun '(cs, os) n =>
     match n with
     | Some t => if isConstant h t then (cs ++ [t], os)
                 else if negb (isSymbolic h t) then (cs, os ++ [t])
                 else (cs, os)
     | None => (cs, os)
     end) nodes ([], []).

(** The first index [>= i] of a non-empty output, or [outputv_.size()];
    [n] counts the indices left. *)
Fixpoint skip_empty (outputv_ : list (list nat)) (i n : nat) : nat :=
  match n with
  | 0 => i
  | S n' => match outputv_ !! i with
            | Some (_ :: _) => i
            | _ => skip_empty outputv_ (S i) n'
            end
  end.
Definition next_output (outputv_ : list (list nat)) (i : nat) : nat :=
  skip_empty outputv_ i (length outputv_ - i).

Record build_state : Type := mkBuild {
  b_algorithm : list (AlgEl T);
  b_symb_loc : list (nat * nat);
  b_curr_oind : nat;
  b_curr_nz : nat;
  b_refcount : list Z
}.

(** [n->temp] for a node pointer that the code has just dereferenced. *)
Definition temp_of (temp : Temp) (n : option nat) : nat :=
  match n with Some p => temp p | None => 0 end.

(** [refcount[ae.arg.i[c]]++] for [c < ndeps] *)
Definition count_deps (ae : AlgEl T) (refcount : list Z) : list Z :=
  fold_left (fun rc c => alter Z.succ (arg_i ae c) rc) (seq 0 (ndeps (op ae))) refcount.

(** One turn of the loop that turns the sorted nodes into instructions. *)
Definition build_step (h : Heap) (outputv_ : list (list nat)) (temp : Temp)
    (st : build_state) (n : option nat) : build_state :=
  let o := match n with None => OP_OUTPUT | Some p => getOp h p end in
  let p := match n with Some p => p | None => 0 end in
  match o with
  | OP_CONST =>
      let ae := mkAlgEl o (temp_of temp n) (getValue h p) 0 0 in
      mkBuild (b_algorithm st ++ [ae]) (b_symb_loc st)
              (b_curr_oind st) (b_curr_nz st) (count_deps ae (b_refcount st))
  | OP_PARAMETER =>
      let ae := mkAlgEl o (temp_of temp n) zero 0 0 in
      mkBuild (b_algorithm st ++ [ae])
              (b_symb_loc st ++ [(length (b_algorithm st), p)])
              (b_curr_oind st) (b_curr_nz st) (count_deps ae (b_refcount st))
  | OP_OUTPUT =>
      let curr_oind := b_curr_oind st in
      let curr_nz := b_curr_nz st in
      let out := default [] (outputv_ !! curr_oind) in
      let ae := mkAlgEl o curr_oind zero (temp_of temp (out !! curr_nz)) curr_nz in
      let '(oind', nz') :=
        if length out <=? S curr_nz
        then (next_output outputv_ (S curr_oind), 0)
        else (curr_oind, S curr_nz) in
      mkBuild (b_algorithm st ++ [ae]) (b_symb_loc st) oind' nz'
              (count_deps ae (b_refcount st))
  | _ =>
      let ae := mkAlgEl o (temp_of temp n) zero
                        (temp_of temp (dep h p 0)) (temp_of temp (dep h p 1)) in
      mkBuild (b_algorithm st ++ [ae]) (b_symb_loc st)
              (b_curr_oind st) (b_curr_nz st) (count_deps ae (b_refcount st))
  end.

Definition build (h : Heap) (outputv_ : list (list nat)) (temp : Temp)
    (nodes : list (option nat)) : build_state :=
  fold_left (build_step h outputv_ temp) nodes
    (mkBuild [] [] (next_output outputv_ 0) 0 (replicate (length nodes) 0%Z)).

(** The second loop: a place in the work vector for every instruction. *)
Record alloc_state : Type := mkAlloc {
  a_refcount : list Z;
  a_place : list nat;
  a_unused : list nat;      (* the stack of unused places, top first *)
  a_worksize : nat
}.

(** [remaining = --refcount[ch_ind]; if(remaining==0) unused.push(place[ch_ind])] *)
Definition consume (st : alloc_state) (ch_ind : nat) : alloc_state :=
  let remaining := (default 0%Z (a_refcount st !! ch_ind) - 1)%Z in
  mkAlloc (<[ch_ind := remaining]> (a_refcount st)) (a_place st)
          (if (remaining =? 0)%Z
           then default 0 (a_place st !! ch_ind) :: a_unused st
           else a_unused st)
          (a_worksize st).

(** [for(c=ndeps-1; c>=0; --c)] *)
Definition consume_deps (ae : AlgEl T) (st : alloc_state) : alloc_state :=
  fold_left consume (map (arg_i ae) (rev (seq 0 (ndeps (op ae))))) st.

(** "Find a place to store the variable" *)
Definition store (live_variables : bool) (ae : AlgEl T) (st : alloc_state)
    : alloc_state * AlgEl T :=
  if Operation_eqb (op ae) OP_OUTPUT then (st, ae)
  else
    match live_variables, a_unused st with
    | true, top :: rest =>
        (mkAlloc (a_refcount st) (<[res ae := top]> (a_place st)) rest (a_worksize st),
         set_res top ae)
    | _, _ =>
        (mkAlloc (a_refcount st) (<[res ae := a_worksize st]> (a_place st))
                 (a_unused st) (S (a_worksize st)),
         set_res (a_worksize st) ae)
    end.

(** "Save the location of the children" *)
Definition locate_deps (place : list nat) (ae : AlgEl T) : AlgEl T :=
  fold_left (fun ae c => set_arg_i c (default 0 (place !! arg_i ae c)) ae)
            (seq 0 (ndeps (op ae))) ae.

(** "make sure that the second argument is the same as the first one" *)
Definition make_binary (ae : AlgEl T) : AlgEl T :=
  if Nat.eqb (ndeps (op ae)) 1 && negb (Operation_eqb (op ae) OP_OUTPUT)
  then set_arg_i 1 (arg_i ae 0) ae else ae.

Definition alloc_step (live_variables : bool) (st : alloc_state) (ae : AlgEl T)
    : alloc_state * AlgEl T :=
  let st1 := consume_deps ae st in
  let '(st2, ae2) := store live_variables ae st1 in
  (st2, make_binary (locate_deps (a_place st2) ae2)).

Fixpoint allocate (live_variables : bool) (st : alloc_state)
    (alg : list (AlgEl T)) : alloc_state * list (AlgEl T) :=
  match alg with
  | [] => (st, [])
  | ae :: r =>
      let '(st1, ae') := alloc_step live_variables st ae in
      let '(st2, r') := allocate live_variables st1 r in
      (st2, ae' :: r')
  end.

(** "Now mark each input's place in the algorithm" *)
Definition mark_symb (symb_loc : list (nat * nat)) (temp : Temp) : Temp :=
  fold_left (fun temp '(i, p) => setTemp temp p (S i)) symb_loc temp.

(** "Add input instructions": the nonzeros of input [ind], from [nz] on. *)
Fixpoint input_nonzeros (ind nz : nat) (v : list nat)
    (st : list (AlgEl T) * Temp) : list (AlgEl T) * Temp :=
  match v with
  | [] => st
  | p :: r =>
      let '(alg, temp) := st in
      input_nonzeros ind (S nz) r
        match temp p with
        | S i => (alter (fun ae => set_arg_i 1 nz (set_arg_i 0 ind (set_op OP_INPUT ae))) i alg,
                  setTemp temp p 0)
        | 0 => st
        end
  end.

Fixpoint input_instructions (ind : nat) (inputv_ : list (list nat))
    (st : list (AlgEl T) * Temp) : list (AlgEl T) * Temp :=
  match inputv_ with
  | [] => st
  | v :: r => input_instructions (S ind) r (input_nonzeros ind 0 v st)
  end.

(** "Locate free variables" *)
Definition locate_free (symb_loc : list (nat * nat)) (temp : Temp)
    : list nat * Temp :=
  fold_left (fun '(fv, temp) '(_, p) =>
     if Nat.eqb (temp p) 0 then (fv, temp) else (fv ++ [p], setTemp temp p 0))
     symb_loc ([], temp).

(** The body of [init].  [fuel] bounds every call of [sort_depth_first];
    the build is made without LLVM, so that the option [just_in_time]
    always ends in an error. *)
Definition init (fuel : nat) (live_variables just_in_time : bool)
    (h : Heap) (inputv_ outputv_ : list (list nat)) (temp0 : Temp)
    : outcome SXFunctionInternal :=
  match sort_outputs fuel h outputv_ temp0 with
  | None => Diverges
  | Some (nodes0, temp1) =>
      let nodes := add_inputs temp1 inputv_ nodes0 in
      let temp2 := number_nodes 0 nodes temp1 in
      let '(constants, operations) := sort_by_type h nodes in
      let b := build h outputv_ temp2 nodes in
      let '(a, alg) :=
        allocate live_variables
          (mkAlloc (b_refcount b) (replicate (length nodes) 0) [] 0)
          (b_algorithm b) in
      let temp3 := mark_symb (b_symb_loc b) (reset_nodes nodes temp2) in
      let '(alg', temp4) := input_instructions 0 inputv_ (alg, temp3) in
      let '(free_vars, temp5) := locate_free (b_symb_loc b) temp4 in
      let this := mkSXFunctionInternal alg' (a_worksize a) (length operations)
                    constants operations free_vars just_in_time temp5 in
      if just_in_time then
        if negb (Nat.eqb (length free_vars) 0)
        then casadi_error (FreeVariablesJIT free_vars)
        else casadi_error NoLLVM
      else Ret this
  end.

(** The fuel that [init] gives to the sort: enough for every acyclic arena
    (see [sort_depth_first_terminates]). *)
Definition dfs_fuel (h : Heap) : nat := 2 * length h + 2.

End Linearizer.

(** ** The scalar type of the virtual machine *)

(** Modelled from the spec: [casadi_math<T>] (casadi_math.hpp) is missing.
    The sweeps use the scalar type only through the constant 0, [+], [*],
    the test [!= 0], the numeric function of every built-in operation
    ([CASADI_MATH_FUN_BUILTIN]) and its pair of partial derivatives
    ([CASADI_MATH_DERF_BUILTIN], which also stores the value). *)
Class Scalar (T : Type) : Type := {
  scalar_zero :: Zero T;
  one : T;
  add : T -> T -> T;
  mul : T -> T -> T;
  nonzero : T -> bool;
  quiet_NaN : T;
  fun_builtin : Operation -> T -> T -> T;
  der_builtin : Operation -> T -> T -> T -> T * T
}.

(** The operations that [CASADI_MATH_FUN_BUILTIN] has a case for. *)
Definition is_builtin (o : Operation) : bool :=
  match o with
  | OP_CONST | OP_PARAMETER | OP_INPUT | OP_OUTPUT => false
  | _ => true
  end.

(** ** Function inputs and outputs: [FXInternal] *)

(** [struct FunctionIO]: the value, the forward seeds or sensitivities and
    the adjoint seeds or sensitivities of one input or output, each the
    vector of nonzeros of a matrix. *)
Record FunctionIO (T : Type) : Type := mkFunctionIO {
  data : list T;
  dataF : list (list T);
  dataA : list (list T)
}.
Arguments mkFunctionIO {T}.
Arguments data {T}.
Arguments dataF {T}.
Arguments dataA {T}.

Record FXInternal (T : Type) : Type := mkFXInternal {
  input_ : list (FunctionIO T);
  output_ : list (FunctionIO T)
}.
Arguments mkFXInternal {T}.
Arguments input_ {T}.
Arguments output_ {T}.

Section Buffers.
Context {T : Type} `{Zero T}.

(** [v[i]] and [v[i] = x] on a vector; a read outside the vector, which
    the C++ leaves undefined, gives 0 and a write outside changes nothing. *)
Definition rd (v : list T) (i : nat) : T := default zero (v !! i).
Definition wr (v : list T) (i : nat) (x : T) : list T := <[i := x]> v.

Definition emptyIO : FunctionIO T := mkFunctionIO [] [] [].

Definition set_data (f : list T -> list T) (io : FunctionIO T) : FunctionIO T :=
  mkFunctionIO (f (data io)) (dataF io) (dataA io).
Definition set_dataF (dir : nat) (f : list T -> list T) (io : FunctionIO T)
    : FunctionIO T :=
  mkFunctionIO (data io) (alter f dir (dataF io)) (dataA io).
Definition set_dataA (dir : nat) (f : list T -> list T) (io : FunctionIO T)
    : FunctionIO T :=
  mkFunctionIO (data io) (dataF io) (alter f dir (dataA io)).

Definition inputNoCheck (fx : FXInternal T) (iind : nat) : list T :=
  data (default emptyIO (input_ fx !! iind)).
Definition outputNoCheck (fx : FXInternal T) (oind : nat) : list T :=
  data (default emptyIO (output_ fx !! oind)).
Definition fwdSeedNoCheck (fx : FXInternal T) (iind dir : nat) : list T :=
  default [] (dataF (default emptyIO (input_ fx !! iind)) !! dir).
Definition fwdSensNoCheck (fx : FXInternal T) (oind dir : nat) : list T :=
  default [] (dataF (default emptyIO (output_ fx !! oind)) !! dir).
Definition adjSeedNoCheck (fx : FXInternal T) (oind dir : nat) : list T :=
  default [] (dataA (default emptyIO (output_ fx !! oind)) !! dir).
Definition adjSensNoCheck (fx : FXInternal T) (iind dir : nat) : list T :=
  default [] (dataA (default emptyIO (input_ fx !! iind)) !! dir).

(** The same references, written through. *)
Definition upd_output (oind : nat) (f : list T -> list T) (fx : FXInternal T)
    : FXInternal T :=
  mkFXInternal (input_ fx) (alter (set_data f) oind (output_ fx)).
Definition upd_fwdSeed (iind dir : nat) (f : list T -> list T) (fx : FXInternal T)
    : FXInternal T :=
  mkFXInternal (alter (set_dataF dir f) iind (input_ fx)) (output_ fx).
Definition upd_fwdSens (oind dir : nat) (f : list T -> list T) (fx : FXInternal T)
    : FXInternal T :=
  mkFXInternal (input_ fx) (alter (set_dataF dir f) oind (output_ fx)).
Definition upd_adjSeed (oind dir : nat) (f : list T -> list T) (fx : FXInternal T)
    : FXInternal T :=
  mkFXInternal (input_ fx) (alter (set_dataA dir f) oind (output_ fx)).
Definition upd_adjSens (iind dir : nat) (f : list T -> list T) (fx : FXInternal T)
    : FXInternal T :=
  mkFXInternal (alter (set_dataA dir f) iind (input_ fx)) (output_ fx).

Definition getNumInputs (fx : FXInternal T) : nat := length (input_ fx).
Definition getNumOutputs (fx : FXInternal T) : nat := length (output_ fx).

End Buffers.

(** ** [SXFunctionInternal::evaluateGen] *)

Section Evaluator.
Context {T : Type} `{Scalar T}.

Local Abbreviation TapeEl := (T * T)%type.

(** The state of one pass: the work vector, the tape iterator (the part of
    [pdwork_] not yet visited) and the function's buffers. *)
Record sweep_state : Type := mkSweep {
  sw_work : list T;
  sw_it : list TapeEl;
  sw_fx : FXInternal T
}.

(** The value pass without taping.  [OP_PARAMETER] has no case in the
    switch. *)
Definition eval_step (st : list T * FXInternal T) (it : AlgEl T)
    : list T * FXInternal T :=
  let '(work, fx) := st in
  match op it with
  | OP_CONST => (wr work (res it) (arg_d it), fx)
  | OP_INPUT => (wr work (res it) (rd (inputNoCheck fx (arg_i0 it)) (arg_i1 it)), fx)
  | OP_OUTPUT =>
      (work, upd_output (res it) (fun v => wr v (arg_i1 it) (rd work (arg_i0 it))) fx)
  | OP_PARAMETER => st
  | o => (wr work (res it) (fun_builtin o (rd work (arg_i0 it)) (rd work (arg_i1 it))), fx)
  end.

(** The value pass with taping: [it1++->d] receives the partials, in the
    order of the instructions.  The tape is returned in that order. *)
Definition tape_step (st : list T * list TapeEl * FXInternal T) (it : AlgEl T)
    : list T * list TapeEl * FXInternal T :=
  let '(work, tape, fx) := st in
  match op it with
  | OP_CONST => (wr work (res it) (arg_d it), tape, fx)
  | OP_INPUT =>
      (wr work (res it) (rd (inputNoCheck fx (arg_i0 it)) (arg_i1 it)), tape, fx)
  | OP_OUTPUT =>
      (work, tape,
       upd_output (res it) (fun v => wr v (arg_i1 it) (rd work (arg_i0 it))) fx)
  | OP_PARAMETER => st
  | o =>
      let x := rd work (arg_i0 it) in
      let y := rd work (arg_i1 it) in
      let f := fun_builtin o x y in
      (wr work (res it) f, tape ++ [der_builtin o x y f], fx)
  end.

(** [it2->d] and [++it2]; past the end of the tape the C++ is undefined,
    here the entry reads as (0,0). *)
Definition tape_hd (it2 : list TapeEl) : TapeEl :=
  match it2 with d :: _ => d | [] => (zero, zero) end.

(** One instruction of the forward sweep of direction [dir]. *)
Definition fwd_step (dir : nat) (st : sweep_state) (it : AlgEl T) : sweep_state :=
  let work := sw_work st in
  match op it with
  | OP_CONST => mkSweep (wr work (res it) zero) (sw_it st) (sw_fx st)
  | OP_INPUT =>
      mkSweep (wr work (res it)
                  (rd (fwdSeedNoCheck (sw_fx st) (arg_i0 it) dir) (arg_i1 it)))
              (sw_it st) (sw_fx st)
  | OP_OUTPUT =>
      mkSweep work (sw_it st)
              (upd_fwdSens (res it) dir
                 (fun v => wr v (arg_i1 it) (rd work (arg_i0 it))) (sw_fx st))
  | _ =>
      let d := tape_hd (sw_it st) in
      mkSweep (wr work (res it)
                  (add (mul (fst d) (rd work (arg_i0 it)))
                       (mul (snd d) (rd work (arg_i1 it)))))
              (tail (sw_it st)) (sw_fx st)
  end.

(** One instruction of the adjoint sweep of direction [dir]; the tape is
    walked from its end. *)
Definition adj_step (dir : nat) (st : sweep_state) (it : AlgEl T) : sweep_state :=
  let work := sw_work st in
  match op it with
  | OP_CONST => mkSweep (wr work (res it) zero) (sw_it st) (sw_fx st)
  | OP_INPUT =>
      mkSweep (wr work (res it) zero) (sw_it st)
              (upd_adjSens (arg_i0 it) dir
                 (fun v => wr v (arg_i1 it) (rd work (res it))) (sw_fx st))
  | OP_OUTPUT =>
      mkSweep (wr work (arg_i0 it)
                  (add (rd work (arg_i0 it))
                       (rd (adjSeedNoCheck (sw_fx st) (res it) dir) (arg_i1 it))))
              (sw_it st) (sw_fx st)
  | _ =>
      let d := tape_hd (sw_it st) in
      let seed := rd work (res it) in
      let work1 := wr work (res it) zero in
      let work2 := wr work1 (arg_i0 it) (add (rd work1 (arg_i0 it)) (mul (fst d) seed)) in
      let work3 := wr work2 (arg_i1 it) (add (rd work2 (arg_i1 it)) (mul (snd d) seed)) in
      mkSweep work3 (tail (sw_it st)) (sw_fx st)
  end.

(** The forward sweep of one direction: the instructions in order, the
    tape from its beginning. *)
Definition fwd_sweep (alg : list (AlgEl T)) (pdwork : list TapeEl)
    (st : list T * FXInternal T) (dir : nat) : list T * FXInternal T :=
  let r := fold_left (fwd_step dir) alg (mkSweep (fst st) pdwork (snd st)) in
  (sw_work r, sw_fx r).

(** The adjoint sweep of one direction: instructions and tape in reverse. *)
Definition adj_sweep (alg : list (AlgEl T)) (pdwork : list TapeEl)
    (st : list T * FXInternal T) (dir : nat) : list T * FXInternal T :=
  let r := fold_left (adj_step dir) (rev alg) (mkSweep (fst st) (rev pdwork) (snd st)) in
  (sw_work r, sw_fx r).

(** The state of the object that [evaluateGen] works on. *)
Record SXEval : Type := mkSXEval {
  work_ : list T;
  pdwork_ : list TapeEl;
  fx_ : FXInternal T
}.

(** [work_] and [pdwork_] as [init] allocates them. *)
Definition init_eval (this : @SXFunctionInternal T) (fx : FXInternal T) : SXEval :=
  mkSXEval (replicate (worksize_ this) quiet_NaN)
           (replicate (pdwork_size this) (zero, zero)) fx.

Definition evaluateGen (this : @SXFunctionInternal T) (nfdir nadir : nat)
    (e : SXEval) : outcome SXEval :=
  if negb (Nat.eqb (length (free_vars_ this)) 0)
  then casadi_error (FreeVariables (free_vars_ this))
  else
    let alg := algorithm_ this in
    let taping := (0 <? nfdir) || (0 <? nadir) in
    if negb taping then
      let '(work, fx) := fold_left eval_step alg (work_ e, fx_ e) in
      Ret (mkSXEval work (pdwork_ e) fx)
    else
      let '(work, tape, fx) := fold_left tape_step alg (work_ e, [], fx_ e) in
      (* it1 has overwritten the first entries of pdwork_ *)
      let pdwork := tape ++ drop (length tape) (pdwork_ e) in
      let st1 := fold_left (fwd_sweep alg pdwork) (seq 0 nfdir) (work, fx) in
      let st2 := if 0 <? nadir
                 then (replicate (length (fst st1)) zero, snd st1) else st1 in
      let st3 := fold_left (adj_sweep alg pdwork) (seq 0 nadir) st2 in
      Ret (mkSXEval (fst st3) pdwork (snd st3)).

End Evaluator.

(** ** [SXFunctionInternal::spEvaluate] *)

(** [bvec_t]: one machine word of dependency bits.  The C++ reuses the
    storage of the [double] work vector and of the input and output
    buffers; here the bit vectors are buffers of their own. *)
Definition bvec_t : Type := N.

#[export] Instance bvec_zero : Zero bvec_t := 0%N.

Section Sparsity.
Context {T : Type}.

Definition sp_fwd_step (st : list bvec_t * FXInternal bvec_t) (it : AlgEl T)
    : list bvec_t * FXInternal bvec_t :=
  let '(iwork, fx) := st in
  match op it with
  | OP_CONST | OP_PARAMETER => (wr iwork (res it) 0%N, fx)
  | OP_INPUT =>
      (wr iwork (res it) (rd (inputNoCheck fx (arg_i0 it)) (arg_i1 it)), fx)
  | OP_OUTPUT =>
      (iwork, upd_output (res it) (fun v => wr v (arg_i1 it) (rd iwork (arg_i0 it))) fx)
  | _ =>
      (wr iwork (res it) (N.lor (rd iwork (arg_i0 it)) (rd iwork (arg_i1 it))), fx)
  end.

Definition upd_input (iind : nat) (f : list bvec_t -> list bvec_t)
    (fx : FXInternal bvec_t) : FXInternal bvec_t :=
  mkFXInternal (alter (set_data f) iind (input_ fx)) (output_ fx).

Definition sp_adj_step (st : list bvec_t * FXInternal bvec_t) (it : AlgEl T)
    : list bvec_t * FXInternal bvec_t :=
  let '(iwork, fx) := st in
  match op it with
  | OP_CONST | OP_PARAMETER => (wr iwork (res it) 0%N, fx)
  | OP_INPUT =>
      (wr iwork (res it) 0%N,
       upd_input (arg_i0 it) (fun v => wr v (arg_i1 it) (rd iwork (res it))) fx)
  | OP_OUTPUT =>
      (wr iwork (arg_i0 it)
          (N.lor (rd iwork (arg_i0 it)) (rd (outputNoCheck fx (res it)) (arg_i1 it))),
       fx)
  | _ =>
      let seed := rd iwork (res it) in
      let iwork1 := wr iwork (res it) 0%N in
      let iwork2 := wr iwork1 (arg_i0 it) (N.lor (rd iwork1 (arg_i0 it)) seed) in
      let iwork3 := wr iwork2 (arg_i1 it) (N.lor (rd iwork2 (arg_i1 it)) seed) in
      (iwork3, fx)
  end.

(** [spInit]: before a backward propagation the work vector is cleared. *)
Definition spInit (fwd : bool) (iwork : list bvec_t) : list bvec_t :=
  if fwd then iwork else replicate (length iwork) 0%N.

Definition spEvaluate (algorithm : list (AlgEl T)) (fwd : bool)
    (st : list bvec_t * FXInternal bvec_t) : list bvec_t * FXInternal bvec_t :=
  if fwd then fold_left sp_fwd_step algorithm st
  else fold_left sp_adj_step (rev algorithm) st.

End Sparsity.

(** ** [FXInternal::evaluateCompressed] *)

Section Compressed.
Context {T : Type} `{Scalar T}.

Local Abbreviation FX := (FXInternal T).
(** A reference to the vector of a direction of an input or an output
    ([fwdSeedNoCheck], ...), and the same reference written through. *)
Local Abbreviation getter := (FX -> nat -> nat -> list T).
Local Abbreviation updater := (nat -> nat -> (list T -> list T) -> FX -> FX).

(** [copy(v_old.begin(),v_old.end(),v_new.begin())] *)
Definition copy (v_old v_new : list T) : list T :=
  v_old ++ drop (length v_old) v_new.

(** [Matrix::setZero] *)
Definition setZero (v : list T) : list T := replicate (length v) zero.

(** "Look out for nonzeros": the two nested loops that leave
    [compressed_fwd_[dir]] true when no entry of direction [dir] is [!= 0]. *)
Definition can_compress (get : getter) (n : nat) (fx : FX) (dir : nat) : bool :=
  forallb (fun ind => forallb (fun x => negb (nonzero x)) (get fx ind dir)) (seq 0 n).

(** "Move the direction to a previous direction" *)
Definition move_dir (get : getter) (upd : updater) (n : nat) (from to : nat)
    (fx : FX) : FX :=
  fold_left (fun fx ind => upd ind to (copy (get fx ind from)) fx) (seq 0 n) fx.

Record compress_state : Type := mkCompress {
  c_fx : FX;
  c_compressed : list bool;     (* compressed_fwd_ or compressed_adj_ *)
  c_count : nat                 (* nfdir_compressed or nadir_compressed *)
}.

(** One turn of the loop "Check if any ... directions are all zero". *)
Definition compress_step (get : getter) (upd : updater) (n : nat)
    (st : compress_state) (dir : nat) : compress_state :=
  let c := can_compress get n (c_fx st) dir in
  let flags := <[dir := c]> (c_compressed st) in
  if c then mkCompress (c_fx st) flags (c_count st)
  else
    mkCompress
      (if Nat.eqb dir (c_count st) then c_fx st
       else move_dir get upd n dir (c_count st) (c_fx st))
      flags (S (c_count st)).

Definition compress (get : getter) (upd : updater) (n ndir : nat)
    (fx : FX) (flags : list bool) : compress_state :=
  fold_left (compress_step get upd n) (seq 0 ndir) (mkCompress fx flags 0).

(** One turn of the loop "Decompress ... directions in reverse order". *)
Definition decompress_step (get : getter) (upd : updater) (n : nat)
    (flags : list bool) (st : FX * nat) (dir : nat) : FX * nat :=
  let '(fx, count) := st in
  if default false (flags !! dir) then
    (fold_left (fun fx ind => upd ind dir setZero fx) (seq 0 n) fx, count)
  else
    let count' := pred count in
    if Nat.eqb count' dir then (fx, count')
    else (move_dir get upd n count' dir fx, count').

Definition decompress (get : getter) (upd : updater) (n ndir : nat)
    (flags : list bool) (st : FX * nat) : FX * nat :=
  fold_left (decompress_step get upd n flags) (rev (seq 0 ndir)) st.

(** The object: the part of the derived class, the two flag vectors and
    the buffers. *)
Record FXObject (Self : Type) : Type := mkFXObject {
  self_ : Self;
  compressed_fwd_ : list bool;
  compressed_adj_ : list bool;
  buffers_ : FX
}.
Arguments mkFXObject {Self}.
Arguments self_ {Self}.
Arguments compressed_fwd_ {Self}.
Arguments compressed_adj_ {Self}.
Arguments buffers_ {Self}.

(** [evaluateCompressed], over the virtual [evaluate] of the derived
    class. *)
Definition evaluateCompressed {Self : Type}
    (evaluate : nat -> nat -> Self * FX -> outcome (Self * FX))
    (nfdir nadir : nat) (this : FXObject Self) : outcome (FXObject Self) :=
  let fx := buffers_ this in
  let cf := compress fwdSeedNoCheck upd_fwdSeed (getNumInputs fx) nfdir
                     fx (compressed_fwd_ this) in
  let ca := compress adjSeedNoCheck upd_adjSeed (getNumOutputs fx) nadir
                     (c_fx cf) (compressed_adj_ this) in
  match evaluate (c_count cf) (c_count ca) (self_ this, c_fx ca) with
  | Ret (self', fx') =>
      let '(fx1, _) :=
        decompress fwdSensNoCheck upd_fwdSens (getNumOutputs fx') nfdir
                   (c_compressed cf) (fx', c_count cf) in
      let '(fx2, _) :=
        decompress adjSensNoCheck upd_adjSens (getNumInputs fx1) nadir
                   (c_compressed ca) (fx1, c_count ca) in
      Ret (mkFXObject self' (c_compressed cf) (c_compressed ca) fx2)
  | casadi_error e => casadi_error e
  | Diverges => Diverges
  end.

End Compressed.

Arguments mkFXObject {T Self}.
Arguments self_ {T Self}.
Arguments compressed_fwd_ {T Self}.
Arguments compressed_adj_ {T Self}.
Arguments buffers_ {T Self}.

(** ** The seeds of [XFunctionInternal::jacGen] *)

(** [CRSSparsity]: compressed row storage of a pattern. *)
Record CRSSparsity : Type := mkCRSSparsity {
  size1 : nat;
  size2 : nat;
  rowind : list nat;
  col : list nat
}.

Section JacGen.
Context {T : Type} `{Scalar T}.

(** [MatType(sp,0)]: a matrix of structural nonzeros, all 0. *)
Definition zeros_like (v : list T) : list T := replicate (length v) zero.

(** [m.at(c) = x]: the checked access throws outside the nonzeros. *)
Definition at_put (m : list T) (c : nat) (x : T) : option (list T) :=
  if c <? length m then Some (<[c := x]> m) else None.

(** The elements of row [dir]: [el = D.rowind(dir) .. D.rowind(dir+1)-1]. *)
Definition row_elements (D : CRSSparsity) (dir : nat) : list nat :=
  let b := default 0 (rowind D !! dir) in
  let e := default 0 (rowind D !! S dir) in
  seq b (e - b).

(** "Give a seed in the direction": [seed[dir][ind].at(c) = 1] for every
    element of row [dir] of the partition; the loop is the same for the
    forward seeds (with [D1], [iind]) and for the adjoint seeds (with [D2],
    [oind]). *)
Definition give_seed (D : CRSSparsity) (ind : nat)
    (acc : option (list (list T))) (el : nat) : option (list (list T)) :=
  match acc with
  | Some seed =>
      let c := default 0 (col D !! el) in
      match at_put (default [] (seed !! ind)) c one with
      | Some m => Some (<[ind := m]> seed)
      | None => None
      end
  | None => None
  end.

(** One direction: "initialize to zero", then seed the row. *)
Definition seed_dir (D : CRSSparsity) (ind : nat) (io : list (FunctionIO T))
    (dir : nat) : option (list (list T)) :=
  fold_left (give_seed D ind) (row_elements D dir)
            (Some (map (fun x => zeros_like (data x)) io)).

(** "Adjoint seeds": [aseed[dir]] for [dir < nadj = D2.size1()]. *)
Definition adjoint_seeds (fx : FXInternal T) (D2 : CRSSparsity) (oind : nat)
    : list (option (list (list T))) :=
  map (seed_dir D2 oind (output_ fx)) (seq 0 (size1 D2)).

(** "Forward seeds": [fseed[dir]] for [dir < nfwd = D1.size1()]. *)
Definition forward_seeds (fx : FXInternal T) (D1 : CRSSparsity) (iind : nat)
    : list (option (list (list T))) :=
  map (seed_dir D1 iind (input_ fx)) (seq 0 (size1 D1)).

End JacGen.

(** The columns that the elements of row [dir] name, in their order. *)
Definition row_columns (D : CRSSparsity) (dir : nat) : list nat :=
  map (fun el => default 0 (col D !! el)) (row_elements D dir).

(** Modelled from the spec: [CRSSparsity::unidirectionalColoring], from
    which [getPartition] takes the partition [D2] of [jacGen], is not among
    the sources.  Its result is a sparsity pattern, "a compressed
    row-storage boolean matrix", and as a colouring matrix it maps a seed
    direction to the "set of original rows/columns assigned to that
    direction": no row names a column twice. *)
Definition rows_are_sets (D : CRSSparsity) : bool :=
  forallb (fun dir => bool_decide (NoDup (row_columns D dir))) (seq 0 (size1 D)).

(** ** Well-formedness of arenas and of algorithms *)

Section Predicates.
Context {T : Type}.

(** The arena is acyclic by construction: a node is created after its
    operands, so every operand handle is smaller than the node's own. *)
Definition acyclic (h : list (SXNode T)) : Prop :=
  forall p i d, dep h p i = Some d -> d < p.

(** The nodes of an expression graph are constants, symbols or built-in
    operations that own all the operands that [ndeps] counts. *)
Definition node_ok (h : list (SXNode T)) (p : nat) : bool :=
  match h !! p with
  | Some n =>
      negb (Operation_eqb (node_op n) OP_INPUT) &&
      negb (Operation_eqb (node_op n) OP_OUTPUT) &&
      forallb (fun c => match dep h p c with Some d => d <? p | None => false end)
              (seq 0 (ndeps (node_op n))) &&
      forallb (fun d => match d with Some d => d <? p | None => true end)
              (node_dep n)
  | None => false
  end.

Definition arena_ok (h : list (SXNode T)) : bool :=
  forallb (node_ok h) (seq 0 (length h)).

(** [q] is an operand, or an operand of an operand ..., of [p]. *)
Inductive reachable (h : list (SXNode T)) : nat -> nat -> Prop :=
  | reachable_refl p : reachable h p p
  | reachable_step p i d q :
      dep h p i = Some d -> reachable h d q -> reachable h p q.

(** The handles below [p] that [p] reaches: its transitive dependencies. *)
Fixpoint reaches (h : list (SXNode T)) (fuel p q : nat) : bool :=
  match fuel with
  | 0 => false
  | S fuel' =>
      existsb (fun d => match d with
                        | Some d => Nat.eqb d q || reaches h fuel' d q
                        | None => false
                        end)
              (match h !! p with Some n => node_dep n | None => [] end)
  end.

Definition transitive_deps (h : list (SXNode T)) (p : nat) : nat :=
  length (filter (fun q => Is_true (reaches h (S (length h)) p q)) (seq 0 (length h))).

(** The slots that the instructions of [pre] have written. *)
Definition produced (pre : list (AlgEl T)) (s : nat) : bool :=
  existsb (fun ae => negb (Operation_eqb (op ae) OP_OUTPUT) && Nat.eqb (res ae) s) pre.

(** Every slot that an instruction reads was written by an instruction
    before it; [reads] says which slots an instruction reads, [pre] is what
    comes before [alg]. *)
Fixpoint valid_from (reads : AlgEl T -> list nat) (pre alg : list (AlgEl T)) : bool :=
  match alg with
  | [] => true
  | ae :: r => forallb (produced pre) (reads ae) && valid_from reads (pre ++ [ae]) r
  end.

(** The operand slots of an instruction: [arg.i[c]] for [c < ndeps]. *)
Definition operand_slots (ae : AlgEl T) : list nat :=
  map (arg_i ae) (seq 0 (ndeps (op ae))).

Definition topologically_valid (alg : list (AlgEl T)) : bool :=
  valid_from operand_slots [] alg.

(** The slots that the derivative sweeps of [evaluateGen] read: their
    [default] case reads both [arg.i[0]] and [arg.i[1]]. *)
Definition sweep_reads (ae : AlgEl T) : list nat :=
  match op ae with
  | OP_CONST | OP_INPUT => []
  | OP_OUTPUT => [arg_i0 ae]
  | _ => [arg_i0 ae; arg_i1 ae]
  end.

Definition sweep_valid (alg : list (AlgEl T)) : bool :=
  valid_from sweep_reads [] alg.

(** The instructions that take an entry of the tape in the sweeps. *)
Definition takes_tape (ae : AlgEl T) : bool :=
  match op ae with
  | OP_CONST | OP_INPUT | OP_OUTPUT => false
  | _ => true
  end.

(** The tape has one entry for every instruction that takes one, and no
    instruction is left as [OP_PARAMETER]. *)
Definition tape_fits (alg : list (AlgEl T)) (npd : nat) : bool :=
  Nat.eqb (length (filter (fun ae => Is_true (takes_tape ae)) alg)) npd &&
  forallb (fun ae => negb (Operation_eqb (op ae) OP_PARAMETER)) alg.

(** The places [(ind, nz)] of the nonzeros of buffers of the given sizes. *)
Fixpoint locations_from (ind : nat) (sizes : list nat) : list (nat * nat) :=
  match sizes with
  | [] => []
  | n :: r => map (pair ind) (seq 0 n) ++ locations_from (S ind) r
  end.
Definition locations (sizes : list nat) : list (nat * nat) := locations_from 0 sizes.

(** The places that the input and the output instructions name. *)
Definition input_locs (alg : list (AlgEl T)) : list (nat * nat) :=
  omap (fun ae => if Operation_eqb (op ae) OP_INPUT
                  then Some (arg_i0 ae, arg_i1 ae) else None) alg.
Definition output_locs (alg : list (AlgEl T)) : list (nat * nat) :=
  omap (fun ae => if Operation_eqb (op ae) OP_OUTPUT
                  then Some (res ae, arg_i1 ae) else None) alg.

End Predicates.

(** ** Statements of the specification that are compared with the code *)

Section SpecStatements.
Context {T : Type}.

(** The specification's wording of the descent of the depth-first sort:
    the operand that the sort pushes has the most transitive dependencies
    among the operands that are not yet scheduled. *)
Definition descends_into_most_transitive (h : list (SXNode T))
    (temp : nat -> nat) (t : nat) : Prop :=
  forall s nodes d rest,
    dfs_s (dfs_turn h (Some t) s nodes temp) = Some d :: rest ->
    forall i' d', dep h t i' = Some d' -> temp d' = 0 ->
      transitive_deps h d' <= transitive_deps h d.

(** The places that the instruction [ae] frees: what its operands push on
    the stack of unused places. *)
Definition freed_by (ae : AlgEl T) (st : alloc_state) : list nat :=
  let st1 := consume_deps ae st in
  take (length (a_unused st1) - length (a_unused st)) (a_unused st1).

(** The place that the instruction [ae] takes from the stack, if any. *)
Definition reused (live_variables : bool) (ae : AlgEl T) (st : alloc_state)
    : option nat :=
  let st1 := consume_deps ae st in
  if length (a_unused (store live_variables ae st1).1) <? length (a_unused st1)
  then head (a_unused st1) else None.

(** The specification's wording of the reuse: a freed place is taken by a
    later instruction only, never by the instruction that frees it. *)
Definition reuse_only_later (live_variables : bool) (st : alloc_state)
    (alg : list (AlgEl T)) : Prop :=
  forall pre ae post, alg = pre ++ ae :: post ->
    let st_k := (allocate live_variables st pre).1 in
    forall s, reused live_variables ae st_k = Some s -> s ∉ freed_by ae st_k.

End SpecStatements.

Section SpecSeeds.
Context {T : Type} `{Scalar T}.

(** The specification's wording of the adjoint seeds of [jacGen]: a seeded
    entry is added to the seed, [seed[dir][ind].at(c) += 1]. *)
Definition give_seed_accumulating (D : CRSSparsity) (ind : nat)
    (acc : option (list (list T))) (el : nat) : option (list (list T)) :=
  match acc with
  | Some seed =>
      let c := default 0 (col D !! el) in
      let m := default [] (seed !! ind) in
      match at_put m c (add (default zero (m !! c)) one) with
      | Some m' => Some (<[ind := m']> seed)
      | None => None
      end
  | None => None
  end.

Definition seed_dir_accumulating (D : CRSSparsity) (ind : nat)
    (io : list (FunctionIO T)) (dir : nat) : option (list (list T)) :=
  fold_left (give_seed_accumulating D ind) (row_elements D dir)
            (Some (map (fun x => zeros_like (data x)) io)).

(** The same for all the adjoint directions. *)
Definition adjoint_seeds_accumulating (fx : FXInternal T) (D2 : CRSSparsity)
    (oind : nat) : list (option (list (list T))) :=
  map (seed_dir_accumulating D2 oind (output_ fx)) (seq 0 (size1 D2)).

End SpecSeeds.

(** ** Scalar types to run the model on *)

(** Exact integers: the arithmetic of the calculus rules.  Modelled from
    the spec: the table of partial derivatives (add -> (1,1),
    multiply -> (y,x)); subtraction and negation follow the same rules, the
    other operations are not needed to run the examples and give 0. *)
#[export] Instance Z_zero : Zero Z := 0%Z.

Definition Z_fun (o : Operation) (x y : Z) : Z :=
  match o with
  | OP_ADD => x + y
  | OP_SUB => x - y
  | OP_MUL => x * y
  | OP_NEG => - x
  | _ => 0
  end%Z.

Definition Z_der (o : Operation) (x y f : Z) : Z * Z :=
  match o with
  | OP_ADD => (1, 1)
  | OP_SUB => (1, -1)
  | OP_MUL => (y, x)
  | OP_NEG => (-1, 0)
  | _ => (0, 0)
  end%Z.

#[export] Instance Z_scalar : Scalar Z := {|
  scalar_zero := Z_zero;
  one := 1%Z;
  add := Z.add;
  mul := Z.mul;
  nonzero := fun x => negb (x =? 0)%Z;
  quiet_NaN := 0%Z;
  fun_builtin := Z_fun;
  der_builtin := Z_der
|}.

(** IEEE 754 binary64, the [double] of the C++.  The table of the numeric
    functions and of their partial derivatives, [casadi_math<double>], is
    not among the sources.  Modelled from the spec: add -> (1,1),
    multiply -> (y,x), with subtraction and negation by the same rules of
    calculus.  The rest of the table (divide, power, the functions of the C
    library, ...) is a parameter, [table_fun] and [table_der]: what is
    shown over binary64 holds whatever these are. *)
#[export] Instance double_zero : Zero PrimFloat.float := PrimFloat.zero.

Section Binary64.
Variable table_fun :
  Operation -> PrimFloat.float -> PrimFloat.float -> PrimFloat.float.
Variable table_der :
  Operation -> PrimFloat.float -> PrimFloat.float -> PrimFloat.float ->
  PrimFloat.float * PrimFloat.float.

Definition double_fun (o : Operation) (x y : PrimFloat.float) : PrimFloat.float :=
  match o with
  | OP_ADD => PrimFloat.add x y
  | OP_SUB => PrimFloat.sub x y
  | OP_MUL => PrimFloat.mul x y
  | OP_NEG => PrimFloat.opp x
  | _ => table_fun o x y
  end.

Definition double_der (o : Operation) (x y f : PrimFloat.float)
    : PrimFloat.float * PrimFloat.float :=
  match o with
  | OP_ADD => (PrimFloat.one, PrimFloat.one)
  | OP_SUB => (PrimFloat.one, PrimFloat.opp PrimFloat.one)
  | OP_MUL => (y, x)
  | OP_NEG => (PrimFloat.opp PrimFloat.one, PrimFloat.zero)
  | _ => table_der o x y f
  end.

Definition double_scalar : Scalar PrimFloat.float := {|
  scalar_zero := double_zero;
  one := PrimFloat.one;
  add := PrimFloat.add;
  mul := PrimFloat.mul;
  nonzero := fun x => negb (PrimFloat.eqb x PrimFloat.zero);
  quiet_NaN := PrimFloat.nan;
  fun_builtin := double_fun;
  der_builtin := double_der
|}.

End Binary64.

(** ** Example graphs *)

Module Examples.

(** A node with non-null operands. *)
Definition node {T} `{Zero T} (o : Operation) (deps : list nat) : SXNode T :=
  mkSXNode o (map Some deps) zero.

(** [f(x,y) = x*y + sin(x)]: x, y, x*y, sin(x), x*y + sin(x). *)
Definition scenarioA {T} `{Zero T} : list (SXNode T) :=
  [node OP_PARAMETER []; node OP_PARAMETER [];
   node OP_MUL [0; 1]; node OP_SIN [0]; node OP_ADD [2; 3]].

(** The scratch fields at their sentinel. *)
Definition temp0 : nat -> nat := fun _ => 0.

(** [f(x) = sin(x)]. *)
Definition sine {T} `{Zero T} : list (SXNode T) :=
  [node OP_PARAMETER []; node OP_SIN [0]].

(** [x*y + (x+y)*(z+w)] over the symbols x, y, z, w: the first operand of
    the sum has two transitive dependencies, the second has six, and both
    are binary. *)
Definition unbalanced {T} `{Zero T} : list (SXNode T) :=
  [node OP_PARAMETER []; node OP_PARAMETER [];
   node OP_PARAMETER []; node OP_PARAMETER [];
   node OP_MUL [0; 1];
   node OP_ADD [0; 1]; node OP_ADD [2; 3]; node OP_MUL [5; 6];
   node OP_ADD [4; 7]].


(** Rows that name the nonzero 0 twice, which no pattern has, and a
    function with one output of one nonzero. *)
Definition twice : CRSSparsity := mkCRSSparsity 1 1 [0; 2] [0; 0].
Definition one_output : FXInternal Z :=
  mkFXInternal [] [mkFunctionIO [0%Z] [] []].

(** The function object that [init] builds, with live variables. *)
Definition linearized {T} `{Zero T} (h : list (SXNode T))
    (inputv outputv : list (list nat)) : @SXFunctionInternal T :=
  match init (dfs_fuel h) true false h inputv outputv temp0 with
  | Ret this => this
  | _ => mkSXFunctionInternal [] 0 0 [] [] [] false temp0
  end.

(** [f(x,y) = x*y + x], with buffers for one forward and one adjoint
    direction: x = 3, y = 4, forward seeds 5 and 7, adjoint seed 2. *)
Definition bilinear {T} `{Zero T} : list (SXNode T) :=
  [node OP_PARAMETER []; node OP_PARAMETER [];
   node OP_MUL [0; 1]; node OP_ADD [2; 0]].
Definition bilinear_fx : FXInternal Z :=
  mkFXInternal [mkFunctionIO [3%Z] [[5%Z]] [[0%Z]];
                mkFunctionIO [4%Z] [[7%Z]] [[0%Z]]]
               [mkFunctionIO [0%Z] [[0%Z]] [[2%Z]]].

(** [f(x,a,b) = (x*a)*b] of one input with three nonzeros, over binary64:
    x = 1, a = 2^600, b = 2^-600, the forward seed 2^600 on x, the adjoint
    seed 1.  All of them are finite. *)
Definition chain {T} `{Zero T} : list (SXNode T) :=
  [node OP_PARAMETER []; node OP_PARAMETER []; node OP_PARAMETER [];
   node OP_MUL [0; 1]; node OP_MUL [3; 2]].
Definition pow2 (n : nat) : PrimFloat.float :=
  Nat.iter n (PrimFloat.mul (PrimFloat.add PrimFloat.one PrimFloat.one)) PrimFloat.one.
Definition chain_fx : FXInternal PrimFloat.float :=
  mkFXInternal
    [mkFunctionIO [PrimFloat.one; pow2 600; PrimFloat.div PrimFloat.one (pow2 600)]
                  [[pow2 600; PrimFloat.zero; PrimFloat.zero]]
                  [[PrimFloat.zero; PrimFloat.zero; PrimFloat.zero]]]
    [mkFunctionIO [PrimFloat.zero] [[PrimFloat.zero]] [[PrimFloat.one]]].

(** [bilinear] with two forward directions, the first with seeds that are
    all 0, and one adjoint direction. *)
Definition bilinear_fx2 : FXInternal Z :=
  mkFXInternal [mkFunctionIO [3%Z] [[0%Z]; [5%Z]] [[0%Z]];
                mkFunctionIO [4%Z] [[0%Z]; [7%Z]] [[0%Z]]]
               [mkFunctionIO [0%Z] [[0%Z]; [0%Z]] [[2%Z]]].

(** [f(x,a) = (x*a)*a] of one input with two nonzeros, over binary64, at
    x = a = 2^600, where [x*a] overflows; two forward directions, the first
    with seeds that are all 0. *)
Definition overflow {T} `{Zero T} : list (SXNode T) :=
  [node OP_PARAMETER []; node OP_PARAMETER [];
   node OP_MUL [0; 1]; node OP_MUL [2; 1]].
Definition overflow_fx : FXInternal PrimFloat.float :=
  mkFXInternal
    [mkFunctionIO [pow2 600; pow2 600]
                  [[PrimFloat.zero; PrimFloat.zero]; [PrimFloat.one; PrimFloat.zero]]
                  []]
    [mkFunctionIO [PrimFloat.zero] [[PrimFloat.zero]; [PrimFloat.zero]] []].

(** The object of [evaluateCompressed] for a function of [init]: the work
    vector and the tape as [init] allocates them, and flag vectors with
    one entry for every direction. *)
Definition object {T} `{Scalar T} (this : @SXFunctionInternal T)
    (nfdir nadir : nat) (fx : FXInternal T) : FXObject (list T * list (T * T)) :=
  mkFXObject (work_ (init_eval this fx), pdwork_ (init_eval this fx))
             (replicate nfdir false) (replicate nadir false) fx.

End Examples.

(** ** Invariants of the linearizer *)

Section Invariants.
Context {T : Type}.
Implicit Types (h : list (SXNode T)) (temp : nat -> nat).
Implicit Types (nodes s : list (option nat)).

(** An instruction with one dependency names it twice. *)
Definition second_is_first (ae : AlgEl T) : Prop :=
  ndeps (op ae) = 1 -> op ae <> OP_OUTPUT -> arg_i1 ae = arg_i0 ae.

(** What the scan over the first [n] operands of [t] has found. *)
Definition scan_found h temp (t n : nat) (st : Z * Z) : Prop :=
  (st = ((-1)%Z, (-1)%Z) /\
   forall i d, i < n -> dep h t i = Some d -> temp d <> 0) \/
  (exists i d,
     st = (Z.of_nat (ndep h d), Z.of_nat i) /\ i < n /\
     dep h t i = Some d /\ temp d = 0 /\
     (forall i' d', i' < n -> dep h t i' = Some d' -> temp d' = 0 ->
        ndep h d' <= ndep h d) /\
     (forall i' d', i' < i -> dep h t i' = Some d' -> temp d' = 0 ->
        ndep h d' < ndep h d)).

(** The state of the sort between two turns: a node is marked exactly when
    it is in the list, every node of the list comes after all its
    operands, and no node is listed twice. *)
Definition sorted_so_far h nodes temp : Prop :=
  (forall p, temp p <> 0 <-> Some p ∈ nodes) /\
  (forall pre p post, nodes = pre ++ Some p :: post ->
     (forall i d, dep h p i = Some d -> Some d ∈ pre) /\ Some p ∉ pre).

(** The number of [y < n] that satisfy [f]. *)
Definition count_below (f : nat -> bool) (n : nat) : nat :=
  length (List.filter f (seq 0 n)).

(** The nodes that are neither marked nor on the stack. *)
Definition waiting h s temp : nat :=
  count_below (fun p => Nat.eqb (temp p) 0 && negb (bool_decide (Some p ∈ s)))
              (length h).

Definition dfs_measure h (st : dfs_state) : nat :=
  2 * waiting h (dfs_s st) (dfs_temp st) + length (dfs_s st).

(** The stack holds a chain of operands: valid handles, strictly increasing
    from the top. *)
Fixpoint chain h (s : list (option nat)) : Prop :=
  match s with
  | [] => True
  | None :: _ => False
  | Some p :: r => p < length h /\ (forall q, Some q ∈ r -> p < q) /\ chain h r
  end.

(** The output markers of a list of sorted nodes. *)
Definition is_marker (n : option nat) : bool :=
  match n with None => true | Some _ => false end.
Definition count_markers nodes : nat := length (List.filter is_marker nodes).

(** The [m]-th marker stands for the [m]-th output nonzero, whose node is
    listed before it. *)
Definition markers_ok nodes (outs : list nat) : Prop :=
  count_markers nodes = length outs /\
  forall k, nodes !! k = Some None ->
    exists o, outs !! count_markers (take k nodes) = Some o /\
              Some o ∈ take k nodes.

(** [d] is listed once in [nodes], at index [j]. *)
Definition once nodes (d j : nat) : Prop :=
  nodes !! j = Some (Some d) /\
  forall j', nodes !! j' = Some (Some d) -> j' = j.

(** The list that [init] turns into instructions: the operands of every
    node and the node of every output marker are listed once, and
    earlier. *)
Definition nodes_ok h (outs : list nat) nodes : Prop :=
  (forall k p, nodes !! k = Some (Some p) ->
     forall c d, c < ndeps (getOp h p) -> dep h p c = Some d ->
       exists j, j < k /\ once nodes d j) /\
  (forall k, nodes !! k = Some None ->
     exists o j, outs !! count_markers (take k nodes) = Some o /\
                 j < k /\ once nodes o j) /\
  count_markers nodes = length outs.

(** The position [(curr_oind, curr_nz)] of the walk through the outputs
    stands at the [m]-th output nonzero. *)
Definition out_pos (outputv : list (list nat)) (oind nz m : nat) : Prop :=
  m = length (concat (take oind outputv)) + nz /\
  ((exists out, outputv !! oind = Some out /\ nz < length out) \/
   (oind = length outputv /\ nz = 0)).

(** The algorithm before the places are given: instruction [k] writes the
    "virtual" slot [k] or a later one, and every operand names the index of
    an earlier instruction that writes its own index. *)
Definition virtual_valid (alg : list (AlgEl T)) : Prop :=
  forall k ae, alg !! k = Some ae ->
    (op ae <> OP_OUTPUT -> k <= res ae) /\
    forall c, c < ndeps (op ae) ->
      exists j ae_j, j < k /\ alg !! j = Some ae_j /\
                     op ae_j <> OP_OUTPUT /\ res ae_j = j /\ arg_i ae c = j.

(** What [build_step] makes of entry [k] of the list of nodes. *)
Definition instr_spec h (outputv : list (list nat)) temp nodes
    (k : nat) (n : option nat) (ae : AlgEl T) : Prop :=
  match n with
  | Some p =>
      op ae = getOp h p /\ res ae = temp p /\
      forall c, c < ndeps (getOp h p) -> arg_i ae c = temp_of temp (dep h p c)
  | None =>
      op ae = OP_OUTPUT /\
      forall o, concat outputv !! count_markers (take k nodes) = Some o ->
                arg_i0 ae = temp o
  end.

(** An instruction and what the marking of the inputs can make of it. *)
Definition marked (ae ae' : AlgEl T) : Prop :=
  ae' = ae \/ (op ae' = OP_INPUT /\ res ae' = res ae).

(** The payload of an instruction with its constant replaced. *)
Definition with_constant (d : T) (it : AlgEl T) : AlgEl T :=
  mkAlgEl (op it) (res it) d (arg_i0 it) (arg_i1 it).

End Invariants.

Section SweepInvariants.
Context {T : Type} `{Zero T}.

(** An accumulator is zero in every slot that no instruction of [pre]
    writes: it can be nonzero only where the reverse sweep has yet to reach
    the producer. *)
Definition quiet (pre : list (AlgEl T)) (w : list T) : Prop :=
  forall s, s < length w -> produced pre s = false -> rd w s = zero.

End SweepInvariants.

(** ** Inner products of seeds and sensitivities *)

Section InnerProducts.
Context {T : Type} `{Scalar T}.

(** The sum of the products of the entries of two vectors. *)
Definition dot (u v : list T) : T := foldr add zero (zip_with mul u v).

(** The inner product of two bundles: one vector for every input, or for
    every output. *)
Definition dot2 (us vs : list (list T)) : T := foldr add zero (zip_with dot us vs).

(** The sum of [f] over a list of places. *)
Definition sum_over {A : Type} (l : list A) (f : A -> T) : T :=
  foldr (fun x acc => add (f x) acc) zero l.

(** The entry of a bundle at a place [(ind, nz)]. *)
Definition rd2 (b : list (list T)) (loc : nat * nat) : T :=
  rd (default [] (b !! loc.1)) loc.2.

(** The bundles of one direction: the vectors that [fwdSeedNoCheck(ind,dir)],
    ... name, for all [ind]. *)
Definition fwdSeed_dir (fx : FXInternal T) (dir : nat) : list (list T) :=
  map (fun io => default [] (dataF io !! dir)) (input_ fx).
Definition adjSens_dir (fx : FXInternal T) (dir : nat) : list (list T) :=
  map (fun io => default [] (dataA io !! dir)) (input_ fx).
Definition fwdSens_dir (fx : FXInternal T) (dir : nat) : list (list T) :=
  map (fun io => default [] (dataF io !! dir)) (output_ fx).
Definition adjSeed_dir (fx : FXInternal T) (dir : nat) : list (list T) :=
  map (fun io => default [] (dataA io !! dir)) (output_ fx).

(** The sizes of the inputs and of the outputs. *)
Definition input_sizes (fx : FXInternal T) : list nat :=
  map (fun io => length (data io)) (input_ fx).
Definition output_sizes (fx : FXInternal T) : list nat :=
  map (fun io => length (data io)) (output_ fx).

(** The buffers of the forward direction [df] and of the adjoint direction
    [da] are allocated, each with the size of its input or output. *)
Definition shaped (fx : FXInternal T) (df da : nat) : bool :=
  forallb (fun io =>
     match dataF io !! df, dataA io !! da with
     | Some vf, Some va =>
         Nat.eqb (length vf) (length (data io)) &&
         Nat.eqb (length va) (length (data io))
     | _, _ => false
     end) (input_ fx ++ output_ fx).

(** Every input nonzero is loaded by exactly one instruction and every
    output nonzero is stored by exactly one instruction. *)
Definition covers (alg : list (AlgEl T)) (fx : FXInternal T) : bool :=
  bool_decide (input_locs alg ≡ₚ locations (input_sizes fx)) &&
  bool_decide (output_locs alg ≡ₚ locations (output_sizes fx)).

End InnerProducts.

Section BundlePlaces.
Context {T : Type} `{Scalar T}.

(** The place [(ind, nz)] exists in the bundle. *)
Definition in_range (b : list (list T)) (loc : nat * nat) : Prop :=
  loc.2 < length (default [] (b !! loc.1)).

(** [b[ind][nz] = x] on a bundle. *)
Definition wr2 (b : list (list T)) (loc : nat * nat) (x : T) : list (list T) :=
  alter (fun v => wr v loc.2 x) loc.1 b.

(** The instructions of the algorithm that are not [OP_PARAMETER]. *)
Definition no_parameter (alg : list (AlgEl T)) : bool :=
  forallb (fun ae => negb (Operation_eqb (op ae) OP_PARAMETER)) alg.

(** What one instruction contributes to the inner product over the inputs
    and to the one over the outputs. *)
Definition in_term (it : AlgEl T) (seed acc : T) : T :=
  if Operation_eqb (op it) OP_INPUT then mul seed acc else zero.
Definition out_term (it : AlgEl T) (seed val : T) : T :=
  if Operation_eqb (op it) OP_OUTPUT then mul seed val else zero.

End BundlePlaces.

(** ** Directions that are compressed out *)

Section Directions.
Context {T : Type} `{Scalar T}.

(** No entry of the bundle is [!= 0]. *)
Definition zero_dir (b : list (list T)) : bool :=
  forallb (forallb (fun x => negb (nonzero x))) b.

(** The bundle of the given sizes with all entries 0. *)
Definition zero_bundle (sizes : list nat) : list (list T) :=
  map (fun n => replicate n zero) sizes.

(** The number of directions below [d] that are not compressed out, which
    is the place that direction [d] is moved to. *)
Fixpoint rank (c : nat -> bool) (d : nat) : nat :=
  match d with
  | 0 => 0
  | S d' => rank c d' + (if c d' then 0 else 1)
  end.

(** The buffers as [FXInternal::init] allocates them: every input and
    output has at least [nfdir] forward and [nadir] adjoint directions,
    each of the size of its [data]. *)
Definition shaped_io (nfdir nadir : nat) (io : FunctionIO T) : bool :=
  (nfdir <=? length (dataF io)) && (nadir <=? length (dataA io)) &&
  forallb (fun v => Nat.eqb (length v) (length (data io))) (dataF io) &&
  forallb (fun v => Nat.eqb (length v) (length (data io))) (dataA io).
Definition shaped_all (fx : FXInternal T) (nfdir nadir : nat) : bool :=
  forallb (shaped_io nfdir nadir) (input_ fx ++ output_ fx).

(** The directions of one kind (forward or adjoint) of the inputs or of
    the outputs: there are [n] inputs (outputs), each with at least [nd]
    directions. *)
Definition has_dirs (sel : FunctionIO T -> list (list T))
    (l : list (FunctionIO T)) (n nd : nat) : Prop :=
  length l = n /\ Forall (fun io => nd <= length (sel io)) l.

(** A reference ([get]), the same reference written through ([upd]) and
    the bundle of one direction ([view]) belong together. *)
Record lens_laws
    (get : FXInternal T -> nat -> nat -> list T)
    (upd : nat -> nat -> (list T -> list T) -> FXInternal T -> FXInternal T)
    (view : FXInternal T -> nat -> list (list T))
    (ok : FXInternal T -> Prop) (n nd : nat) : Prop := {
  law_get : forall fx ind d, get fx ind d = default [] (view fx d !! ind);
  law_len : forall fx d, ok fx -> length (view fx d) = n;
  law_ok : forall fx ind d f, ok fx -> ok (upd ind d f fx);
  law_eq : forall fx ind d f,
    ok fx -> d < nd -> view (upd ind d f fx) d = alter f ind (view fx d);
  law_ne : forall fx ind d d' f, d <> d' -> view (upd ind d f fx) d' = view fx d'
}.

(** The shape in terms of the bundles: the sizes [isz] of the inputs and
    [osz] of the outputs, the directions that exist, and the sizes of the
    bundles of every direction. *)
Definition well_shaped (isz osz : list nat) (nfdir nadir : nat)
    (fx : FXInternal T) : Prop :=
  input_sizes fx = isz /\ output_sizes fx = osz /\
  has_dirs dataF (input_ fx) (length isz) nfdir /\
  has_dirs dataA (input_ fx) (length isz) nadir /\
  has_dirs dataF (output_ fx) (length osz) nfdir /\
  has_dirs dataA (output_ fx) (length osz) nadir /\
  (forall d, d < nfdir -> map length (fwdSeed_dir fx d) = isz) /\
  (forall d, d < nadir -> map length (adjSens_dir fx d) = isz) /\
  (forall d, d < nfdir -> map length (fwdSens_dir fx d) = osz) /\
  (forall d, d < nadir -> map length (adjSeed_dir fx d) = osz).

(** What [evaluateCompressed] relies on in the virtual [evaluate], on
    buffers of the shape of [fx0] that hold the input values of [fx0].
    A call returns and keeps the shape, and a direction whose seeds are
    all 0 gets sensitivities that are all 0.  The sensitivities of a
    direction depend on the seeds of that direction alone: two directions,
    of one call or of two, that hold the same seeds get the same
    sensitivities. *)
Definition direction_wise {Self : Type}
    (evaluate : nat -> nat -> Self * FXInternal T -> outcome (Self * FXInternal T))
    (self : Self) (fx0 : FXInternal T) (nfdir nadir : nat) : Prop :=
  let isz := input_sizes fx0 in
  let osz := output_sizes fx0 in
  let fits := fun n m fx =>
    n <= nfdir /\ m <= nadir /\ well_shaped isz osz nfdir nadir fx /\
    map data (input_ fx) = map data (input_ fx0) in
  (forall n m fx, fits n m fx ->
     exists self' fx',
       evaluate n m (self, fx) = Ret (self', fx') /\
       well_shaped isz osz nfdir nadir fx' /\
       (forall d, d < n -> fwdSeed_dir fx d = zero_bundle isz ->
          fwdSens_dir fx' d = zero_bundle osz) /\
       (forall d, d < m -> adjSeed_dir fx d = zero_bundle osz ->
          adjSens_dir fx' d = zero_bundle isz)) /\
  (forall n1 m1 fx1 self1 fx1' n2 m2 fx2 self2 fx2',
     fits n1 m1 fx1 -> fits n2 m2 fx2 ->
     evaluate n1 m1 (self, fx1) = Ret (self1, fx1') ->
     evaluate n2 m2 (self, fx2) = Ret (self2, fx2') ->
     (forall d1 d2, d1 < n1 -> d2 < n2 ->
        fwdSeed_dir fx1 d1 = fwdSeed_dir fx2 d2 ->
        fwdSens_dir fx1' d1 = fwdSens_dir fx2' d2) /\
     (forall d1 d2, d1 < m1 -> d2 < m2 ->
        adjSeed_dir fx1 d1 = adjSeed_dir fx2 d2 ->
        adjSens_dir fx1' d1 = adjSens_dir fx2' d2)).

(** [SXFunctionInternal::evaluate], which passes the numbers of directions
    on to [evaluateGen]; the object is the work vector and the tape. *)
Definition SXevaluate (this : @SXFunctionInternal T) (nfdir nadir : nat)
    (st : (list T * list (T * T)) * FXInternal T)
    : outcome ((list T * list (T * T)) * FXInternal T) :=
  match evaluateGen this nfdir nadir (mkSXEval st.1.1 st.1.2 st.2) with
  | Ret e => Ret ((work_ e, pdwork_ e), fx_ e)
  | casadi_error x => casadi_error x
  | Diverges => Diverges
  end.

End Directions.

Section InputMarking.
Context {T : Type}.

(** One turn of the loops that add the input instructions: nonzero [nz] of
    input [ind] is the symbol [p]. *)
Definition mark_input (st : list (AlgEl T) * (nat -> nat))
    (t : nat * nat * nat) : list (AlgEl T) * (nat -> nat) :=
  let '(ind, nz, p) := t in
  match st.2 p with
  | S i => (alter (fun ae => set_arg_i 1 nz (set_arg_i 0 ind (set_op OP_INPUT ae)))
                  i st.1,
            setTemp st.2 p 0)
  | 0 => st
  end.

(** The nonzeros of the inputs, from input [ind] on, each with its place. *)
Definition input_places (ind : nat) (inputv : list (list nat))
    : list (nat * nat * nat) :=
  concat (imap (fun i v => imap (fun j p => (ind + i, j, p)) v) inputv).

End InputMarking.

Section ReadOnly.
Context {T : Type}.

(** What a numeric evaluation only reads: the values of the inputs, the
    forward seeds and the adjoint seeds. *)
Definition read_only (fx : FXInternal T)
    : list (list T) * list (list (list T)) * list (list (list T)) :=
  (map data (input_ fx), map dataF (input_ fx), map dataA (output_ fx)).

End ReadOnly.

(** ** The constructors of [XFunctionInternal] and [SXFunctionInternal] *)

(** Why a constructor throws: "Xfunction input arguments must be purely
    symbolic.  Argument #i is not symbolic.", "The input expressions are
    not independent (or were not reset properly).", and the assertion
    [!outputv_.empty()]. *)
Inductive constructor_error : Set :=
  | NotSymbolic (i : nat)
  | NotIndependent
  | NoOutputs.

Section Constructors.
Context {T : Type} `{Zero T}.

(** "Make sure that inputs are symbolic": the first input that
    [isSymbolicSparse] (sx_tools.cpp) refuses, one with a nonzero that is
    not a symbol.  A matrix is the list of its nonzeros; a null or empty
    input has none. *)
Fixpoint first_not_symbolic (h : list (SXNode T)) (i : nat)
    (inputv : list (list nat)) : option nat :=
  match inputv with
  | [] => None
  | v :: r =>
      if forallb (isSymbolic h) v then first_not_symbolic h (S i) r else Some i
  end.

(** Modelled from the spec: [DMatrix(sp)] (matrix.hpp is missing) has one
    entry, 0, for every nonzero of the pattern.  A new [FunctionIO] has no
    direction yet. *)
Definition allocate_io (v : list nat) : FunctionIO T :=
  mkFunctionIO (replicate (length v) zero) [] [].

(** [XFunctionInternal::XFunctionInternal]: the check of the inputs, then
    "Allocate space for inputs" and "Allocate space for outputs". *)
Definition XFunctionInternal_new (h : list (SXNode T))
    (inputv outputv : list (list nat)) : constructor_error + FXInternal T :=
  match first_not_symbolic h 0 inputv with
  | Some i => inl (NotSymbolic i)
  | None => inr (mkFXInternal (map allocate_io inputv) (map allocate_io outputv))
  end.

(** One turn of "Check for duplicate entries among the input
    expressions". *)
Definition note_duplicate (st : bool * (nat -> nat)) (p : nat)
    : bool * (nat -> nat) :=
  let '(has_duplicates, temp) := st in
  let is_duplicate := negb (Nat.eqb (temp p) 0) in
  (has_duplicates || is_duplicate, setTemp temp p 1).

(** [SXFunctionInternal::SXFunctionInternal]: the base class, the check
    for duplicates, "Reset temporaries", the two errors.  The temporaries
    are returned also when the constructor throws. *)
Definition SXFunctionInternal_new (h : list (SXNode T))
    (inputv outputv : list (list nat)) (temp : nat -> nat)
    : (constructor_error + FXInternal T) * (nat -> nat) :=
  match XFunctionInternal_new h inputv outputv with
  | inl e => (inl e, temp)
  | inr fx =>
      let '(has_duplicates, temp1) :=
        fold_left note_duplicate (concat inputv) (false, temp) in
      let temp2 := fold_left (fun temp p => setTemp temp p 0) (concat inputv) temp1 in
      if has_duplicates then (inl NotIndependent, temp2)
      else if Nat.eqb (length outputv) 0 then (inl NoOutputs, temp2)
      else (inr fx, temp2)
  end.

End Constructors.

(** ** The numbers of directions: [FXInternal::updateNumSens] and
    [FXInternal::requestNumSens] *)

(** The four integer options that the two functions read and write. *)
Record FXOptions : Set := mkFXOptions {
  number_of_fwd_dir : Z;
  number_of_adj_dir : Z;
  max_number_of_fwd_dir : Z;
  max_number_of_adj_dir : Z
}.

(** [v.resize(n, x)] of [std::vector]. *)
Definition resize {A : Type} (n : nat) (x : A) (v : list A) : list A :=
  take n v ++ replicate (n - length v) x.

Section NumSens.
Context {T Self : Type}.

(** The members of [FXInternal] at work here. *)
Record FXNumSens : Type := mkFXNumSens {
  options_ : FXOptions;
  nfdir_ : Z;
  nadir_ : Z;
  object_ : FXObject (T:=T) Self
}.

(** [it->dataF.resize(nfdir_,it->data); it->dataA.resize(nadir_,it->data)] *)
Definition resize_io (nfdir nadir : nat) (io : FunctionIO T) : FunctionIO T :=
  mkFunctionIO (data io) (resize nfdir (data io) (dataF io))
               (resize nadir (data io) (dataA io)).

(** [FXInternal::updateNumSens].  The sizes are [int]s: a negative one,
    taken as a [size_t], makes [resize] throw ([None]). *)
Definition updateNumSens (this : FXNumSens) : option FXNumSens :=
  let nfdir := number_of_fwd_dir (options_ this) in
  let nadir := number_of_adj_dir (options_ this) in
  if (nfdir <? 0)%Z || (nadir <? 0)%Z then None
  else
    let nf := Z.to_nat nfdir in
    let na := Z.to_nat nadir in
    let o := object_ this in
    Some (mkFXNumSens (options_ this) nfdir nadir
            (mkFXObject (self_ o)
               (resize nf false (compressed_fwd_ o))
               (resize na false (compressed_adj_ o))
               (mkFXInternal (map (resize_io nf na) (input_ (buffers_ o)))
                             (map (resize_io nf na) (output_ (buffers_ o)))))).

(** [FXInternal::requestNumSens].  The virtual [updateNumSens(true)] is
    the one of [FXInternal], which is also what [SXFunctionInternal] ends
    in. *)
Definition requestNumSens (nfwd nadj : Z) (this : FXNumSens) : option FXNumSens :=
  let o := options_ this in
  let nfwd_new :=
    Z.min (Z.max nfwd (Z.max (nfdir_ this) (number_of_fwd_dir o)))
          (max_number_of_fwd_dir o) in
  let nadj_new :=
    Z.min (Z.max nadj (Z.max (nadir_ this) (number_of_adj_dir o)))
          (max_number_of_adj_dir o) in
  if (nfdir_ this <? nfwd_new)%Z || (nadir_ this <? nadj_new)%Z then
    updateNumSens
      (mkFXNumSens
         (mkFXOptions nfwd_new nadj_new
            (max_number_of_fwd_dir o) (max_number_of_adj_dir o))
         (nfdir_ this) (nadir_ this) (object_ this))
  else Some this.

End NumSens.

Arguments FXNumSens : clear implicits.
Arguments mkFXNumSens {T Self}.

(** ** [FXInternal::spEvaluate]: the default of the base class *)

(** "Get dependency on all inputs" (or outputs): [all_depend |= v[i]] over
    all nonzeros. *)
Definition all_depend_of (ios : list (FunctionIO bvec_t)) : bvec_t :=
  fold_left (fun a io => fold_left N.lor (data io) a) ios 0%N.

(** "By default, everything is assumed to depend on everything". *)
Definition FXInternal_spEvaluate (fwd : bool) (fx : FXInternal bvec_t)
    : FXInternal bvec_t :=
  if fwd then
    let all_depend := all_depend_of (input_ fx) in
    mkFXInternal (input_ fx)
                 (map (set_data (map (fun _ => all_depend))) (output_ fx))
  else
    let all_depend := all_depend_of (output_ fx) in
    mkFXInternal (map (set_data (map (fun v => N.lor v all_depend))) (input_ fx))
                 (output_ fx).

(** Bit [j] of the dependency word [w] stands for the entry [x] of a
    derivative: the entry is 0 unless the bit is set. *)
Definition zero_unless {T : Type} `{Zero T} (j : N) (w : bvec_t) (x : T) : Prop :=
  N.testbit w j = false -> x = zero.

Section DependencyRelations.
Context {T : Type} `{Scalar T}.
Variable j : N.
Implicit Types (st : sweep_state (T:=T)) (pre : list (AlgEl T)).

(** What relates the state of the forward propagation of the bits to the
    state of the forward sweep of direction [d], after the instructions
    [pre]. *)
Definition fwd_related d pre (bst : list bvec_t * FXInternal bvec_t) st : Prop :=
  length bst.1 = length (sw_work st) /\
  (forall i k, zero_unless j (rd (inputNoCheck bst.2 i) k)
                 (rd2 (fwdSeed_dir (sw_fx st) d) (i, k))) /\
  (forall s, produced pre s = true ->
     zero_unless j (rd bst.1 s) (rd (sw_work st) s)) /\
  (forall loc, loc ∈ output_locs pre ->
     loc.2 < length (outputNoCheck bst.2 loc.1) ->
     zero_unless j (rd (outputNoCheck bst.2 loc.1) loc.2)
       (rd2 (fwdSens_dir (sw_fx st) d) loc)).

(** The same for the backward propagation and the adjoint sweep of
    direction [d]; [locs] are the places of the inputs written so far. *)
Definition adj_related d (locs : list (nat * nat))
    (bst : list bvec_t * FXInternal bvec_t) st : Prop :=
  length bst.1 = length (sw_work st) /\
  (forall o k, zero_unless j (rd (outputNoCheck bst.2 o) k)
                 (rd2 (adjSeed_dir (sw_fx st) d) (o, k))) /\
  (forall s, zero_unless j (rd bst.1 s) (rd (sw_work st) s)) /\
  (forall loc, loc ∈ locs ->
     loc.2 < length (inputNoCheck bst.2 loc.1) ->
     zero_unless j (rd (inputNoCheck bst.2 loc.1) loc.2)
       (rd2 (adjSens_dir (sw_fx st) d) loc)).

End DependencyRelations.

(** The slots that an instruction of [SXFunctionInternal::spEvaluate]
    reads, in either direction: a symbol, like a constant, reads none. *)
Definition sp_reads {T : Type} (ae : AlgEl T) : list nat :=
  match op ae with
  | OP_CONST | OP_PARAMETER | OP_INPUT => []
  | OP_OUTPUT => [arg_i0 ae]
  | _ => [arg_i0 ae; arg_i1 ae]
  end.

(** ** Examples for the dependency bits and the numbers of directions *)

Module DependencyExamples.

(** [f(x,y) = (x*y, sin(x))]: two inputs and two outputs of one nonzero. *)
Definition pair {T} `{Zero T} : list (SXNode T) :=
  [Examples.node OP_PARAMETER []; Examples.node OP_PARAMETER [];
   Examples.node OP_MUL [0; 1]; Examples.node OP_SIN [0]].

(** At x = 3, y = 4: one forward direction with a seed on y only, one
    adjoint direction with a seed on [sin(x)] only. *)
Definition pair_fx : FXInternal Z :=
  mkFXInternal [mkFunctionIO [3%Z] [[0%Z]] [[0%Z]];
                mkFunctionIO [4%Z] [[7%Z]] [[0%Z]]]
               [mkFunctionIO [0%Z] [[0%Z]] [[0%Z]];
                mkFunctionIO [0%Z] [[0%Z]] [[2%Z]]].

(** Dependency words: bit 0 for the first and bit 1 for the second input,
    and the same for the outputs. *)
Definition pair_bits : FXInternal bvec_t :=
  mkFXInternal [mkFunctionIO [1%N] [] []; mkFunctionIO [2%N] [] []]
               [mkFunctionIO [1%N] [] []; mkFunctionIO [2%N] [] []].

(** A function of two inputs and one output as the constructor leaves it,
    with the options set to two forward and one adjoint direction. *)
Definition fresh : FXNumSens Z unit :=
  mkFXNumSens (mkFXOptions 2 1 10 10) 0 0
    (mkFXObject tt [] []
       (mkFXInternal (map allocate_io [[0]; [1]]) (map allocate_io [[3]]))).

End DependencyExamples.

(** ** The places in the work vector and the values they hold *)

Section AllocationInvariant.
Context {T : Type}.
Implicit Types (pre alg : list (AlgEl T)).

(** The number of operand slots of [alg] that name the instruction [j]. *)
Definition uses alg (j : nat) : nat :=
  count_occ Nat.eq_dec (concat (map operand_slots alg)) j.

(** [place[j]] *)
Definition placeof (st : alloc_state) (j : nat) : nat :=
  default 0 (a_place st !! j).

(** Instruction [j] of [pre] leaves a value in the work vector. *)
Definition producer pre (j : nat) : Prop :=
  exists ae, pre !! j = Some ae /\ op ae <> OP_OUTPUT.

(** The state of the second loop of [init] between two turns, when the
    instructions [pre] have their places and [count j] operand slots are
    still to name instruction [j]: the reference counts are these numbers,
    no place is on the stack of unused places twice, and the place of a
    value that is still to be read is neither on the stack nor the place
    of another such value. *)
Definition alloc_inv pre (count : nat -> nat) (st : alloc_state) : Prop :=
  (forall j, j < length (a_refcount st) ->
     a_refcount st !! j = Some (Z.of_nat (count j))) /\
  NoDup (a_unused st) /\
  Forall (fun s => s < a_worksize st) (a_unused st) /\
  (forall j, producer pre j -> placeof st j < a_worksize st) /\
  (forall j, producer pre j -> 0 < count j -> placeof st j ∉ a_unused st) /\
  (forall j1 j2, producer pre j1 -> producer pre j2 -> j1 <> j2 ->
     0 < count j1 -> 0 < count j2 -> placeof st j1 <> placeof st j2).

(** Every instruction that leaves a value writes the virtual slot of its
    own index. *)
Definition single_assignment alg : Prop :=
  forall k ae, alg !! k = Some ae -> op ae <> OP_OUTPUT -> res ae = k.

End AllocationInvariant.

Section GraphValue.
Context {T : Type} `{Scalar T}.

(** The value of the expression with root [p] when the symbols have the
    values [env]: the constant of a constant, the value of a symbol, and
    for an operation its numeric function of the values of its operands.
    A unary operation gets its operand twice, as in the instructions.
    The operands of a node have smaller handles, so that [S p] turns of
    the recursion are enough for [p]. *)
Fixpoint value_of (fuel : nat) (h : list (SXNode T)) (env : nat -> T) (p : nat) : T :=
  match fuel with
  | 0 => zero
  | S fuel' =>
      match getOp h p with
      | OP_CONST => getValue h p
      | OP_PARAMETER => env p
      | o =>
          let x := match dep h p 0 with
                   | Some d => value_of fuel' h env d
                   | None => zero
                   end in
          let y := if Nat.eqb (ndeps o) 1 then x
                   else match dep h p 1 with
                        | Some d => value_of fuel' h env d
                        | None => zero
                        end in
          fun_builtin o x y
      end
  end.

Definition graph_value (h : list (SXNode T)) (env : nat -> T) (p : nat) : T :=
  value_of (S p) h env p.

(** The values of the symbols: a symbol has the value of the input nonzero
    where it stands. *)
Definition input_env (inputv : list (list nat)) (fx : FXInternal T) (p : nat) : T :=
  match list_find (fun t : nat * nat * nat => t.2 = p) (input_places 0 inputv) with
  | Some (_, (ind, nz, _)) => rd (inputNoCheck fx ind) nz
  | None => zero
  end.

(** What relates instruction [k] of the algorithm before the places are
    given, [ae], to instruction [k] of the final algorithm, [ae']: [pl]
    gives the places, [V] the values that the instructions are to leave,
    [n] is the size of the work vector and [fx] holds the inputs. *)
Definition instr_ok (valg : list (AlgEl T)) (pl : nat -> nat) (V : nat -> T)
    (n : nat) (fx : FXInternal T) (k : nat) (ae ae' : AlgEl T) : Prop :=
  op ae' <> OP_PARAMETER /\
  (op ae = OP_OUTPUT -> op ae' = OP_OUTPUT /\ arg_i0 ae' = pl (arg_i0 ae)) /\
  (op ae <> OP_OUTPUT ->
     op ae' <> OP_OUTPUT /\ res ae' = pl k /\ pl k < n /\
     (forall j, producer (take k valg) j -> 0 < uses (drop (S k) valg) j ->
        pl j <> pl k) /\
     (op ae' = OP_CONST -> V k = arg_d ae') /\
     (op ae' = OP_INPUT -> V k = rd (inputNoCheck fx (arg_i0 ae')) (arg_i1 ae')) /\
     (is_builtin (op ae') = true ->
        op ae = op ae' /\ arg_i0 ae' = pl (arg_i0 ae) /\
        exists j1, (j1 = arg_i0 ae \/ (1 < ndeps (op ae) /\ j1 = arg_i1 ae)) /\
                   arg_i1 ae' = pl j1 /\
                   V k = fun_builtin (op ae') (V (arg_i0 ae)) (V j1))).

(** The state of the value pass after the first [k] instructions: the
    value of every instruction that is still to be read is in its place,
    and the output instructions so far have stored the values of their
    operands. *)
Definition sim_inv (valg alg : list (AlgEl T)) (pl : nat -> nat) (V : nat -> T)
    (work0 : list T) (fx0 : FXInternal T) (k : nat)
    (st : list T * FXInternal T) : Prop :=
  length st.1 = length work0 /\
  (forall i, inputNoCheck st.2 i = inputNoCheck fx0 i) /\
  (forall o, length (outputNoCheck st.2 o) = length (outputNoCheck fx0 o)) /\
  (forall j, producer (take k valg) j -> 0 < uses (drop k valg) j ->
     rd st.1 (pl j) = V j) /\
  (forall i ae ae', i < k -> valg !! i = Some ae -> alg !! i = Some ae' ->
     op ae' = OP_OUTPUT ->
     rd (outputNoCheck st.2 (res ae')) (arg_i1 ae') = V (arg_i0 ae)).

End GraphValue.

(** [x*y + (x+y)*(z+w)] at x = 2, y = 3 in the first input and z = 5,
    w = 7 in the second. *)
Module GraphExamples.

Definition unbalanced_fx : FXInternal Z :=
  mkFXInternal [mkFunctionIO [2%Z; 3%Z] [] []; mkFunctionIO [5%Z; 7%Z] [] []]
               [mkFunctionIO [0%Z] [] []].

End GraphExamples.

(** * Properties *)

(** ** Operation codes and instructions *)

Lemma Operation_eqb_eq (a b : Operation) : Operation_eqb a b = true <-> a = b.
Proof. destruct a, b; simpl; split; intros E; try reflexivity; discriminate E. Qed.

Lemma Operation_eqb_refl (a : Operation) : Operation_eqb a a = true.
Proof. by apply Operation_eqb_eq. Qed.

Lemma Operation_eqb_neq (a b : Operation) : Operation_eqb a b = false <-> a <> b.
Proof.
  rewrite <- Operation_eqb_eq. destruct (Operation_eqb a b); split; congruence.
Qed.

Section InstructionFacts.
Context {T : Type}.
Implicit Types ae : AlgEl T.

Lemma op_set_res r ae : op (set_res r ae) = op ae.
Proof. reflexivity. Qed.
Lemma op_set_arg_i c v ae : op (set_arg_i c v ae) = op ae.
Proof. by destruct c. Qed.
Lemma res_set_arg_i c v ae : res (set_arg_i c v ae) = res ae.
Proof. by destruct c. Qed.
Lemma arg_i_set_arg_i c c' v ae :
  c < 2 -> c' < 2 ->
  arg_i (set_arg_i c v ae) c' = if Nat.eqb c c' then v else arg_i ae c'.
Proof.
  intros Hc Hc'.
  destruct c as [|[|]], c' as [|[|]]; simpl; try reflexivity; lia.
Qed.

Lemma op_locate_deps place ae : op (locate_deps place ae) = op ae.
Proof.
  unfold locate_deps. generalize (seq 0 (ndeps (op ae))). intros l.
  revert ae. induction l as [|c l IH]; intros ae; simpl; [done|].
  by rewrite IH, op_set_arg_i.
Qed.

Lemma res_locate_deps place ae : res (locate_deps place ae) = res ae.
Proof.
  unfold locate_deps. generalize (seq 0 (ndeps (op ae))). intros l.
  revert ae. induction l as [|c l IH]; intros ae; simpl; [done|].
  by rewrite IH, res_set_arg_i.
Qed.

Lemma op_make_binary ae : op (make_binary ae) = op ae.
Proof. unfold make_binary. destruct (_ && _); [apply op_set_arg_i|done]. Qed.

Lemma res_make_binary ae : res (make_binary ae) = res ae.
Proof. unfold make_binary. destruct (_ && _); [apply res_set_arg_i|done]. Qed.

Lemma op_store live ae st : op (store live ae st).2 = op ae.
Proof.
  unfold store. destruct (Operation_eqb _ _); [done|].
  destruct live, (a_unused st); reflexivity.
Qed.

Lemma ndeps_le_2 (o : Operation) : ndeps o <= 2.
Proof. destruct o; simpl; lia. Qed.

(** The instruction that [make_binary] returns names its operand twice
    when the operation has one dependency and is not the output marker. *)
Lemma make_binary_unary ae :
  ndeps (op ae) = 1 -> op ae <> OP_OUTPUT ->
  arg_i1 (make_binary ae) = arg_i0 (make_binary ae).
Proof.
  intros Hn Ho. unfold make_binary. rewrite Hn. simpl.
  apply Operation_eqb_neq in Ho. rewrite Ho. reflexivity.
Qed.

End InstructionFacts.

(** ** The stages of [init] *)

Section InitStages.
Context {T : Type} `{Zero T}.
Implicit Types (h : list (SXNode T)) (alg : list (AlgEl T)).

(** What a normal return of [init] consists of. *)
Lemma init_Ret fuel live jit h inputv outputv temp0 this :
  init fuel live jit h inputv outputv temp0 = Ret this ->
  jit = false /\
  exists nodes0 temp1 a alg,
    sort_outputs fuel h outputv temp0 = Some (nodes0, temp1) /\
    let nodes := add_inputs temp1 inputv nodes0 in
    let temp2 := number_nodes 0 nodes temp1 in
    let b := build h outputv temp2 nodes in
    let temp3 := mark_symb (b_symb_loc b) (reset_nodes nodes temp2) in
    let r := input_instructions 0 inputv (alg, temp3) in
    allocate live (mkAlloc (b_refcount b) (replicate (length nodes) 0) [] 0)
             (b_algorithm b) = (a, alg) /\
    algorithm_ this = r.1 /\
    worksize_ this = a_worksize a /\
    pdwork_size this = length (sort_by_type h nodes).2 /\
    operations_ this = (sort_by_type h nodes).2 /\
    free_vars_ this = (locate_free (b_symb_loc b) r.2).1.
Proof.
  unfold init. intros Hi.
  destruct (sort_outputs fuel h outputv temp0) as [[nodes0 temp1]|] eqn:Hs;
    [|discriminate].
  destruct (sort_by_type h _) as [cs os] eqn:Ht.
  destruct (allocate live _ _) as [a alg] eqn:Ha.
  destruct (input_instructions 0 inputv _) as [alg' temp4] eqn:Hin.
  destruct (locate_free _ temp4) as [fv temp5] eqn:Hf.
  destruct jit.
  { destruct (negb _); discriminate. }
  injection Hi as <-. split; [done|].
  exists nodes0, temp1, a, alg. split; [done|]. simpl.
  rewrite Ha, Hin. simpl. rewrite Hf. simpl. by repeat split; rewrite Ht.
Qed.

(** A property of single instructions that the marking of an input
    establishes is kept by [input_instructions]. *)
Lemma input_nonzeros_Forall (P : AlgEl T -> Prop) ind nz v alg temp :
  (forall ae i j, P (set_arg_i 1 j (set_arg_i 0 i (set_op OP_INPUT ae)))) ->
  Forall P alg ->
  Forall P (input_nonzeros ind nz v (alg, temp)).1.
Proof.
  intros HP. revert nz alg temp.
  induction v as [|p v IH]; intros nz alg temp Halg; simpl; [done|].
  destruct (temp p) as [|i]; [by apply IH|].
  apply IH. apply Forall_alter; [done|]. intros; apply HP.
Qed.

Lemma input_instructions_Forall (P : AlgEl T -> Prop) ind inputv alg temp :
  (forall ae i j, P (set_arg_i 1 j (set_arg_i 0 i (set_op OP_INPUT ae)))) ->
  Forall P alg ->
  Forall P (input_instructions ind inputv (alg, temp)).1.
Proof.
  intros HP. revert ind alg temp.
  induction inputv as [|v inputv IH]; intros ind alg temp Halg; simpl; [done|].
  destruct (input_nonzeros ind 0 v (alg, temp)) as [alg1 temp1] eqn:E.
  apply IH. change alg1 with (alg1, temp1).1. rewrite <- E.
  by apply input_nonzeros_Forall.
Qed.

(** A property that every allocated instruction has. *)
Lemma allocate_Forall (P : AlgEl T -> Prop) live st alg :
  (forall st ae, P (alloc_step live st ae).2) ->
  Forall P (allocate live st alg).2.
Proof.
  intros HP. revert st. induction alg as [|ae alg IH]; intros st; simpl; [done|].
  destruct (alloc_step live st ae) as [st1 ae'] eqn:E1.
  destruct (allocate live st1 alg) as [st2 r'] eqn:E2. simpl.
  constructor.
  - change ae' with (st1, ae').2. rewrite <- E1. apply HP.
  - change r' with (st2, r').2. rewrite <- E2. apply IH.
Qed.

End InitStages.

(** ** C10: unary operations name their operand twice *)

Section UnaryOperand.
Context {T : Type} `{Scalar T}.

Lemma alloc_step_second_is_first live st (ae : AlgEl T) :
  second_is_first (alloc_step live st ae).2.
Proof.
  unfold alloc_step.
  destruct (store live ae (consume_deps ae st)) as [st2 ae2] eqn:E. simpl.
  intros Hn Ho. rewrite op_make_binary in Hn, Ho.
  by apply make_binary_unary.
Qed.

(** C10.  After [init], every instruction whose operation has exactly one
    dependency and is not an output marker has [arg.i[1] == arg.i[0]]; the
    forward sweep, which computes [d[0]*work[arg.i[0]] + d[1]*work[arg.i[1]]]
    for every such instruction, therefore reads the one operand twice. *)
Theorem init_unary_second_operand fuel live jit (h : list (SXNode T))
    inputv outputv temp0 this :
  init fuel live jit h inputv outputv temp0 = Ret this ->
  forall ae, ae ∈ algorithm_ this ->
    ndeps (op ae) = 1 -> op ae <> OP_OUTPUT ->
    arg_i1 ae = arg_i0 ae /\
    forall dir st,
      sw_work (fwd_step dir st ae) =
      wr (sw_work st) (res ae)
         (add (mul (tape_hd (sw_it st)).1 (rd (sw_work st) (arg_i0 ae)))
              (mul (tape_hd (sw_it st)).2 (rd (sw_work st) (arg_i0 ae)))).
Proof.
  intros Hi ae Hae Hn Ho.
  assert (Hs : second_is_first ae).
  { apply init_Ret in Hi as (_ & nodes0 & temp1 & a & alg & _ & Ha & Halg & _).
    simpl in Ha, Halg. clear Hn Ho. revert ae Hae. apply Forall_forall.
    rewrite Halg. apply input_instructions_Forall.
    - intros ae i j Hn. by destruct ae.
    - change alg with (a, alg).2. rewrite <- Ha.
      apply allocate_Forall. intros; apply alloc_step_second_is_first. }
  split; [by apply Hs|].
  intros dir st. unfold fwd_step. rewrite (Hs Hn Ho).
  destruct (op ae); simpl in *; try done; discriminate.
Qed.

End UnaryOperand.

(** ** The depth-first sort *)

Section DepthFirst.
Context {T : Type}.
Implicit Types (h : list (SXNode T)) (temp : nat -> nat).
Implicit Types (nodes s : list (option nat)).

Lemma dep_lt_ndep h p i d : dep h p i = Some d -> i < ndep h p.
Proof.
  unfold dep, ndep. destruct (h !! p) as [n|]; [|done].
  intros E. destruct (node_dep n !! i) eqn:E'; [|done].
  by apply lookup_lt_Some in E'.
Qed.

Lemma setTemp_eq temp p v : setTemp temp p v p = v.
Proof. unfold setTemp. by rewrite Nat.eqb_refl. Qed.

Lemma setTemp_ne temp p v q : q <> p -> setTemp temp p v q = temp q.
Proof. unfold setTemp. intros E. apply Nat.eqb_neq in E. by rewrite E. Qed.

Lemma scan_dep_found h temp t n :
  scan_found h temp t n
    (fold_left (scan_dep h temp t) (seq 0 n) ((-1)%Z, (-1)%Z)).
Proof.
  induction n as [|n IH].
  { left. split; [done|]. intros; lia. }
  rewrite seq_S, fold_left_app. simpl.
  set (st := fold_left _ _ _) in *. clearbody st.
  unfold scan_dep at 1.
  destruct (dep h t n) as [d|] eqn:Ed.
  2:{ destruct IH as [[-> Hn]|(i & d & -> & Hi & Hd & Ht & Hmax & Hfirst)].
      - left. split; [done|]. intros i d Hi Hd.
        destruct (decide (i = n)) as [->|]; [congruence|]. apply Hn with i; [lia|done].
      - right. exists i, d. repeat split; try done; [lia|].
        intros i' d' Hi' Hd'. destruct (decide (i' = n)) as [->|]; [congruence|].
        apply Hmax with i'; [lia|done]. }
  destruct (Nat.eqb (temp d) 0) eqn:Et.
  2:{ apply Nat.eqb_neq in Et.
      destruct IH as [[-> Hn]|(i & d1 & -> & Hi & Hd & Ht & Hmax & Hfirst)].
      - left. split; [done|]. intros i d' Hi Hd'.
        destruct (decide (i = n)) as [->|]; [congruence|]. apply Hn with i; [lia|done].
      - right. exists i, d1. repeat split; try done; [lia|].
        intros i' d' Hi' Hd' Ht'. destruct (decide (i' = n)) as [->|]; [congruence|].
        apply Hmax with i'; [lia|done|done]. }
  apply Nat.eqb_eq in Et.
  destruct IH as [[-> Hn]|(i & d1 & -> & Hi & Hd & Ht & Hmax & Hfirst)].
  - simpl. assert ((-1 <? Z.of_nat (ndep h d))%Z = true) as -> by (apply Z.ltb_lt; lia).
    right. exists n, d. repeat split; try done; [lia| |].
    + intros i' d' Hi' Hd' Ht'. destruct (decide (i' = n)) as [->|].
      * replace d' with d by congruence. lia.
      * exfalso. apply (Hn i' d'); [lia|done|done].
    + intros i' d' Hi' Hd' Ht'. exfalso. apply (Hn i' d'); [lia|done|done].
  - simpl. destruct (Z.ltb_spec (Z.of_nat (ndep h d1)) (Z.of_nat (ndep h d))) as [Hlt|Hge].
    + right. exists n, d. repeat split; try done; [lia| |].
      * intros i' d' Hi' Hd' Ht'. destruct (decide (i' = n)) as [->|].
        -- replace d' with d by congruence. lia.
        -- assert (ndep h d' <= ndep h d1) by (apply Hmax with i'; [lia|done|done]). lia.
      * intros i' d' Hi' Hd' Ht'.
        assert (ndep h d' <= ndep h d1) by (apply Hmax with i'; [lia|done|done]). lia.
    + right. exists i, d1. repeat split; try done; [lia|].
      intros i' d' Hi' Hd' Ht'. destruct (decide (i' = n)) as [->|].
      * replace d' with d by congruence. lia.
      * apply Hmax with i'; [lia|done|done].
Qed.

(** The operand that the sort descends into. *)
Lemma dep_with_max_deps_spec h temp t :
  ((dep_with_max_deps h temp t < 0)%Z /\
   forall i d, dep h t i = Some d -> temp d <> 0) \/
  (exists i d,
     dep_with_max_deps h temp t = Z.of_nat i /\
     dep h t i = Some d /\ temp d = 0 /\
     (forall i' d', dep h t i' = Some d' -> temp d' = 0 -> ndep h d' <= ndep h d) /\
     (forall i' d', i' < i -> dep h t i' = Some d' -> temp d' = 0 -> ndep h d' < ndep h d)).
Proof.
  unfold dep_with_max_deps.
  destruct (scan_dep_found h temp t (ndep h t))
    as [[-> Hn]|(i & d & -> & Hi & Hd & Ht & Hmax & Hfirst)].
  - left. split; [simpl; lia|]. intros i d Hd. apply (Hn i); [|done].
    by apply dep_lt_ndep in Hd.
  - right. exists i, d. repeat split; try done.
    intros i' d' Hd'. apply (Hmax i'); [|done]. by apply dep_lt_ndep in Hd'.
Qed.

End DepthFirst.

Section DepthFirstInvariant.
Context {T : Type}.
Implicit Types (h : list (SXNode T)) (temp : nat -> nat).
Implicit Types (nodes s : list (option nat)).

Lemma sorted_so_far_nil h temp :
  (forall p, temp p = 0) -> sorted_so_far h [] temp.
Proof.
  intros H0. split.
  - intros p. rewrite H0. split; [done|]. by intros ?%elem_of_nil.
  - intros [|? ?] p post E; discriminate E.
Qed.

Lemma sorted_so_far_marker h nodes temp :
  sorted_so_far h nodes temp -> sorted_so_far h (nodes ++ [None]) temp.
Proof.
  intros [H1 H2]. split.
  - intros p. rewrite H1, elem_of_app, list_elem_of_singleton.
    split; [by left|]. by intros [?|[=]].
  - intros pre p post E.
    destruct (decide (post = [])) as [->|Hne].
    { apply app_inj_tail in E as [_ E]. discriminate E. }
    destruct (exists_last Hne) as (post' & x & ->).
    change (pre ++ Some p :: post' ++ [x]) with (pre ++ (Some p :: post') ++ [x]) in E.
    rewrite app_assoc in E. apply app_inj_tail in E as [E _].
    by apply H2 in E.
Qed.

(** Appending a node whose operands are all listed. *)
Lemma sorted_so_far_snoc h nodes temp p :
  sorted_so_far h nodes temp -> temp p = 0 ->
  (forall i d, dep h p i = Some d -> temp d <> 0) ->
  sorted_so_far h (nodes ++ [Some p]) (setTemp temp p 1).
Proof.
  intros [H1 H2] Hp Hd. split.
  - intros q. rewrite elem_of_app, list_elem_of_singleton.
    destruct (decide (q = p)) as [->|Hne].
    + rewrite setTemp_eq. split; [by right|done].
    + rewrite setTemp_ne by done. rewrite H1. split; [by left|].
      intros [?|[=]]; [done|congruence].
  - intros pre q post E.
    destruct (decide (post = [])) as [->|Hne].
    + apply app_inj_tail in E as [<- [= <-]]. split.
      * intros i d Hi. apply H1. by apply Hd with i.
      * intros Hin. apply H1 in Hin. congruence.
    + destruct (exists_last Hne) as (post' & x & ->).
      change (pre ++ Some q :: post' ++ [x]) with (pre ++ (Some q :: post') ++ [x]) in E.
      rewrite app_assoc in E. apply app_inj_tail in E as [E _].
      by apply H2 in E.
Qed.

(** One turn keeps the invariant, only appends nodes, and loses no entry of
    the stack that is not yet listed. *)
Lemma dfs_turn_sorted h t s nodes temp :
  sorted_so_far h nodes temp ->
  let st' := dfs_turn h t s nodes temp in
  sorted_so_far h (dfs_nodes st') (dfs_temp st') /\
  (exists added, dfs_nodes st' = nodes ++ map Some added) /\
  (forall q, Some q ∈ t :: s -> Some q ∈ dfs_s st' \/ Some q ∈ dfs_nodes st').
Proof.
  intros Hinv. unfold dfs_turn.
  destruct t as [p|]; simpl.
  2:{ split; [done|]. split; [by exists []; rewrite app_nil_r|].
      intros q [[=]|Hq]%elem_of_cons. by left. }
  destruct (Nat.eqb (temp p) 0) eqn:Et; simpl.
  2:{ apply Nat.eqb_neq in Et. split; [done|].
      split; [by exists []; rewrite app_nil_r|].
      intros q [[= ->]|Hq]%elem_of_cons; [right; by apply Hinv|by left]. }
  apply Nat.eqb_eq in Et.
  destruct (dep_with_max_deps_spec h temp p)
    as [[Hneg Hall]|(i & d & Hi & Hd & Htd & _)].
  - assert ((0 <=? dep_with_max_deps h temp p)%Z = false) as ->
      by (apply Z.leb_gt; lia).
    simpl. split; [by apply sorted_so_far_snoc; [| |exact Hall]|].
    split; [by exists [p]|].
    intros q [[= ->]|Hq]%elem_of_cons.
    + right. apply elem_of_app. right. by apply list_elem_of_singleton.
    + by left.
  - rewrite Hi. assert ((0 <=? Z.of_nat i)%Z = true) as -> by (apply Z.leb_le; lia).
    simpl. split; [done|]. split; [by exists []; rewrite app_nil_r|].
    intros q Hq. left. by apply list_elem_of_further.
Qed.

(** Partial correctness of [sort_depth_first]: when the loop is left, the
    stack is empty, the invariant holds, the list has only grown by nodes,
    and every node that was on the stack is listed. *)
Lemma sort_depth_first_sorted h fuel st st' :
  sort_depth_first fuel h st = Some st' ->
  sorted_so_far h (dfs_nodes st) (dfs_temp st) ->
  dfs_s st' = [] /\
  sorted_so_far h (dfs_nodes st') (dfs_temp st') /\
  (exists added, dfs_nodes st' = dfs_nodes st ++ map Some added) /\
  (forall q, Some q ∈ dfs_s st -> Some q ∈ dfs_nodes st').
Proof.
  assert (Hbase : forall nodes temp,
    sorted_so_far h nodes temp ->
    @nil (option nat) = [] /\ sorted_so_far h nodes temp /\
    (exists added, nodes = nodes ++ map Some added) /\
    (forall q, Some q ∈ @nil (option nat) -> Some q ∈ nodes)).
  { intros nodes temp Hinv. split; [done|]. split; [done|]. split.
    - exists []. by rewrite app_nil_r.
    - by intros q ?%elem_of_nil. }
  revert st. induction fuel as [|fuel IH]; intros [s nodes temp]; simpl.
  - destruct s; [|done]. intros [= <-] Hinv. simpl. by apply Hbase.
  - destruct s as [|t s].
    { intros [= <-] Hinv. simpl. by apply Hbase. }
    intros Hs Hinv.
    destruct (dfs_turn_sorted h t s nodes temp Hinv) as (Hinv1 & [a1 Ha1] & Hst1).
    destruct (IH _ Hs Hinv1) as (He & Hinv' & [a2 Ha2] & Hst').
    split; [done|]. split; [done|]. split.
    + exists (a1 ++ a2). rewrite Ha2, Ha1, map_app. by rewrite app_assoc.
    + intros q Hq. destruct (Hst1 q Hq) as [Hq1|Hq1]; [by apply Hst'|].
      rewrite Ha2. apply elem_of_app. by left.
Qed.

End DepthFirstInvariant.

(** ** Termination of the depth-first sort *)

Section DepthFirstTermination.
Context {T : Type}.
Implicit Types (h : list (SXNode T)) (temp : nat -> nat).
Implicit Types (nodes s : list (option nat)).

Lemma count_below_S f n :
  count_below f (S n) = count_below f n + (if f n then 1 else 0).
Proof.
  unfold count_below. rewrite seq_S, List.filter_app, length_app. simpl.
  by destruct (f n).
Qed.

Lemma count_below_ext f g n :
  (forall y, y < n -> g y = f y) -> count_below g n = count_below f n.
Proof.
  induction n as [|n IH]; intros E; [done|].
  rewrite !count_below_S, IH, E by (intros; try apply E; lia). done.
Qed.

Lemma count_below_drop f g n x :
  x < n -> f x = true -> g x = false ->
  (forall y, y < n -> y <> x -> g y = f y) ->
  count_below g n + 1 = count_below f n.
Proof.
  induction n as [|n IH]; intros Hx Hf Hg E; [lia|].
  rewrite !count_below_S.
  destruct (decide (x = n)) as [->|Hne].
  - rewrite Hf, Hg. rewrite (count_below_ext f g n); [lia|].
    intros y Hy. apply E; lia.
  - rewrite <- IH by (try done; try lia; intros; apply E; lia).
    rewrite (E n) by lia. lia.
Qed.

Lemma arena_ok_acyclic h : arena_ok h = true -> acyclic h.
Proof.
  unfold arena_ok. rewrite forallb_forall. intros Hok p i d Hd.
  assert (Hp : p < length h).
  { unfold dep in Hd. destruct (h !! p) eqn:E; [|done]. by apply lookup_lt_Some in E. }
  specialize (Hok p). rewrite in_seq in Hok. specialize (Hok ltac:(lia)).
  unfold node_ok in Hok. unfold dep in Hd.
  destruct (h !! p) as [n|]; [|done].
  apply andb_prop in Hok as [_ Hok]. rewrite forallb_forall in Hok.
  destruct (node_dep n !! i) as [[d'|]|] eqn:Ei; simpl in Hd; try done.
  injection Hd as ->.
  apply list_elem_of_lookup_2, list_elem_of_In in Ei.
  apply Hok in Ei. by apply Nat.ltb_lt in Ei.
Qed.

Lemma dep_valid h p i d : dep h p i = Some d -> p < length h.
Proof.
  unfold dep. destruct (h !! p) eqn:E; [|done]. intros _. by apply lookup_lt_Some in E.
Qed.

(** Every turn on a chain lowers the measure by one and leaves a chain. *)
Lemma dfs_turn_measure h t s nodes temp :
  acyclic h -> chain h (t :: s) ->
  let st' := dfs_turn h t s nodes temp in
  chain h (dfs_s st') /\
  S (dfs_measure h st') = dfs_measure h (mkDfs (t :: s) nodes temp).
Proof.
  intros Hac Hch. destruct t as [p|]; [|done].
  destruct Hch as (Hp & Hlt & Hch).
  unfold dfs_turn, dfs_measure, waiting. simpl.
  destruct (Nat.eqb (temp p) 0) eqn:Et; simpl.
  - destruct (dep_with_max_deps_spec h temp p)
      as [[Hneg Hall]|(i & d & Hi & Hd & Htd & _)].
    + assert ((0 <=? dep_with_max_deps h temp p)%Z = false) as ->
        by (apply Z.leb_gt; lia).
      simpl. split; [done|].
      rewrite (count_below_ext
        (fun q => Nat.eqb (temp q) 0 && negb (bool_decide (Some q ∈ Some p :: s)))
        (fun q => Nat.eqb (setTemp temp p 1 q) 0 && negb (bool_decide (Some q ∈ s)))); [lia|].
      intros y _. destruct (decide (y = p)) as [->|Hne].
      * rewrite setTemp_eq. simpl. rewrite bool_decide_eq_true_2 by (by left).
        by rewrite andb_false_r.
      * rewrite setTemp_ne by done. f_equal. f_equal.
        apply bool_decide_ext. rewrite elem_of_cons. split; [by right|].
        intros [[=]|?]; [congruence|done].
    + rewrite Hi. assert ((0 <=? Z.of_nat i)%Z = true) as -> by (apply Z.leb_le; lia).
      rewrite Nat2Z.id, Hd. simpl.
      assert (Hdp : d < p) by (by apply Hac in Hd).
      split.
      { split; [lia|]. split; [|done].
        intros q [[= ->]|Hq]%elem_of_cons; [done|]. apply Hlt in Hq. lia. }
      rewrite <- (count_below_drop
        (fun q => Nat.eqb (temp q) 0 && negb (bool_decide (Some q ∈ Some p :: s)))
        (fun q => Nat.eqb (temp q) 0 &&
                  negb (bool_decide (Some q ∈ Some d :: Some p :: s)))
        (length h) d); [lia|lia| | |].
      * rewrite Htd. simpl. rewrite bool_decide_eq_false_2; [done|].
        intros [[= ->]|Hq]%elem_of_cons; [lia|]. apply Hlt in Hq. lia.
      * rewrite bool_decide_eq_true_2 by (by left). by rewrite andb_false_r.
      * intros y _ Hy. f_equal. f_equal. apply bool_decide_ext.
        rewrite (elem_of_cons _ _ (Some d)). split; [|by right].
        intros [[=]|?]; [congruence|done].
  - split; [done|].
    rewrite (count_below_ext
      (fun q => Nat.eqb (temp q) 0 && negb (bool_decide (Some q ∈ Some p :: s)))
      (fun q => Nat.eqb (temp q) 0 && negb (bool_decide (Some q ∈ s)))); [lia|].
    intros y _. destruct (decide (y = p)) as [->|Hne].
    + by rewrite Et.
    + f_equal. f_equal. apply bool_decide_ext. rewrite elem_of_cons.
      split; [by right|]. intros [[=]|?]; [congruence|done].
Qed.

(** [sort_depth_first] comes back when the fuel covers the measure. *)
Lemma sort_depth_first_returns h fuel st :
  acyclic h -> chain h (dfs_s st) -> dfs_measure h st <= fuel ->
  exists st', sort_depth_first fuel h st = Some st'.
Proof.
  intros Hac. revert st. induction fuel as [|fuel IH]; intros [s nodes temp] Hch Hm.
  - destruct s; [by eexists|]. unfold dfs_measure in Hm. simpl in Hm. lia.
  - destruct s as [|t s]; [by eexists|]. simpl.
    destruct (dfs_turn_measure h t s nodes temp Hac Hch) as [Hch' Hm'].
    apply IH; [done|]. simpl in Hch', Hm'. lia.
Qed.

Lemma waiting_le h s temp : waiting h s temp <= length h.
Proof.
  unfold waiting, count_below.
  etrans; [apply List.filter_length_le|]. by rewrite length_seq.
Qed.

(** The fuel that [init] is given suffices for every sort of one output. *)
Lemma sort_depth_first_terminates h fuel o nodes temp :
  acyclic h -> o < length h -> dfs_fuel h <= fuel ->
  exists st', sort_depth_first fuel h (mkDfs [Some o] nodes temp) = Some st'.
Proof.
  intros Hac Ho Hf. apply sort_depth_first_returns; [done| |].
  - simpl. split; [done|]. split; [|done]. by intros q ?%elem_of_nil.
  - unfold dfs_measure, dfs_fuel in *. simpl.
    pose proof (waiting_le h [Some o] temp). lia.
Qed.

End DepthFirstTermination.

(** ** The list of nodes that [init] sorts *)

Section SortedNodes.
Context {T : Type} `{Zero T}.
Implicit Types (h : list (SXNode T)) (temp : nat -> nat).
Implicit Types (nodes s : list (option nat)).

Lemma count_markers_app nodes1 nodes2 :
  count_markers (nodes1 ++ nodes2) = count_markers nodes1 + count_markers nodes2.
Proof. unfold count_markers. by rewrite List.filter_app, length_app. Qed.

Lemma count_markers_Some (l : list nat) : count_markers (map Some l) = 0.
Proof. induction l; [done|]. simpl. apply IHl. Qed.

Lemma lookup_map_Some_None (l : list nat) k : map Some l !! k <> Some None.
Proof.
  change (map Some l) with (Some <$> l). rewrite list_lookup_fmap.
  by destruct (l !! k).
Qed.

(** Appending nodes keeps the markers in place. *)
Lemma markers_ok_app_nodes nodes outs (l : list nat) :
  markers_ok nodes outs -> markers_ok (nodes ++ map Some l) outs.
Proof.
  intros [Hc Hm]. split.
  - by rewrite count_markers_app, count_markers_Some, Nat.add_0_r.
  - intros k Hk. destruct (decide (k < length nodes)) as [Hlt|Hge].
    + rewrite lookup_app_l in Hk by done.
      rewrite take_app_le by lia. by apply Hm.
    + rewrite lookup_app_r in Hk by lia. by apply lookup_map_Some_None in Hk.
Qed.

Lemma markers_ok_snoc nodes outs o :
  markers_ok nodes outs -> Some o ∈ nodes ->
  markers_ok (nodes ++ [None]) (outs ++ [o]).
Proof.
  intros [Hc Hm] Ho. split.
  - rewrite count_markers_app, length_app, Hc. done.
  - intros k Hk. destruct (decide (k < length nodes)) as [Hlt|Hge].
    + rewrite lookup_app_l in Hk by done.
      rewrite take_app_le by lia.
      destruct (Hm k Hk) as (o' & Ho' & Hin). exists o'. split; [|done].
      by apply lookup_app_l_Some.
    + assert (k = length nodes) as ->.
      { apply lookup_lt_Some in Hk. rewrite length_app in Hk. simpl in Hk. lia. }
      rewrite take_app_length. exists o. split; [|done].
      rewrite Hc. by apply list_lookup_middle.
Qed.

Lemma fold_sort_output_None fuel h outs :
  fold_left (sort_output fuel h) outs None = None.
Proof. by induction outs. Qed.

Lemma fold_sort_output_sorted fuel h outs done nodes temp nodes' temp' :
  fold_left (sort_output fuel h) outs (Some (nodes, temp)) = Some (nodes', temp') ->
  sorted_so_far h nodes temp -> markers_ok nodes done ->
  sorted_so_far h nodes' temp' /\ markers_ok nodes' (done ++ outs).
Proof.
  revert done nodes temp.
  induction outs as [|o outs IH]; intros done nodes temp; simpl.
  { intros [= <- <-] ? ?. by rewrite app_nil_r. }
  destruct (sort_depth_first fuel h (mkDfs [Some o] nodes temp)) as [st|] eqn:Es.
  2:{ by rewrite fold_sort_output_None. }
  intros Hf Hinv Hm.
  destruct (sort_depth_first_sorted h fuel _ st Es Hinv)
    as (_ & Hinv' & [added Hadd] & Hst).
  simpl in Hadd, Hst.
  replace (done ++ o :: outs) with ((done ++ [o]) ++ outs)
    by (by rewrite <- app_assoc).
  apply (IH _ _ _ Hf).
  - by apply sorted_so_far_marker.
  - apply markers_ok_snoc.
    + rewrite Hadd. by apply markers_ok_app_nodes.
    + apply Hst. by left.
Qed.

(** The nodes after the first loop of [init]. *)
Lemma sort_outputs_sorted fuel h outputv temp0 nodes0 temp1 :
  sort_outputs fuel h outputv temp0 = Some (nodes0, temp1) ->
  (forall p, temp0 p = 0) ->
  sorted_so_far h nodes0 temp1 /\ markers_ok nodes0 (concat outputv).
Proof.
  unfold sort_outputs. intros Hs H0.
  apply (fold_sort_output_sorted fuel h _ [] [] temp0); [done| |].
  - by apply sorted_so_far_nil.
  - split; [done|]. by intros k.
Qed.

(** [add_inputs] appends the inputs that are not marked. *)
Lemma add_inputs_app temp ins nodes :
  add_inputs temp [ins] nodes =
  nodes ++ map Some (List.filter (fun p => Nat.eqb (temp p) 0) ins).
Proof.
  unfold add_inputs. simpl. rewrite app_nil_r. revert nodes.
  induction ins as [|p ins IH]; intros nodes; simpl; [by rewrite app_nil_r|].
  destruct (Nat.eqb (temp p) 0); rewrite IH; [|done].
  by rewrite <- app_assoc.
Qed.

Lemma add_inputs_concat temp inputv nodes :
  add_inputs temp inputv nodes = add_inputs temp [concat inputv] nodes.
Proof. unfold add_inputs. simpl. by rewrite app_nil_r. Qed.

Lemma sorted_so_far_once h nodes temp d :
  sorted_so_far h nodes temp -> Some d ∈ nodes ->
  exists j, once nodes d j.
Proof.
  intros [_ H2] Hd. apply list_elem_of_lookup in Hd as [j Hj].
  exists j. split; [done|]. intros j' Hj'.
  destruct (Nat.lt_trichotomy j' j) as [Hlt|[->|Hlt]]; [|done|]; exfalso.
  - destruct (H2 (take j nodes) d (drop (S j) nodes)) as [_ Hn].
    { by rewrite (take_drop_middle _ _ _ Hj). }
    apply Hn. apply elem_of_take. by exists j'.
  - destruct (H2 (take j' nodes) d (drop (S j') nodes)) as [_ Hn].
    { by rewrite (take_drop_middle _ _ _ Hj'). }
    apply Hn. apply elem_of_take. by exists j.
Qed.

Lemma once_app_l nodes (l : list nat) d j :
  once nodes d j -> d ∉ l -> once (nodes ++ map Some l) d j.
Proof.
  intros [Hj Hu] Hd. split; [by apply lookup_app_l_Some|].
  intros j' Hj'. destruct (decide (j' < length nodes)) as [Hlt|Hge].
  - rewrite lookup_app_l in Hj' by done. by apply Hu.
  - rewrite lookup_app_r in Hj' by lia. exfalso. apply Hd.
    change (map Some l) with (Some <$> l) in Hj'.
    rewrite list_lookup_fmap in Hj'.
    destruct (l !! (j' - length nodes)) as [x|] eqn:Ex; [|done].
    simpl in Hj'. injection Hj' as ->. by apply list_elem_of_lookup_2 in Ex.
Qed.

(** The list of nodes after the inputs were added. *)
Lemma add_inputs_nodes_ok h outs inputv nodes0 temp1 :
  sorted_so_far h nodes0 temp1 -> markers_ok nodes0 outs ->
  forallb (isSymbolic h) (concat inputv) = true ->
  nodes_ok h outs (add_inputs temp1 inputv nodes0).
Proof.
  intros Hinv [Hc Hm] Hsym.
  rewrite add_inputs_concat, add_inputs_app.
  set (extra := List.filter _ _).
  assert (Hextra : forall d, Some d ∈ nodes0 -> d ∉ extra).
  { intros d Hd Hin. apply Hinv in Hd. apply list_elem_of_In in Hin.
    apply filter_In in Hin as [_ E]. by apply Nat.eqb_eq in E. }
  assert (Hto : forall d j, j <= length nodes0 -> Some d ∈ take j nodes0 ->
            exists j', j' < j /\ once (nodes0 ++ map Some extra) d j').
  { intros d j Hj Hd.
    assert (Hd' : Some d ∈ nodes0).
    { apply elem_of_take in Hd as (i & Hi & _). by apply list_elem_of_lookup_2 in Hi. }
    destruct (sorted_so_far_once h _ _ d Hinv Hd') as [j' Hj'].
    exists j'. split; [|apply once_app_l; [done|by apply Hextra]].
    apply elem_of_take in Hd as (i & Hi & Hlt).
    destruct Hj' as [_ Hu]. by rewrite <- (Hu i Hi). }
  split; [|split].
  - intros k p Hk c d Hc' Hd.
    destruct (decide (k < length nodes0)) as [Hlt|Hge].
    + rewrite lookup_app_l in Hk by done.
      apply (Hto d k); [lia|].
      destruct Hinv as [_ H2].
      destruct (H2 (take k nodes0) p (drop (S k) nodes0)) as [Hdeps _].
      { by rewrite (take_drop_middle _ _ _ Hk). }
      by apply (Hdeps c).
    + exfalso. rewrite lookup_app_r in Hk by lia.
      change (map Some extra) with (Some <$> extra) in Hk.
      rewrite list_lookup_fmap in Hk.
      destruct (extra !! (k - length nodes0)) as [x|] eqn:Ex; [|done].
      simpl in Hk. injection Hk as ->.
      apply list_elem_of_lookup_2, list_elem_of_In, filter_In in Ex as [Ex _].
      rewrite forallb_forall in Hsym. apply Hsym in Ex.
      unfold isSymbolic in Ex. apply Operation_eqb_eq in Ex. rewrite Ex in Hc'.
      simpl in Hc'. lia.
  - intros k Hk. destruct (decide (k < length nodes0)) as [Hlt|Hge].
    + rewrite lookup_app_l in Hk by done. rewrite take_app_le by lia.
      destruct (Hm k Hk) as (o & Ho & Hin). exists o.
      destruct (Hto o k ltac:(lia) Hin) as (j & Hj & Hon). by exists j.
    + rewrite lookup_app_r in Hk by lia. by apply lookup_map_Some_None in Hk.
  - by rewrite count_markers_app, count_markers_Some, Nat.add_0_r.
Qed.

End SortedNodes.

(** ** The instructions that [init] builds *)

Section Build.
Context {T : Type} `{Zero T}.
Implicit Types (h : list (SXNode T)) (temp : nat -> nat).
Implicit Types (nodes : list (option nat)) (outputv : list (list nat)).

Lemma number_nodes_snoc i nodes x temp :
  number_nodes i (nodes ++ [x]) temp =
  match x with
  | Some p => setTemp (number_nodes i nodes temp) p (i + length nodes)
  | None => number_nodes i nodes temp
  end.
Proof.
  revert i temp. induction nodes as [|n nodes IH]; intros i temp; simpl.
  - destruct x; [|done]. by rewrite Nat.add_0_r.
  - destruct n; rewrite IH; destruct x; try done; f_equal; lia.
Qed.

(** A node that is listed once is numbered with its index. *)
Lemma number_nodes_once nodes temp d j :
  once nodes d j -> number_nodes 0 nodes temp d = j.
Proof.
  revert j. induction nodes as [|x nodes IH] using rev_ind; intros j [Hj Hu].
  { done. }
  rewrite number_nodes_snoc.
  destruct (decide (x = Some d)) as [->|Hne].
  - rewrite setTemp_eq. simpl. apply Hu. by apply list_lookup_middle.
  - assert (Hl : j < length nodes).
    { apply lookup_lt_Some in Hj as Hlt. rewrite length_app in Hlt. simpl in Hlt.
      destruct (decide (j = length nodes)) as [->|]; [|lia].
      rewrite list_lookup_middle in Hj by done. congruence. }
    assert (Ho : once nodes d j).
    { split; [by rewrite lookup_app_l in Hj|].
      intros j' Hj'. apply Hu. by apply lookup_app_l_Some. }
    destruct x as [p|]; [|by apply IH].
    rewrite setTemp_ne by congruence. by apply IH.
Qed.

(** A listed node is numbered with the index of some later copy of it. *)
Lemma number_nodes_ge nodes temp p k :
  nodes !! k = Some (Some p) -> k <= number_nodes 0 nodes temp p.
Proof.
  revert k. induction nodes as [|x nodes IH] using rev_ind; intros k Hk; [done|].
  rewrite number_nodes_snoc.
  apply lookup_lt_Some in Hk as Hlt. rewrite length_app in Hlt. simpl in Hlt.
  destruct (decide (x = Some p)) as [->|Hne].
  - rewrite setTemp_eq. simpl. lia.
  - assert (k < length nodes).
    { destruct (decide (k = length nodes)) as [->|]; [|lia].
      rewrite list_lookup_middle in Hk by done. congruence. }
    rewrite lookup_app_l in Hk by done.
    destruct x as [q|]; [|by apply IH].
    rewrite setTemp_ne by congruence. by apply IH.
Qed.

Lemma arena_ok_getOp h p :
  arena_ok h = true -> getOp h p <> OP_OUTPUT /\ getOp h p <> OP_INPUT.
Proof.
  unfold arena_ok, getOp. rewrite forallb_forall. intros Hok.
  destruct (h !! p) as [n|] eqn:E; [|done].
  specialize (Hok p). rewrite in_seq in Hok.
  apply lookup_lt_Some in E as Hp. specialize (Hok ltac:(lia)).
  unfold node_ok in Hok. rewrite E in Hok.
  apply andb_prop in Hok as [Hok _]. apply andb_prop in Hok as [Hok _].
  apply andb_prop in Hok as [Hi Ho].
  apply negb_true_iff, Operation_eqb_neq in Hi, Ho. done.
Qed.

(** The operands that [ndeps] counts are not null. *)
Lemma arena_ok_dep h p c :
  arena_ok h = true -> c < ndeps (getOp h p) -> exists d, dep h p c = Some d.
Proof.
  unfold arena_ok. rewrite forallb_forall. intros Hok Hc.
  unfold getOp in Hc. destruct (h !! p) as [n|] eqn:E; [|simpl in Hc; lia].
  specialize (Hok p). rewrite in_seq in Hok.
  apply lookup_lt_Some in E as Hp. specialize (Hok ltac:(lia)).
  unfold node_ok in Hok. rewrite E in Hok.
  apply andb_prop in Hok as [Hok _]. apply andb_prop in Hok as [_ Hok].
  rewrite forallb_forall in Hok. specialize (Hok c).
  rewrite in_seq in Hok. specialize (Hok ltac:(lia)).
  destruct (dep h p c) as [d|]; [by exists d|done].
Qed.

(** *** The walk through the outputs *)

Lemma skip_empty_spec outputv i n :
  n = length outputv - i -> i <= length outputv ->
  let i' := skip_empty outputv i n in
  i <= i' <= length outputv /\
  concat (take i' outputv) = concat (take i outputv) /\
  (i' = length outputv \/ exists out, outputv !! i' = Some out /\ out <> []).
Proof.
  revert i. induction n as [|n IH]; intros i Hn Hi; simpl.
  { split; [lia|]. split; [done|]. left. lia. }
  destruct (outputv !! i) as [[|x out]|] eqn:E.
  - destruct (IH (S i)) as (Hle & Hc & Hend); [lia|lia|].
    split; [lia|]. split; [|done].
    rewrite Hc. rewrite (take_S_r _ _ _ E), concat_app. simpl. by rewrite !app_nil_r.
  - split; [lia|]. split; [done|]. right. by eexists.
  - apply lookup_ge_None in E. lia.
Qed.

Lemma next_output_spec outputv i :
  i <= length outputv ->
  let i' := next_output outputv i in
  i <= i' <= length outputv /\
  concat (take i' outputv) = concat (take i outputv) /\
  (i' = length outputv \/ exists out, outputv !! i' = Some out /\ out <> []).
Proof. intros Hi. by apply skip_empty_spec. Qed.

Lemma out_pos_start outputv : out_pos outputv (next_output outputv 0) 0 0.
Proof.
  destruct (next_output_spec outputv 0) as (Hle & Hc & Hend); [lia|].
  split; [by rewrite Hc|].
  destruct Hend as [->|(out & Ho & Hne)]; [by right|].
  left. exists out. split; [done|]. destruct out; [done|simpl; lia].
Qed.

Lemma concat_lookup_row outputv oind out nz :
  outputv !! oind = Some out -> nz < length out ->
  concat outputv !! (length (concat (take oind outputv)) + nz) = out !! nz.
Proof.
  intros Ho Hnz.
  assert (concat outputv =
          concat (take oind outputv) ++ out ++ concat (drop (S oind) outputv)) as ->.
  { rewrite <- concat_cons, <- concat_app. by rewrite take_drop_middle. }
  rewrite lookup_app_r by lia.
  replace (_ + nz - _) with nz by lia. by rewrite lookup_app_l.
Qed.

(** Where the walk stands before the end, and where it goes. *)
Lemma out_pos_step outputv oind nz m :
  out_pos outputv oind nz m -> m < length (concat outputv) ->
  let out := default [] (outputv !! oind) in
  out !! nz = concat outputv !! m /\
  let '(oind', nz') := if length out <=? S nz
                       then (next_output outputv (S oind), 0)
                       else (oind, S nz) in
  out_pos outputv oind' nz' (S m).
Proof.
  intros [Hm Hpos] Hlt.
  destruct Hpos as [(out & Ho & Hnz)|[-> ->]].
  2:{ rewrite firstn_all in Hm. lia. }
  rewrite Ho. simpl. split.
  { rewrite Hm. symmetry. by apply concat_lookup_row. }
  destruct (Nat.leb_spec (length out) (S nz)) as [Hlast|Hmore].
  - apply lookup_lt_Some in Ho as Hoind.
    destruct (next_output_spec outputv (S oind)) as (Hle & Hc & Hend); [lia|].
    split.
    + rewrite Hc, (take_S_r _ _ _ Ho), concat_app, length_app. simpl.
      rewrite app_nil_r. lia.
    + destruct Hend as [Hend|(out' & Ho' & Hne)]; [by right|].
      left. exists out'. split; [done|]. destruct out'; [done|simpl; lia].
  - split; [lia|]. left. exists out. split; [done|lia].
Qed.

End Build.

Section BuildAlgorithm.
Context {T : Type} `{Zero T}.
Implicit Types (h : list (SXNode T)) (temp : nat -> nat).
Implicit Types (nodes : list (option nat)) (outputv : list (list nat)).

(** The instruction of a node. *)
Lemma build_step_node h outputv temp st p :
  getOp h p <> OP_OUTPUT ->
  exists ae,
    b_algorithm (build_step h outputv temp st (Some p)) = b_algorithm st ++ [ae] /\
    b_curr_oind (build_step h outputv temp st (Some p)) = b_curr_oind st /\
    b_curr_nz (build_step h outputv temp st (Some p)) = b_curr_nz st /\
    b_symb_loc (build_step h outputv temp st (Some p)) =
      (if isSymbolic h p then b_symb_loc st ++ [(length (b_algorithm st), p)]
       else b_symb_loc st) /\
    b_refcount (build_step h outputv temp st (Some p)) = count_deps ae (b_refcount st) /\
    op ae = getOp h p /\ res ae = temp p /\
    forall c, c < ndeps (getOp h p) -> arg_i ae c = temp_of temp (dep h p c).
Proof.
  intros Ho. unfold build_step, isSymbolic.
  destruct (getOp h p) eqn:E; try done;
    (eexists; repeat split; try done; simpl;
     intros [|[|c]] Hc; simpl in *; try done; lia).
Qed.

(** The instruction of an output marker. *)
Lemma build_step_marker h outputv temp st :
  let out := default [] (outputv !! b_curr_oind st) in
  let ae := mkAlgEl OP_OUTPUT (b_curr_oind st) zero
                    (temp_of temp (out !! b_curr_nz st)) (b_curr_nz st) in
  b_algorithm (build_step h outputv temp st None) = b_algorithm st ++ [ae] /\
  (b_curr_oind (build_step h outputv temp st None),
   b_curr_nz (build_step h outputv temp st None)) =
    (if length out <=? S (b_curr_nz st)
     then (next_output outputv (S (b_curr_oind st)), 0)
     else (b_curr_oind st, S (b_curr_nz st))) /\
  b_symb_loc (build_step h outputv temp st None) = b_symb_loc st /\
  b_refcount (build_step h outputv temp st None) = count_deps ae (b_refcount st).
Proof.
  unfold build_step. simpl.
  by destruct (length _ <=? _).
Qed.

(** The state of the loop after a prefix of the nodes. *)
Lemma build_prefix h outputv temp nodes st0 :
  arena_ok h = true ->
  count_markers nodes <= length (concat outputv) ->
  b_algorithm st0 = [] ->
  out_pos outputv (b_curr_oind st0) (b_curr_nz st0) 0 ->
  let st := fold_left (build_step h outputv temp) nodes st0 in
  length (b_algorithm st) = length nodes /\
  out_pos outputv (b_curr_oind st) (b_curr_nz st) (count_markers nodes) /\
  forall k n, nodes !! k = Some n ->
    exists ae, b_algorithm st !! k = Some ae /\
               instr_spec h outputv temp nodes k n ae.
Proof.
  intros Hok Hcnt Hnil Hpos0.
  induction nodes as [|x nodes IH] using rev_ind.
  { simpl. rewrite Hnil. split; [done|]. split; [done|]. by intros k n. }
  rewrite count_markers_app in Hcnt.
  destruct IH as (Hlen & Hpos & Hins); [lia|].
  rewrite fold_left_app. simpl.
  set (st := fold_left _ nodes st0) in *. clearbody st.
  assert (Hold : forall ae' k n, nodes !! k = Some n ->
            exists ae, (b_algorithm st ++ [ae']) !! k = Some ae /\
                       instr_spec h outputv temp (nodes ++ [x]) k n ae).
  { intros ae' k n Hk. destruct (Hins k n Hk) as (ae & Hae & Hspec).
    exists ae. split; [by apply lookup_app_l_Some|].
    apply lookup_lt_Some in Hk as Hlt.
    destruct n; [done|]. simpl in *. by rewrite take_app_le by lia. }
  destruct x as [p|].
  - destruct (build_step_node h outputv temp st p) as
      (ae & -> & -> & -> & _ & _ & Hop & Hres & Harg).
    { by apply arena_ok_getOp. }
    rewrite !length_app, Hlen, count_markers_app. simpl.
    split; [done|]. split; [by rewrite Nat.add_0_r|].
    intros k n Hk. destruct (decide (k < length nodes)) as [Hlt|Hge].
    + rewrite lookup_app_l in Hk by done. by apply Hold.
    + assert (k = length nodes) as ->.
      { apply lookup_lt_Some in Hk. rewrite length_app in Hk. simpl in Hk. lia. }
      rewrite list_lookup_middle in Hk by done. injection Hk as <-.
      exists ae. split; [by apply list_lookup_middle|done].
  - destruct (build_step_marker h outputv temp st) as (Ealg & Epos & _).
    rewrite Ealg. rewrite !length_app, Hlen, count_markers_app. simpl.
    change (count_markers [None]) with 1 in Hcnt.
    destruct (out_pos_step outputv _ _ _ Hpos ltac:(lia)) as [Hval Hnext].
    split; [done|]. split.
    { destruct (build_step h outputv temp st None) as [? ? oind' nz' ?].
      simpl in Epos. simpl.
      replace (count_markers nodes + count_markers [None])
        with (S (count_markers nodes)) by (change (count_markers [None]) with 1; lia).
      by destruct (length _ <=? _); injection Epos as -> ->. }
    intros k n Hk. destruct (decide (k < length nodes)) as [Hlt|Hge].
    + rewrite lookup_app_l in Hk by done. by apply Hold.
    + assert (k = length nodes) as ->.
      { apply lookup_lt_Some in Hk. rewrite length_app in Hk. simpl in Hk. lia. }
      rewrite list_lookup_middle in Hk by done. injection Hk as <-.
      eexists. split; [by apply list_lookup_middle|].
      split; [done|]. intros o Ho. simpl.
      rewrite take_app_length in Ho. by rewrite Hval, Ho.
Qed.

(** The algorithm that [init] builds names, as operands, the indices of
    earlier instructions. *)
Lemma build_virtual_valid h outputv temp1 nodes :
  arena_ok h = true ->
  nodes_ok h (concat outputv) nodes ->
  virtual_valid
    (b_algorithm (build h outputv (number_nodes 0 nodes temp1) nodes)).
Proof.
  intros Hok (Hn & Hm & Hc).
  set (temp := number_nodes 0 nodes temp1).
  destruct (build_prefix h outputv temp nodes
              (mkBuild [] [] (next_output outputv 0) 0 (replicate (length nodes) 0%Z)))
    as (Hlen & _ & Hins); [done|lia|done|apply out_pos_start|].
  fold (build h outputv temp nodes) in Hlen, Hins.
  assert (Hprod : forall d j, once nodes d j ->
            exists ae_j, b_algorithm (build h outputv temp nodes) !! j = Some ae_j /\
                         op ae_j <> OP_OUTPUT /\ res ae_j = j /\ temp d = j).
  { intros d j Hon. pose proof (number_nodes_once nodes temp1 d j Hon) as Ht.
    destruct Hon as [Hj _]. destruct (Hins j _ Hj) as (ae & Hae & Hop & Hres & _).
    exists ae. split; [done|]. split; [|by rewrite Hres].
    rewrite Hop. by apply arena_ok_getOp. }
  intros k ae Hk.
  assert (Hlt : k < length nodes) by (apply lookup_lt_Some in Hk; lia).
  destruct (lookup_lt_is_Some_2 nodes k Hlt) as [n Hnk].
  destruct (Hins k n Hnk) as (ae' & Hae' & Hspec).
  rewrite Hk in Hae'. injection Hae' as <-.
  destruct n as [p|]; simpl in Hspec.
  - destruct Hspec as (Hop & Hres & Harg). split.
    + intros _. rewrite Hres. by apply number_nodes_ge.
    + intros c Hcl. rewrite Hop in Hcl.
      destruct (arena_ok_dep h p c Hok Hcl) as [d Hd].
      destruct (Hn k p Hnk c d Hcl Hd) as (j & Hj & Hon).
      destruct (Hprod d j Hon) as (ae_j & Haej & Hopj & Hresj & Htj).
      exists j, ae_j. repeat split; try done.
      by rewrite (Harg c Hcl), Hd.
  - destruct Hspec as [Hop Harg]. split; [by rewrite Hop|].
    intros c Hcl. rewrite Hop in Hcl. simpl in Hcl.
    assert (c = 0) as -> by lia.
    destruct (Hm k Hnk) as (o & j & Ho & Hj & Hon).
    destruct (Hprod o j Hon) as (ae_j & Haej & Hopj & Hresj & Htj).
    exists j, ae_j. repeat split; try done.
    simpl. by rewrite (Harg o Ho).
Qed.

End BuildAlgorithm.

(** ** The places in the work vector *)

Section Allocation.
Context {T : Type} `{Zero T}.
Implicit Types (alg pre : list (AlgEl T)) (ae : AlgEl T) (st : alloc_state).

Lemma consume_place st ch : a_place (consume st ch) = a_place st.
Proof. reflexivity. Qed.

Lemma consume_deps_place ae st : a_place (consume_deps ae st) = a_place st.
Proof.
  unfold consume_deps. generalize (map (arg_i ae) (rev (seq 0 (ndeps (op ae))))).
  intros l. revert st. induction l as [|c l IH]; intros st; simpl; [done|].
  by rewrite IH.
Qed.

Lemma consume_deps_worksize ae st : a_worksize (consume_deps ae st) = a_worksize st.
Proof.
  unfold consume_deps. generalize (map (arg_i ae) (rev (seq 0 (ndeps (op ae))))).
  intros l. revert st. induction l as [|c l IH]; intros st; simpl; [done|].
  by rewrite IH.
Qed.

Lemma arg_i_locate_deps place ae c :
  c < ndeps (op ae) ->
  arg_i (locate_deps place ae) c = default 0 (place !! arg_i ae c).
Proof.
  unfold locate_deps. pose proof (ndeps_le_2 (op ae)) as Hle.
  destruct (ndeps (op ae)) as [|[|[|n]]]; intros Hc; simpl; try lia.
  - by assert (c = 0) as -> by lia.
  - destruct c as [|[|c]]; [done|done|lia].
Qed.

Lemma arg_i_make_binary ae c :
  c < ndeps (op ae) -> arg_i (make_binary ae) c = arg_i ae c.
Proof.
  unfold make_binary. intros Hc.
  destruct (Nat.eqb_spec (ndeps (op ae)) 1) as [E|E]; simpl; [|done].
  destruct (negb _); [|done]. by assert (c = 0) as -> by lia.
Qed.

Lemma produced_snoc pre ae s :
  produced (pre ++ [ae]) s =
  produced pre s || (negb (Operation_eqb (op ae) OP_OUTPUT) && Nat.eqb (res ae) s).
Proof. unfold produced. rewrite existsb_app. simpl. by rewrite orb_false_r. Qed.

(** What [store] does to the places and to the instruction. *)
Lemma store_spec live ae st :
  let '(st2, ae2) := store live ae st in
  op ae2 = op ae /\ arg_i0 ae2 = arg_i0 ae /\ arg_i1 ae2 = arg_i1 ae /\
  if Operation_eqb (op ae) OP_OUTPUT
  then st2 = st /\ ae2 = ae
  else a_place st2 = <[res ae := res ae2]> (a_place st).
Proof.
  unfold store. destruct (Operation_eqb (op ae) OP_OUTPUT); [done|].
  destruct live, (a_unused st); done.
Qed.

(** The operand slots of an allocated instruction. *)
Lemma alloc_step_operands live st ae :
  let '(st2, ae') := alloc_step live st ae in
  op ae' = op ae /\
  (forall c, c < ndeps (op ae) ->
     arg_i ae' c = default 0 (a_place st2 !! arg_i ae c)) /\
  if Operation_eqb (op ae) OP_OUTPUT
  then a_place st2 = a_place st
  else a_place st2 = <[res ae := res ae']> (a_place st).
Proof.
  unfold alloc_step. pose proof (store_spec live ae (consume_deps ae st)) as Hs.
  destruct (store live ae (consume_deps ae st)) as [st2 ae2].
  destruct Hs as (Hop & H0 & H1 & Hpl).
  rewrite op_make_binary, op_locate_deps, res_make_binary, res_locate_deps.
  split; [done|]. split.
  - intros c Hc. rewrite arg_i_make_binary by (by rewrite op_locate_deps, Hop).
    rewrite arg_i_locate_deps by (by rewrite Hop). do 2 f_equal.
    destruct c; simpl; congruence.
  - destruct (Operation_eqb (op ae) OP_OUTPUT).
    + destruct Hpl as [-> _]. apply consume_deps_place.
    + by rewrite Hpl, consume_deps_place.
Qed.

(** Giving places keeps the order of production and use. *)
Lemma allocate_valid live alg pre0 pre1 st :
  virtual_valid (pre0 ++ alg) ->
  length pre1 = length pre0 ->
  length (pre0 ++ alg) <= length (a_place st) ->
  (forall j ae_j, pre0 !! j = Some ae_j -> op ae_j <> OP_OUTPUT -> res ae_j = j ->
      produced pre1 (default 0 (a_place st !! j)) = true) ->
  valid_from operand_slots pre1 (allocate live st alg).2 = true.
Proof.
  revert pre0 pre1 st. induction alg as [|ae alg IH]; intros pre0 pre1 st Hv Hl Hpl Hinv.
  { done. }
  simpl. pose proof (alloc_step_operands live st ae) as Hstep.
  destruct (alloc_step live st ae) as [st1 ae'].
  destruct Hstep as (Hop & Harg & Hplace).
  destruct (allocate live st1 alg) as [st2 alg'] eqn:Ea. simpl.
  destruct (Hv (length pre0) ae) as [Hres Hdeps]; [by apply list_lookup_middle|].
  assert (Hother : forall j, j < length pre0 -> a_place st1 !! j = a_place st !! j).
  { intros j Hj. destruct (Operation_eqb (op ae) OP_OUTPUT) eqn:Eo; rewrite Hplace; [done|].
    apply Operation_eqb_neq in Eo. apply list_lookup_insert_ne.
    specialize (Hres Eo). lia. }
  apply andb_true_intro. split.
  - unfold operand_slots. rewrite Hop. apply forallb_forall. intros s Hs.
    apply in_map_iff in Hs as (c & <- & Hc). apply in_seq in Hc.
    rewrite Harg by lia.
    destruct (Hdeps c ltac:(lia)) as (j & ae_j & Hj & Hjl & Hjo & Hjr & ->).
    rewrite Hother by done. rewrite lookup_app_l in Hjl by done.
    by apply (Hinv j ae_j).
  - change alg' with (st2, alg').2. rewrite <- Ea.
    apply (IH (pre0 ++ [ae])).
    + by rewrite <- app_assoc.
    + rewrite !length_app. simpl. lia.
    + rewrite <- app_assoc. simpl.
      destruct (Operation_eqb (op ae) OP_OUTPUT); rewrite Hplace; [done|].
      by rewrite length_insert.
    + intros j ae_j Hj Hjo Hjr. rewrite produced_snoc.
      destruct (decide (j < length pre0)) as [Hlt|Hge].
      * rewrite lookup_app_l in Hj by done. rewrite Hother by done.
        by rewrite (Hinv j ae_j).
      * assert (j = length pre0) as ->.
        { apply lookup_lt_Some in Hj. rewrite length_app in Hj. simpl in Hj. lia. }
        rewrite list_lookup_middle in Hj by done. injection Hj as <-.
        apply Operation_eqb_neq in Hjo as Eo. rewrite Eo in Hplace.
        rewrite Hplace, Hjr, Hop, Eo.
        rewrite list_lookup_insert_eq by (rewrite length_app in Hpl; simpl in Hpl; lia).
        simpl. rewrite Nat.eqb_refl. by rewrite orb_true_r.
Qed.

(** *** Marking the inputs *)

Lemma marked_produced pre pre' s :
  Forall2 marked pre pre' -> produced pre s = true -> produced pre' s = true.
Proof.
  induction 1 as [|ae ae' pre pre' Hm _ IH]; [done|]. simpl.
  intros [E|E]%orb_prop; [|by rewrite (IH E), orb_true_r].
  destruct Hm as [->|[Hop Hres]]; [by rewrite E|].
  apply andb_prop in E as [_ E]. by rewrite Hop, Hres, E.
Qed.

(** Marking keeps an algorithm valid, for every notion of "read" that an
    input instruction reads nothing under. *)
Lemma valid_from_marked (reads : AlgEl T -> list nat) pre pre' alg alg' :
  (forall ae, op ae = OP_INPUT -> reads ae = []) ->
  Forall2 marked alg alg' -> Forall2 marked pre pre' ->
  valid_from reads pre alg = true -> valid_from reads pre' alg' = true.
Proof.
  intros Hin Halg. revert pre pre'.
  induction Halg as [|ae ae' alg alg' Hm _ IH]; intros pre pre' Hpre; [done|].
  simpl. intros [Hr Hv]%andb_prop. apply andb_true_intro. split.
  - destruct Hm as [->|[Hop _]]; [|by rewrite Hin].
    rewrite forallb_forall in Hr. apply forallb_forall. intros s Hs.
    apply (marked_produced pre); [done|]. by apply Hr.
  - apply (IH (pre ++ [ae])); [|done]. apply Forall2_app; [done|]. by constructor.
Qed.

Lemma marked_refl alg : Forall2 marked alg alg.
Proof. apply Forall_Forall2_diag, Forall_forall. intros; by left. Qed.

Lemma input_nonzeros_marked ind nz v alg0 alg temp :
  Forall2 marked alg0 alg ->
  Forall2 marked alg0 (input_nonzeros ind nz v (alg, temp)).1.
Proof.
  revert nz alg temp. induction v as [|p v IH]; intros nz alg temp Hm; simpl; [done|].
  destruct (temp p) as [|i]; [by apply IH|].
  apply IH. apply Forall2_alter_r; [done|].
  intros x y _ _ [->|[Hop Hres]]; right; by destruct x.
Qed.

Lemma input_instructions_marked ind inputv alg0 alg temp :
  Forall2 marked alg0 alg ->
  Forall2 marked alg0 (input_instructions ind inputv (alg, temp)).1.
Proof.
  revert ind alg temp. induction inputv as [|v inputv IH]; intros ind alg temp Hm;
    simpl; [done|].
  destruct (input_nonzeros ind 0 v (alg, temp)) as [alg1 temp1] eqn:E.
  apply IH. change alg1 with (alg1, temp1).1. rewrite <- E.
  by apply input_nonzeros_marked.
Qed.

End Allocation.

(** ** C1: topological validity *)

Section TopologicalValidity.
Context {T : Type} `{Zero T}.
Implicit Types (alg pre : list (AlgEl T)) (ae : AlgEl T).

Lemma produced_spec pre s :
  produced pre s = true <->
  exists j ae, pre !! j = Some ae /\ op ae <> OP_OUTPUT /\ res ae = s.
Proof.
  unfold produced. rewrite existsb_exists. split.
  - intros (ae & Hin & E). apply andb_prop in E as [Eo Er].
    apply list_elem_of_In, list_elem_of_lookup in Hin as [j Hj].
    exists j, ae. split; [done|]. split.
    + by apply Operation_eqb_neq, negb_true_iff.
    + by apply Nat.eqb_eq.
  - intros (j & ae & Hj & Ho & Hr). exists ae. split.
    + by apply list_elem_of_lookup_2, list_elem_of_In in Hj.
    + apply andb_true_intro. split.
      * by apply negb_true_iff, Operation_eqb_neq.
      * by apply Nat.eqb_eq.
Qed.

Lemma valid_from_lookup (reads : AlgEl T -> list nat) pre alg k ae s :
  valid_from reads pre alg = true -> alg !! k = Some ae -> s ∈ reads ae ->
  produced (pre ++ take k alg) s = true.
Proof.
  revert pre k. induction alg as [|a alg IH]; intros pre k Hv Hk Hs; [done|].
  simpl in Hv. apply andb_prop in Hv as [Hr Hv].
  destruct k as [|k]; simpl in *.
  - injection Hk as ->. rewrite app_nil_r.
    rewrite forallb_forall in Hr. by apply Hr, list_elem_of_In.
  - specialize (IH (pre ++ [a]) k Hv Hk Hs). by rewrite <- app_assoc in IH.
Qed.

(** What validity says of one instruction: the slots that it reads were
    written by instructions that are strictly earlier. *)
Lemma valid_from_earlier (reads : AlgEl T -> list nat) alg k ae s :
  valid_from reads [] alg = true -> alg !! k = Some ae -> s ∈ reads ae ->
  exists j ae', j < k /\ alg !! j = Some ae' /\ op ae' <> OP_OUTPUT /\ res ae' = s.
Proof.
  intros Hv Hk Hs. pose proof (valid_from_lookup reads [] alg k ae s Hv Hk Hs) as Hp.
  simpl in Hp. apply produced_spec in Hp as (j & ae' & Hj & Ho & Hr).
  apply lookup_take_Some in Hj as [Hj Hlt]. by exists j, ae'.
Qed.

(** C1.  In every algorithm that [init] produces, also after the places
    in the work vector were given, every operand slot of every instruction
    is the result slot of a strictly earlier instruction of the algorithm
    that is not an output marker. *)
Theorem init_topologically_valid fuel live jit (h : list (SXNode T))
    inputv outputv temp0 this :
  arena_ok h = true ->
  (forall p, temp0 p = 0) ->
  forallb (isSymbolic h) (concat inputv) = true ->
  init fuel live jit h inputv outputv temp0 = Ret this ->
  topologically_valid (algorithm_ this) = true /\
  forall k ae c,
    algorithm_ this !! k = Some ae -> c < ndeps (op ae) ->
    exists j ae', j < k /\ algorithm_ this !! j = Some ae' /\
                  op ae' <> OP_OUTPUT /\ res ae' = arg_i ae c.
Proof.
  intros Hok H0 Hsym Hi.
  assert (Hv : topologically_valid (algorithm_ this) = true).
  { apply init_Ret in Hi as (_ & nodes0 & temp1 & a & alg & Hs & Ha & Halg & _).
    simpl in Ha, Halg. rewrite Halg.
    destruct (sort_outputs_sorted _ _ _ _ _ _ Hs H0) as [Hinv Hm].
    pose proof (add_inputs_nodes_ok h _ inputv _ _ Hinv Hm Hsym) as Hn.
    set (nodes := add_inputs temp1 inputv nodes0) in *.
    pose proof (build_virtual_valid h outputv temp1 nodes Hok Hn) as Hvv.
    unfold topologically_valid.
    apply (valid_from_marked operand_slots [] [] alg).
    - intros ae E. unfold operand_slots. by rewrite E.
    - by apply input_instructions_marked, marked_refl.
    - constructor.
    - change alg with (a, alg).2. rewrite <- Ha.
      apply (allocate_valid live _ [] []); [done|done| |done].
      simpl. rewrite length_replicate.
      destruct Hn as (_ & _ & Hc).
      destruct (build_prefix h outputv (number_nodes 0 nodes temp1) nodes
          (mkBuild [] [] (next_output outputv 0) 0 (replicate (length nodes) 0%Z)))
        as (Hlen & _); [done|lia|done|apply out_pos_start|].
      unfold build. lia. }
  split; [done|]. intros k ae c Hk Hc.
  apply (valid_from_earlier operand_slots _ k ae); [done|done|].
  unfold operand_slots. apply list_elem_of_In, in_map_iff.
  exists c. split; [done|]. apply in_seq. lia.
Qed.

End TopologicalValidity.

(** ** Free variables *)

Section FreeVariables.
Context {T : Type} `{Zero T}.
Implicit Types (h : list (SXNode T)) (temp : nat -> nat).
Implicit Types (nodes : list (option nat)) (outputv : list (list nat)).

(** The first loop of [init] comes back. *)
Lemma fold_sort_output_returns fuel h outs nodes temp :
  acyclic h -> dfs_fuel h <= fuel ->
  (forall o, o ∈ outs -> o < length h) ->
  exists r, fold_left (sort_output fuel h) outs (Some (nodes, temp)) = Some r.
Proof.
  intros Hac Hf. revert nodes temp.
  induction outs as [|o outs IH]; intros nodes temp Ho; simpl; [by eexists|].
  destruct (sort_depth_first_terminates h fuel o nodes temp Hac) as [st ->];
    [apply Ho; by left|done|].
  apply IH. intros o' Ho'. apply Ho. by right.
Qed.

(** What is listed stays listed, and the node of every output is listed. *)
Lemma fold_sort_output_roots fuel h outs nodes temp nodes' temp' :
  fold_left (sort_output fuel h) outs (Some (nodes, temp)) = Some (nodes', temp') ->
  sorted_so_far h nodes temp ->
  (forall q, Some q ∈ nodes -> Some q ∈ nodes') /\
  (forall o, o ∈ outs -> Some o ∈ nodes').
Proof.
  revert nodes temp. induction outs as [|o outs IH]; intros nodes temp; simpl.
  { intros [= <- <-] _. split; [done|]. by intros o ?%elem_of_nil. }
  destruct (sort_depth_first fuel h (mkDfs [Some o] nodes temp)) as [st|] eqn:Es.
  2:{ by rewrite fold_sort_output_None. }
  intros Hf Hinv.
  destruct (sort_depth_first_sorted h fuel _ st Es Hinv)
    as (_ & Hinv' & [added Hadd] & Hst).
  simpl in Hadd, Hst.
  destruct (IH _ _ Hf (sorted_so_far_marker _ _ _ Hinv')) as [Hkeep Hroots].
  split.
  - intros q Hq. apply Hkeep. rewrite Hadd, !elem_of_app. by left; left.
  - intros o' [->|Ho']%elem_of_cons; [|by apply Hroots].
    apply Hkeep. apply elem_of_app. left. apply Hst. by left.
Qed.

(** The list is closed under operands. *)
Lemma sorted_so_far_reachable h nodes temp p q :
  sorted_so_far h nodes temp -> reachable h p q ->
  Some p ∈ nodes -> Some q ∈ nodes.
Proof.
  intros [_ H2]. induction 1 as [p|p i d q Hd _ IH]; [done|].
  intros Hp. apply IH.
  apply list_elem_of_split in Hp as (pre & post & ->).
  destruct (H2 pre p post eq_refl) as [Hdeps _].
  apply elem_of_app. left. by apply (Hdeps i).
Qed.

Lemma add_inputs_keeps temp inputv nodes x :
  x ∈ nodes -> x ∈ add_inputs temp inputv nodes.
Proof.
  rewrite add_inputs_concat, add_inputs_app, elem_of_app. by left.
Qed.

(** The symbols among the nodes are the entries of [symb_loc]. *)
Lemma build_symb_loc h outputv temp nodes st0 :
  arena_ok h = true ->
  b_algorithm st0 = [] -> b_symb_loc st0 = [] ->
  let st := fold_left (build_step h outputv temp) nodes st0 in
  length (b_algorithm st) = length nodes /\
  forall k p, (k, p) ∈ b_symb_loc st <->
              nodes !! k = Some (Some p) /\ isSymbolic h p = true.
Proof.
  intros Hok Hnil Hsnil.
  induction nodes as [|x nodes IH] using rev_ind.
  { simpl. rewrite Hnil, Hsnil. split; [done|]. intros k p.
    split; [by intros ?%elem_of_nil|by intros [? _]]. }
  destruct IH as [Hlen Hs]. rewrite fold_left_app. simpl.
  set (st := fold_left _ nodes st0) in *. clearbody st.
  assert (Hsnoc : forall k n, (nodes ++ [x]) !! k = Some n <->
            nodes !! k = Some n \/ (k = length nodes /\ n = x)).
  { intros k n. rewrite lookup_app_Some. simpl.
    split; (intros [?|[Hk1 Hk2]]; [by left|right]).
    - destruct (k - length nodes) as [|m] eqn:E; simpl in Hk2; [|done].
      split; [lia|congruence].
    - subst. split; [lia|]. by rewrite Nat.sub_diag. }
  destruct x as [p|].
  - destruct (build_step_node h outputv temp st p) as
      (ae & -> & _ & _ & -> & _); [by apply arena_ok_getOp|].
    rewrite length_app, Hlen, length_app. split; [done|].
    intros k q. rewrite Hsnoc.
    destruct (isSymbolic h p) eqn:Ep.
    + rewrite elem_of_app, list_elem_of_singleton, Hs.
      split.
      * intros [[? ?]|[= -> ->]]; split; auto.
      * intros [[?|[-> [= ->]]] ?]; [left|right]; done.
    + rewrite Hs. split.
      * intros [? ?]. split; auto.
      * intros [[?|[-> [= ->]]] ?]; [done|congruence].
  - destruct (build_step_marker h outputv temp st) as (-> & _ & -> & _).
    rewrite length_app, Hlen, length_app. split; [done|].
    intros k q. rewrite Hsnoc, Hs. split.
    + intros [? ?]. split; auto.
    + intros [[?|[_ [=]]] ?]. done.
Qed.

Lemma mark_symb_other symb_loc temp p :
  (forall k, (k, p) ∉ symb_loc) -> mark_symb symb_loc temp p = temp p.
Proof.
  unfold mark_symb. revert temp.
  induction symb_loc as [|[i q] l IH]; intros temp Hp; simpl; [done|].
  rewrite IH.
  - apply setTemp_ne. intros ->. apply (Hp i). by left.
  - intros k Hk. apply (Hp k). by right.
Qed.

Lemma mark_symb_marked symb_loc temp p :
  temp p <> 0 \/ (exists k, (k, p) ∈ symb_loc) ->
  mark_symb symb_loc temp p <> 0.
Proof.
  unfold mark_symb. revert temp.
  induction symb_loc as [|[i q] l IH]; intros temp Hp; simpl.
  { destruct Hp as [?|[k Hk%elem_of_nil]]; done. }
  apply IH. destruct (decide (p = q)) as [->|Hne].
  - left. by rewrite setTemp_eq.
  - rewrite setTemp_ne by done. destruct Hp as [?|[k Hk]]; [by left|right].
    apply elem_of_cons in Hk as [[= -> ->]|Hk]; [done|by exists k].
Qed.

Lemma input_nonzeros_temp ind nz v (alg : list (AlgEl T)) temp p :
  p ∉ v -> (input_nonzeros ind nz v (alg, temp)).2 p = temp p.
Proof.
  revert nz alg temp. induction v as [|q v IH]; intros nz alg temp Hp; simpl; [done|].
  apply not_elem_of_cons in Hp as [Hne Hp].
  destruct (temp q) as [|i] eqn:E; rewrite IH by done; [done|].
  by apply setTemp_ne.
Qed.

Lemma input_instructions_temp ind inputv (alg : list (AlgEl T)) temp p :
  p ∉ concat inputv -> (input_instructions ind inputv (alg, temp)).2 p = temp p.
Proof.
  revert ind alg temp. induction inputv as [|v inputv IH]; intros ind alg temp Hp;
    simpl; [done|].
  simpl in Hp. apply not_elem_of_app in Hp as [Hv Hp].
  destruct (input_nonzeros ind 0 v (alg, temp)) as [alg1 temp1] eqn:E.
  rewrite IH by done. change temp1 with (alg1, temp1).2. rewrite <- E.
  by apply input_nonzeros_temp.
Qed.

(** A symbol that still carries its mark is saved among the free ones. *)
Lemma locate_free_found symb_loc fv temp p :
  p ∈ fv \/ ((exists k, (k, p) ∈ symb_loc) /\ temp p <> 0) ->
  p ∈ (fold_left (fun '((fv, temp) : list nat * (nat -> nat)) '((_, p) : nat * nat) =>
         if Nat.eqb (temp p) 0 then (fv, temp) else (fv ++ [p], setTemp temp p 0))
       symb_loc (fv, temp)).1.
Proof.
  revert fv temp. induction symb_loc as [|[i q] l IH]; intros fv temp Hp; simpl.
  { destruct Hp as [?|[[k Hk%elem_of_nil] _]]; done. }
  destruct (Nat.eqb_spec (temp q) 0) as [E|E]; apply IH.
  - destruct Hp as [?|[[k Hk] Ht]]; [by left|right].
    split; [|done]. apply elem_of_cons in Hk as [[= -> ->]|Hk]; [done|by exists k].
  - destruct Hp as [?|[[k Hk] Ht]]; [left; apply elem_of_app; by left|].
    destruct (decide (p = q)) as [->|Hne].
    + left. apply elem_of_app. right. by apply list_elem_of_singleton.
    + right. split.
      * apply elem_of_cons in Hk as [[= -> ->]|Hk]; [done|by exists k].
      * by rewrite setTemp_ne.
Qed.

End FreeVariables.

(** ** C9: free variables are recorded and stop every evaluation *)

Section FreeVariablesReported.
Context {T : Type} `{Scalar T}.
Implicit Types (h : list (SXNode T)) (temp : nat -> nat).

(** Without [just_in_time], [init] returns as soon as the sort does. *)
Lemma init_returns fuel live h inputv outputv temp0 r :
  sort_outputs fuel h outputv temp0 = Some r ->
  exists this, init fuel live false h inputv outputv temp0 = Ret this.
Proof.
  intros Hs. unfold init. rewrite Hs. destruct r as [nodes0 temp1].
  destruct (sort_by_type h _) as [cs os].
  destruct (allocate live _ _) as [a alg].
  destruct (input_instructions 0 inputv _) as [alg' temp4].
  destruct (locate_free _ temp4) as [fv temp5]. by eexists.
Qed.

(** C9.  For every symbol reachable from an output that is not a declared
    input: [init] returns, the symbol is in the list [free_vars_], and
    every later [evaluateGen] fails with the error that names
    [free_vars_], before it runs any instruction.  This is [init] as the
    specification covers it, with the option [just_in_time] off, as it is
    unless it is asked for: just-in-time compilation is outside the scope
    of the specification. *)
Theorem free_variable_reported fuel live h inputv outputv temp0 o p :
  arena_ok h = true ->
  (forall q, temp0 q = 0) ->
  forallb (fun o => o <? length h) (concat outputv) = true ->
  dfs_fuel h <= fuel ->
  o ∈ concat outputv -> reachable h o p ->
  isSymbolic h p = true -> p ∉ concat inputv ->
  exists this,
    init fuel live false h inputv outputv temp0 = Ret this /\
    p ∈ free_vars_ this /\
    forall nfdir nadir e,
      evaluateGen this nfdir nadir e = casadi_error (FreeVariables (free_vars_ this)).
Proof.
  intros Hok H0 Hvalid Hfuel Ho Hreach Hsym Hin.
  destruct (fold_sort_output_returns fuel h (concat outputv) [] temp0)
    as [[nodes0 temp1] Hs]; [by apply arena_ok_acyclic|done| |].
  { intros o' Ho'. rewrite forallb_forall in Hvalid.
    apply list_elem_of_In, Hvalid in Ho'. by apply Nat.ltb_lt. }
  fold (sort_outputs fuel h outputv temp0) in Hs.
  destruct (init_returns fuel live h inputv outputv temp0 _ Hs) as [this Hi].
  exists this. split; [done|].
  assert (Hp : p ∈ free_vars_ this).
  { apply init_Ret in Hi as (_ & nodes0' & temp1' & a & alg & Hs' & Ha & _ & _ & _ & _ & Hfv).
    rewrite Hs in Hs'. injection Hs' as <- <-. simpl in Ha, Hfv. rewrite Hfv.
    destruct (sort_outputs_sorted _ _ _ _ _ _ Hs H0) as [Hinv _].
    destruct (fold_sort_output_roots fuel h _ [] temp0 _ _ Hs
                (sorted_so_far_nil h temp0 H0)) as [_ Hroots].
    assert (Hp0 : Some p ∈ nodes0).
    { apply (sorted_so_far_reachable h nodes0 temp1 o p); auto. }
    set (nodes := add_inputs temp1 inputv nodes0) in *.
    assert (Hpn : Some p ∈ nodes) by (by apply add_inputs_keeps).
    apply list_elem_of_lookup in Hpn as [k Hk].
    set (temp2 := number_nodes 0 nodes temp1) in *.
    destruct (build_symb_loc h outputv temp2 nodes
        (mkBuild [] [] (next_output outputv 0) 0 (replicate (length nodes) 0%Z)))
      as [_ Hsymb]; [done|done|done|].
    fold (build h outputv temp2 nodes) in Hsymb.
    assert (Hkp : (k, p) ∈ b_symb_loc (build h outputv temp2 nodes)) by (by apply Hsymb).
    unfold locate_free. apply locate_free_found. right.
    split; [by exists k|].
    rewrite input_instructions_temp by done.
    apply mark_symb_marked. right. by exists k. }
  split; [done|].
  intros nfdir nadir e. unfold evaluateGen.
  destruct (free_vars_ this) as [|x l]; [by apply elem_of_nil in Hp|done].
Qed.

End FreeVariablesReported.

(** ** C6: the operand that the sort descends into *)

Section Descent.
Context {T : Type}.
Implicit Types (h : list (SXNode T)) (temp : nat -> nat).

(** C6, as the code has it.  At a node that is not yet scheduled and has
    an operand that is not yet scheduled, the sort pushes the first of the
    not yet scheduled operands whose own number of operands ([ndep], the
    direct dependencies) is the largest. *)
Theorem sort_depth_first_descends h temp t s nodes :
  temp t = 0 ->
  (exists i d, dep h t i = Some d /\ temp d = 0) ->
  exists i d,
    dep h t i = Some d /\ temp d = 0 /\
    dfs_turn h (Some t) s nodes temp = mkDfs (Some d :: Some t :: s) nodes temp /\
    (forall i' d', dep h t i' = Some d' -> temp d' = 0 -> ndep h d' <= ndep h d) /\
    (forall i' d', i' < i -> dep h t i' = Some d' -> temp d' = 0 ->
       ndep h d' < ndep h d).
Proof.
  intros Ht (i0 & d0 & Hd0 & Ht0).
  destruct (dep_with_max_deps_spec h temp t)
    as [[_ Hall]|(i & d & Hi & Hd & Htd & Hmax & Hfirst)].
  { exfalso. by apply (Hall i0 d0). }
  exists i, d. repeat split; try done.
  unfold dfs_turn. rewrite Ht, Hi. simpl.
  assert ((0 <=? Z.of_nat i)%Z = true) as -> by (apply Z.leb_le; lia).
  by rewrite Nat2Z.id, Hd.
Qed.

End Descent.

(** The specification's wording fails on [x*y + (x+y)*(z+w)]: the sort
    descends into [x*y], which has two transitive dependencies, although
    [(x+y)*(z+w)] has six. *)
Lemma most_transitive_refuted :
  dfs_s (dfs_turn (T:=Z) Examples.unbalanced (Some 8) [] [] Examples.temp0)
    = [Some 4; Some 8] /\
  transitive_deps (T:=Z) Examples.unbalanced 4 = 2 /\
  transitive_deps (T:=Z) Examples.unbalanced 7 = 6 /\
  ~ descends_into_most_transitive (T:=Z) Examples.unbalanced Examples.temp0 8.
Proof.
  do 3 (split; [by vm_compute|]). intros Hc.
  specialize (Hc [] [] 4 [Some 8] eq_refl 1 7 eq_refl eq_refl).
  vm_compute in Hc. lia.
Qed.

(** ** C8: the adjoint seeds of [jacGen] *)

Section AdjointSeeds.
Context {T : Type} `{Scalar T}.
Implicit Types (seed : list (list T)) (D : CRSSparsity).

(** The entry that a seed holds for the nonzero [c] of the matrix [ind]. *)
Local Abbreviation entry seed ind c :=
  (default zero (default [] (seed !! ind) !! c)).








End AdjointSeeds.

(** The hypothesis on the rows is needed: were a row to name a nonzero
    twice, the assignment would leave 1 where the accumulation gives 2. *)
Remark adjoint_seed_overwrites :
  rows_are_sets Examples.twice = false /\
  adjoint_seeds Examples.one_output Examples.twice 0 = [Some [[1%Z]]] /\
  adjoint_seeds_accumulating Examples.one_output Examples.twice 0
    = [Some [[2%Z]]].
Proof. by vm_compute. Qed.

(** ** C7: reference counts and the stack of unused places *)

Section SlotAllocation.
Context {T : Type}.
Implicit Types (alg : list (AlgEl T)) (ae : AlgEl T) (st : alloc_state).

Lemma fold_consume_frame ops st :
  a_place (fold_left consume ops st) = a_place st /\
  a_worksize (fold_left consume ops st) = a_worksize st.
Proof.
  revert st. induction ops as [|c ops IH]; intros st; simpl; [done|].
  destruct (IH (consume st c)) as [-> ->]. done.
Qed.

(** Every consumption lowers the count of the operand by one. *)
Lemma fold_consume_refcount ops st j :
  a_refcount (fold_left consume ops st) !! j =
  (fun n => (n - Z.of_nat (count_occ Nat.eq_dec ops j))%Z) <$> a_refcount st !! j.
Proof.
  revert st. induction ops as [|c ops IH]; intros st; simpl.
  { destruct (a_refcount st !! j); simpl; f_equal; lia. }
  rewrite IH. unfold consume at 1. simpl.
  destruct (Nat.eq_dec c j) as [->|Hne].
  - destruct (a_refcount st !! j) as [n|] eqn:E.
    + rewrite list_lookup_insert_eq by (by apply lookup_lt_Some in E).
      simpl. f_equal. lia.
    + rewrite list_insert_ge by (by apply lookup_ge_None). by rewrite E.
  - rewrite list_lookup_insert_ne by done. done.
Qed.

Lemma consume_unused st x :
  a_unused (consume st x) =
  if (default 0%Z (a_refcount st !! x) - 1 =? 0)%Z
  then default 0 (a_place st !! x) :: a_unused st else a_unused st.
Proof. reflexivity. Qed.

Lemma consume_refcount st x :
  a_refcount (consume st x) =
  <[x := (default 0%Z (a_refcount st !! x) - 1)%Z]> (a_refcount st).
Proof. reflexivity. Qed.

(** What the consumptions push: the places of operands whose count reached
    zero, and of all of them. *)
Lemma fold_consume_unused ops st :
  exists pushed,
    a_unused (fold_left consume ops st) = pushed ++ a_unused st /\
    (forall s, s ∈ pushed ->
       exists ch n, ch ∈ ops /\ s = default 0 (a_place st !! ch) /\
         a_refcount (fold_left consume ops st) !! ch = Some n /\ (n <= 0)%Z) /\
    (forall ch, ch ∈ ops ->
       a_refcount (fold_left consume ops st) !! ch = Some 0%Z ->
       default 0 (a_place st !! ch) ∈ pushed).
Proof.
  induction ops as [|x ops IH] using rev_ind.
  { exists []. split; [done|]. split; [by intros s ?%elem_of_nil|].
    by intros ch ?%elem_of_nil. }
  destruct IH as (pushed & Hu & Hp & Hz).
  rewrite fold_left_app. simpl fold_left.
  set (st1 := fold_left consume ops st) in *.
  destruct (fold_consume_frame ops st) as [Hpl _]. fold st1 in Hpl.
  rewrite consume_unused, consume_refcount, Hpl, Hu.
  set (remaining := (default 0%Z (a_refcount st1 !! x) - 1)%Z).
  assert (Hdec : forall ch n, a_refcount st1 !! ch = Some n ->
            exists n', <[x := remaining]> (a_refcount st1) !! ch = Some n' /\
                       (n' <= n)%Z).
  { intros ch n Hn. destruct (decide (x = ch)) as [->|Hne].
    - rewrite list_lookup_insert_eq by (by apply lookup_lt_Some in Hn).
      unfold remaining. rewrite Hn. simpl. eexists. split; [done|lia].
    - rewrite list_lookup_insert_ne by done. exists n. split; [done|lia]. }
  assert (Hold : forall s, s ∈ pushed ->
            exists ch n, ch ∈ ops ++ [x] /\ s = default 0 (a_place st !! ch) /\
              <[x := remaining]> (a_refcount st1) !! ch = Some n /\ (n <= 0)%Z).
  { intros s Hs. destruct (Hp s Hs) as (ch & n & Hch & -> & Hn & Hle).
    destruct (Hdec ch n Hn) as (n' & Hn' & Hle').
    exists ch, n'. split; [apply elem_of_app; by left|]. split; [done|].
    split; [done|lia]. }
  assert (Hkeep : forall ch, ch ∈ ops ++ [x] -> ch <> x ->
            <[x := remaining]> (a_refcount st1) !! ch = Some 0%Z ->
            default 0 (a_place st !! ch) ∈ pushed).
  { intros ch Hch Hne H0. apply Hz.
    - apply elem_of_app in Hch as [?|Hx]; [done|].
      by apply list_elem_of_singleton in Hx.
    - by rewrite list_lookup_insert_ne in H0 by done. }
  destruct (Z.eqb_spec remaining 0) as [E|E].
  - exists (default 0 (a_place st !! x) :: pushed). split; [done|]. split.
    + intros s [->|Hs]%elem_of_cons; [|by apply Hold].
      exists x, 0%Z. split; [apply elem_of_app; right; by left|]. split; [done|].
      split; [|lia].
      destruct (a_refcount st1 !! x) as [n|] eqn:En.
      * rewrite list_lookup_insert_eq by (by apply lookup_lt_Some in En).
        by rewrite E.
      * subst remaining. rewrite ?En in E. simpl in E. lia.
    + intros ch Hch H0. destruct (decide (ch = x)) as [->|Hne]; [by left|].
      right. by apply Hkeep.
  - exists pushed. split; [done|]. split; [done|].
    intros ch Hch H0. destruct (decide (ch = x)) as [->|Hne]; [|by apply Hkeep].
    exfalso. destruct (a_refcount st1 !! x) as [n|] eqn:En.
    + rewrite list_lookup_insert_eq in H0 by (by apply lookup_lt_Some in En).
      congruence.
    + rewrite list_insert_ge in H0 by (by apply lookup_ge_None). congruence.
Qed.

(** Without [live_variables] the results take the places
    [worksize, worksize+1, ...] in order. *)
Lemma allocate_fresh alg st :
  map res (List.filter (fun ae => negb (Operation_eqb (op ae) OP_OUTPUT))
                       (allocate false st alg).2) =
  seq (a_worksize st)
      (length (List.filter (fun ae => negb (Operation_eqb (op ae) OP_OUTPUT)) alg)).
Proof.
  revert st. induction alg as [|ae alg IH]; intros st; simpl; [done|].
  unfold alloc_step.
  pose proof (consume_deps_worksize ae st) as Hw.
  destruct (store false ae (consume_deps ae st)) as [st2 ae2] eqn:Es.
  specialize (IH st2).
  destruct (allocate false st2 alg) as [st3 alg'] eqn:Ea. simpl in *.
  rewrite op_make_binary, op_locate_deps.
  unfold store in Es.
  destruct (Operation_eqb (op ae) OP_OUTPUT) eqn:Eo.
  - injection Es as <- <-. rewrite Eo. simpl. by rewrite IH, Hw.
  - injection Es as <- <-. simpl. rewrite Eo. simpl.
    rewrite res_make_binary, res_locate_deps. simpl.
    rewrite IH. simpl. by rewrite Hw.
Qed.

(** C7, as the code has it.  For every instruction of the second loop of
    [init]: every consumption of an operand lowers its reference count by
    one; the places of the operands whose count reaches zero, and only
    those, are pushed on the stack of unused places; with [live_variables]
    a result takes the place on top of that stack, which can be a place
    that the instruction has just freed itself, and a fresh place when the
    stack is empty; an output marker takes no place.  Without
    [live_variables], the results take fresh places in order, so that no
    place is ever used twice. *)
Theorem slot_allocation live st ae :
  let st1 := consume_deps ae st in
  let st2 := (store live ae st1).1 in
  let ae2 := (store live ae st1).2 in
  (forall j, a_refcount st1 !! j =
     (fun n => (n - Z.of_nat (count_occ Nat.eq_dec (operand_slots ae) j))%Z)
       <$> a_refcount st !! j) /\
  a_unused st1 = freed_by ae st ++ a_unused st /\
  (forall s, s ∈ freed_by ae st ->
     exists c n, c < ndeps (op ae) /\ s = default 0 (a_place st !! arg_i ae c) /\
       a_refcount st1 !! arg_i ae c = Some n /\ (n <= 0)%Z) /\
  (forall c, c < ndeps (op ae) ->
     a_refcount st1 !! arg_i ae c = Some 0%Z ->
     default 0 (a_place st !! arg_i ae c) ∈ freed_by ae st) /\
  (op ae <> OP_OUTPUT ->
     match live, a_unused st1 with
     | true, top :: rest =>
         res ae2 = top /\ a_unused st2 = rest /\ a_worksize st2 = a_worksize st
     | _, _ =>
         res ae2 = a_worksize st /\ a_unused st2 = a_unused st1 /\
         a_worksize st2 = S (a_worksize st)
     end) /\
  (op ae = OP_OUTPUT -> st2 = st1 /\ ae2 = ae) /\
  (forall alg,
     map res (List.filter (fun ae => negb (Operation_eqb (op ae) OP_OUTPUT))
                          (allocate false st alg).2) =
     seq (a_worksize st)
         (length (List.filter (fun ae => negb (Operation_eqb (op ae) OP_OUTPUT)) alg))).
Proof.
  intros st1 st2 ae2.
  set (ops := map (arg_i ae) (rev (seq 0 (ndeps (op ae))))).
  assert (Hops : forall ch, ch ∈ ops <-> exists c, c < ndeps (op ae) /\ ch = arg_i ae c).
  { intros ch. unfold ops. rewrite list_elem_of_In, in_map_iff. split.
    - intros (c & <- & Hc). apply in_rev, in_seq in Hc. exists c. split; [lia|done].
    - intros (c & Hc & ->). exists c. split; [done|]. apply (in_rev (seq 0 _)), in_seq. lia. }
  destruct (fold_consume_unused ops st) as (pushed & Hu & Hp & Hz).
  change (fold_left consume ops st) with st1 in Hu, Hp, Hz.
  assert (Hf : freed_by ae st = pushed).
  { unfold freed_by. change (consume_deps ae st) with st1. simpl.
    rewrite Hu, length_app.
    replace (_ + _ - _) with (length pushed) by lia. by rewrite take_app_length. }
  rewrite Hf. split; [|split; [done|split; [|split; [|split; [|split]]]]].
  - intros j. unfold st1, consume_deps. rewrite fold_consume_refcount.
    destruct (a_refcount st !! j); [|done]. simpl. do 3 f_equal.
    unfold operand_slots. fold ops.
    apply Permutation.Permutation_count_occ.
    unfold ops. rewrite map_rev. symmetry. apply Permutation.Permutation_rev.
  - intros s Hs. destruct (Hp s Hs) as (ch & n & Hch & -> & Hn & Hle).
    apply Hops in Hch as (c & Hc & ->). by exists c, n.
  - intros c Hc H0. apply Hz; [|done]. apply Hops. by exists c.
  - intros Ho. apply Operation_eqb_neq in Ho.
    unfold st2, ae2, store. rewrite Ho.
    assert (Hw : a_worksize st1 = a_worksize st) by apply consume_deps_worksize.
    destruct live, (a_unused st1); simpl; by rewrite ?Hw.
  - intros Ho. unfold st2, ae2, store. by rewrite Ho.
  - intros alg. apply allocate_fresh.
Qed.

End SlotAllocation.

(** The specification's wording of the reuse fails on [sin(x)]: the sine
    takes the place that its own operand has just left. *)
Lemma reuse_only_later_refuted :
  algorithm_ (Examples.linearized (T:=Z) Examples.sine [[0]] [[1]]) =
    [mkAlgEl OP_INPUT 0 0%Z 0 0; mkAlgEl OP_SIN 0 0%Z 0 0;
     mkAlgEl OP_OUTPUT 0 0%Z 0 0] /\
  ~ (let nodes := [Some 0; Some 1; None] in
     let b := build (T:=Z) Examples.sine [[1]]
                (number_nodes 0 nodes Examples.temp0) nodes in
     reuse_only_later true (mkAlloc (b_refcount b) (replicate 3 0) [] 0)
       (b_algorithm b)).
Proof.
  split; [by vm_compute|]. intros Hc. cbv zeta in Hc.
  set (nodes := [Some 0; Some 1; None]) in Hc.
  set (b := build (T:=Z) Examples.sine [[1]]
              (number_nodes 0 nodes Examples.temp0) nodes) in Hc.
  destruct (b_algorithm b) as [|ae0 [|ae1 post]] eqn:E; try by vm_compute in E.
  specialize (Hc [ae0] ae1 post eq_refl).
  vm_compute in E. injection E as <- <- <-.
  apply (Hc 0); vm_compute; [done|by left].
Qed.

(** ** Reading and writing vectors *)

Section Vectors.
Context {T : Type} `{Zero T}.
Implicit Types (v w : list T).

Lemma length_wr w i x : length (wr w i x) = length w.
Proof. apply length_insert. Qed.

Lemma rd_wr w i x s :
  s < length w -> rd (wr w i x) s = if Nat.eqb s i then x else rd w s.
Proof.
  intros Hs. unfold rd, wr. destruct (Nat.eqb_spec s i) as [->|Hne].
  - by rewrite list_lookup_insert_eq.
  - by rewrite list_lookup_insert_ne.
Qed.

Lemma rd_wr_ne w i x s : s <> i -> rd (wr w i x) s = rd w s.
Proof. intros Hne. unfold rd, wr. by rewrite list_lookup_insert_ne. Qed.

Lemma rd_ge w s : length w <= s -> rd w s = zero.
Proof. intros Hs. unfold rd. by rewrite lookup_ge_None_2. Qed.

(** Two vectors of one length with the same entries are equal. *)
Lemma rd_ext v w :
  length v = length w -> (forall s, s < length v -> rd v s = rd w s) -> v = w.
Proof.
  intros Hl Hrd. apply list_eq_same_length with (length v); [done|done|].
  intros i x y Hi Hx Hy. specialize (Hrd i Hi). unfold rd in Hrd.
  rewrite Hx, Hy in Hrd. done.
Qed.

End Vectors.

(** ** C4: the propagation of dependency bits *)

Section SparsityPropagation.
Context {T : Type}.
Implicit Types (alg pre post : list (AlgEl T)) (it : AlgEl T).
Implicit Types (iwork : list bvec_t) (fx : FXInternal bvec_t).

Lemma is_builtin_cases (o : Operation) :
  is_builtin o = true \/ o = OP_CONST \/ o = OP_PARAMETER \/ o = OP_INPUT \/ o = OP_OUTPUT.
Proof. destruct o; simpl; auto. Qed.

Lemma sp_fwd_step_builtin iwork fx it :
  is_builtin (op it) = true ->
  sp_fwd_step (iwork, fx) it =
  (wr iwork (res it) (N.lor (rd iwork (arg_i0 it)) (rd iwork (arg_i1 it))), fx).
Proof. unfold sp_fwd_step. by destruct (op it). Qed.

Lemma sp_adj_step_builtin iwork fx it :
  is_builtin (op it) = true ->
  sp_adj_step (iwork, fx) it =
  (let seed := rd iwork (res it) in
   let iwork1 := wr iwork (res it) 0%N in
   let iwork2 := wr iwork1 (arg_i0 it) (N.lor (rd iwork1 (arg_i0 it)) seed) in
   wr iwork2 (arg_i1 it) (N.lor (rd iwork2 (arg_i1 it)) seed), fx).
Proof. unfold sp_adj_step. by destruct (op it). Qed.

(** C4.  For every algorithm and every one of its instructions.  Forward:
    a unary or binary instruction leaves in its result slot the bitwise OR
    of its two operand slots, a constant or a symbol leaves the all-zero
    word.  Backward: a unary or binary instruction clears its result slot
    and ORs the word that was there into each of its operand slots (an
    operand that shares the slot of the result starts from the cleared
    word).  The constants of the algorithm play no part. *)
Theorem spEvaluate_propagates pre it post iwork fx :
  (let st := spEvaluate pre true (iwork, fx) in
   let st' := spEvaluate (pre ++ [it]) true (iwork, fx) in
   (is_builtin (op it) = true ->
      st' = (wr st.1 (res it) (N.lor (rd st.1 (arg_i0 it)) (rd st.1 (arg_i1 it))), st.2)) /\
   (op it = OP_CONST \/ op it = OP_PARAMETER ->
      st' = (wr st.1 (res it) 0%N, st.2))) /\
  (let st := spEvaluate post false (iwork, fx) in
   let st' := spEvaluate (it :: post) false (iwork, fx) in
   let seed := rd st.1 (res it) in
   is_builtin (op it) = true ->
     st'.2 = st.2 /\ length st'.1 = length st.1 /\
     forall s, s < length st.1 ->
       rd st'.1 s =
       let cleared := if Nat.eqb s (res it) then 0%N else rd st.1 s in
       if Nat.eqb s (arg_i0 it) || Nat.eqb s (arg_i1 it)
       then N.lor cleared seed else cleared) /\
  (forall (d : T) fwd,
     spEvaluate (map (with_constant d) (pre ++ it :: post)) fwd (iwork, fx) =
     spEvaluate (pre ++ it :: post) fwd (iwork, fx)).
Proof.
  split; [|split].
  - unfold spEvaluate. rewrite fold_left_app. cbn [fold_left].
    destruct (fold_left sp_fwd_step pre (iwork, fx)) as [w f]. cbn [fst snd].
    split.
    + intros Hb. by apply sp_fwd_step_builtin.
    + unfold sp_fwd_step. by intros [-> | ->].
  - unfold spEvaluate. change (rev (it :: post)) with (rev post ++ [it]).
    rewrite fold_left_app. cbn [fold_left].
    destruct (fold_left sp_adj_step (rev post) (iwork, fx)) as [w f].
    cbn [fst snd]. intros Hb. rewrite sp_adj_step_builtin by done. cbn [fst snd].
    split; [done|]. split; [by rewrite !length_wr|].
    intros s Hs. rewrite !rd_wr by (by rewrite ?length_wr).
    destruct (Nat.eqb_spec s (arg_i1 it)) as [E1|E1],
             (Nat.eqb_spec s (arg_i0 it)) as [E0|E0],
             (Nat.eqb_spec s (res it)) as [Er|Er];
      rewrite <- ?E1, <- ?E0, <- ?Er; simpl;
      repeat first
        [ rewrite rd_wr by (rewrite ?length_wr; done)
        | rewrite Nat.eqb_refl
        | rewrite N.lor_0_l
        | rewrite N.lor_diag
        | match goal with
          | H : ?a <> ?b |- context [Nat.eqb ?a ?b] =>
              rewrite (proj2 (Nat.eqb_neq a b) H)
          | H : ?b <> ?a |- context [Nat.eqb ?a ?b] =>
              rewrite (proj2 (Nat.eqb_neq a b) (not_eq_sym H))
          end ];
      try reflexivity;
      try (rewrite <- N.lor_assoc, N.lor_diag; reflexivity).
  - intros d fwd. unfold spEvaluate.
    assert (Hf : forall l st, fold_left sp_fwd_step (map (with_constant d) l) st =
                              fold_left sp_fwd_step l st).
    { induction l as [|a l IH]; intros st; simpl; [done|]. by rewrite IH. }
    assert (Ha : forall l st, fold_left sp_adj_step (map (with_constant d) l) st =
                              fold_left sp_adj_step l st).
    { induction l as [|a l IH]; intros st; simpl; [done|]. by rewrite IH. }
    destruct fwd; [apply Hf|]. rewrite <- map_rev. apply Ha.
Qed.

End SparsityPropagation.

(** ** C2: the adjoint accumulators end at zero *)

Section AdjointClosure.
Context {T : Type} `{Scalar T}.
Implicit Types (alg pre : list (AlgEl T)) (ae : AlgEl T) (w : list T).

Lemma valid_from_snoc (reads : AlgEl T -> list nat) pre alg ae :
  valid_from reads pre (alg ++ [ae]) =
  valid_from reads pre alg && forallb (produced (pre ++ alg)) (reads ae).
Proof.
  revert pre. induction alg as [|a alg IH]; intros pre; simpl.
  - by rewrite app_nil_r, andb_true_r.
  - rewrite IH, <- app_assoc. simpl. by rewrite andb_assoc.
Qed.

Lemma produced_snoc_other pre ae s :
  produced pre s = false -> (op ae <> OP_OUTPUT -> res ae <> s) ->
  produced (pre ++ [ae]) s = false.
Proof.
  rewrite produced_snoc. intros -> Hne. simpl.
  destruct (Operation_eqb_neq (op ae) OP_OUTPUT) as [Ho _].
  destruct (Operation_eqb (op ae) OP_OUTPUT); [done|]. simpl.
  apply Nat.eqb_neq. by apply Hne, Ho.
Qed.

Lemma produced_true_false pre a s :
  produced pre a = true -> produced pre s = false -> s <> a.
Proof. intros Ha Hs ->. congruence. Qed.

Lemma length_adj_step dir st ae :
  length (sw_work (adj_step dir st ae)) = length (sw_work st).
Proof. unfold adj_step. destruct (op ae); simpl; by rewrite ?length_wr. Qed.

(** One instruction of the reverse sweep: the accumulators that can be
    nonzero afterwards belong to instructions that are still to come. *)
Lemma adj_step_quiet dir pre ae st :
  forallb (produced pre) (sweep_reads ae) = true ->
  quiet (pre ++ [ae]) (sw_work st) ->
  quiet pre (sw_work (adj_step dir st ae)).
Proof.
  intros Hr Hq s Hs Hp. rewrite length_adj_step in Hs.
  unfold adj_step, sweep_reads in *.
  destruct (op ae) eqn:Eo; simpl in *;
    try (* unary or binary operation, or a parameter *)
      (apply andb_prop in Hr as [H0 Hr]; apply andb_prop in Hr as [H1 _];
       pose proof (produced_true_false _ _ _ H0 Hp) as Hn0;
       pose proof (produced_true_false _ _ _ H1 Hp) as Hn1;
       rewrite 2!rd_wr_ne by done;
       destruct (decide (s = res ae)) as [->|Hnr];
       [ by rewrite rd_wr, Nat.eqb_refl
       | rewrite rd_wr_ne by done; apply Hq; [done|];
         apply produced_snoc_other; [done|by intros _ ?] ]).
  - (* OP_CONST *)
    destruct (decide (s = res ae)) as [->|Hne].
    + by rewrite rd_wr, Nat.eqb_refl.
    + rewrite rd_wr_ne by done. apply Hq; [done|].
      apply produced_snoc_other; [done|by intros _ ?].
  - (* OP_INPUT *)
    destruct (decide (s = res ae)) as [->|Hne].
    + by rewrite rd_wr, Nat.eqb_refl.
    + rewrite rd_wr_ne by done. apply Hq; [done|].
      apply produced_snoc_other; [done|by intros _ ?].
  - (* OP_OUTPUT *)
    apply andb_prop in Hr as [H0 _].
    pose proof (produced_true_false _ _ _ H0 Hp) as Hn0.
    rewrite rd_wr_ne by done. apply Hq; [done|].
    apply produced_snoc_other; [done|]. by rewrite Eo.
Qed.

Lemma length_fold_adj_step dir l st :
  length (sw_work (fold_left (adj_step dir) l st)) = length (sw_work st).
Proof.
  revert st. induction l as [|a l IH]; intros st; simpl; [done|].
  by rewrite IH, length_adj_step.
Qed.

(** The reverse sweep over a valid algorithm. *)
Lemma adj_fold_quiet dir alg st :
  valid_from sweep_reads [] alg = true ->
  quiet alg (sw_work st) ->
  quiet [] (sw_work (fold_left (adj_step dir) (rev alg) st)).
Proof.
  revert st. induction alg as [|ae alg IH] using rev_ind; intros st Hv Hq; [done|].
  rewrite valid_from_snoc in Hv. apply andb_prop in Hv as [Hv Hr].
  rewrite rev_unit. simpl. apply IH; [done|].
  by apply adj_step_quiet.
Qed.

Lemma quiet_nil_zero w : quiet [] w -> w = replicate (length w) zero.
Proof.
  intros Hq. apply rd_ext; [by rewrite length_replicate|].
  intros s Hs. unfold rd at 2. rewrite lookup_replicate_2 by done. simpl.
  by apply Hq.
Qed.

Lemma quiet_zero pre n : quiet pre (replicate n zero).
Proof.
  intros s Hs _. rewrite length_replicate in Hs.
  unfold rd. by rewrite lookup_replicate_2.
Qed.

(** The reverse sweep of one direction over a valid algorithm, started on
    accumulators that are all zero, ends on accumulators that are all
    zero. *)
Lemma adj_sweep_closed alg pdwork fx dir n :
  sweep_valid alg = true ->
  (adj_sweep alg pdwork (replicate n zero, fx) dir).1 = replicate n zero.
Proof.
  intros Hv. unfold adj_sweep. cbn [fst snd].
  set (st := mkSweep _ _ _).
  pose proof (adj_fold_quiet dir alg st Hv (quiet_zero alg n)) as Hq.
  apply quiet_nil_zero in Hq. rewrite Hq, length_fold_adj_step. simpl.
  by rewrite length_replicate.
Qed.

Lemma adj_sweeps_closed alg pdwork fx dirs n :
  sweep_valid alg = true ->
  (fold_left (adj_sweep alg pdwork) dirs (replicate n zero, fx)).1 = replicate n zero.
Proof.
  intros Hv. revert fx. induction dirs as [|dir dirs IH]; intros fx; [done|].
  simpl. pose proof (adj_sweep_closed alg pdwork fx dir n Hv) as Hc.
  destruct (adj_sweep alg pdwork (replicate n zero, fx) dir) as [w fx'].
  simpl in Hc. subst w. apply IH.
Qed.

Lemma length_fwd_step dir st ae :
  length (sw_work (fwd_step dir st ae)) = length (sw_work st).
Proof. unfold fwd_step. destruct (op ae); simpl; by rewrite ?length_wr. Qed.

Lemma length_fold_fwd_step dir l st :
  length (sw_work (fold_left (fwd_step dir) l st)) = length (sw_work st).
Proof.
  revert st. induction l as [|a l IH]; intros st; simpl; [done|].
  by rewrite IH, length_fwd_step.
Qed.

Lemma length_fwd_sweeps alg pdwork dirs st :
  length (fold_left (fwd_sweep alg pdwork) dirs st).1 = length st.1.
Proof.
  revert st. induction dirs as [|dir dirs IH]; intros st; simpl; [done|].
  rewrite IH. unfold fwd_sweep. simpl. by rewrite length_fold_fwd_step.
Qed.

Lemma length_tape_steps alg st :
  length (fold_left tape_step alg st).1.1 = length st.1.1.
Proof.
  revert st. induction alg as [|a alg IH]; intros st; simpl; [done|].
  rewrite IH. destruct st as [[w tp] fx]. unfold tape_step.
  destruct (op a); simpl; by rewrite ?length_wr.
Qed.

(** For every algorithm that is valid for the sweeps, all input values
    and all seeds: the reverse sweep of every adjoint direction, started on
    accumulators that are all zero, leaves every accumulator exactly zero;
    and when [evaluateGen] returns from a call with adjoint directions,
    every entry of the work vector is exactly zero. *)
Lemma adj_closure_valid (this : @SXFunctionInternal T) nfdir nadir e :
  sweep_valid (algorithm_ this) = true ->
  free_vars_ this = [] ->
  0 < nadir ->
  (forall pdwork fx dir n,
     (adj_sweep (algorithm_ this) pdwork (replicate n zero, fx) dir).1
     = replicate n zero) /\
  exists e', evaluateGen this nfdir nadir e = Ret e' /\
             work_ e' = replicate (length (work_ e)) zero.
Proof.
  intros Hv Hfree Hn. split.
  { intros pdwork fx dir n. by apply adj_sweep_closed. }
  unfold evaluateGen. rewrite Hfree. simpl.
  assert ((0 <? nadir) = true) as -> by (by apply Nat.ltb_lt).
  rewrite orb_true_r. simpl.
  pose proof (length_tape_steps (algorithm_ this) (work_ e, [], fx_ e)) as Hl.
  destruct (fold_left tape_step (algorithm_ this) (work_ e, [], fx_ e))
    as [[work tape] fx].
  simpl in Hl. eexists. split; [done|]. simpl.
  rewrite adj_sweeps_closed by done.
  rewrite length_fwd_sweeps. simpl. by rewrite Hl.
Qed.

End AdjointClosure.

(** ** Exact arithmetic *)

(** The derivative sweeps are linear maps when the scalars form a
    commutative ring; the properties below are those of the sweeps over
    such scalars.  ([double] is not one of them: see the examples over
    binary64 at the end.) *)
Section ExactArithmetic.
Context {T : Type} `{Scalar T}.
Variables (sub : T -> T -> T) (opp : T -> T).
Hypothesis Rth : ring_theory zero one add mul sub opp (@eq T).
Add Ring Tring : Rth.
Local Set Default Proof Using "All".

Implicit Types (u v w : list T) (a b : T).

Lemma dot_nil_l v : dot [] v = zero.
Proof. reflexivity. Qed.

Lemma dot_cons a b u v : dot (a :: u) (b :: v) = add (mul a b) (dot u v).
Proof. reflexivity. Qed.

Lemma dot_wr_l u v i a :
  length u = length v ->
  dot (wr u i a) v = add (dot u v) (mul (sub a (rd u i)) (rd v i)).
Proof.
  revert v i. induction u as [|c u IH]; intros [|y v] i Hl; try discriminate Hl.
  - unfold wr, rd. simpl. rewrite !dot_nil_l. ring.
  - destruct i as [|i].
    + unfold wr, rd. simpl. rewrite !dot_cons. ring.
    + unfold wr. simpl. rewrite !dot_cons. fold (wr u i a).
      rewrite IH by (simpl in Hl; lia). unfold rd. simpl. ring.
Qed.

Lemma dot_wr_r u v i a :
  length u = length v ->
  dot u (wr v i a) = add (dot u v) (mul (rd u i) (sub a (rd v i))).
Proof.
  revert v i. induction u as [|c u IH]; intros [|y v] i Hl; try discriminate Hl.
  - unfold wr, rd. simpl. rewrite !dot_nil_l. ring.
  - destruct i as [|i].
    + unfold wr, rd. simpl. rewrite !dot_cons. ring.
    + unfold wr. simpl. rewrite !dot_cons. fold (wr v i a).
      rewrite IH by (simpl in Hl; lia). unfold rd. simpl. ring.
Qed.

Lemma dot_zero_l n v : dot (replicate n zero) v = zero.
Proof.
  revert v. induction n as [|n IH]; intros [|y v]; simpl; try reflexivity.
  rewrite dot_cons, IH. ring.
Qed.

Lemma sum_over_app {A} (l1 l2 : list A) (f : A -> T) :
  sum_over (l1 ++ l2) f = add (sum_over l1 f) (sum_over l2 f).
Proof.
  induction l1 as [|x l1 IH]; simpl; [ring|]. rewrite IH. ring.
Qed.

Lemma sum_over_ext {A} (l : list A) (f g : A -> T) :
  (forall x, x ∈ l -> f x = g x) -> sum_over l f = sum_over l g.
Proof using Type.
  induction l as [|x l IH]; intros E; simpl; [done|].
  rewrite E by (by left). rewrite IH; [done|]. intros y Hy. apply E. by right.
Qed.

Lemma sum_over_perm {A} (l1 l2 : list A) (f : A -> T) :
  l1 ≡ₚ l2 -> sum_over l1 f = sum_over l2 f.
Proof.
  induction 1 as [|x l1 l2 _ IH|x y l|l1 l2 l3 _ IH1 _ IH2]; simpl.
  - done.
  - by rewrite IH.
  - ring.
  - by rewrite IH1.
Qed.

Lemma sum_over_map {A B} (g : A -> B) (l : list A) (f : B -> T) :
  sum_over (map g l) f = sum_over l (fun x => f (g x)).
Proof using Type. induction l as [|x l IH]; simpl; [done|]. by rewrite IH. Qed.

(** The inner product of two vectors, entry by entry. *)
Lemma dot_sum u v :
  length u = length v ->
  dot u v = sum_over (seq 0 (length u)) (fun j => mul (rd u j) (rd v j)).
Proof.
  revert v. induction u as [|a u IH]; intros [|x v] Hl; try discriminate Hl; [done|].
  simpl. rewrite dot_cons, IH by (simpl in Hl; lia).
  rewrite <- seq_shift, sum_over_map. reflexivity.
Qed.

(** The inner product of two bundles, place by place. *)
Lemma dot2_sum_from ind (us vs : list (list T)) (pre_u pre_v : list (list T)) :
  length pre_u = ind -> length pre_v = ind ->
  Forall2 (fun u v => length u = length v) us vs ->
  dot2 us vs =
  sum_over (locations_from ind (map length us))
           (fun loc => mul (rd2 (pre_u ++ us) loc) (rd2 (pre_v ++ vs) loc)).
Proof.
  intros Hu Hv Hs. revert ind pre_u pre_v Hu Hv.
  induction Hs as [|u v us vs Hl _ IH]; intros ind pre_u pre_v Hu Hv; [done|].
  simpl. rewrite sum_over_app, sum_over_map.
  change (dot2 (u :: us) (v :: vs)) with (add (dot u v) (dot2 us vs)).
  f_equal.
  - rewrite dot_sum by done. apply sum_over_ext. intros j _.
    unfold rd2. simpl.
    rewrite !list_lookup_middle by done. done.
  - rewrite (IH (S ind) (pre_u ++ [u]) (pre_v ++ [v]))
      by (rewrite length_app; simpl; lia).
    by rewrite <- !app_assoc.
Qed.

Lemma dot2_sum (us vs : list (list T)) :
  Forall2 (fun u v => length u = length v) us vs ->
  dot2 us vs =
  sum_over (locations (map length us)) (fun loc => mul (rd2 us loc) (rd2 vs loc)).
Proof. intros Hs. by apply (dot2_sum_from 0 us vs [] []). Qed.

End ExactArithmetic.

(** ** Bundles of seeds and sensitivities *)

Section Bundles.
Context {T : Type} `{Scalar T}.
Implicit Types (b : list (list T)) (loc : nat * nat) (fx : FXInternal T).

Lemma rd2_wr2_eq b loc x : in_range b loc -> rd2 (wr2 b loc x) loc = x.
Proof.
  unfold in_range, rd2, wr2. destruct loc as [i j]. simpl.
  rewrite list_lookup_alter_eq. destruct (b !! i) as [v|]; simpl; [|lia].
  intros Hj. unfold rd, wr. by rewrite list_lookup_insert_eq.
Qed.

Lemma rd2_wr2_ne b loc loc' x : loc <> loc' -> rd2 (wr2 b loc x) loc' = rd2 b loc'.
Proof.
  unfold rd2, wr2. destruct loc as [i j], loc' as [i' j']. simpl. intros Hne.
  destruct (decide (i = i')) as [<-|Hi].
  - rewrite list_lookup_alter_eq. destruct (b !! i) as [v|]; simpl; [|done].
    unfold rd, wr. rewrite list_lookup_insert_ne; [done|]. congruence.
  - by rewrite list_lookup_alter_ne.
Qed.

Lemma length_wr2 b loc x : map length (wr2 b loc x) = map length b.
Proof.
  unfold wr2. 
  rewrite (list_fmap_alter length _ id).
  - by apply list_alter_id.
  - apply Forall_forall. intros v _. unfold wr. by rewrite length_insert.
Qed.

Lemma in_range_length b b' loc :
  map length b = map length b' -> in_range b loc -> in_range b' loc.
Proof.
  unfold in_range. intros E.
  assert (length (default [] (b !! loc.1)) = length (default [] (b' !! loc.1))) as ->;
    [|done].
  assert (map length b !! loc.1 = map length b' !! loc.1) as E' by by rewrite E.
  rewrite !list_lookup_fmap in E'.
  destruct (b !! loc.1), (b' !! loc.1); simpl in *; congruence.
Qed.

Lemma fwdSeedNoCheck_rd fx i dir j :
  rd (fwdSeedNoCheck fx i dir) j = rd2 (fwdSeed_dir fx dir) (i, j).
Proof.
  unfold fwdSeedNoCheck, rd2, fwdSeed_dir. simpl. rewrite list_lookup_fmap.
  by destruct (input_ fx !! i).
Qed.

Lemma adjSeedNoCheck_rd fx o dir j :
  rd (adjSeedNoCheck fx o dir) j = rd2 (adjSeed_dir fx dir) (o, j).
Proof.
  unfold adjSeedNoCheck, rd2, adjSeed_dir. simpl. rewrite list_lookup_fmap.
  by destruct (output_ fx !! o).
Qed.

Lemma dir_alter_eq (l : list (FunctionIO T)) (sel : FunctionIO T -> list (list T))
    (upd : FunctionIO T -> FunctionIO T) dir i j x :
  (forall io, sel (upd io) = alter (fun v => wr v j x) dir (sel io)) ->
  map (fun io => default [] (sel io !! dir)) (alter upd i l) =
  wr2 (map (fun io => default [] (sel io !! dir)) l) (i, j) x.
Proof.
  intros E. unfold wr2. simpl. apply list_fmap_alter, Forall_forall. intros io _.
  rewrite E, list_lookup_alter_eq. by destruct (sel io !! dir).
Qed.

Lemma dir_alter_ne (l : list (FunctionIO T)) (sel : FunctionIO T -> list (list T))
    (upd : FunctionIO T -> FunctionIO T) dir i :
  (forall io, sel (upd io) !! dir = sel io !! dir) ->
  map (fun io => default [] (sel io !! dir)) (alter upd i l) =
  map (fun io => default [] (sel io !! dir)) l.
Proof.
  intros E. rewrite (list_fmap_alter _ _ id).
  - by apply list_alter_id.
  - apply Forall_forall. intros io _. by rewrite E.
Qed.

End Bundles.

(** ** What the sweeps do to the buffers *)

Section SweepBuffers.
Context {T : Type} `{Scalar T}.
Implicit Types (st : sweep_state (T:=T)) (it : AlgEl T) (alg : list (AlgEl T)).

Lemma fwd_step_input d st it : input_ (sw_fx (fwd_step d st it)) = input_ (sw_fx st).
Proof. unfold fwd_step. by destruct (op it). Qed.

Lemma fwd_step_adjSeed d d' st it :
  adjSeed_dir (sw_fx (fwd_step d st it)) d' = adjSeed_dir (sw_fx st) d'.
Proof.
  unfold fwd_step. destruct (op it); try done. simpl.
  unfold adjSeed_dir, upd_fwdSens. simpl. by apply dir_alter_ne.
Qed.

Lemma fwd_step_fwdSens d st it :
  fwdSens_dir (sw_fx (fwd_step d st it)) d =
  if Operation_eqb (op it) OP_OUTPUT
  then wr2 (fwdSens_dir (sw_fx st) d) (res it, arg_i1 it) (rd (sw_work st) (arg_i0 it))
  else fwdSens_dir (sw_fx st) d.
Proof.
  unfold fwd_step. destruct (op it); try done. simpl.
  unfold fwdSens_dir, upd_fwdSens. simpl.
  by apply (dir_alter_eq _ dataF).
Qed.

Lemma fwd_step_fwdSens_ne d d' st it :
  d <> d' -> fwdSens_dir (sw_fx (fwd_step d st it)) d' = fwdSens_dir (sw_fx st) d'.
Proof.
  intros Hd. unfold fwd_step. destruct (op it); try done. simpl.
  unfold fwdSens_dir, upd_fwdSens. simpl. apply (dir_alter_ne _ dataF).
  intros io. simpl. by rewrite list_lookup_alter_ne.
Qed.

Lemma adj_step_output d st it : output_ (sw_fx (adj_step d st it)) = output_ (sw_fx st).
Proof. unfold adj_step. by destruct (op it). Qed.

Lemma adj_step_fwdSeed d d' st it :
  fwdSeed_dir (sw_fx (adj_step d st it)) d' = fwdSeed_dir (sw_fx st) d'.
Proof.
  unfold adj_step. destruct (op it); try done. simpl.
  unfold fwdSeed_dir, upd_adjSens. simpl. by apply dir_alter_ne.
Qed.

Lemma adj_step_adjSens d st it :
  adjSens_dir (sw_fx (adj_step d st it)) d =
  if Operation_eqb (op it) OP_INPUT
  then wr2 (adjSens_dir (sw_fx st) d) (arg_i0 it, arg_i1 it) (rd (sw_work st) (res it))
  else adjSens_dir (sw_fx st) d.
Proof.
  unfold adj_step. destruct (op it); try done. simpl.
  unfold adjSens_dir, upd_adjSens. simpl.
  by apply (dir_alter_eq _ dataA).
Qed.

Lemma adj_step_adjSens_ne d d' st it :
  d <> d' -> adjSens_dir (sw_fx (adj_step d st it)) d' = adjSens_dir (sw_fx st) d'.
Proof.
  intros Hd. unfold adj_step. destruct (op it); try done. simpl.
  unfold adjSens_dir, upd_adjSens. simpl. apply (dir_alter_ne _ dataA).
  intros io. simpl. by rewrite list_lookup_alter_ne.
Qed.

(** The folds. *)
Lemma fold_fwd_step_input d alg st :
  input_ (sw_fx (fold_left (fwd_step d) alg st)) = input_ (sw_fx st).
Proof.
  revert st. induction alg as [|it alg IH]; intros st; [done|].
  simpl. by rewrite IH, fwd_step_input.
Qed.

Lemma fold_fwd_step_adjSeed d d' alg st :
  adjSeed_dir (sw_fx (fold_left (fwd_step d) alg st)) d' = adjSeed_dir (sw_fx st) d'.
Proof.
  revert st. induction alg as [|it alg IH]; intros st; [done|].
  simpl. by rewrite IH, fwd_step_adjSeed.
Qed.

Lemma fold_fwd_step_fwdSens_ne d d' alg st :
  d <> d' ->
  fwdSens_dir (sw_fx (fold_left (fwd_step d) alg st)) d' = fwdSens_dir (sw_fx st) d'.
Proof.
  intros Hd. revert st. induction alg as [|it alg IH]; intros st; [done|].
  simpl. by rewrite IH, fwd_step_fwdSens_ne.
Qed.

Lemma fold_fwd_step_shape d alg st :
  map length (fwdSens_dir (sw_fx (fold_left (fwd_step d) alg st)) d) =
  map length (fwdSens_dir (sw_fx st) d).
Proof.
  revert st. induction alg as [|it alg IH]; intros st; [done|].
  simpl. rewrite IH, fwd_step_fwdSens.
  destruct (Operation_eqb (op it) OP_OUTPUT); [|done]. apply length_wr2.
Qed.

Lemma fold_fwd_step_frame d alg st loc :
  loc ∉ output_locs alg ->
  rd2 (fwdSens_dir (sw_fx (fold_left (fwd_step d) alg st)) d) loc =
  rd2 (fwdSens_dir (sw_fx st) d) loc.
Proof.
  revert st. induction alg as [|it alg IH]; intros st Hloc; [done|].
  simpl. unfold output_locs in Hloc. simpl in Hloc. fold (output_locs alg) in Hloc.
  rewrite IH, fwd_step_fwdSens.
  - destruct (Operation_eqb (op it) OP_OUTPUT); [|done].
    apply rd2_wr2_ne. intros <-. apply Hloc. by left.
  - destruct (Operation_eqb (op it) OP_OUTPUT); [|done].
    intros Hin. apply Hloc. by right.
Qed.

Lemma input_locs_cons it alg :
  input_locs (it :: alg) =
  if Operation_eqb (op it) OP_INPUT then (arg_i0 it, arg_i1 it) :: input_locs alg
  else input_locs alg.
Proof. unfold input_locs. simpl. by destruct (Operation_eqb _ _). Qed.

Lemma output_locs_cons it alg :
  output_locs (it :: alg) =
  if Operation_eqb (op it) OP_OUTPUT then (res it, arg_i1 it) :: output_locs alg
  else output_locs alg.
Proof. unfold output_locs. simpl. by destruct (Operation_eqb _ _). Qed.

Lemma fold_adj_step_output d alg st :
  output_ (sw_fx (fold_left (adj_step d) alg st)) = output_ (sw_fx st).
Proof.
  revert st. induction alg as [|it alg IH]; intros st; [done|].
  simpl. by rewrite IH, adj_step_output.
Qed.

Lemma fold_adj_step_fwdSeed d d' alg st :
  fwdSeed_dir (sw_fx (fold_left (adj_step d) alg st)) d' = fwdSeed_dir (sw_fx st) d'.
Proof.
  revert st. induction alg as [|it alg IH]; intros st; [done|].
  simpl. by rewrite IH, adj_step_fwdSeed.
Qed.

Lemma fold_adj_step_adjSens_ne d d' alg st :
  d <> d' ->
  adjSens_dir (sw_fx (fold_left (adj_step d) alg st)) d' = adjSens_dir (sw_fx st) d'.
Proof.
  intros Hd. revert st. induction alg as [|it alg IH]; intros st; [done|].
  simpl. by rewrite IH, adj_step_adjSens_ne.
Qed.

Lemma fold_adj_step_shape d alg st :
  map length (adjSens_dir (sw_fx (fold_left (adj_step d) alg st)) d) =
  map length (adjSens_dir (sw_fx st) d).
Proof.
  revert st. induction alg as [|it alg IH]; intros st; [done|].
  simpl. rewrite IH, adj_step_adjSens.
  destruct (Operation_eqb (op it) OP_INPUT); [|done]. apply length_wr2.
Qed.

(** The tape iterator of the adjoint sweep: one entry back for every
    instruction that takes one. *)
Lemma fold_adj_step_it d alg : forall st tape rest,
  length tape = length (filter (fun ae => Is_true (takes_tape ae)) alg) ->
  sw_it st = rev tape ++ rest ->
  sw_it (fold_left (adj_step d) (rev alg) st) = rest.
Proof.
  induction alg as [|it alg IH] using rev_ind; intros st tape rest Hl Hit.
  - simpl in *. destruct tape; [done|discriminate Hl].
  - rewrite filter_app, length_app in Hl.
    rewrite rev_app_distr. simpl.
    destruct (takes_tape it) eqn:Et.
    + rewrite filter_cons_True in Hl by (by rewrite Et). simpl in Hl.
      destruct tape as [|d0 tape _] using rev_ind; [simpl in Hl; lia|].
      rewrite length_app in Hl. simpl in Hl.
      rewrite rev_app_distr in Hit. simpl in Hit.
      apply (IH _ tape); [lia|].
      unfold adj_step. unfold takes_tape in Et.
      destruct (op it); try discriminate Et; simpl; by rewrite Hit.
    + rewrite filter_cons_False in Hl by (rewrite Et; intros []). simpl in Hl.
      apply (IH _ tape); [lia|].
      unfold adj_step. unfold takes_tape in Et.
      destruct (op it); try discriminate Et; simpl; by rewrite Hit.
Qed.

End SweepBuffers.

(** ** The passes of [evaluateGen] and the buffers *)

Section PassBuffers.
Context {T : Type} `{Scalar T}.
Implicit Types (alg : list (AlgEl T)) (pd : list (T * T)) (dirs : list nat).

Lemma tape_step_input st it : input_ (tape_step st it).2 = input_ st.2.
Proof. destruct st as [[w tp] fx]. unfold tape_step. by destruct (op it). Qed.

Lemma tape_step_fwdSens st it d :
  fwdSens_dir (tape_step st it).2 d = fwdSens_dir st.2 d.
Proof.
  destruct st as [[w tp] fx]. unfold tape_step. destruct (op it); try done.
  simpl. unfold fwdSens_dir, upd_output. simpl. by apply dir_alter_ne.
Qed.

Lemma tape_step_adjSeed st it d :
  adjSeed_dir (tape_step st it).2 d = adjSeed_dir st.2 d.
Proof.
  destruct st as [[w tp] fx]. unfold tape_step. destruct (op it); try done.
  simpl. unfold adjSeed_dir, upd_output. simpl. by apply dir_alter_ne.
Qed.

Lemma tape_steps_input alg st : input_ (fold_left tape_step alg st).2 = input_ st.2.
Proof.
  revert st. induction alg as [|it alg IH]; intros st; [done|].
  simpl. by rewrite IH, tape_step_input.
Qed.

Lemma tape_steps_fwdSens alg st d :
  fwdSens_dir (fold_left tape_step alg st).2 d = fwdSens_dir st.2 d.
Proof.
  revert st. induction alg as [|it alg IH]; intros st; [done|].
  simpl. by rewrite IH, tape_step_fwdSens.
Qed.

Lemma tape_steps_adjSeed alg st d :
  adjSeed_dir (fold_left tape_step alg st).2 d = adjSeed_dir st.2 d.
Proof.
  revert st. induction alg as [|it alg IH]; intros st; [done|].
  simpl. by rewrite IH, tape_step_adjSeed.
Qed.

(** The value pass records one entry for every instruction that takes one
    in the sweeps, when no [OP_PARAMETER] is left. *)
Lemma tape_steps_tape alg st :
  no_parameter alg = true ->
  length (fold_left tape_step alg st).1.2 =
  length st.1.2 + length (filter (fun ae => Is_true (takes_tape ae)) alg).
Proof.
  revert st. induction alg as [|it alg IH]; intros st Hnp; [simpl; lia|].
  simpl in Hnp. apply andb_true_iff in Hnp as [Hit Hnp].
  simpl. rewrite IH by done. destruct st as [[w tp] fx].
  destruct (takes_tape it) eqn:Et.
  - rewrite filter_cons_True by (by rewrite Et).
    unfold tape_step. unfold takes_tape in Et.
    destruct (op it); try discriminate Hit; try discriminate Et; simpl;
      rewrite length_app; simpl; lia.
  - rewrite filter_cons_False by (rewrite Et; intros []).
    unfold tape_step. unfold takes_tape in Et.
    by destruct (op it); try discriminate Et.
Qed.

Lemma fwd_sweeps_input alg pd dirs st :
  input_ (fold_left (fwd_sweep alg pd) dirs st).2 = input_ st.2.
Proof.
  revert st. induction dirs as [|d dirs IH]; intros st; [done|].
  simpl. rewrite IH. unfold fwd_sweep. simpl. by rewrite fold_fwd_step_input.
Qed.

Lemma fwd_sweeps_adjSeed alg pd dirs st d' :
  adjSeed_dir (fold_left (fwd_sweep alg pd) dirs st).2 d' = adjSeed_dir st.2 d'.
Proof.
  revert st. induction dirs as [|d dirs IH]; intros st; [done|].
  simpl. rewrite IH. unfold fwd_sweep. simpl. by rewrite fold_fwd_step_adjSeed.
Qed.

Lemma fwd_sweeps_fwdSens_ne alg pd dirs st d' :
  d' ∉ dirs ->
  fwdSens_dir (fold_left (fwd_sweep alg pd) dirs st).2 d' = fwdSens_dir st.2 d'.
Proof.
  revert st. induction dirs as [|d dirs IH]; intros st Hd; [done|].
  apply not_elem_of_cons in Hd as [Hne Hd].
  simpl. rewrite IH by done. unfold fwd_sweep. simpl.
  by rewrite fold_fwd_step_fwdSens_ne.
Qed.

Lemma adj_sweeps_output alg pd dirs st :
  output_ (fold_left (adj_sweep alg pd) dirs st).2 = output_ st.2.
Proof.
  revert st. induction dirs as [|d dirs IH]; intros st; [done|].
  simpl. rewrite IH. unfold adj_sweep. simpl. by rewrite fold_adj_step_output.
Qed.

Lemma adj_sweeps_fwdSeed alg pd dirs st d' :
  fwdSeed_dir (fold_left (adj_sweep alg pd) dirs st).2 d' = fwdSeed_dir st.2 d'.
Proof.
  revert st. induction dirs as [|d dirs IH]; intros st; [done|].
  simpl. rewrite IH. unfold adj_sweep. simpl. by rewrite fold_adj_step_fwdSeed.
Qed.

Lemma adj_sweeps_adjSens_ne alg pd dirs st d' :
  d' ∉ dirs ->
  adjSens_dir (fold_left (adj_sweep alg pd) dirs st).2 d' = adjSens_dir st.2 d'.
Proof.
  revert st. induction dirs as [|d dirs IH]; intros st Hd; [done|].
  apply not_elem_of_cons in Hd as [Hne Hd].
  simpl. rewrite IH by done. unfold adj_sweep. simpl.
  by rewrite fold_adj_step_adjSens_ne.
Qed.

(** The directions before, at and after [d]. *)
Lemma seq_split_at n d :
  d < n -> seq 0 n = seq 0 d ++ d :: seq (S d) (n - S d).
Proof.
  intros Hd. replace n with (d + S (n - S d)) at 1 by lia.
  rewrite seq_app. simpl. done.
Qed.

End PassBuffers.

(** ** Shapes *)

Section Shapes.
Context {T : Type} `{Scalar T}.
Implicit Types (b : list (list T)) (fx : FXInternal T).

Lemma shaped_list (l : list (FunctionIO T)) df da :
  forallb (fun io =>
     match dataF io !! df, dataA io !! da with
     | Some vf, Some va =>
         Nat.eqb (length vf) (length (data io)) &&
         Nat.eqb (length va) (length (data io))
     | _, _ => false
     end) l = true ->
  map length (map (fun io => default [] (dataF io !! df)) l) =
    map (fun io => length (data io)) l /\
  map length (map (fun io => default [] (dataA io !! da)) l) =
    map (fun io => length (data io)) l.
Proof.
  induction l as [|io l IH]; intros Hs; [done|].
  simpl in Hs. apply andb_true_iff in Hs as [Hio Hs].
  destruct (IH Hs) as [IHf IHa]. simpl. rewrite IHf, IHa.
  destruct (dataF io !! df) as [vf|]; [|discriminate Hio].
  destruct (dataA io !! da) as [va|]; [|discriminate Hio].
  apply andb_true_iff in Hio as [Hf Ha].
  apply Nat.eqb_eq in Hf, Ha. simpl. by rewrite Hf, Ha.
Qed.

Lemma shaped_sizes fx df da :
  shaped fx df da = true ->
  map length (fwdSeed_dir fx df) = input_sizes fx /\
  map length (adjSens_dir fx da) = input_sizes fx /\
  map length (fwdSens_dir fx df) = output_sizes fx /\
  map length (adjSeed_dir fx da) = output_sizes fx.
Proof.
  unfold shaped. rewrite forallb_app. intros [Hi Ho]%andb_true_iff.
  destruct (shaped_list _ _ _ Hi) as [? ?].
  destruct (shaped_list _ _ _ Ho) as [? ?]. done.
Qed.

Lemma locations_from_spec ind sizes loc :
  loc ∈ locations_from ind sizes <->
  exists k n, loc.1 = ind + k /\ sizes !! k = Some n /\ loc.2 < n.
Proof.
  revert ind. induction sizes as [|n sizes IH]; intros ind; simpl.
  - split; [by intros ?%elem_of_nil|]. by intros (k & n & _ & ? & _).
  - rewrite elem_of_app, IH. split.
    + intros [Hin|(k & m & E & Hk & Hlt)].
      * apply list_elem_of_fmap in Hin as (j & -> & Hj).
        apply elem_of_seq in Hj. exists 0, n. simpl. split; [lia|]. split; [done|lia].
      * exists (S k), m. split; [lia|done].
    + intros ([|k] & m & E & Hk & Hlt).
      * left. simpl in Hk. injection Hk as ->. apply list_elem_of_fmap.
        exists loc.2. split; [|apply elem_of_seq; lia].
        destruct loc as [i j]. simpl in *. f_equal. lia.
      * right. exists k, m. split; [lia|done].
Qed.

Lemma in_range_locations b loc : loc ∈ locations (map length b) -> in_range b loc.
Proof.
  unfold locations. rewrite locations_from_spec. intros (k & n & E & Hk & Hlt).
  unfold in_range. simpl in E. rewrite E. rewrite list_lookup_fmap in Hk.
  destruct (b !! k) as [v|]; [|discriminate Hk]. simpl in *. by injection Hk as <-.
Qed.

Lemma NoDup_locations_from ind sizes : NoDup (locations_from ind sizes).
Proof.
  revert ind. induction sizes as [|n sizes IH]; intros ind; simpl; [constructor|].
  apply NoDup_app. split; [|split; [|apply IH]].
  - apply NoDup_fmap_2; [|apply NoDup_seq]. by intros ?? [= ->].
  - intros loc Hin Hin'. apply list_elem_of_fmap in Hin as (j & -> & _).
    apply locations_from_spec in Hin' as (k & m & E & _). simpl in E. lia.
Qed.

Lemma Forall2_same_lengths (us vs : list (list T)) :
  map length us = map length vs ->
  Forall2 (fun u v => length u = length v) us vs.
Proof.
  revert vs. induction us as [|u us IH]; intros [|v vs] E; try discriminate E.
  - constructor.
  - injection E as E1 E2. constructor; auto.
Qed.

End Shapes.

(** ** The forward and the adjoint sweep are transposes *)

Section Transpose.
Context {T : Type} `{Scalar T}.
Variables (sub : T -> T -> T) (opp : T -> T).
Hypothesis Rth : ring_theory zero one add mul sub opp (@eq T).
Add Ring Tring' : Rth.
Local Set Default Proof Using "All".

Implicit Types (it : AlgEl T) (alg : list (AlgEl T)) (wf lam : list T).

(** One instruction: the adjoint step is the transpose of the forward
    step. *)
Lemma step_paired df da it wf lam itf ita fxf fxa :
  length wf = length lam ->
  (takes_tape it = true -> tape_hd itf = tape_hd ita) ->
  add (dot (sw_work (adj_step da (mkSweep lam ita fxa) it)) wf)
      (in_term it (rd2 (fwdSeed_dir fxf df) (arg_i0 it, arg_i1 it)) (rd lam (res it)))
  = add (dot lam (sw_work (fwd_step df (mkSweep wf itf fxf) it)))
        (out_term it (rd2 (adjSeed_dir fxa da) (res it, arg_i1 it)) (rd wf (arg_i0 it))).
Proof.
  intros Hl Hd. unfold in_term, out_term, adj_step, fwd_step.
  assert (tape_hd itf = tape_hd ita \/ takes_tape it = false) as [Hd'|Hd']
    by (destruct (takes_tape it); auto).
  all: unfold takes_tape in Hd'; clear Hd.
  all: destruct (op it); try discriminate Hd'; cbn [Operation_eqb sw_work sw_it sw_fx];
    try rewrite <- Hd'; rewrite ?fwdSeedNoCheck_rd, ?adjSeedNoCheck_rd;
    repeat first [ rewrite (dot_wr_l sub opp Rth) by (rewrite ?length_wr; congruence)
                 | rewrite (dot_wr_r sub opp Rth) by (rewrite ?length_wr; congruence) ];
    try ring.
Qed.

(** The sweeps of one forward and of one adjoint direction over the same
    tape: the inner products over the work vectors and over the places
    that the instructions load and store agree. *)
Lemma sweeps_paired df da alg : forall wf tape extra fxf lam extra' fxa,
  length tape = length (filter (fun ae => Is_true (takes_tape ae)) alg) ->
  length wf = length lam ->
  NoDup (input_locs alg) -> NoDup (output_locs alg) ->
  (forall loc, loc ∈ input_locs alg -> in_range (adjSens_dir fxa da) loc) ->
  (forall loc, loc ∈ output_locs alg -> in_range (fwdSens_dir fxf df) loc) ->
  let F := fold_left (fwd_step df) alg (mkSweep wf (tape ++ extra) fxf) in
  let A := fold_left (adj_step da) (rev alg) (mkSweep lam (rev tape ++ extra') fxa) in
  add (dot (sw_work A) wf)
      (sum_over (input_locs alg) (fun loc =>
         mul (rd2 (fwdSeed_dir fxf df) loc) (rd2 (adjSens_dir (sw_fx A) da) loc)))
  = add (dot lam (sw_work F))
        (sum_over (output_locs alg) (fun loc =>
           mul (rd2 (adjSeed_dir fxa da) loc) (rd2 (fwdSens_dir (sw_fx F) df) loc))).
Proof.
  induction alg as [|it alg IH];
    intros wf tape extra fxf lam extra' fxa Hlt Hl Hni Hno Hri Hro F A.
  { subst F A. simpl. done. }
  set (st1 := fwd_step df (mkSweep wf (tape ++ extra) fxf) it).
  set (A1 := fold_left (adj_step da) (rev alg) (mkSweep lam (rev tape ++ extra') fxa)).
  assert (A = adj_step da A1 it) as EA.
  { subst A A1. simpl. by rewrite fold_left_app. }
  assert (F = fold_left (fwd_step df) alg st1) as EF by done.
  clearbody F A. subst F A.
  (* the tape *)
  assert (exists tape1 r,
    length tape1 = length (filter (fun ae => Is_true (takes_tape ae)) alg) /\
    sw_it st1 = tape1 ++ extra /\ rev tape ++ extra' = rev tape1 ++ r /\
    (takes_tape it = true -> tape_hd (tape ++ extra) = tape_hd r))
    as (tape1 & r & Hlt1 & Hit1 & Hrev & Hhd).
  { destruct (takes_tape it) eqn:Et.
    - rewrite filter_cons_True in Hlt by (by rewrite Et).
      destruct tape as [|d tape1]; [discriminate Hlt|].
      exists tape1, (d :: extra'). simpl in Hlt.
      split; [lia|]. split; [|split].
      + subst st1. unfold fwd_step. unfold takes_tape in Et.
        by destruct (op it); try discriminate Et.
      + simpl. by rewrite <- app_assoc.
      + done.
    - rewrite filter_cons_False in Hlt by (rewrite Et; intros []).
      exists tape, extra'. split; [done|]. split; [|done].
      subst st1. unfold fwd_step. unfold takes_tape in Et.
      by destruct (op it); try discriminate Et. }
  assert (sw_it A1 = r) as HitA.
  { subst A1. apply (fold_adj_step_it da alg _ tape1); [done|]. simpl. done. }
  (* the buffers after the first instruction *)
  assert (map length (fwdSens_dir (sw_fx st1) df) = map length (fwdSens_dir fxf df))
    as Hshape.
  { subst st1. rewrite fwd_step_fwdSens. simpl.
    destruct (Operation_eqb (op it) OP_OUTPUT); [|done]. apply length_wr2. }
  assert (fwdSeed_dir (sw_fx st1) df = fwdSeed_dir fxf df) as Hseed.
  { subst st1. unfold fwdSeed_dir. by rewrite fwd_step_input. }
  assert (adjSeed_dir (sw_fx A1) da = adjSeed_dir fxa da) as Hseed'.
  { subst A1. unfold adjSeed_dir. by rewrite fold_adj_step_output. }
  assert (map length (adjSens_dir (sw_fx A1) da) = map length (adjSens_dir fxa da))
    as Hshape'.
  { subst A1. by rewrite fold_adj_step_shape. }
  (* the instructions after the first *)
  assert (NoDup (input_locs alg) /\ NoDup (output_locs alg)) as [Hni1 Hno1].
  { rewrite input_locs_cons in Hni. rewrite output_locs_cons in Hno.
    split.
    - destruct (Operation_eqb (op it) OP_INPUT); [|done]. by apply NoDup_cons in Hni as [_ ?].
    - destruct (Operation_eqb (op it) OP_OUTPUT); [|done]. by apply NoDup_cons in Hno as [_ ?]. }
  assert (forall loc, loc ∈ input_locs alg -> loc ∈ input_locs (it :: alg)) as Hsub.
  { intros loc Hin. rewrite input_locs_cons.
    destruct (Operation_eqb (op it) OP_INPUT); [by right|done]. }
  assert (forall loc, loc ∈ output_locs alg -> loc ∈ output_locs (it :: alg)) as Hsub'.
  { intros loc Hin. rewrite output_locs_cons.
    destruct (Operation_eqb (op it) OP_OUTPUT); [by right|done]. }
  pose proof (IH (sw_work st1) tape1 extra (sw_fx st1) lam r fxa Hlt1) as IH1.
  rewrite <- Hit1, <- Hrev in IH1.
  replace (mkSweep (sw_work st1) (sw_it st1) (sw_fx st1)) with st1 in IH1
    by (by destruct st1).
  fold A1 in IH1. cbv zeta in IH1.
  specialize (IH1 ltac:(by unfold st1; rewrite length_fwd_step) Hni1 Hno1).
  specialize (IH1 ltac:(auto)).
  specialize (IH1 ltac:(intros loc Hin; apply (in_range_length (fwdSens_dir fxf df));
                         [by rewrite Hshape|auto])).
  rewrite Hseed in IH1.
  (* the first instruction *)
  pose proof (step_paired df da it wf (sw_work A1) (tape ++ extra) (sw_it A1)
                fxf (sw_fx A1)) as Hstep.
  replace (mkSweep (sw_work A1) (sw_it A1) (sw_fx A1)) with A1 in Hstep
    by (by destruct A1).
  specialize (Hstep ltac:(by unfold A1; rewrite length_fold_adj_step)).
  rewrite HitA, Hseed' in Hstep. specialize (Hstep Hhd). fold st1 in Hstep.
  (* the sums *)
  set (Sin := sum_over (input_locs alg) _) in IH1.
  set (Sout := sum_over (output_locs alg) _) in IH1.
  set (it_in := in_term _ _ _) in Hstep. set (it_out := out_term _ _ _) in Hstep.
  assert (sum_over (input_locs (it :: alg)) (fun loc =>
            mul (rd2 (fwdSeed_dir fxf df) loc)
                (rd2 (adjSens_dir (sw_fx (adj_step da A1 it)) da) loc))
          = add it_in Sin) as Ein.
  { subst it_in Sin. unfold in_term. rewrite input_locs_cons in Hni |- *.
    rewrite input_locs_cons in Hri.
    destruct (Operation_eqb (op it) OP_INPUT) eqn:Ei.
    - apply NoDup_cons in Hni as [Hfresh _].
      simpl. rewrite adj_step_adjSens, Ei. f_equal.
      + f_equal. apply rd2_wr2_eq.
        apply (in_range_length (adjSens_dir fxa da)); [by rewrite Hshape'|].
        apply Hri. by left.
      + apply sum_over_ext. intros loc Hin. f_equal.
        apply rd2_wr2_ne. by intros <-.
    - transitivity (sum_over (input_locs alg) (fun loc =>
         mul (rd2 (fwdSeed_dir fxf df) loc) (rd2 (adjSens_dir (sw_fx A1) da) loc)));
        [|ring].
      apply sum_over_ext. intros loc _. by rewrite adj_step_adjSens, Ei. }
  assert (sum_over (output_locs (it :: alg)) (fun loc =>
            mul (rd2 (adjSeed_dir fxa da) loc)
                (rd2 (fwdSens_dir (sw_fx (fold_left (fwd_step df) alg st1)) df) loc))
          = add it_out Sout) as Eout.
  { subst it_out Sout. unfold out_term. rewrite output_locs_cons in Hno |- *.
    rewrite output_locs_cons in Hro.
    destruct (Operation_eqb (op it) OP_OUTPUT) eqn:Eo; [|ring].
    apply NoDup_cons in Hno as [Hfresh _].
    simpl. f_equal. f_equal.
    rewrite fold_fwd_step_frame by done. subst st1.
    rewrite fwd_step_fwdSens, Eo. simpl. apply rd2_wr2_eq. apply Hro. by left. }
  rewrite Ein, Eout.
  set (X := dot (sw_work (adj_step da A1 it)) wf) in *.
  set (Y := dot (sw_work A1) (sw_work st1)) in *.
  set (Z := dot lam (sw_work (fold_left (fwd_step df) alg st1))) in *.
  clearbody X Y Z it_in it_out Sin Sout.
  transitivity (add (add X it_in) Sin); [ring|]. rewrite Hstep.
  transitivity (add (add Y Sin) it_out); [ring|]. rewrite IH1. ring.
Qed.

(** For an algorithm whose sweeps read only slots written before, without
    free variables, with a tape that has one entry for every operation, and
    with buffers in which every input nonzero is loaded once and every
    output nonzero stored once: [evaluateGen] returns, leaves the seeds as
    they were, and the two inner products of a forward and an adjoint
    direction are equal. *)
Lemma duality_valid (this : @SXFunctionInternal T) nfdir nadir e df da :
  sweep_valid (algorithm_ this) = true ->
  tape_fits (algorithm_ this) (length (pdwork_ e)) = true ->
  free_vars_ this = [] ->
  covers (algorithm_ this) (fx_ e) = true ->
  shaped (fx_ e) df da = true ->
  df < nfdir -> da < nadir ->
  exists e', evaluateGen this nfdir nadir e = Ret e' /\
    fwdSeed_dir (fx_ e') df = fwdSeed_dir (fx_ e) df /\
    adjSeed_dir (fx_ e') da = adjSeed_dir (fx_ e) da /\
    dot2 (adjSeed_dir (fx_ e') da) (fwdSens_dir (fx_ e') df) =
    dot2 (fwdSeed_dir (fx_ e') df) (adjSens_dir (fx_ e') da).
Proof.
  intros Hv Hfit Hfree Hcov Hsh Hdf Hda.
  set (alg := algorithm_ this) in *.
  unfold tape_fits in Hfit. apply andb_true_iff in Hfit as [Hcount Hnp].
  apply Nat.eqb_eq in Hcount.
  change (forallb _ alg) with (no_parameter alg) in Hnp.
  unfold covers in Hcov. apply andb_true_iff in Hcov as [Hci Hco].
  apply bool_decide_eq_true in Hci, Hco.
  destruct (shaped_sizes _ _ _ Hsh) as (Hs1 & Hs2 & Hs3 & Hs4).
  unfold evaluateGen. rewrite Hfree. fold alg.
  assert (((0 <? nfdir) || (0 <? nadir)) = true) as ->
    by (apply orb_true_iff; left; apply Nat.ltb_lt; lia).
  assert ((0 <? nadir) = true) as -> by (apply Nat.ltb_lt; lia).
  cbn [length Nat.eqb negb].
  pose proof (tape_steps_tape alg (work_ e, [], fx_ e) Hnp) as Htl.
  pose proof (tape_steps_input alg (work_ e, [], fx_ e)) as Hin0.
  pose proof (tape_steps_fwdSens alg (work_ e, [], fx_ e) df) as HfS0.
  pose proof (tape_steps_adjSeed alg (work_ e, [], fx_ e) da) as HaS0.
  pose proof (length_tape_steps alg (work_ e, [], fx_ e)) as Hlw.
  destruct (fold_left tape_step alg (work_ e, [], fx_ e)) as [[work tape] fx0].
  cbn [fst snd length] in Htl, Hin0, HfS0, HaS0, Hlw.
  rewrite drop_ge by lia. rewrite app_nil_r.
  set (st1 := fold_left (fwd_sweep alg tape) (seq 0 nfdir) (work, fx0)).
  set (st3 := fold_left (adj_sweep alg tape) (seq 0 nadir)
                (replicate (length st1.1) zero, st1.2)).
  eexists. split; [reflexivity|]. cbn [fx_].
  assert (fwdSeed_dir st3.2 df = fwdSeed_dir (fx_ e) df) as EfSeed.
  { unfold st3. rewrite adj_sweeps_fwdSeed. cbn [snd]. unfold fwdSeed_dir, st1.
    rewrite fwd_sweeps_input. cbn [snd]. by rewrite Hin0. }
  assert (adjSeed_dir st3.2 da = adjSeed_dir (fx_ e) da) as EaSeed.
  { unfold adjSeed_dir at 1. unfold st3. rewrite adj_sweeps_output. cbn [snd].
    fold (adjSeed_dir st1.2 da). unfold st1. rewrite fwd_sweeps_adjSeed. exact HaS0. }
  split; [done|]. split; [done|].
  (* the forward sweep of direction df *)
  set (fpre := fold_left (fwd_sweep alg tape) (seq 0 df) (work, fx0)).
  set (F := fold_left (fwd_step df) alg (mkSweep fpre.1 (tape ++ []) fpre.2)).
  assert (st1 = fold_left (fwd_sweep alg tape) (seq (S df) (nfdir - S df))
                  (sw_work F, sw_fx F)) as Est1.
  { unfold st1. rewrite (seq_split_at nfdir df Hdf), fold_left_app. cbn [fold_left].
    fold fpre. unfold F. rewrite app_nil_r. reflexivity. }
  (* the adjoint sweep of direction da *)
  set (n := length st1.1) in *.
  set (apre := fold_left (adj_sweep alg tape) (seq 0 da) (replicate n zero, st1.2)).
  set (A := fold_left (adj_step da) (rev alg)
              (mkSweep (replicate n zero) (rev tape ++ []) apre.2)).
  assert (apre.1 = replicate n zero) as Eapre by (by apply adj_sweeps_closed).
  assert (st3 = fold_left (adj_sweep alg tape) (seq (S da) (nadir - S da))
                  (sw_work A, sw_fx A)) as Est3.
  { unfold st3. rewrite (seq_split_at nadir da Hda), fold_left_app. cbn [fold_left].
    fold apre. unfold A. rewrite app_nil_r, <- Eapre. reflexivity. }
  (* the bundles *)
  assert (fwdSens_dir st3.2 df = fwdSens_dir (sw_fx F) df) as EfSens.
  { unfold fwdSens_dir at 1. unfold st3. rewrite adj_sweeps_output. cbn [snd].
    fold (fwdSens_dir st1.2 df). rewrite Est1, fwd_sweeps_fwdSens_ne; [done|].
    rewrite elem_of_seq. lia. }
  assert (adjSens_dir st3.2 da = adjSens_dir (sw_fx A) da) as EaSens.
  { rewrite Est3, adj_sweeps_adjSens_ne; [done|]. rewrite elem_of_seq. lia. }
  assert (fwdSeed_dir fpre.2 df = fwdSeed_dir (fx_ e) df) as Ef1.
  { unfold fwdSeed_dir, fpre. rewrite fwd_sweeps_input. cbn [snd]. by rewrite Hin0. }
  assert (fwdSens_dir fpre.2 df = fwdSens_dir (fx_ e) df) as Ef2.
  { unfold fpre. rewrite fwd_sweeps_fwdSens_ne; [exact HfS0|]. rewrite elem_of_seq. lia. }
  assert (adjSeed_dir apre.2 da = adjSeed_dir (fx_ e) da) as Ea1.
  { unfold adjSeed_dir at 1. unfold apre. rewrite adj_sweeps_output. cbn [snd].
    fold (adjSeed_dir st1.2 da). unfold st1. rewrite fwd_sweeps_adjSeed. exact HaS0. }
  assert (adjSens_dir apre.2 da = adjSens_dir (fx_ e) da) as Ea2.
  { unfold apre. rewrite adj_sweeps_adjSens_ne by (rewrite elem_of_seq; lia).
    cbn [snd]. unfold adjSens_dir, st1. rewrite fwd_sweeps_input. cbn [snd]. by rewrite Hin0. }
  (* the two sweeps are transposes *)
  pose proof (sweeps_paired df da alg fpre.1 tape [] fpre.2 (replicate n zero) []
                apre.2) as Hp.
  specialize (Hp ltac:(lia)).
  specialize (Hp ltac:(rewrite length_replicate; unfold n, fpre, st1;
                        by rewrite !length_fwd_sweeps)).
  specialize (Hp ltac:(rewrite Hci; apply NoDup_locations_from)).
  specialize (Hp ltac:(rewrite Hco; apply NoDup_locations_from)).
  specialize (Hp ltac:(intros loc Hin; rewrite Ea2; apply in_range_locations;
                        rewrite Hs2, <- Hci; exact Hin)).
  specialize (Hp ltac:(intros loc Hin; rewrite Ef2; apply in_range_locations;
                        rewrite Hs3, <- Hco; exact Hin)).
  cbv zeta in Hp. fold F A in Hp.
  assert (sw_work A = replicate n zero) as EA.
  { unfold A. rewrite app_nil_r. apply (adj_sweep_closed alg tape apre.2 da n Hv). }
  rewrite EA, !(dot_zero_l sub opp Rth), Ef1, Ea1 in Hp.
  (* the inner products over the bundles *)
  rewrite EfSeed, EaSeed, EfSens, EaSens.
  rewrite (dot2_sum sub opp Rth (adjSeed_dir (fx_ e) da)), Hs4.
  2:{ apply Forall2_same_lengths. unfold F.
      rewrite fold_fwd_step_shape. cbn [sw_fx]. by rewrite Hs4, Ef2, Hs3. }
  rewrite (dot2_sum sub opp Rth (fwdSeed_dir (fx_ e) df)), Hs1.
  2:{ apply Forall2_same_lengths. unfold A.
      rewrite fold_adj_step_shape. cbn [sw_fx]. by rewrite Hs1, Ea2, Hs2. }
  rewrite <- (sum_over_perm sub opp Rth _ _ _ Hci).
  rewrite <- (sum_over_perm sub opp Rth _ _ _ Hco).
  set (Sin := sum_over (input_locs alg) _) in *.
  set (Sout := sum_over (output_locs alg) _) in *.
  clearbody Sin Sout.
  transitivity (add zero Sout); [ring|]. rewrite <- Hp. ring.
Qed.

End Transpose.

(** C3 as stated, over binary64.  [f(x,a,b) = (x*a)*b] at x = 1, a = 2^600,
    b = 2^-600, with the forward seed 2^600 on x and the adjoint seed 1:
    the algorithm that [init] builds satisfies all that the sweeps need,
    the forward sweep overflows (a * 2^600 is infinite) and the adjoint
    sweep does not (b * 1 = 2^-600, then a * 2^-600 = 1), so that the inner
    product of the adjoint seed with the forward sensitivity is infinite
    and the inner product of the forward seed with the adjoint
    sensitivity is 2^600.  Only products are computed: this is so for
    every table of the other operations. *)
Lemma forward_adjoint_duality_binary64 :
  let this := Examples.linearized Examples.chain [[0; 1; 2]] [[4]] in
  sweep_valid (algorithm_ this) = true /\
  free_vars_ this = [] /\
  forall table_fun table_der,
    let double := double_scalar table_fun table_der in
    let e := init_eval this Examples.chain_fx in
    tape_fits (algorithm_ this) (length (pdwork_ e)) = true /\
    covers (algorithm_ this) (fx_ e) = true /\
    shaped (fx_ e) 0 0 = true /\
    exists e',
      evaluateGen this 1 1 e = Ret e' /\
      fwdSeed_dir (fx_ e') 0 = fwdSeed_dir Examples.chain_fx 0 /\
      adjSeed_dir (fx_ e') 0 = adjSeed_dir Examples.chain_fx 0 /\
      dot2 (adjSeed_dir (fx_ e') 0) (fwdSens_dir (fx_ e') 0) = PrimFloat.infinity /\
      dot2 (fwdSeed_dir (fx_ e') 0) (adjSens_dir (fx_ e') 0) = Examples.pow2 600 /\
      dot2 (adjSeed_dir (fx_ e') 0) (fwdSens_dir (fx_ e') 0) <>
      dot2 (fwdSeed_dir (fx_ e') 0) (adjSens_dir (fx_ e') 0).
Proof.
  cbv zeta. do 2 (split; [vm_compute; reflexivity|]).
  intros table_fun table_der.
  do 3 (split; [vm_compute; reflexivity|]).
  eexists. split; [vm_compute; reflexivity|].
  repeat split; try (vm_compute; reflexivity).
  intros E. apply (f_equal PrimFloat.is_infinity) in E. vm_compute in E.
  discriminate E.
Qed.
(** ** C5: directions that are compressed out *)

Lemma forallb_fmap {A B : Type} (f : A -> bool) (g : B -> A) (l : list B) :
  forallb f (map g l) = forallb (fun x => f (g x)) l.
Proof. induction l as [|x l IH]; simpl; [done|]. by rewrite IH. Qed.

Lemma forallb_pointwise {A : Type} (f g : A -> bool) (l : list A) :
  (forall x, f x = g x) -> forallb f l = forallb g l.
Proof. intros E. induction l as [|x l IH]; simpl; [done|]. by rewrite E, IH. Qed.

Section ListFolds.
Context {A : Type}.

Lemma forallb_lookup_seq (P : A -> bool) (dflt : A) (l : list A) :
  forallb (fun i => P (default dflt (l !! i))) (seq 0 (length l)) = forallb P l.
Proof.
  induction l as [|x l IH]; [done|].
  simpl. rewrite <- seq_shift, forallb_fmap. simpl. by rewrite IH.
Qed.

(** Altering the entries of a list one after the other. *)
Lemma alter_prefix (F : nat -> A -> A) (l : list A) k :
  k < length l ->
  alter (F k) k (take k (imap F l) ++ drop k l) =
  take (S k) (imap F l) ++ drop (S k) l.
Proof.
  intros Hk. destruct (lookup_lt_is_Some_2 l k Hk) as [a Ha].
  assert (length (take k (imap F l)) = k) as Hlen.
  { rewrite length_take, length_imap. lia. }
  rewrite (drop_S l a k Ha).
  rewrite alter_app_r_alt by lia. rewrite Hlen, Nat.sub_diag. simpl.
  rewrite (take_S_r (imap F l) k (F k a)).
  - by rewrite <- app_assoc.
  - by rewrite list_lookup_imap, Ha.
Qed.

End ListFolds.

Lemma rank_le (c : nat -> bool) d : rank c d <= d.
Proof. induction d as [|d IH]; simpl; [done|]. destruct (c d); lia. Qed.

Lemma rank_mono (c : nat -> bool) d d' : d <= d' -> rank c d <= rank c d'.
Proof. induction 1 as [|d' _ IH]; simpl; lia. Qed.

Lemma rank_lt (c : nat -> bool) d d' : d < d' -> c d = false -> rank c d < rank c d'.
Proof.
  intros Hd Hc. pose proof (rank_mono c (S d) d' Hd) as Hm.
  simpl in Hm. rewrite Hc in Hm. lia.
Qed.

Section Copies.
Context {T : Type} `{Scalar T}.

Lemma copy_same (v w : list T) : length v = length w -> copy v w = v.
Proof. intros E. unfold copy. rewrite drop_ge by lia. apply app_nil_r. Qed.

Lemma imap_copy (A B : list (list T)) :
  map length A = map length B ->
  imap (fun i => copy (default [] (A !! i))) B = A.
Proof.
  intros E. apply list_eq. intros i. rewrite list_lookup_imap.
  assert (map length A !! i = map length B !! i) as Ei by (by rewrite E).
  rewrite !list_lookup_fmap in Ei.
  destruct (A !! i) as [a|], (B !! i) as [b|]; simpl in *; try done.
  injection Ei as Ei. by rewrite copy_same.
Qed.

Lemma map_setZero (B : list (list T)) : map setZero B = zero_bundle (map length B).
Proof. unfold zero_bundle. by rewrite map_map. Qed.

Lemma length_zero_bundle (sizes : list nat) :
  map length (zero_bundle (T:=T) sizes) = sizes.
Proof.
  unfold zero_bundle. rewrite map_map.
  induction sizes as [|k sizes IH]; simpl; [done|].
  by rewrite length_replicate, IH.
Qed.

End Copies.

Section Lens.
Context {T : Type} `{Scalar T}.
Variable get : FXInternal T -> nat -> nat -> list T.
Variable upd : nat -> nat -> (list T -> list T) -> FXInternal T -> FXInternal T.
Variable view : FXInternal T -> nat -> list (list T).
Variable ok : FXInternal T -> Prop.
Variables n nd : nat.
Hypothesis L : lens_laws get upd view ok n nd.
Local Set Default Proof Using "All".

Implicit Types (fx : FXInternal T) (c : nat -> bool).

Lemma can_compress_view fx d : ok fx -> can_compress get n fx d = zero_dir (view fx d).
Proof.
  intros Hok. unfold can_compress, zero_dir.
  rewrite <- (law_len _ _ _ _ _ _ L fx d Hok).
  rewrite <- (forallb_lookup_seq _ [] (view fx d)).
  apply forallb_pointwise. intros ind. by rewrite (law_get _ _ _ _ _ _ L).
Qed.

(** Writing through the references of all inputs (outputs) of one
    direction. *)
Lemma fold_upd_spec (G : FXInternal T -> nat -> list T -> list T)
    (F : nat -> list T -> list T) fx d :
  ok fx -> d < nd ->
  (forall fx' ind v, (forall d', d' <> d -> view fx' d' = view fx d') ->
     G fx' ind v = F ind v) ->
  let fx' := fold_left (fun fx ind => upd ind d (G fx ind) fx) (seq 0 n) fx in
  ok fx' /\ view fx' d = imap F (view fx d) /\
  forall d', d' <> d -> view fx' d' = view fx d'.
Proof.
  intros Hok Hd HG.
  assert (forall k, k <= n ->
    let fx' := fold_left (fun fx ind => upd ind d (G fx ind) fx) (seq 0 k) fx in
    ok fx' /\ view fx' d = take k (imap F (view fx d)) ++ drop k (view fx d) /\
    forall d', d' <> d -> view fx' d' = view fx d') as Hk.
  { induction k as [|k IH]; intros Hle.
    - simpl. repeat split; auto.
    - rewrite seq_S, fold_left_app. simpl.
      destruct (IH ltac:(lia)) as (Hok' & Hv & Hne).
      set (fxk := fold_left _ (seq 0 k) fx) in *.
      split; [by apply (law_ok _ _ _ _ _ _ L)|]. split.
      + rewrite (law_eq _ _ _ _ _ _ L) by done. rewrite Hv.
        rewrite (list_alter_ext _ (F k) _ _ k (fun v _ => HG fxk k v Hne) eq_refl).
        apply alter_prefix. rewrite (law_len _ _ _ _ _ _ L) by done. lia.
      + intros d' Hd'. rewrite (law_ne _ _ _ _ _ _ L) by done. by apply Hne. }
  destruct (Hk n (le_n n)) as (Hok' & Hv & Hne).
  split; [done|]. split; [|done].
  rewrite Hv. rewrite take_ge by (rewrite length_imap, (law_len _ _ _ _ _ _ L); done).
  rewrite drop_ge by (rewrite (law_len _ _ _ _ _ _ L); done).
  apply app_nil_r.
Qed.

(** "Move the direction to a previous direction". *)
Lemma move_dir_spec fx from to :
  ok fx -> from <> to -> to < nd ->
  map length (view fx from) = map length (view fx to) ->
  let fx' := move_dir get upd n from to fx in
  ok fx' /\ view fx' to = view fx from /\
  forall d', d' <> to -> view fx' d' = view fx d'.
Proof.
  intros Hok Hne Hto Hlen. unfold move_dir.
  destruct (fold_upd_spec (fun fx ind => copy (get fx ind from))
              (fun ind => copy (default [] (view fx from !! ind))) fx to Hok Hto)
    as (Hok' & Hv & Hframe).
  { intros fx' ind v Hsame. by rewrite (law_get _ _ _ _ _ _ L), Hsame. }
  split; [done|]. split; [|done]. rewrite Hv. by apply imap_copy.
Qed.

(** [setZero] on all references of one direction. *)
Lemma zero_dir_spec fx d :
  ok fx -> d < nd ->
  let fx' := fold_left (fun fx ind => upd ind d setZero fx) (seq 0 n) fx in
  ok fx' /\ view fx' d = zero_bundle (map length (view fx d)) /\
  forall d', d' <> d -> view fx' d' = view fx d'.
Proof.
  intros Hok Hd.
  destruct (fold_upd_spec (fun _ _ => setZero) (fun _ => setZero) fx d Hok Hd)
    as (Hok' & Hv & Hframe); [done|].
  split; [done|]. split; [|done].
  rewrite Hv. rewrite <- map_setZero. apply (imap_const setZero).
Qed.

(** The loop "Check if any ... directions are all zero", after its first
    [d] turns: the directions that are kept have moved to their ranks, the
    directions from [d] on are as they were, and the flags say which
    directions had no nonzero. *)
Lemma compress_inv fx0 flags0 sizes d :
  ok fx0 -> (forall d', d' < nd -> map length (view fx0 d') = sizes) -> d <= nd ->
  let c := fun d' => zero_dir (view fx0 d') in
  let st := fold_left (compress_step get upd n) (seq 0 d) (mkCompress fx0 flags0 0) in
  ok (c_fx st) /\ c_count st = rank c d /\
  (forall d', d <= d' -> view (c_fx st) d' = view fx0 d') /\
  (forall d', d' < d -> c d' = false -> view (c_fx st) (rank c d') = view fx0 d') /\
  (forall d', d' < nd -> map length (view (c_fx st) d') = sizes) /\
  length (c_compressed st) = length flags0 /\
  (forall d', d' < d -> d' < length flags0 -> c_compressed st !! d' = Some (c d')).
Proof.
  intros Hok0 Hsz0 Hd c. induction d as [|d IH].
  { simpl. repeat split; auto; intros; lia. }
  rewrite seq_S, fold_left_app. cbn [fold_left Nat.add].
  destruct (IH ltac:(lia)) as (Hok & Hcount & Hhigh & Hlow & Hsz & Hfl & Hflags).
  clear IH. set (st := fold_left _ (seq 0 d) _) in *.
  unfold compress_step.
  rewrite (can_compress_view _ _ Hok), (Hhigh d (le_n d)). fold (c d).
  assert (forall d', d' < S d -> d' < length flags0 ->
            <[d:=c d]> (c_compressed st) !! d' = Some (c d')) as Hflags'.
  { intros d' Hd' Hl. destruct (decide (d' = d)) as [->|Hne].
    - rewrite list_lookup_insert_eq; [done|]. by rewrite Hfl.
    - rewrite list_lookup_insert_ne by done. apply Hflags; [lia|done]. }
  pose proof (rank_le c d) as Hrle.
  destruct (c d) eqn:Ec; cbn [c_fx c_count c_compressed rank].
  - rewrite Ec, Nat.add_0_r. rewrite length_insert.
    repeat split; auto.
    + intros d' Hd'. apply Hhigh. lia.
    + intros d' Hd' Hc. apply Hlow; [|done].
      destruct (decide (d' = d)) as [->|]; [congruence|lia].
  - rewrite Ec, length_insert.
    destruct (Nat.eqb_spec d (c_count st)) as [Eq|Hne].
    + repeat split; auto; [lia| |].
      * intros d' Hd'. apply Hhigh. lia.
      * intros d' Hd' Hc. destruct (decide (d' = d)) as [->|Hne].
        -- rewrite <- Hcount, <- Eq. by apply Hhigh.
        -- apply Hlow; [lia|done].
    + destruct (move_dir_spec (c_fx st) d (c_count st) Hok Hne)
        as (Hok' & Hto & Hframe).
      { rewrite Hcount. lia. }
      { rewrite !Hsz; [done|rewrite Hcount; lia|lia]. }
      repeat split; auto; [lia| | |].
      * intros d' Hd'. rewrite Hframe by lia. apply Hhigh. lia.
      * intros d' Hd' Hc. destruct (decide (d' = d)) as [->|Hne'].
        -- rewrite <- Hcount, Hto. by apply Hhigh.
        -- rewrite Hframe; [apply Hlow; [lia|done]|].
           rewrite Hcount. pose proof (rank_lt c d' d ltac:(lia) Hc). lia.
      * intros d' Hd'. destruct (decide (d' = c_count st)) as [->|Hne'].
        -- rewrite Hto. apply Hsz. lia.
        -- rewrite Hframe by done. by apply Hsz.
Qed.

(** The loop "Decompress ... directions in reverse order", after the turns
    of the directions from [d] on: these directions hold 0 where the flag
    is set and otherwise what [evaluate] left at their rank; the places
    below the rank of [d] are as [evaluate] left them. *)
Lemma decompress_inv fx1 flags sizes (c : nat -> bool) :
  ok fx1 -> (forall d', d' < nd -> map length (view fx1 d') = sizes) ->
  (forall d', d' < nd -> default false (flags !! d') = c d') ->
  forall k d, d + k = nd ->
  let st := fold_left (decompress_step get upd n flags) (rev (seq d k))
              (fx1, rank c nd) in
  ok st.1 /\ st.2 = rank c d /\
  (forall j, j < rank c d -> view st.1 j = view fx1 j) /\
  (forall d', d <= d' -> d' < nd ->
     view st.1 d' = if c d' then zero_bundle sizes else view fx1 (rank c d')) /\
  (forall d', d' < nd -> map length (view st.1 d') = sizes).
Proof.
  intros Hok1 Hsz1 Hflags. induction k as [|k IH]; intros d Hdk.
  { simpl. rewrite Nat.add_0_r in Hdk. subst d.
    repeat split; auto. intros; lia. }
  change (seq d (S k)) with (d :: seq (S d) k).
  change (rev (d :: seq (S d) k)) with (rev (seq (S d) k) ++ [d]).
  rewrite fold_left_app. cbn [fold_left].
  destruct (IH (S d) ltac:(lia)) as (Hok & Hcount & Hlow & Hhigh & Hsz). clear IH.
  set (st := fold_left _ (rev (seq (S d) k)) _) in *.
  destruct st as [fx count] eqn:Est. cbn [fst snd] in *.
  unfold decompress_step. rewrite (Hflags d) by lia.
  pose proof (rank_le c d) as Hrle. simpl in Hcount.
  destruct (c d) eqn:Ec.
  - rewrite Nat.add_0_r in Hcount.
    destruct (zero_dir_spec fx d Hok ltac:(lia)) as (Hok' & Hv & Hframe).
    cbn [fst snd]. split; [done|]. split; [done|]. split; [|split].
    + intros j Hj. rewrite Hframe by lia. apply Hlow. simpl. rewrite Ec. lia.
    + intros d' Hd' Hnd. destruct (decide (d' = d)) as [->|Hne].
      * rewrite Hv, Ec, Hsz by lia. done.
      * rewrite Hframe by done. apply Hhigh; lia.
    + intros d' Hd'. destruct (decide (d' = d)) as [->|Hne].
      * rewrite Hv, length_zero_bundle. by apply Hsz.
      * rewrite Hframe by done. by apply Hsz.
  - assert (pred count = rank c d) as Hpred by lia. rewrite Hpred.
    assert (forall j, j < S (rank c d) -> view fx j = view fx1 j) as Hlow'.
    { intros j Hj. apply Hlow. simpl. rewrite Ec. lia. }
    destruct (Nat.eqb_spec (rank c d) d) as [Eq|Hne]; cbn [fst snd].
    + split; [done|]. split; [done|]. split; [|split; [|done]].
      * intros j Hj. apply Hlow'. lia.
      * intros d' Hd' Hnd. destruct (decide (d' = d)) as [->|Hne].
        -- rewrite Ec, Eq. apply Hlow'. lia.
        -- apply Hhigh; lia.
    + destruct (move_dir_spec fx (rank c d) d Hok Hne ltac:(lia))
        as (Hok' & Hto & Hframe).
      { rewrite !Hsz; [done|lia|lia]. }
      split; [done|]. split; [done|]. split; [|split].
      * intros j Hj. rewrite Hframe by lia. apply Hlow'. lia.
      * intros d' Hd' Hnd. destruct (decide (d' = d)) as [->|Hne'].
        -- rewrite Hto, Ec. apply Hlow'. lia.
        -- rewrite Hframe by done. apply Hhigh; lia.
      * intros d' Hd'. destruct (decide (d' = d)) as [->|Hne'].
        -- rewrite Hto. apply Hsz. lia.
        -- rewrite Hframe by done. by apply Hsz.
Qed.

(** What the references do not touch is left alone by the loops. *)
Lemma move_dir_frame {A : Type} (g : FXInternal T -> A) from to fx :
  (forall ind d f fx, g (upd ind d f fx) = g fx) ->
  g (move_dir get upd n from to fx) = g fx.
Proof.
  intros Hg. unfold move_dir. generalize (seq 0 n). intros l. revert fx.
  induction l as [|i l IH]; intros fx; simpl; [done|]. by rewrite IH, Hg.
Qed.

Lemma compress_frame {A : Type} (g : FXInternal T -> A) ndir fx flags :
  (forall ind d f fx, g (upd ind d f fx) = g fx) ->
  g (c_fx (compress get upd n ndir fx flags)) = g fx.
Proof.
  intros Hg. unfold compress.
  change fx with (c_fx (mkCompress fx flags 0)) at 2.
  generalize (mkCompress fx flags 0). generalize (seq 0 ndir). intros l.
  induction l as [|d l IH]; intros st; simpl; [done|].
  rewrite IH. unfold compress_step.
  destruct (can_compress get n (c_fx st) d); [done|]. simpl.
  destruct (Nat.eqb d (c_count st)); [done|]. by apply move_dir_frame.
Qed.

Lemma decompress_frame {A : Type} (g : FXInternal T -> A) ndir flags st :
  (forall ind d f fx, g (upd ind d f fx) = g fx) ->
  g (decompress get upd n ndir flags st).1 = g st.1.
Proof.
  intros Hg. unfold decompress. generalize (rev (seq 0 ndir)). intros l.
  revert st. induction l as [|d l IH]; intros st; simpl; [done|].
  rewrite IH. destruct st as [fx count]. unfold decompress_step.
  destruct (default false (flags !! d)); cbn [fst snd].
  - generalize (seq 0 n). intros l'. revert fx.
    induction l' as [|i l' IH']; intros fx; simpl; [done|]. by rewrite IH', Hg.
  - destruct (Nat.eqb (pred count) d); cbn [fst snd]; [done|].
    by apply move_dir_frame.
Qed.

End Lens.

(** The four kinds of references of [FXInternal] are lenses. *)
Section References.
Context {T : Type} `{Scalar T}.
Variable sel : FunctionIO T -> list (list T).
Variable setd : nat -> (list T -> list T) -> FunctionIO T -> FunctionIO T.
Hypothesis sel_setd : forall d f io, sel (setd d f io) = alter f d (sel io).
Hypothesis sel_empty : sel emptyIO = [].
Local Set Default Proof Using "All".

Implicit Types (l : list (FunctionIO T)).

Lemma ref_get l ind d :
  default [] (sel (default emptyIO (l !! ind)) !! d) =
  default [] (map (fun io => default [] (sel io !! d)) l !! ind).
Proof.
  rewrite list_lookup_fmap. destruct (l !! ind) as [io|]; simpl; [done|].
  by rewrite sel_empty.
Qed.

Lemma ref_ok l n nd ind d f :
  has_dirs sel l n nd -> has_dirs sel (alter (setd d f) ind l) n nd.
Proof.
  intros [Hn Hall]. split; [by rewrite length_alter|].
  apply Forall_alter; [done|]. intros io Hio. by rewrite sel_setd, length_alter.
Qed.

Lemma ref_eq l n nd ind d f :
  has_dirs sel l n nd -> d < nd ->
  map (fun io => default [] (sel io !! d)) (alter (setd d f) ind l) =
  alter f ind (map (fun io => default [] (sel io !! d)) l).
Proof.
  intros [Hn Hall] Hd. apply list_fmap_alter.
  apply (Forall_impl _ _ _ Hall). intros io Hio.
  rewrite sel_setd, list_lookup_alter_eq.
  destruct (lookup_lt_is_Some_2 (sel io) d ltac:(lia)) as [v ->]. done.
Qed.

Lemma ref_ne l ind d d' f :
  d <> d' ->
  map (fun io => default [] (sel io !! d')) (alter (setd d f) ind l) =
  map (fun io => default [] (sel io !! d')) l.
Proof.
  intros Hne. apply (dir_alter_ne _ sel). intros io.
  by rewrite sel_setd, list_lookup_alter_ne.
Qed.

End References.

Section FourLenses.
Context {T : Type} `{Scalar T}.
Variables n nd : nat.
Local Set Default Proof Using "All".

Lemma lens_fwdSeed :
  lens_laws fwdSeedNoCheck upd_fwdSeed fwdSeed_dir
            (fun fx : FXInternal T => has_dirs dataF (input_ fx) n nd) n nd.
Proof.
  split.
  - intros fx ind d. by apply (ref_get dataF set_dataF).
  - intros fx d [Hn _]. unfold fwdSeed_dir. by rewrite length_map.
  - intros fx ind d f. by apply (ref_ok dataF set_dataF).
  - intros fx ind d f. by apply (ref_eq dataF set_dataF).
  - intros fx ind d d' f. by apply (ref_ne dataF set_dataF).
Qed.

Lemma lens_adjSens :
  lens_laws adjSensNoCheck upd_adjSens adjSens_dir
            (fun fx : FXInternal T => has_dirs dataA (input_ fx) n nd) n nd.
Proof.
  split.
  - intros fx ind d. by apply (ref_get dataA set_dataA).
  - intros fx d [Hn _]. unfold adjSens_dir. by rewrite length_map.
  - intros fx ind d f. by apply (ref_ok dataA set_dataA).
  - intros fx ind d f. by apply (ref_eq dataA set_dataA).
  - intros fx ind d d' f. by apply (ref_ne dataA set_dataA).
Qed.

Lemma lens_fwdSens :
  lens_laws fwdSensNoCheck upd_fwdSens fwdSens_dir
            (fun fx : FXInternal T => has_dirs dataF (output_ fx) n nd) n nd.
Proof.
  split.
  - intros fx ind d. by apply (ref_get dataF set_dataF).
  - intros fx d [Hn _]. unfold fwdSens_dir. by rewrite length_map.
  - intros fx ind d f. by apply (ref_ok dataF set_dataF).
  - intros fx ind d f. by apply (ref_eq dataF set_dataF).
  - intros fx ind d d' f. by apply (ref_ne dataF set_dataF).
Qed.

Lemma lens_adjSeed :
  lens_laws adjSeedNoCheck upd_adjSeed adjSeed_dir
            (fun fx : FXInternal T => has_dirs dataA (output_ fx) n nd) n nd.
Proof.
  split.
  - intros fx ind d. by apply (ref_get dataA set_dataA).
  - intros fx d [Hn _]. unfold adjSeed_dir. by rewrite length_map.
  - intros fx ind d f. by apply (ref_ok dataA set_dataA).
  - intros fx ind d f. by apply (ref_eq dataA set_dataA).
  - intros fx ind d d' f. by apply (ref_ne dataA set_dataA).
Qed.

End FourLenses.

(** What the loops of [evaluateCompressed] leave alone. *)
Section Projections.
Context {T : Type} `{Scalar T}.
Implicit Types (l : list (FunctionIO T)) (fx : FXInternal T).

Lemma map_alter_same {A B : Type} (g : A -> B) (u : A -> A) i (l : list A) :
  (forall x, g (u x) = g x) -> map g (alter u i l) = map g l.
Proof.
  intros E. rewrite (list_fmap_alter g u id).
  - by apply list_alter_id.
  - apply Forall_forall. intros x _. apply E.
Qed.

Lemma has_dirs_proj (sel : FunctionIO T -> list (list T)) l l' n nd :
  map sel l = map sel l' -> has_dirs sel l n nd -> has_dirs sel l' n nd.
Proof.
  intros E [Hn Hall]. split.
  - rewrite <- Hn, <- (length_map sel l'), <- E. by rewrite length_map.
  - apply Forall_forall. intros io' Hio'.
    apply list_elem_of_lookup in Hio' as [i Hi].
    assert (map sel l !! i = Some (sel io')) as Hs
      by (by rewrite E, list_lookup_fmap, Hi).
    rewrite list_lookup_fmap in Hs.
    destruct (l !! i) as [io|] eqn:Ei; [|discriminate Hs].
    simpl in Hs. injection Hs as <-.
    rewrite Forall_forall in Hall. apply Hall. by apply list_elem_of_lookup_2 in Ei.
Qed.

Lemma view_proj (sel : FunctionIO T -> list (list T)) l l' d :
  map sel l = map sel l' ->
  map (fun io => default [] (sel io !! d)) l =
  map (fun io => default [] (sel io !! d)) l'.
Proof.
  intros E.
  rewrite <- (map_map sel (fun a => default [] (a !! d)) l).
  rewrite <- (map_map sel (fun a => default [] (a !! d)) l'). by rewrite E.
Qed.

Lemma sizes_proj l l' :
  map data l = map data l' ->
  map (fun io => length (data io)) l = map (fun io => length (data io)) l'.
Proof.
  intros E. rewrite <- (map_map data length l), <- (map_map data length l').
  by rewrite E.
Qed.

(** A direction without a nonzero is the zero bundle, when [!= 0] is the
    test that it is in exact arithmetic. *)
Lemma zero_dir_bundle (b : list (list T)) :
  (forall x : T, nonzero x = false -> x = zero) ->
  zero_dir b = true -> b = zero_bundle (map length b).
Proof.
  intros Hnz. unfold zero_dir, zero_bundle. rewrite map_map.
  induction b as [|v b IH]; simpl; [done|].
  intros [Hv Hb]%andb_true_iff. rewrite <- IH by done. f_equal.
  clear IH Hb. induction v as [|x v IH]; simpl in *; [done|].
  apply andb_true_iff in Hv as [Hx Hv]. apply negb_true_iff in Hx.
  by rewrite <- IH, (Hnz x Hx).
Qed.

End Projections.

(** The four loops of [evaluateCompressed]. *)
Section Stages.
Context {T : Type} `{Scalar T}.
Variables (isz osz : list nat) (nf na : nat).
Implicit Types (fx : FXInternal T).

Lemma getNumInputs_shaped fx :
  well_shaped isz osz nf na fx -> getNumInputs fx = length isz.
Proof.
  intros (Hi & _). rewrite <- Hi. unfold getNumInputs, input_sizes.
  by rewrite length_map.
Qed.

Lemma getNumOutputs_shaped fx :
  well_shaped isz osz nf na fx -> getNumOutputs fx = length osz.
Proof.
  intros (_ & Ho & _). rewrite <- Ho. unfold getNumOutputs, output_sizes.
  by rewrite length_map.
Qed.

(** The shape after the forward directions of the inputs were written. *)
Lemma well_shaped_input_dataF fx fx' :
  well_shaped isz osz nf na fx ->
  output_ fx' = output_ fx ->
  map data (input_ fx') = map data (input_ fx) ->
  map dataA (input_ fx') = map dataA (input_ fx) ->
  has_dirs dataF (input_ fx') (length isz) nf ->
  (forall d, d < nf -> map length (fwdSeed_dir fx' d) = isz) ->
  well_shaped isz osz nf na fx'.
Proof.
  intros (Hi & Ho & HIF & HIA & HOF & HOA & UfS & UaS & UfSe & UaSe) Fo Fd Fa Hok Hsz.
  unfold well_shaped, input_sizes, output_sizes, adjSens_dir, fwdSens_dir, adjSeed_dir.
  rewrite Fo, (sizes_proj _ _ Fd).
  split; [exact Hi|]. split; [exact Ho|]. split; [exact Hok|].
  split; [by apply (has_dirs_proj dataA (input_ fx))|].
  split; [exact HOF|]. split; [exact HOA|]. split; [exact Hsz|].
  split; [|split; [exact UfSe|exact UaSe]].
  intros d Hd. rewrite (view_proj dataA _ _ d Fa). by apply UaS.
Qed.

Lemma well_shaped_input_dataA fx fx' :
  well_shaped isz osz nf na fx ->
  output_ fx' = output_ fx ->
  map data (input_ fx') = map data (input_ fx) ->
  map dataF (input_ fx') = map dataF (input_ fx) ->
  has_dirs dataA (input_ fx') (length isz) na ->
  (forall d, d < na -> map length (adjSens_dir fx' d) = isz) ->
  well_shaped isz osz nf na fx'.
Proof.
  intros (Hi & Ho & HIF & HIA & HOF & HOA & UfS & UaS & UfSe & UaSe) Fo Fd Fa Hok Hsz.
  unfold well_shaped, input_sizes, output_sizes, fwdSeed_dir, fwdSens_dir, adjSeed_dir.
  rewrite Fo, (sizes_proj _ _ Fd).
  split; [exact Hi|]. split; [exact Ho|].
  split; [by apply (has_dirs_proj dataF (input_ fx))|]. split; [exact Hok|].
  split; [exact HOF|]. split; [exact HOA|].
  split; [|split; [exact Hsz|split; [exact UfSe|exact UaSe]]].
  intros d Hd. rewrite (view_proj dataF _ _ d Fa). by apply UfS.
Qed.

Lemma well_shaped_output_dataF fx fx' :
  well_shaped isz osz nf na fx ->
  input_ fx' = input_ fx ->
  map data (output_ fx') = map data (output_ fx) ->
  map dataA (output_ fx') = map dataA (output_ fx) ->
  has_dirs dataF (output_ fx') (length osz) nf ->
  (forall d, d < nf -> map length (fwdSens_dir fx' d) = osz) ->
  well_shaped isz osz nf na fx'.
Proof.
  intros (Hi & Ho & HIF & HIA & HOF & HOA & UfS & UaS & UfSe & UaSe) Fo Fd Fa Hok Hsz.
  unfold well_shaped, input_sizes, output_sizes, fwdSeed_dir, adjSens_dir, adjSeed_dir.
  rewrite Fo, (sizes_proj _ _ Fd).
  split; [exact Hi|]. split; [exact Ho|]. split; [exact HIF|]. split; [exact HIA|].
  split; [exact Hok|]. split; [by apply (has_dirs_proj dataA (output_ fx))|].
  split; [exact UfS|]. split; [exact UaS|]. split; [exact Hsz|].
  intros d Hd. rewrite (view_proj dataA _ _ d Fa). by apply UaSe.
Qed.

Lemma well_shaped_output_dataA fx fx' :
  well_shaped isz osz nf na fx ->
  input_ fx' = input_ fx ->
  map data (output_ fx') = map data (output_ fx) ->
  map dataF (output_ fx') = map dataF (output_ fx) ->
  has_dirs dataA (output_ fx') (length osz) na ->
  (forall d, d < na -> map length (adjSeed_dir fx' d) = osz) ->
  well_shaped isz osz nf na fx'.
Proof.
  intros (Hi & Ho & HIF & HIA & HOF & HOA & UfS & UaS & UfSe & UaSe) Fo Fd Fa Hok Hsz.
  unfold well_shaped, input_sizes, output_sizes, fwdSeed_dir, adjSens_dir, fwdSens_dir.
  rewrite Fo, (sizes_proj _ _ Fd).
  split; [exact Hi|]. split; [exact Ho|]. split; [exact HIF|]. split; [exact HIA|].
  split; [by apply (has_dirs_proj dataF (output_ fx))|]. split; [exact Hok|].
  split; [exact UfS|]. split; [exact UaS|]. split; [|exact Hsz].
  intros d Hd. rewrite (view_proj dataF _ _ d Fa). by apply UfSe.
Qed.

(** "Check if any forward directions are all zero". *)
Lemma compress_fwd_stage fx flags :
  well_shaped isz osz nf na fx ->
  let c := fun d => zero_dir (fwdSeed_dir fx d) in
  let st := compress fwdSeedNoCheck upd_fwdSeed (getNumInputs fx) nf fx flags in
  well_shaped isz osz nf na (c_fx st) /\
  map data (input_ (c_fx st)) = map data (input_ fx) /\
  (forall d, adjSeed_dir (c_fx st) d = adjSeed_dir fx d) /\
  c_count st = rank c nf /\
  (forall d, d < nf -> c d = false ->
     fwdSeed_dir (c_fx st) (rank c d) = fwdSeed_dir fx d) /\
  (forall d, d < nf -> d < length flags -> c_compressed st !! d = Some (c d)).
Proof.
  intros Hw c st. pose proof Hw as (Hi & Ho & HIF & HIA & HOF & HOA & UfS & _).
  unfold st. rewrite (getNumInputs_shaped fx Hw). clear st.
  pose proof (lens_fwdSeed (T:=T) (length isz) nf) as L.
  destruct (compress_inv _ _ _ _ _ _ L fx flags isz nf HIF UfS (le_n nf))
    as (Hok & Hcount & _ & Hlow & Hsz & _ & Hflags).
  fold (compress fwdSeedNoCheck upd_fwdSeed (length isz) nf fx flags)
    in Hok, Hcount, Hlow, Hsz, Hflags.
  set (st := compress _ _ _ _ _ _) in *.
  assert (output_ (c_fx st) = output_ fx) as Fo
    by (by apply (compress_frame _ _ _ _ _ _ L output_)).
  assert (map data (input_ (c_fx st)) = map data (input_ fx)) as Fd.
  { apply (compress_frame _ _ _ _ _ _ L (fun fx => map data (input_ fx))).
    intros. by apply map_alter_same. }
  assert (map dataA (input_ (c_fx st)) = map dataA (input_ fx)) as Fa.
  { apply (compress_frame _ _ _ _ _ _ L (fun fx => map dataA (input_ fx))).
    intros. by apply map_alter_same. }
  split; [by apply (well_shaped_input_dataF fx)|]. split; [done|].
  split; [intros d; unfold adjSeed_dir; by rewrite Fo|]. done.
Qed.

(** "Check if any adjoint directions are all zero". *)
Lemma compress_adj_stage fx flags :
  well_shaped isz osz nf na fx ->
  let c := fun d => zero_dir (adjSeed_dir fx d) in
  let st := compress adjSeedNoCheck upd_adjSeed (getNumOutputs fx) na fx flags in
  well_shaped isz osz nf na (c_fx st) /\
  input_ (c_fx st) = input_ fx /\
  c_count st = rank c na /\
  (forall d, d < na -> c d = false ->
     adjSeed_dir (c_fx st) (rank c d) = adjSeed_dir fx d) /\
  (forall d, d < na -> d < length flags -> c_compressed st !! d = Some (c d)).
Proof.
  intros Hw c st.
  pose proof Hw as (Hi & Ho & HIF & HIA & HOF & HOA & UfS & UaS & UfSe & UaSe).
  unfold st. rewrite (getNumOutputs_shaped fx Hw). clear st.
  pose proof (lens_adjSeed (T:=T) (length osz) na) as L.
  destruct (compress_inv _ _ _ _ _ _ L fx flags osz na HOA UaSe (le_n na))
    as (Hok & Hcount & _ & Hlow & Hsz & _ & Hflags).
  fold (compress adjSeedNoCheck upd_adjSeed (length osz) na fx flags)
    in Hok, Hcount, Hlow, Hsz, Hflags.
  set (st := compress _ _ _ _ _ _) in *.
  assert (input_ (c_fx st) = input_ fx) as Fo
    by (by apply (compress_frame _ _ _ _ _ _ L input_)).
  assert (map data (output_ (c_fx st)) = map data (output_ fx)) as Fd.
  { apply (compress_frame _ _ _ _ _ _ L (fun fx => map data (output_ fx))).
    intros. by apply map_alter_same. }
  assert (map dataF (output_ (c_fx st)) = map dataF (output_ fx)) as Fa.
  { apply (compress_frame _ _ _ _ _ _ L (fun fx => map dataF (output_ fx))).
    intros. by apply map_alter_same. }
  split; [by apply (well_shaped_output_dataA fx)|]. done.
Qed.

(** "Decompress forward directions in reverse order". *)
Lemma decompress_fwd_stage fx flags (c : nat -> bool) :
  well_shaped isz osz nf na fx ->
  (forall d, d < nf -> default false (flags !! d) = c d) ->
  let r := decompress fwdSensNoCheck upd_fwdSens (getNumOutputs fx) nf flags
             (fx, rank c nf) in
  well_shaped isz osz nf na r.1 /\
  input_ r.1 = input_ fx /\
  (forall d, d < nf ->
     fwdSens_dir r.1 d = if c d then zero_bundle osz else fwdSens_dir fx (rank c d)).
Proof.
  intros Hw Hflags r.
  pose proof Hw as (Hi & Ho & HIF & HIA & HOF & HOA & UfS & UaS & UfSe & UaSe).
  unfold r. rewrite (getNumOutputs_shaped fx Hw). clear r.
  pose proof (lens_fwdSens (T:=T) (length osz) nf) as L.
  destruct (decompress_inv _ _ _ _ _ _ L fx flags osz c HOF UfSe Hflags nf 0
              (Nat.add_0_l nf)) as (Hok & _ & _ & Hhigh & Hsz).
  fold (decompress fwdSensNoCheck upd_fwdSens (length osz) nf flags (fx, rank c nf))
    in Hok, Hhigh, Hsz.
  set (r := decompress _ _ _ _ _ _) in *.
  assert (input_ r.1 = input_ fx) as Fo
    by (by apply (decompress_frame _ _ _ _ _ _ L input_ nf flags (fx, rank c nf))).
  assert (map data (output_ r.1) = map data (output_ fx)) as Fd.
  { apply (decompress_frame _ _ _ _ _ _ L (fun fx => map data (output_ fx))
             nf flags (fx, rank c nf)).
    intros. by apply map_alter_same. }
  assert (map dataA (output_ r.1) = map dataA (output_ fx)) as Fa.
  { apply (decompress_frame _ _ _ _ _ _ L (fun fx => map dataA (output_ fx))
             nf flags (fx, rank c nf)).
    intros. by apply map_alter_same. }
  split; [by apply (well_shaped_output_dataF fx)|]. split; [done|].
  intros d Hd. apply Hhigh; [lia|done].
Qed.

(** "Decompress adjoint directions in reverse order". *)
Lemma decompress_adj_stage fx flags (c : nat -> bool) :
  well_shaped isz osz nf na fx ->
  (forall d, d < na -> default false (flags !! d) = c d) ->
  let r := decompress adjSensNoCheck upd_adjSens (getNumInputs fx) na flags
             (fx, rank c na) in
  well_shaped isz osz nf na r.1 /\
  output_ r.1 = output_ fx /\
  (forall d, d < na ->
     adjSens_dir r.1 d = if c d then zero_bundle isz else adjSens_dir fx (rank c d)).
Proof.
  intros Hw Hflags r.
  pose proof Hw as (Hi & Ho & HIF & HIA & HOF & HOA & UfS & UaS & UfSe & UaSe).
  unfold r. rewrite (getNumInputs_shaped fx Hw). clear r.
  pose proof (lens_adjSens (T:=T) (length isz) na) as L.
  destruct (decompress_inv _ _ _ _ _ _ L fx flags isz c HIA UaS Hflags na 0
              (Nat.add_0_l na)) as (Hok & _ & _ & Hhigh & Hsz).
  fold (decompress adjSensNoCheck upd_adjSens (length isz) na flags (fx, rank c na))
    in Hok, Hhigh, Hsz.
  set (r := decompress _ _ _ _ _ _) in *.
  assert (output_ r.1 = output_ fx) as Fo
    by (by apply (decompress_frame _ _ _ _ _ _ L output_ na flags (fx, rank c na))).
  assert (map data (input_ r.1) = map data (input_ fx)) as Fd.
  { apply (decompress_frame _ _ _ _ _ _ L (fun fx => map data (input_ fx))
             na flags (fx, rank c na)).
    intros. by apply map_alter_same. }
  assert (map dataF (input_ r.1) = map dataF (input_ fx)) as Fa.
  { apply (decompress_frame _ _ _ _ _ _ L (fun fx => map dataF (input_ fx))
             na flags (fx, rank c na)).
    intros. by apply map_alter_same. }
  split; [by apply (well_shaped_input_dataA fx)|]. split; [done|].
  intros d Hd. apply Hhigh; [lia|done].
Qed.

End Stages.

Section CompressedEvaluation.
Context {T : Type} `{Scalar T}.
Implicit Types (fx : FXInternal T).

Lemma shaped_io_dirs (sel : FunctionIO T -> list (list T)) (l : list (FunctionIO T)) nd :
  Forall (fun io => nd <= length (sel io) /\
                    Forall (fun v => length v = length (data io)) (sel io)) l ->
  has_dirs sel l (length (map (fun io => length (data io)) l)) nd /\
  forall d, d < nd ->
    map length (map (fun io => default [] (sel io !! d)) l) =
    map (fun io => length (data io)) l.
Proof.
  intros Hall. split; [split|].
  - by rewrite length_map.
  - apply (Forall_impl _ _ _ Hall). by intros io [? _].
  - intros d Hd. rewrite map_map. apply map_ext_Forall.
    apply (Forall_impl _ _ _ Hall). intros io [Hn Hv].
    destruct (lookup_lt_is_Some_2 (sel io) d ltac:(lia)) as [v Hlk].
    rewrite Hlk. simpl. rewrite Forall_forall in Hv. apply Hv.
    by apply list_elem_of_lookup_2 in Hlk.
Qed.

Lemma shaped_all_well_shaped fx nfdir nadir :
  shaped_all fx nfdir nadir = true ->
  well_shaped (input_sizes fx) (output_sizes fx) nfdir nadir fx.
Proof.
  unfold shaped_all. rewrite forallb_app. intros [Hi Ho]%andb_true_iff.
  assert (forall l, forallb (shaped_io nfdir nadir) l = true ->
    Forall (fun io : FunctionIO T =>
              nfdir <= length (dataF io) /\
              Forall (fun v => length v = length (data io)) (dataF io)) l /\
    Forall (fun io : FunctionIO T =>
              nadir <= length (dataA io) /\
              Forall (fun v => length v = length (data io)) (dataA io)) l) as Hl.
  { intros l Hl. rewrite forallb_forall in Hl.
    split; apply Forall_forall; intros io Hio; apply list_elem_of_In, Hl in Hio;
      unfold shaped_io in Hio;
      apply andb_true_iff in Hio as [[[Hf Ha]%andb_true_iff HvF]%andb_true_iff HvA];
      apply Nat.leb_le in Hf, Ha; (split; [done|]);
      apply Forall_forall; intros v Hv; apply list_elem_of_In in Hv.
    - rewrite forallb_forall in HvF. by apply Nat.eqb_eq, HvF.
    - rewrite forallb_forall in HvA. by apply Nat.eqb_eq, HvA. }
  destruct (Hl _ Hi) as [HiF HiA]. destruct (Hl _ Ho) as [HoF HoA].
  destruct (shaped_io_dirs dataF _ _ HiF) as [? ?].
  destruct (shaped_io_dirs dataA _ _ HiA) as [? ?].
  destruct (shaped_io_dirs dataF _ _ HoF) as [? ?].
  destruct (shaped_io_dirs dataA _ _ HoA) as [? ?].
  unfold well_shaped. done.
Qed.

Lemma rank_ext (c c' : nat -> bool) d :
  (forall d', d' < d -> c d' = c' d') -> rank c d = rank c' d.
Proof.
  induction d as [|d IH]; intros E; simpl; [done|].
  rewrite IH by (intros; apply E; lia). by rewrite (E d) by lia.
Qed.

(** C5, for an [evaluate] that works direction by direction.  When the
    test [!= 0] fails on 0 only, the buffers have the shape that
    [FXInternal::init] gives them, the flag vectors have an entry for every
    direction, and [evaluate] is direction-wise: [evaluateCompressed]
    returns, [evaluate] on all directions returns, and both leave the same
    forward and adjoint sensitivities in every direction. *)
Theorem evaluateCompressed_same_sensitivities {Self : Type}
    (evaluate : nat -> nat -> Self * FXInternal T -> outcome (Self * FXInternal T))
    (this : FXObject Self) nfdir nadir :
  (forall x : T, nonzero x = false -> x = zero) ->
  shaped_all (buffers_ this) nfdir nadir = true ->
  nfdir <= length (compressed_fwd_ this) ->
  nadir <= length (compressed_adj_ this) ->
  direction_wise evaluate (self_ this) (buffers_ this) nfdir nadir ->
  exists this' self2 fx2,
    evaluateCompressed evaluate nfdir nadir this = Ret this' /\
    evaluate nfdir nadir (self_ this, buffers_ this) = Ret (self2, fx2) /\
    (forall d, d < nfdir -> fwdSens_dir (buffers_ this') d = fwdSens_dir fx2 d) /\
    (forall d, d < nadir -> adjSens_dir (buffers_ this') d = adjSens_dir fx2 d).
Proof.
  intros Hnz Hsh HlF HlA [Hret Hrel].
  set (fx := buffers_ this) in *.
  set (isz := input_sizes fx) in *. set (osz := output_sizes fx) in *.
  cbv zeta in Hret, Hrel.
  pose proof (shaped_all_well_shaped fx nfdir nadir Hsh) as Hw.
  fold isz osz in Hw.
  pose proof Hw as (_ & _ & _ & _ & _ & _ & UfS & _ & _ & UaSe).
  (* the forward seeds *)
  pose proof (compress_fwd_stage isz osz nfdir nadir fx (compressed_fwd_ this) Hw)
    as Hst1. cbv zeta in Hst1.
  set (cF := fun d => zero_dir (fwdSeed_dir fx d)) in *.
  set (cf := compress fwdSeedNoCheck upd_fwdSeed (getNumInputs fx) nfdir fx
               (compressed_fwd_ this)) in *.
  destruct Hst1 as (Hw1 & Hd1 & HaS1 & Hc1 & Hlow1 & Hfl1).
  (* the adjoint seeds *)
  pose proof (compress_adj_stage isz osz nfdir nadir (c_fx cf) (compressed_adj_ this)
                Hw1) as Hst2. cbv zeta in Hst2.
  rewrite (getNumOutputs_shaped isz osz nfdir nadir _ Hw1),
    <- (getNumOutputs_shaped isz osz nfdir nadir _ Hw) in Hst2.
  set (cA := fun d => zero_dir (adjSeed_dir (c_fx cf) d)) in *.
  set (ca := compress adjSeedNoCheck upd_adjSeed (getNumOutputs fx) nadir (c_fx cf)
               (compressed_adj_ this)) in *.
  destruct Hst2 as (Hw2 & Hin2 & Hc2 & Hlow2 & Hfl2).
  (* the compressed call *)
  assert (c_count cf <= nfdir /\ c_count ca <= nadir /\
          well_shaped isz osz nfdir nadir (c_fx ca) /\
          map data (input_ (c_fx ca)) = map data (input_ fx)) as Hfit1.
  { rewrite Hc1, Hc2, Hin2. split; [apply rank_le|]. split; [apply rank_le|]. done. }
  destruct (Hret _ _ _ Hfit1) as (self1 & fx1 & He & Hw3 & _ & _).
  (* the forward sensitivities *)
  pose proof (decompress_fwd_stage isz osz nfdir nadir fx1 (c_compressed cf) cF Hw3)
    as Hst4. cbv zeta in Hst4.
  specialize (Hst4 ltac:(intros d Hd; rewrite Hfl1 by lia; done)).
  rewrite <- Hc1 in Hst4.
  destruct (decompress fwdSensNoCheck upd_fwdSens (getNumOutputs fx1) nfdir
              (c_compressed cf) (fx1, c_count cf)) as [fxa cnta] eqn:Ea.
  cbn [fst] in Hst4. destruct Hst4 as (Hw4 & Hin4 & HF4).
  (* the adjoint sensitivities *)
  pose proof (decompress_adj_stage isz osz nfdir nadir fxa (c_compressed ca) cA Hw4)
    as Hst5. cbv zeta in Hst5.
  specialize (Hst5 ltac:(intros d Hd; rewrite Hfl2 by lia; done)).
  rewrite <- Hc2 in Hst5.
  destruct (decompress adjSensNoCheck upd_adjSens (getNumInputs fxa) nadir
              (c_compressed ca) (fxa, c_count ca)) as [fxb cntb] eqn:Eb.
  cbn [fst] in Hst5. destruct Hst5 as (Hw5 & Hout5 & HA5).
  (* the call on all directions *)
  assert (nfdir <= nfdir /\ nadir <= nadir /\ well_shaped isz osz nfdir nadir fx /\
          map data (input_ fx) = map data (input_ fx)) as Hfit2 by done.
  destruct (Hret _ _ _ Hfit2) as (self2 & fx2 & He2 & _ & HF0 & HA0).
  destruct (Hrel _ _ _ _ _ _ _ _ _ _ Hfit1 Hfit2 He He2) as [HF HA].
  exists (mkFXObject self1 (c_compressed cf) (c_compressed ca) fxb), self2, fx2.
  split.
  { unfold evaluateCompressed. fold fx. cbv zeta. fold cf. fold ca.
    rewrite He, Ea, Eb. reflexivity. }
  split; [exact He2|]. cbn [buffers_]. split.
  - intros d Hd. unfold fwdSens_dir at 1. rewrite Hout5.
    fold (fwdSens_dir fxa d). rewrite HF4 by done.
    destruct (cF d) eqn:Ec.
    + unfold cF in Ec. apply (zero_dir_bundle _ Hnz) in Ec.
      rewrite UfS in Ec by done. symmetry. by apply HF0.
    + apply HF; [rewrite Hc1; by apply rank_lt|done|].
      unfold fwdSeed_dir at 1. rewrite Hin2. fold (fwdSeed_dir (c_fx cf) (rank cF d)).
      by apply Hlow1.
  - intros d Hd. rewrite HA5 by done.
    assert (cA d = zero_dir (adjSeed_dir fx d)) as EcA
      by (unfold cA; by rewrite HaS1).
    destruct (cA d) eqn:Ec.
    + symmetry in EcA. apply (zero_dir_bundle _ Hnz) in EcA.
      rewrite UaSe in EcA by done. symmetry. by apply HA0.
    + unfold adjSens_dir at 1. rewrite Hin4. fold (adjSens_dir fx1 (rank cA d)).
      apply HA; [rewrite Hc2; by apply rank_lt|done|].
      by rewrite Hlow2, HaS1.
Qed.

End CompressedEvaluation.

(** ** C5: [SXFunctionInternal::evaluate] works direction by direction *)

Section Pointwise.
Context {T : Type} `{Scalar T}.
Implicit Types (w : list T) (b : list (list T)) (loc : nat * nat).

Lemma rd_wr_gen w i x s :
  rd (wr w i x) s = if Nat.eqb s i && (i <? length w) then x else rd w s.
Proof.
  destruct (Nat.eqb_spec s i) as [->|Hne]; simpl.
  - destruct (Nat.ltb_spec i (length w)) as [Hlt|Hge].
    + rewrite rd_wr by done. by rewrite Nat.eqb_refl.
    + unfold wr. by rewrite list_insert_ge.
  - by apply rd_wr_ne.
Qed.

Lemma rd2_out_of_range b loc : ~ in_range b loc -> rd2 b loc = zero.
Proof.
  unfold in_range, rd2. intros Hr. apply rd_ge. lia.
Qed.

Lemma wr2_out_of_range b loc x : ~ in_range b loc -> wr2 b loc x = b.
Proof.
  unfold in_range, wr2. intros Hr. apply list_eq. intros i.
  destruct (decide (i = loc.1)) as [->|Hne].
  - rewrite list_lookup_alter_eq. destruct (b !! loc.1) as [v|]; simpl in *; [|done].
    f_equal. unfold wr. apply list_insert_ge. lia.
  - by rewrite list_lookup_alter_ne.
Qed.

(** Two bundles of one shape with the same entries are equal. *)
Lemma bundle_ext b b' :
  map length b = map length b' ->
  (forall loc, loc ∈ locations (map length b) -> rd2 b loc = rd2 b' loc) ->
  b = b'.
Proof.
  intros Hl Hrd. apply list_eq. intros i.
  assert (map length b !! i = map length b' !! i) as Hi by (by rewrite Hl).
  rewrite !list_lookup_fmap in Hi.
  destruct (b !! i) as [v|] eqn:Ev, (b' !! i) as [v'|] eqn:Ev'; simpl in Hi;
    try done.
  injection Hi as Hi. f_equal. apply rd_ext; [done|].
  intros j Hj. specialize (Hrd (i, j)). unfold rd2 in Hrd. simpl in Hrd.
  rewrite Ev, Ev' in Hrd. simpl in Hrd. apply Hrd.
  apply locations_from_spec. exists i, (length v). simpl.
  split; [done|]. split; [|done]. by rewrite list_lookup_fmap, Ev.
Qed.

Lemma rd2_zero_bundle sizes loc : rd2 (zero_bundle (T:=T) sizes) loc = zero.
Proof.
  unfold rd2, zero_bundle. rewrite list_lookup_fmap.
  destruct (sizes !! loc.1) as [k|]; simpl; [|done].
  unfold rd. destruct (decide (loc.2 < k)) as [Hlt|Hge].
  - by rewrite lookup_replicate_2.
  - by rewrite lookup_ge_None_2 by (rewrite length_replicate; lia).
Qed.

(** A bundle whose entries are all 0 is the zero bundle of its shape. *)
Lemma bundle_zero b sizes :
  map length b = sizes ->
  (forall loc, loc ∈ locations sizes -> rd2 b loc = zero) ->
  b = zero_bundle sizes.
Proof.
  intros Hl Hz. apply bundle_ext.
  - by rewrite length_zero_bundle.
  - intros loc Hloc. rewrite rd2_zero_bundle. apply Hz. by rewrite <- Hl.
Qed.

End Pointwise.

Section ForwardDirections.
Context {T : Type} `{Scalar T}.
Implicit Types (st : sweep_state (T:=T)) (it : AlgEl T) (alg pre : list (AlgEl T)).

Lemma output_locs_snoc pre it :
  output_locs (pre ++ [it]) =
  output_locs pre ++
  (if Operation_eqb (op it) OP_OUTPUT then [(res it, arg_i1 it)] else []).
Proof.
  unfold output_locs. rewrite omap_app. simpl.
  by destruct (Operation_eqb (op it) OP_OUTPUT).
Qed.

Lemma input_locs_snoc pre it :
  input_locs (pre ++ [it]) =
  input_locs pre ++
  (if Operation_eqb (op it) OP_INPUT then [(arg_i0 it, arg_i1 it)] else []).
Proof.
  unfold input_locs. rewrite omap_app. simpl.
  by destruct (Operation_eqb (op it) OP_INPUT).
Qed.

(** One instruction of two forward sweeps over the same tape with the
    same seeds: the slots written so far agree. *)
Lemma fwd_step_rel d1 d2 st1 st2 pre it :
  forallb (produced pre) (sweep_reads it) = true ->
  sw_it st1 = sw_it st2 ->
  length (sw_work st1) = length (sw_work st2) ->
  fwdSeed_dir (sw_fx st1) d1 = fwdSeed_dir (sw_fx st2) d2 ->
  (forall s, produced pre s = true -> rd (sw_work st1) s = rd (sw_work st2) s) ->
  sw_it (fwd_step d1 st1 it) = sw_it (fwd_step d2 st2 it) /\
  (forall s, produced (pre ++ [it]) s = true ->
     rd (sw_work (fwd_step d1 st1 it)) s = rd (sw_work (fwd_step d2 st2 it)) s) /\
  (op it = OP_OUTPUT ->
     rd (sw_work st1) (arg_i0 it) = rd (sw_work st2) (arg_i0 it)).
Proof.
  intros Hr Hit Hl Hseed Hw.
  assert (forall s x1 x2, x1 = x2 ->
            produced pre s || Nat.eqb (res it) s = true ->
            rd (wr (sw_work st1) (res it) x1) s = rd (wr (sw_work st2) (res it) x2) s)
    as Hwr.
  { intros s x1 x2 -> Hp. rewrite !rd_wr_gen, <- Hl.
    destruct (Nat.eqb_spec s (res it)) as [->|Hne]; simpl.
    - destruct (Nat.ltb_spec (res it) (length (sw_work st1))); [done|].
      rewrite !rd_ge by lia. done.
    - apply Hw. apply orb_true_iff in Hp as [?|Hp]; [done|].
      apply Nat.eqb_eq in Hp. congruence. }
  destruct (Operation_eqb (op it) OP_OUTPUT) eqn:Eout.
  - apply Operation_eqb_eq in Eout. unfold fwd_step, sweep_reads in *.
    rewrite Eout in *. cbn [sw_it sw_work sw_fx].
    split; [done|]. split.
    + intros s. rewrite produced_snoc, Eout. cbn [Operation_eqb negb andb].
      rewrite orb_false_r. apply Hw.
    + intros _. simpl in Hr. apply andb_true_iff in Hr as [Hr _]. by apply Hw.
  - assert (exists x1 x2 t1 t2,
      x1 = x2 /\ t1 = t2 /\
      fwd_step d1 st1 it = mkSweep (wr (sw_work st1) (res it) x1) t1 (sw_fx st1) /\
      fwd_step d2 st2 it = mkSweep (wr (sw_work st2) (res it) x2) t2 (sw_fx st2))
      as (x1 & x2 & t1 & t2 & Ex & Et & -> & ->).
    { unfold fwd_step, sweep_reads in *.
      destruct (op it) eqn:Eo; try discriminate Eout;
        eexists _, _, _, _;
        (split; [|split; [|split; reflexivity]]);
        first [ by rewrite ?Hit
              | by rewrite !fwdSeedNoCheck_rd, Hseed
              | simpl in Hr; apply andb_true_iff in Hr as [H0 Hr];
                apply andb_true_iff in Hr as [H1 _];
                by rewrite Hit, (Hw _ H0), (Hw _ H1) ]. }
    cbn [sw_it sw_work sw_fx]. split; [done|]. split.
    + intros s. rewrite produced_snoc, Eout. cbn [negb andb]. by apply Hwr.
    + intros Eo. rewrite Eo in Eout. discriminate Eout.
Qed.

Lemma in_range_same_shape (b b' : list (list T)) loc :
  map length b = map length b' -> in_range b loc <-> in_range b' loc.
Proof. intros E. split; apply in_range_length; done. Qed.

(** What the store of an output instruction does to two bundles of one
    shape that agree on the places of a list. *)
Lemma wr2_rel (b1 b2 : list (list T)) (locs : list (nat * nat)) loc0 x :
  map length b1 = map length b2 ->
  (forall loc, loc ∈ locs -> rd2 b1 loc = rd2 b2 loc) ->
  forall loc, loc ∈ locs ++ [loc0] ->
    rd2 (wr2 b1 loc0 x) loc = rd2 (wr2 b2 loc0 x) loc.
Proof.
  intros Hl Hrd loc Hloc.
  destruct (decide (loc0 = loc)) as [<-|Hne].
  - destruct (lt_dec loc0.2 (length (default [] (b1 !! loc0.1)))) as [Hr|Hr];
      fold (in_range b1 loc0) in Hr.
    + rewrite !rd2_wr2_eq; [done| |done]. by apply (in_range_same_shape b1).
    + rewrite !rd2_out_of_range; [done| |].
      * intros Hr'. apply Hr. apply (in_range_same_shape b1 b2); [done|].
        revert Hr'. apply in_range_length. by rewrite length_wr2.
      * intros Hr'. apply Hr. revert Hr'. apply in_range_length.
        by rewrite length_wr2.
  - rewrite !rd2_wr2_ne by done. apply Hrd.
    apply elem_of_app in Hloc as [?|Hloc]; [done|].
    apply list_elem_of_singleton in Hloc. congruence.
Qed.

(** Two forward sweeps over the same tape with the same seeds write the
    same forward sensitivities. *)
Lemma fwd_fold_rel d1 d2 alg : forall pre st1 st2,
  valid_from sweep_reads pre alg = true ->
  sw_it st1 = sw_it st2 ->
  length (sw_work st1) = length (sw_work st2) ->
  fwdSeed_dir (sw_fx st1) d1 = fwdSeed_dir (sw_fx st2) d2 ->
  (forall s, produced pre s = true -> rd (sw_work st1) s = rd (sw_work st2) s) ->
  map length (fwdSens_dir (sw_fx st1) d1) = map length (fwdSens_dir (sw_fx st2) d2) ->
  (forall loc, loc ∈ output_locs pre ->
     rd2 (fwdSens_dir (sw_fx st1) d1) loc = rd2 (fwdSens_dir (sw_fx st2) d2) loc) ->
  forall loc, loc ∈ output_locs (pre ++ alg) ->
    rd2 (fwdSens_dir (sw_fx (fold_left (fwd_step d1) alg st1)) d1) loc =
    rd2 (fwdSens_dir (sw_fx (fold_left (fwd_step d2) alg st2)) d2) loc.
Proof.
  induction alg as [|it alg IH]; intros pre st1 st2 Hv Hit Hl Hseed Hw Hsh Hsens.
  { rewrite app_nil_r. exact Hsens. }
  simpl in Hv. apply andb_true_iff in Hv as [Hr Hv].
  destruct (fwd_step_rel d1 d2 st1 st2 pre it Hr Hit Hl Hseed Hw) as (Hit' & Hw' & Ho).
  intros loc Hloc. cbn [fold_left].
  apply (IH (pre ++ [it])); try done.
  - by rewrite !length_fwd_step.
  - unfold fwdSeed_dir. by rewrite !fwd_step_input.
  - rewrite !fwd_step_fwdSens.
    destruct (Operation_eqb (op it) OP_OUTPUT); [|done]. by rewrite !length_wr2.
  - intros loc' Hloc'. rewrite !fwd_step_fwdSens. rewrite output_locs_snoc in Hloc'.
    destruct (Operation_eqb (op it) OP_OUTPUT) eqn:Eo.
    + apply Operation_eqb_eq in Eo. rewrite (Ho Eo).
      by apply (wr2_rel _ _ (output_locs pre)).
    + rewrite app_nil_r in Hloc'. by apply Hsens.
  - by rewrite <- app_assoc.
Qed.

End ForwardDirections.

Section AdjointDirections.
Context {T : Type} `{Scalar T}.
Implicit Types (st : sweep_state (T:=T)) (it : AlgEl T) (alg pre : list (AlgEl T)).

Lemma input_locs_rev alg loc : loc ∈ input_locs (rev alg) <-> loc ∈ input_locs alg.
Proof.
  unfold input_locs. rewrite !list_elem_of_omap.
  split; intros (ae & Hae & E); exists ae; (split; [|done]);
    apply list_elem_of_In; apply list_elem_of_In in Hae.
  - by rewrite <- in_rev in Hae.
  - by rewrite <- in_rev.
Qed.

(** One instruction of two adjoint sweeps that hold the same accumulators,
    over the same tape with the same seeds. *)
Lemma adj_step_rel d1 d2 st1 st2 it :
  sw_work st1 = sw_work st2 -> sw_it st1 = sw_it st2 ->
  adjSeed_dir (sw_fx st1) d1 = adjSeed_dir (sw_fx st2) d2 ->
  sw_work (adj_step d1 st1 it) = sw_work (adj_step d2 st2 it) /\
  sw_it (adj_step d1 st1 it) = sw_it (adj_step d2 st2 it).
Proof.
  intros Hw Hit Hseed. unfold adj_step.
  destruct (op it); cbn [sw_work sw_it sw_fx];
    by rewrite ?adjSeedNoCheck_rd, ?Hseed, Hw, ?Hit.
Qed.

(** Two adjoint sweeps that start on the same accumulators, over the same
    tape with the same seeds, write the same adjoint sensitivities. *)
Lemma adj_fold_rel d1 d2 l : forall locs st1 st2,
  sw_work st1 = sw_work st2 -> sw_it st1 = sw_it st2 ->
  adjSeed_dir (sw_fx st1) d1 = adjSeed_dir (sw_fx st2) d2 ->
  map length (adjSens_dir (sw_fx st1) d1) = map length (adjSens_dir (sw_fx st2) d2) ->
  (forall loc, loc ∈ locs ->
     rd2 (adjSens_dir (sw_fx st1) d1) loc = rd2 (adjSens_dir (sw_fx st2) d2) loc) ->
  forall loc, loc ∈ locs ++ input_locs l ->
    rd2 (adjSens_dir (sw_fx (fold_left (adj_step d1) l st1)) d1) loc =
    rd2 (adjSens_dir (sw_fx (fold_left (adj_step d2) l st2)) d2) loc.
Proof.
  induction l as [|it l IH]; intros locs st1 st2 Hw Hit Hseed Hsh Hsens.
  { unfold input_locs. simpl. rewrite app_nil_r. exact Hsens. }
  destruct (adj_step_rel d1 d2 st1 st2 it Hw Hit Hseed) as [Hw' Hit'].
  intros loc Hloc. cbn [fold_left].
  apply (IH (locs ++ (if Operation_eqb (op it) OP_INPUT
                      then [(arg_i0 it, arg_i1 it)] else []))); try done.
  - unfold adjSeed_dir. by rewrite !adj_step_output.
  - rewrite !adj_step_adjSens.
    destruct (Operation_eqb (op it) OP_INPUT); [|done]. by rewrite !length_wr2.
  - intros loc' Hloc'. rewrite !adj_step_adjSens.
    destruct (Operation_eqb (op it) OP_INPUT) eqn:Eo.
    + rewrite Hw. by apply (wr2_rel _ _ locs).
    + rewrite app_nil_r in Hloc'. by apply Hsens.
  - rewrite input_locs_cons in Hloc. rewrite <- app_assoc.
    by destruct (Operation_eqb (op it) OP_INPUT).
Qed.

(** The value pass depends on the buffers through the input values. *)
Lemma inputNoCheck_proj (fx fx' : FXInternal T) i :
  map data (input_ fx) = map data (input_ fx') ->
  inputNoCheck fx i = inputNoCheck fx' i.
Proof.
  intros E. unfold inputNoCheck.
  assert (map data (input_ fx) !! i = map data (input_ fx') !! i) as Ei
    by (by rewrite E).
  rewrite !list_lookup_fmap in Ei.
  destruct (input_ fx !! i), (input_ fx' !! i); simpl in *; congruence.
Qed.

Lemma tape_steps_rel alg : forall (st1 st2 : list T * list (T * T) * FXInternal T),
  st1.1 = st2.1 -> map data (input_ st1.2) = map data (input_ st2.2) ->
  (fold_left tape_step alg st1).1 = (fold_left tape_step alg st2).1.
Proof.
  induction alg as [|it alg IH]; intros st1 st2 E Ed; [done|].
  cbn [fold_left]. apply IH.
  - destruct st1 as [[w1 t1] fx1], st2 as [[w2 t2] fx2]. simpl in E, Ed.
    injection E as -> ->. unfold tape_step.
    destruct (op it); cbn [fst snd]; try done.
    by rewrite (inputNoCheck_proj fx1 fx2).
  - by rewrite !tape_step_input.
Qed.

End AdjointDirections.

Section ZeroDirections.
Context {T : Type} `{Scalar T}.
Variables (sub : T -> T -> T) (opp : T -> T).
Hypothesis Rth : ring_theory zero one add mul sub opp (@eq T).
Add Ring Tring'' : Rth.
Local Set Default Proof Using "All".

Implicit Types (st : sweep_state (T:=T)) (it : AlgEl T) (alg pre : list (AlgEl T)).

Lemma rd_replicate_zero n s : rd (replicate n (zero : T)) s = zero.
Proof using Type.
  unfold rd. destruct (decide (s < n)).
  - by rewrite lookup_replicate_2.
  - by rewrite lookup_ge_None_2 by (rewrite length_replicate; lia).
Qed.

Lemma wr_replicate_zero n i : wr (replicate n (zero : T)) i zero = replicate n zero.
Proof using Type.
  apply rd_ext; [by rewrite length_wr|].
  intros s Hs. rewrite rd_wr_gen, rd_replicate_zero.
  by destruct (_ && _).
Qed.

(** One instruction of a forward sweep whose seeds are all 0. *)
Lemma fwd_step_zero d st pre it sizes :
  forallb (produced pre) (sweep_reads it) = true ->
  fwdSeed_dir (sw_fx st) d = zero_bundle sizes ->
  (forall s, produced pre s = true -> rd (sw_work st) s = zero) ->
  (forall s, produced (pre ++ [it]) s = true ->
     rd (sw_work (fwd_step d st it)) s = zero) /\
  (op it = OP_OUTPUT -> rd (sw_work st) (arg_i0 it) = zero).
Proof.
  intros Hr Hseed Hw.
  assert (forall s, produced pre s || Nat.eqb (res it) s = true ->
            rd (wr (sw_work st) (res it) zero) s = zero) as Hwr.
  { intros s Hp. rewrite rd_wr_gen.
    destruct (Nat.eqb_spec s (res it)) as [->|Hne]; simpl.
    - destruct (Nat.ltb_spec (res it) (length (sw_work st))); [done|].
      by rewrite rd_ge by lia.
    - apply Hw. apply orb_true_iff in Hp as [?|Hp]; [done|].
      apply Nat.eqb_eq in Hp. congruence. }
  destruct (Operation_eqb (op it) OP_OUTPUT) eqn:Eout.
  - apply Operation_eqb_eq in Eout. unfold fwd_step, sweep_reads in *.
    rewrite Eout in *. cbn [sw_it sw_work sw_fx]. split.
    + intros s. rewrite produced_snoc, Eout. cbn [Operation_eqb negb andb].
      rewrite orb_false_r. apply Hw.
    + intros _. simpl in Hr. apply andb_true_iff in Hr as [Hr _]. by apply Hw.
  - assert (exists t,
      fwd_step d st it = mkSweep (wr (sw_work st) (res it) zero) t (sw_fx st))
      as (t & ->).
    { unfold fwd_step, sweep_reads in *.
      destruct (op it) eqn:Eo; try discriminate Eout; eexists;
        first [ reflexivity
              | by rewrite fwdSeedNoCheck_rd, Hseed, rd2_zero_bundle
              | simpl in Hr; apply andb_true_iff in Hr as [H0 Hr];
                apply andb_true_iff in Hr as [H1 _];
                rewrite (Hw _ H0), (Hw _ H1); f_equal; f_equal; ring ]. }
    cbn [sw_work]. split.
    + intros s. rewrite produced_snoc, Eout. cbn [negb andb]. by apply Hwr.
    + intros Eo. rewrite Eo in Eout. discriminate Eout.
Qed.

Lemma wr2_zero (b : list (list T)) (locs : list (nat * nat)) loc0 :
  (forall loc, loc ∈ locs -> rd2 b loc = zero) ->
  forall loc, loc ∈ locs ++ [loc0] -> rd2 (wr2 b loc0 zero) loc = zero.
Proof using Type.
  intros Hrd loc Hloc.
  destruct (decide (loc0 = loc)) as [<-|Hne].
  - destruct (lt_dec loc0.2 (length (default [] (b !! loc0.1)))) as [Hr|Hr];
      fold (in_range b loc0) in Hr.
    + by rewrite rd2_wr2_eq.
    + apply rd2_out_of_range. intros Hr'. apply Hr. revert Hr'.
      apply in_range_length. by rewrite length_wr2.
  - rewrite rd2_wr2_ne by done. apply Hrd.
    apply elem_of_app in Hloc as [?|Hloc]; [done|].
    apply list_elem_of_singleton in Hloc. congruence.
Qed.

(** A forward sweep whose seeds are all 0 writes sensitivities that are
    all 0. *)
Lemma fwd_fold_zero d sizes alg : forall pre st,
  valid_from sweep_reads pre alg = true ->
  fwdSeed_dir (sw_fx st) d = zero_bundle sizes ->
  (forall s, produced pre s = true -> rd (sw_work st) s = zero) ->
  (forall loc, loc ∈ output_locs pre -> rd2 (fwdSens_dir (sw_fx st) d) loc = zero) ->
  forall loc, loc ∈ output_locs (pre ++ alg) ->
    rd2 (fwdSens_dir (sw_fx (fold_left (fwd_step d) alg st)) d) loc = zero.
Proof.
  induction alg as [|it alg IH]; intros pre st Hv Hseed Hw Hsens.
  { rewrite app_nil_r. exact Hsens. }
  simpl in Hv. apply andb_true_iff in Hv as [Hr Hv].
  destruct (fwd_step_zero d st pre it sizes Hr Hseed Hw) as (Hw' & Ho).
  intros loc Hloc. cbn [fold_left].
  apply (IH (pre ++ [it])); try done.
  - unfold fwdSeed_dir. by rewrite fwd_step_input.
  - intros loc' Hloc'. rewrite fwd_step_fwdSens. rewrite output_locs_snoc in Hloc'.
    destruct (Operation_eqb (op it) OP_OUTPUT) eqn:Eo.
    + apply Operation_eqb_eq in Eo. rewrite (Ho Eo).
      by apply (wr2_zero _ (output_locs pre)).
    + rewrite app_nil_r in Hloc'. by apply Hsens.
  - by rewrite <- app_assoc.
Qed.

(** One instruction of an adjoint sweep whose accumulators and seeds are
    all 0. *)
Lemma adj_step_zero d st it n sizes :
  sw_work st = replicate n zero ->
  adjSeed_dir (sw_fx st) d = zero_bundle sizes ->
  sw_work (adj_step d st it) = replicate n zero.
Proof.
  intros Hw Hseed. unfold adj_step. rewrite Hw.
  destruct (op it); cbn [sw_work];
    rewrite ?adjSeedNoCheck_rd, ?Hseed, ?rd2_zero_bundle, ?rd_replicate_zero;
    rewrite ?wr_replicate_zero, ?rd_replicate_zero;
    first [ reflexivity
          | apply wr_replicate_zero
          | replace (add zero zero) with (zero : T) by ring;
            apply wr_replicate_zero
          | replace (add zero (mul (tape_hd (sw_it st)).1 zero)) with (zero : T) by ring;
            rewrite wr_replicate_zero, rd_replicate_zero;
            replace (add zero (mul (tape_hd (sw_it st)).2 zero)) with (zero : T) by ring;
            apply wr_replicate_zero ].
Qed.

(** An adjoint sweep whose accumulators and seeds are all 0 writes
    sensitivities that are all 0. *)
Lemma adj_fold_zero d sizes n l : forall locs st,
  sw_work st = replicate n zero ->
  adjSeed_dir (sw_fx st) d = zero_bundle sizes ->
  (forall loc, loc ∈ locs -> rd2 (adjSens_dir (sw_fx st) d) loc = zero) ->
  forall loc, loc ∈ locs ++ input_locs l ->
    rd2 (adjSens_dir (sw_fx (fold_left (adj_step d) l st)) d) loc = zero.
Proof.
  induction l as [|it l IH]; intros locs st Hw Hseed Hsens.
  { unfold input_locs. simpl. rewrite app_nil_r. exact Hsens. }
  intros loc Hloc. cbn [fold_left].
  apply (IH (locs ++ (if Operation_eqb (op it) OP_INPUT
                      then [(arg_i0 it, arg_i1 it)] else []))).
  - by apply (adj_step_zero d st it n sizes).
  - unfold adjSeed_dir. by rewrite adj_step_output.
  - intros loc' Hloc'. rewrite adj_step_adjSens.
    destruct (Operation_eqb (op it) OP_INPUT) eqn:Eo.
    + rewrite Hw, rd_replicate_zero. by apply (wr2_zero _ locs).
    + rewrite app_nil_r in Hloc'. by apply Hsens.
  - rewrite input_locs_cons in Hloc. rewrite <- app_assoc.
    by destruct (Operation_eqb (op it) OP_INPUT).
Qed.

End ZeroDirections.

Section ShapeKept.
Context {T : Type} `{Scalar T}.
Variables (isz osz : list nat) (nf na : nat).
Local Set Default Proof Using "All".
Implicit Types (fx : FXInternal T).

Lemma upd_fwdSens_shaped fx o d j x :
  well_shaped isz osz nf na fx ->
  well_shaped isz osz nf na (upd_fwdSens o d (fun v => wr v j x) fx).
Proof.
  intros Hw. pose proof Hw as (_ & _ & _ & _ & HOF & _ & _ & _ & UfSe & _).
  apply (well_shaped_output_dataF isz osz nf na fx); try done.
  - by apply map_alter_same.
  - by apply map_alter_same.
  - by apply (ref_ok dataF set_dataF).
  - intros d' Hd'. rewrite <- (UfSe d' Hd'). unfold fwdSens_dir, upd_fwdSens. simpl.
    destruct (decide (d = d')) as [->|Hne].
    + rewrite (dir_alter_eq _ dataF _ d' o j x) by done. apply length_wr2.
    + by rewrite (ref_ne dataF set_dataF) by done.
Qed.

Lemma upd_adjSens_shaped fx i d j x :
  well_shaped isz osz nf na fx ->
  well_shaped isz osz nf na (upd_adjSens i d (fun v => wr v j x) fx).
Proof.
  intros Hw. pose proof Hw as (_ & _ & _ & HIA & _ & _ & _ & UaS & _ & _).
  apply (well_shaped_input_dataA isz osz nf na fx); try done.
  - by apply map_alter_same.
  - by apply map_alter_same.
  - by apply (ref_ok dataA set_dataA).
  - intros d' Hd'. rewrite <- (UaS d' Hd'). unfold adjSens_dir, upd_adjSens. simpl.
    destruct (decide (d = d')) as [->|Hne].
    + rewrite (dir_alter_eq _ dataA _ d' i j x) by done. apply length_wr2.
    + by rewrite (ref_ne dataA set_dataA) by done.
Qed.

Lemma upd_output_shaped fx o j x :
  well_shaped isz osz nf na fx ->
  well_shaped isz osz nf na (upd_output o (fun v => wr v j x) fx).
Proof.
  intros (Hi & Ho & HIF & HIA & HOF & HOA & UfS & UaS & UfSe & UaSe).
  assert (map dataF (output_ (upd_output o (fun v => wr v j x) fx)) =
          map dataF (output_ fx)) as EF by (by apply map_alter_same).
  assert (map dataA (output_ (upd_output o (fun v => wr v j x) fx)) =
          map dataA (output_ fx)) as EA by (by apply map_alter_same).
  split; [exact Hi|]. split.
  { rewrite <- Ho. unfold output_sizes, upd_output. simpl.
    apply map_alter_same. intros io. simpl. apply length_wr. }
  split; [exact HIF|]. split; [exact HIA|].
  split; [by apply (has_dirs_proj dataF (output_ fx))|].
  split; [by apply (has_dirs_proj dataA (output_ fx))|].
  split; [exact UfS|]. split; [exact UaS|]. split.
  - intros d Hd. unfold fwdSens_dir. rewrite (view_proj dataF _ _ d EF). by apply UfSe.
  - intros d Hd. unfold adjSeed_dir. rewrite (view_proj dataA _ _ d EA). by apply UaSe.
Qed.

Lemma fwd_step_shaped d st it :
  well_shaped isz osz nf na (sw_fx st) ->
  well_shaped isz osz nf na (sw_fx (fwd_step d st it)).
Proof.
  intros Hw. unfold fwd_step. destruct (op it); cbn [sw_fx]; try done.
  by apply upd_fwdSens_shaped.
Qed.

Lemma adj_step_shaped d st it :
  well_shaped isz osz nf na (sw_fx st) ->
  well_shaped isz osz nf na (sw_fx (adj_step d st it)).
Proof.
  intros Hw. unfold adj_step. destruct (op it); cbn [sw_fx]; try done.
  by apply upd_adjSens_shaped.
Qed.

Lemma tape_step_shaped (st : list T * list (T * T) * FXInternal T) it :
  well_shaped isz osz nf na st.2 -> well_shaped isz osz nf na (tape_step st it).2.
Proof.
  destruct st as [[w tp] fx]. intros Hw. unfold tape_step.
  destruct (op it); cbn [snd]; try done. by apply upd_output_shaped.
Qed.

Lemma eval_step_shaped (st : list T * FXInternal T) it :
  well_shaped isz osz nf na st.2 -> well_shaped isz osz nf na (eval_step st it).2.
Proof.
  destruct st as [w fx]. intros Hw. unfold eval_step.
  destruct (op it); cbn [snd]; try done. by apply upd_output_shaped.
Qed.

Lemma fold_shaped {S A : Type} (f : S -> A -> S) (proj : S -> FXInternal T) l s :
  (forall s x, well_shaped isz osz nf na (proj s) ->
               well_shaped isz osz nf na (proj (f s x))) ->
  well_shaped isz osz nf na (proj s) ->
  well_shaped isz osz nf na (proj (fold_left f l s)).
Proof.
  intros Hf. revert s. induction l as [|x l IH]; intros s Hs; [done|].
  simpl. apply IH. by apply Hf.
Qed.

(** [evaluateGen] keeps the shape of the buffers. *)
Lemma evaluateGen_shaped (this : @SXFunctionInternal T) n m e e' :
  evaluateGen this n m e = Ret e' ->
  well_shaped isz osz nf na (fx_ e) -> well_shaped isz osz nf na (fx_ e').
Proof.
  unfold evaluateGen. intros He Hw.
  destruct (negb (Nat.eqb (length (free_vars_ this)) 0)); [discriminate He|].
  destruct (negb ((0 <? n) || (0 <? m))).
  - pose proof (fold_shaped eval_step snd (algorithm_ this) (work_ e, fx_ e)
                  eval_step_shaped Hw) as Hs.
    destruct (fold_left eval_step _ _) as [w fx]. injection He as <-. exact Hs.
  - pose proof (fold_shaped tape_step snd (algorithm_ this) (work_ e, [], fx_ e)
                  tape_step_shaped Hw) as Hs.
    destruct (fold_left tape_step _ _) as [[w tp] fx]. injection He as <-.
    cbn [fx_ snd] in *.
    apply (fold_shaped _ snd).
    { intros s d Hs'. unfold adj_sweep. cbn [snd].
      apply (fold_shaped _ sw_fx); [intros; by apply adj_step_shaped|done]. }
    assert (well_shaped isz osz nf na
              (fold_left (fwd_sweep (algorithm_ this)
                            (tp ++ drop (length tp) (pdwork_ e))) (seq 0 n) (w, fx)).2)
      as Hs1.
    { apply (fold_shaped _ snd); [|done].
      intros s d Hs'. unfold fwd_sweep. cbn [snd].
      apply (fold_shaped _ sw_fx); [intros; by apply fwd_step_shaped|done]. }
    by destruct (0 <? m).
Qed.

End ShapeKept.

Section Anatomy.
Context {T : Type} `{Scalar T}.

(** The parts of a call of [evaluateGen] with derivative directions: the
    tape of the value pass, and for every direction the sweep that leaves
    the sensitivities of that direction. *)
Lemma evaluateGen_anatomy (this : @SXFunctionInternal T) n m e :
  free_vars_ this = [] ->
  sweep_valid (algorithm_ this) = true ->
  tape_fits (algorithm_ this) (length (pdwork_ e)) = true ->
  0 < n + m ->
  let alg := algorithm_ this in
  let tw := (fold_left tape_step alg (work_ e, [], fx_ e)).1 in
  exists e',
    evaluateGen this n m e = Ret e' /\
    (forall d, d < n -> exists wpre fxpre,
       length wpre = length (work_ e) /\
       fwdSeed_dir fxpre d = fwdSeed_dir (fx_ e) d /\
       fwdSens_dir fxpre d = fwdSens_dir (fx_ e) d /\
       fwdSens_dir (fx_ e') d =
       fwdSens_dir (sw_fx (fold_left (fwd_step d) alg (mkSweep wpre tw.2 fxpre))) d) /\
    (forall d, d < m -> exists fxpre,
       adjSeed_dir fxpre d = adjSeed_dir (fx_ e) d /\
       adjSens_dir fxpre d = adjSens_dir (fx_ e) d /\
       adjSens_dir (fx_ e') d =
       adjSens_dir (sw_fx (fold_left (adj_step d) (rev alg)
                             (mkSweep (replicate (length (work_ e)) zero)
                                      (rev tw.2) fxpre))) d).
Proof.
  intros Hfree Hv Hfit Hnm alg tw.
  unfold tape_fits in Hfit. apply andb_true_iff in Hfit as [Hcount Hnp].
  apply Nat.eqb_eq in Hcount. fold alg in Hcount, Hnp, Hv.
  change (forallb _ alg) with (no_parameter alg) in Hnp.
  unfold evaluateGen. rewrite Hfree. fold alg.
  assert (((0 <? n) || (0 <? m)) = true) as ->.
  { apply orb_true_iff. destruct n; [right|left]; apply Nat.ltb_lt; lia. }
  cbn [length Nat.eqb negb].
  pose proof (tape_steps_tape alg (work_ e, [], fx_ e) Hnp) as Htl.
  pose proof (tape_steps_input alg (work_ e, [], fx_ e)) as Hin0.
  pose proof (length_tape_steps alg (work_ e, [], fx_ e)) as Hlw.
  assert (forall d, fwdSens_dir (fold_left tape_step alg (work_ e, [], fx_ e)).2 d =
                    fwdSens_dir (fx_ e) d) as HfS0
    by (intros; apply tape_steps_fwdSens).
  assert (forall d, adjSeed_dir (fold_left tape_step alg (work_ e, [], fx_ e)).2 d =
                    adjSeed_dir (fx_ e) d) as HaS0
    by (intros; apply tape_steps_adjSeed).
  unfold tw. clear tw.
  destruct (fold_left tape_step alg (work_ e, [], fx_ e)) as [[work tape] fx0].
  cbn [fst snd length] in *.
  rewrite drop_ge by lia. rewrite app_nil_r.
  set (st1 := fold_left (fwd_sweep alg tape) (seq 0 n) (work, fx0)).
  set (st2 := if 0 <? m then (replicate (length st1.1) zero, st1.2) else st1).
  set (st3 := fold_left (adj_sweep alg tape) (seq 0 m) st2).
  assert (length st1.1 = length (work_ e)) as Hl1
    by (unfold st1; by rewrite length_fwd_sweeps).
  assert (st2.2 = st1.2) as E2 by (unfold st2; by destruct (0 <? m)).
  eexists. split; [reflexivity|]. cbn [fx_]. split.
  - intros d Hd.
    set (fpre := fold_left (fwd_sweep alg tape) (seq 0 d) (work, fx0)).
    exists fpre.1, fpre.2.
    split; [unfold fpre; by rewrite length_fwd_sweeps|].
    split; [unfold fwdSeed_dir, fpre; rewrite fwd_sweeps_input; cbn [snd];
            by rewrite Hin0|].
    split.
    { unfold fpre. rewrite fwd_sweeps_fwdSens_ne by (rewrite elem_of_seq; lia).
      apply HfS0. }
    unfold fwdSens_dir at 1. unfold st3. rewrite adj_sweeps_output, E2.
    fold (fwdSens_dir st1.2 d). unfold st1.
    rewrite (seq_split_at n d Hd), fold_left_app. cbn [fold_left]. fold fpre.
    rewrite fwd_sweeps_fwdSens_ne by (rewrite elem_of_seq; lia).
    reflexivity.
  - intros d Hd.
    assert ((0 <? m) = true) as Em by (apply Nat.ltb_lt; lia).
    set (len := length (work_ e)) in *.
    set (apre := fold_left (adj_sweep alg tape) (seq 0 d) (replicate len zero, st1.2)).
    assert (apre.1 = replicate len zero) as Eapre by (by apply adj_sweeps_closed).
    exists apre.2.
    split.
    { unfold adjSeed_dir at 1. unfold apre. rewrite adj_sweeps_output. cbn [snd].
      fold (adjSeed_dir st1.2 d). unfold st1. rewrite fwd_sweeps_adjSeed. apply HaS0. }
    split.
    { unfold apre. rewrite adj_sweeps_adjSens_ne by (rewrite elem_of_seq; lia).
      cbn [snd]. unfold adjSens_dir, st1. rewrite fwd_sweeps_input. cbn [snd].
      by rewrite Hin0. }
    unfold st3, st2. rewrite Em, Hl1.
    rewrite (seq_split_at m d Hd), fold_left_app. cbn [fold_left].
    fold apre. rewrite adj_sweeps_adjSens_ne by (rewrite elem_of_seq; lia).
    unfold adj_sweep. cbn [snd]. by rewrite Eapre.
Qed.

End Anatomy.

Section SXDirections.
Context {T : Type} `{Scalar T}.
Variables (sub : T -> T -> T) (opp : T -> T).
Hypothesis Rth : ring_theory zero one add mul sub opp (@eq T).
Local Set Default Proof Using "All".

Lemma evaluateGen_returns (this : @SXFunctionInternal T) n m e :
  free_vars_ this = [] -> exists e', evaluateGen this n m e = Ret e'.
Proof using Type.
  intros Hfree. unfold evaluateGen. rewrite Hfree. cbn [length Nat.eqb negb].
  destruct (negb ((0 <? n) || (0 <? m))).
  - destruct (fold_left eval_step _ _) as [w fx]. by eexists.
  - destruct (fold_left tape_step _ _) as [[w tp] fx]. by eexists.
Qed.

Lemma SXevaluate_Ret (this : @SXFunctionInternal T) n m self fx self' fx' :
  SXevaluate this n m (self, fx) = Ret (self', fx') ->
  exists e', evaluateGen this n m (mkSXEval self.1 self.2 fx) = Ret e' /\ fx_ e' = fx'.
Proof using Type.
  unfold SXevaluate. cbn [fst snd].
  destruct (evaluateGen this n m _) as [e'| |]; try discriminate.
  intros [= _ <-]. by exists e'.
Qed.

(** C5 for [SXFunctionInternal]: over exact scalars, the [evaluate] of a
    function whose algorithm is valid for the sweeps, has a tape of the
    right size, no free variables, and loads every input nonzero and
    stores every output nonzero once, works direction by direction. *)
Lemma SXevaluate_direction_wise (this : @SXFunctionInternal T)
    (self : list T * list (T * T)) fx0 nfdir nadir :
  sweep_valid (algorithm_ this) = true ->
  tape_fits (algorithm_ this) (length self.2) = true ->
  free_vars_ this = [] ->
  covers (algorithm_ this) fx0 = true ->
  direction_wise (SXevaluate this) self fx0 nfdir nadir.
Proof.
  intros Hv Hfit Hfree Hcov.
  set (alg := algorithm_ this) in *.
  unfold covers in Hcov. apply andb_true_iff in Hcov as [Hci Hco].
  apply bool_decide_eq_true in Hci, Hco.
  unfold direction_wise. cbv zeta.
  set (isz := input_sizes fx0) in *. set (osz := output_sizes fx0) in *.
  assert (forall loc, loc ∈ locations osz -> loc ∈ [] ++ output_locs alg) as Hout
    by (intros loc Hloc; by rewrite Hco).
  assert (forall loc, loc ∈ locations isz -> loc ∈ [] ++ input_locs (rev alg)) as Hinp
    by (intros loc Hloc; apply input_locs_rev; by rewrite Hci).
  split.
  - intros n m fx (Hn & Hm & Hw & Hd).
    pose proof Hw as (_ & _ & _ & _ & _ & _ & _ & UaS & UfSe & _).
    set (e := mkSXEval self.1 self.2 fx).
    destruct (evaluateGen_returns this n m e Hfree) as [e' He'].
    exists (work_ e', pdwork_ e'), (fx_ e').
    split; [unfold SXevaluate; cbn [fst snd]; fold e; by rewrite He'|].
    split; [by apply (evaluateGen_shaped isz osz nfdir nadir this n m e e')|].
    split.
    + intros d Hdn Hz.
      destruct (evaluateGen_anatomy this n m e Hfree Hv Hfit ltac:(lia))
        as (e'' & He'' & Hf & _).
      rewrite He' in He''. injection He'' as <-.
      destruct (Hf d Hdn) as (wpre & fxpre & _ & Hseed & Hsens & ->).
      apply bundle_zero.
      * rewrite fold_fwd_step_shape. cbn [sw_fx]. rewrite Hsens. apply UfSe. lia.
      * intros loc Hloc.
        apply (fwd_fold_zero sub opp Rth d isz _ [] _); try done;
          try (intros ? Hnil; by apply elem_of_nil in Hnil).
        -- cbn [sw_fx]. by rewrite Hseed.
        -- by apply Hout.
    + intros d Hdm Hz.
      destruct (evaluateGen_anatomy this n m e Hfree Hv Hfit ltac:(lia))
        as (e'' & He'' & _ & Ha).
      rewrite He' in He''. injection He'' as <-.
      destruct (Ha d Hdm) as (fxpre & Hseed & Hsens & ->).
      apply bundle_zero.
      * rewrite fold_adj_step_shape. cbn [sw_fx]. rewrite Hsens. apply UaS. lia.
      * intros loc Hloc.
        apply (adj_fold_zero sub opp Rth d osz (length (work_ e)) _ [] _); try done;
          try (intros ? Hnil; by apply elem_of_nil in Hnil).
        -- cbn [sw_fx]. by rewrite Hseed.
        -- by apply Hinp.
  - intros n1 m1 fx1 self1 fx1' n2 m2 fx2 self2 fx2'
           (Hn1 & Hm1 & Hw1 & Hd1) (Hn2 & Hm2 & Hw2 & Hd2) He1 He2.
    apply SXevaluate_Ret in He1 as (e1' & He1 & <-).
    apply SXevaluate_Ret in He2 as (e2' & He2 & <-).
    set (e1 := mkSXEval self.1 self.2 fx1) in *.
    set (e2 := mkSXEval self.1 self.2 fx2) in *.
    pose proof Hw1 as (_ & _ & _ & _ & _ & _ & _ & UaS1 & UfSe1 & _).
    pose proof Hw2 as (_ & _ & _ & _ & _ & _ & _ & UaS2 & UfSe2 & _).
    assert ((fold_left tape_step alg (work_ e1, [], fx_ e1)).1 =
            (fold_left tape_step alg (work_ e2, [], fx_ e2)).1) as Etape.
    { apply tape_steps_rel; [done|]. unfold e1, e2. cbn [snd fx_]. by rewrite Hd1, Hd2. }
    split.
    + intros d1 d2 Hdn1 Hdn2 Hseed.
      destruct (evaluateGen_anatomy this n1 m1 e1 Hfree Hv Hfit ltac:(lia))
        as (e'' & He'' & Hf1 & _).
      rewrite He1 in He''. injection He'' as <-.
      destruct (evaluateGen_anatomy this n2 m2 e2 Hfree Hv Hfit ltac:(lia))
        as (e'' & He'' & Hf2 & _).
      rewrite He2 in He''. injection He'' as <-.
      destruct (Hf1 d1 Hdn1) as (w1 & fp1 & Hl1 & Hs1 & Hse1 & ->).
      destruct (Hf2 d2 Hdn2) as (w2 & fp2 & Hl2 & Hs2 & Hse2 & ->).
      fold alg. rewrite Etape.
      assert (map length (fwdSens_dir fp1 d1) = osz) as Hsh1
        by (rewrite Hse1; apply UfSe1; lia).
      assert (map length (fwdSens_dir fp2 d2) = osz) as Hsh2
        by (rewrite Hse2; apply UfSe2; lia).
      apply bundle_ext.
      * rewrite !fold_fwd_step_shape. cbn [sw_fx]. by rewrite Hsh1, Hsh2.
      * intros loc Hloc. rewrite fold_fwd_step_shape in Hloc. cbn [sw_fx] in Hloc.
        rewrite Hsh1 in Hloc.
        apply (fwd_fold_rel d1 d2 alg []); try done;
          try (intros ? Hnil; by apply elem_of_nil in Hnil).
        -- cbn [sw_work]. by rewrite Hl1, Hl2.
        -- cbn [sw_fx]. by rewrite Hs1, Hs2.
        -- cbn [sw_fx]. by rewrite Hsh1, Hsh2.
        -- by apply Hout.
    + intros d1 d2 Hdm1 Hdm2 Hseed.
      destruct (evaluateGen_anatomy this n1 m1 e1 Hfree Hv Hfit ltac:(lia))
        as (e'' & He'' & _ & Ha1).
      rewrite He1 in He''. injection He'' as <-.
      destruct (evaluateGen_anatomy this n2 m2 e2 Hfree Hv Hfit ltac:(lia))
        as (e'' & He'' & _ & Ha2).
      rewrite He2 in He''. injection He'' as <-.
      destruct (Ha1 d1 Hdm1) as (fp1 & Hs1 & Hse1 & ->).
      destruct (Ha2 d2 Hdm2) as (fp2 & Hs2 & Hse2 & ->).
      fold alg. rewrite Etape.
      assert (map length (adjSens_dir fp1 d1) = isz) as Hsh1
        by (rewrite Hse1; apply UaS1; lia).
      assert (map length (adjSens_dir fp2 d2) = isz) as Hsh2
        by (rewrite Hse2; apply UaS2; lia).
      apply bundle_ext.
      * rewrite !fold_adj_step_shape. cbn [sw_fx]. by rewrite Hsh1, Hsh2.
      * intros loc Hloc. rewrite fold_adj_step_shape in Hloc. cbn [sw_fx] in Hloc.
        rewrite Hsh1 in Hloc.
        apply (adj_fold_rel d1 d2 (rev alg) []); try done;
          try (intros ? Hnil; by apply elem_of_nil in Hnil).
        -- cbn [sw_fx]. by rewrite Hs1, Hs2.
        -- cbn [sw_fx]. by rewrite Hsh1, Hsh2.
        -- by apply Hinp.
Qed.

End SXDirections.

(** C5 at work: [x*y + x] over the integers with two forward directions,
    the first of which is compressed out, and one adjoint direction. *)
Lemma evaluateCompressed_bilinear :
  exists this' self2 fx2,
    evaluateCompressed
      (SXevaluate (Examples.linearized Examples.bilinear [[0]; [1]] [[3]])) 2 1
      (Examples.object (Examples.linearized Examples.bilinear [[0]; [1]] [[3]])
                       2 1 Examples.bilinear_fx2) = Ret this' /\
    SXevaluate (Examples.linearized Examples.bilinear [[0]; [1]] [[3]]) 2 1
      (self_ (Examples.object (Examples.linearized Examples.bilinear [[0]; [1]] [[3]])
                              2 1 Examples.bilinear_fx2),
       buffers_ (Examples.object (Examples.linearized Examples.bilinear
                                    [[0]; [1]] [[3]])
                                 2 1 Examples.bilinear_fx2)) = Ret (self2, fx2) /\
    (forall d, d < 2 -> fwdSens_dir (buffers_ this') d = fwdSens_dir fx2 d) /\
    (forall d, d < 1 -> adjSens_dir (buffers_ this') d = adjSens_dir fx2 d).
Proof.
  apply (@evaluateCompressed_same_sensitivities Z Z_scalar _
           (SXevaluate (Examples.linearized Examples.bilinear [[0]; [1]] [[3]]))
           (Examples.object (Examples.linearized Examples.bilinear [[0]; [1]] [[3]])
                            2 1 Examples.bilinear_fx2) 2 1).
  - intros x Hx. destruct (Z.eqb_spec x 0) as [->|Hne]; [reflexivity|].
    simpl in Hx. apply Z.eqb_neq in Hne. rewrite Hne in Hx. discriminate Hx.
  - vm_compute. reflexivity.
  - simpl. lia.
  - simpl. lia.
  - apply (@SXevaluate_direction_wise Z Z_scalar Z.sub Z.opp Zth);
      vm_compute; reflexivity.
Defined.

(** C5 as stated, over binary64.  [f(x,a) = (x*a)*a] at x = a = 2^600: the
    partial derivative of the second product with respect to [a] is [x*a],
    which is infinite.  In the direction whose seeds are all 0, [evaluate]
    leaves [inf * 0], which is not a number, and [evaluateCompressed]
    leaves 0.  Only products are computed: this is so for every table of
    the other operations. *)
Lemma evaluateCompressed_binary64 :
  let this := Examples.linearized Examples.overflow [[0; 1]] [[3]] in
  sweep_valid (algorithm_ this) = true /\
  free_vars_ this = [] /\
  covers (algorithm_ this) Examples.overflow_fx = true /\
  shaped_all Examples.overflow_fx 2 0 = true /\
  forall table_fun table_der,
    let double := double_scalar table_fun table_der in
    let obj := Examples.object this 2 0 Examples.overflow_fx in
    tape_fits (algorithm_ this) (length (self_ obj).2) = true /\
    exists this' self2 fx2,
      evaluateCompressed (SXevaluate this) 2 0 obj = Ret this' /\
      SXevaluate this 2 0 (self_ obj, buffers_ obj) = Ret (self2, fx2) /\
      fwdSens_dir (buffers_ this') 0 = [[PrimFloat.zero]] /\
      fwdSens_dir fx2 0 = [[PrimFloat.nan]] /\
      fwdSens_dir (buffers_ this') 0 <> fwdSens_dir fx2 0.
Proof.
  cbv zeta. do 4 (split; [vm_compute; reflexivity|]).
  intros table_fun table_der.
  split; [vm_compute; reflexivity|].
  eexists _, _, _. split; [vm_compute; reflexivity|].
  split; [vm_compute; reflexivity|].
  repeat split; try (vm_compute; reflexivity).
  intros E.
  apply (f_equal (fun b => PrimFloat.is_nan (rd (default [] (b !! 0)) 0))) in E.
  vm_compute in E. discriminate E.
Qed.

(** ** The algorithms of [init] are valid for the derivative sweeps *)

Section InitAlgorithms.
Context {T : Type} `{Scalar T}.
Implicit Types (h : list (SXNode T)) (temp : nat -> nat) (alg : list (AlgEl T)).

(** With inputs that are all different (the constructor refuses others),
    every node is listed once. *)
Lemma add_inputs_unique h nodes0 temp1 inputv d j j' :
  sorted_so_far h nodes0 temp1 -> NoDup (concat inputv) ->
  add_inputs temp1 inputv nodes0 !! j = Some (Some d) ->
  add_inputs temp1 inputv nodes0 !! j' = Some (Some d) ->
  j = j'.
Proof.
  intros Hinv Hnd. rewrite add_inputs_concat, add_inputs_app.
  set (extra := List.filter _ _).
  assert (NoDup (map Some extra)) as Hnd'.
  { apply (NoDup_fmap_2 Some). unfold extra. clear -Hnd.
    induction Hnd as [|q l Hq _ IH]; simpl; [constructor|].
    destruct (Nat.eqb (temp1 q) 0); [|done]. constructor; [|done].
    intros Hin. apply Hq. apply list_elem_of_In in Hin.
    apply filter_In in Hin as [Hin _]. by apply list_elem_of_In. }
  assert (forall q, q ∈ extra -> Some q ∉ nodes0) as Hextra.
  { intros q Hq Hin. apply Hinv in Hin. apply list_elem_of_In in Hq.
    apply filter_In in Hq as [_ E]. by apply Nat.eqb_eq in E. }
  assert (forall i, (map Some extra) !! i = Some (Some d) -> d ∈ extra) as Hin.
  { intros i Hi. rewrite list_lookup_fmap in Hi.
    destruct (extra !! i) as [q|] eqn:E; [|discriminate Hi].
    simpl in Hi. injection Hi as ->. by apply list_elem_of_lookup_2 in E. }
  intros Hj Hj'. apply lookup_app_Some in Hj, Hj'.
  destruct Hj as [Hj|[Hl Hj]], Hj' as [Hj'|[Hl' Hj']].
  - destruct (sorted_so_far_once h nodes0 temp1 d Hinv) as [j0 [_ Hu]].
    { by apply list_elem_of_lookup_2 in Hj. }
    by rewrite (Hu j Hj), (Hu j' Hj').
  - exfalso. apply (Hextra d); [by apply (Hin _ Hj')|].
    by apply list_elem_of_lookup_2 in Hj.
  - exfalso. apply (Hextra d); [by apply (Hin _ Hj)|].
    by apply list_elem_of_lookup_2 in Hj'.
  - pose proof (NoDup_lookup _ _ _ _ Hnd' Hj Hj'). lia.
Qed.

Lemma mark_symb_snoc symb_loc i q temp :
  mark_symb (symb_loc ++ [(i, q)]) temp = setTemp (mark_symb symb_loc temp) q (S i).
Proof. unfold mark_symb. by rewrite fold_left_app. Qed.

(** A symbol that is located once carries the index of its instruction. *)
Lemma mark_symb_unique symb_loc temp k p :
  (k, p) ∈ symb_loc -> (forall k', (k', p) ∈ symb_loc -> k' = k) ->
  mark_symb symb_loc temp p = S k.
Proof.
  induction symb_loc as [|[i q] l IH] using rev_ind; intros Hin Hu.
  { by apply elem_of_nil in Hin. }
  rewrite mark_symb_snoc. destruct (decide (p = q)) as [->|Hne].
  - rewrite setTemp_eq. f_equal. apply Hu. apply elem_of_app. right. by left.
  - rewrite setTemp_ne by done. apply IH.
    + apply elem_of_app in Hin as [?|Hin]; [done|].
      apply list_elem_of_singleton in Hin. congruence.
    + intros k' Hk'. apply Hu. apply elem_of_app. by left.
Qed.

Lemma allocate_ops live st alg : map op (allocate live st alg).2 = map op alg.
Proof.
  revert st. induction alg as [|ae alg IH]; intros st; simpl; [done|].
  pose proof (alloc_step_operands live st ae) as Hstep.
  destruct (alloc_step live st ae) as [st1 ae'].
  destruct Hstep as (Hop & _).
  specialize (IH st1). destruct (allocate live st1 alg) as [st2 r'].
  simpl in *. by rewrite Hop, IH.
Qed.

(** The instructions that are still [OP_PARAMETER] belong to symbols that
    carry their mark. *)
Lemma input_nonzeros_parameters (symb_loc : list (nat * nat)) ind nz v alg temp :
  (forall k ae, alg !! k = Some ae -> op ae = OP_PARAMETER ->
     exists p, (k, p) ∈ symb_loc /\ temp p = S k) ->
  forall k ae, (input_nonzeros ind nz v (alg, temp)).1 !! k = Some ae ->
    op ae = OP_PARAMETER ->
    exists p, (k, p) ∈ symb_loc /\ (input_nonzeros ind nz v (alg, temp)).2 p = S k.
Proof.
  revert nz alg temp. induction v as [|p0 v IH]; intros nz alg temp Hinv; [done|].
  simpl. destruct (temp p0) as [|i] eqn:E; [by apply IH|].
  apply IH. intros k ae Hk Ho.
  destruct (decide (i = k)) as [->|Hne].
  - rewrite list_lookup_alter_eq in Hk.
    destruct (alg !! k) as [ae0|]; [|discriminate Hk].
    simpl in Hk. injection Hk as <-. by destruct ae0.
  - rewrite list_lookup_alter_ne in Hk by done.
    destruct (Hinv k ae Hk Ho) as (p & Hp & Ht). exists p. split; [done|].
    rewrite setTemp_ne; [done|]. intros ->. congruence.
Qed.

Lemma input_instructions_parameters (symb_loc : list (nat * nat)) ind inputv alg temp :
  (forall k ae, alg !! k = Some ae -> op ae = OP_PARAMETER ->
     exists p, (k, p) ∈ symb_loc /\ temp p = S k) ->
  forall k ae, (input_instructions ind inputv (alg, temp)).1 !! k = Some ae ->
    op ae = OP_PARAMETER ->
    exists p, (k, p) ∈ symb_loc /\
              (input_instructions ind inputv (alg, temp)).2 p = S k.
Proof.
  revert ind alg temp. induction inputv as [|v inputv IH]; intros ind alg temp Hinv;
    [done|].
  simpl. pose proof (input_nonzeros_parameters symb_loc ind 0 v alg temp Hinv) as Hv.
  destruct (input_nonzeros ind 0 v (alg, temp)) as [alg1 temp1].
  by apply IH.
Qed.

(** Without free variables, every located symbol has lost its mark. *)
Lemma locate_free_none (symb_loc : list (nat * nat)) temp k p :
  (locate_free symb_loc temp).1 = [] -> (k, p) ∈ symb_loc -> temp p = 0.
Proof.
  intros Hnil Hin. destruct (Nat.eq_dec (temp p) 0) as [|Hne]; [done|].
  exfalso. assert (p ∈ (locate_free symb_loc temp).1) as Hp.
  { unfold locate_free. apply locate_free_found. right. split; [by exists k|done]. }
  rewrite Hnil in Hp. by apply elem_of_nil in Hp.
Qed.

(** Without free variables, no instruction of [init] is left as
    [OP_PARAMETER]: every symbol has become an input. *)
Lemma init_no_parameter fuel live jit h inputv outputv temp0 this :
  arena_ok h = true ->
  (forall p, temp0 p = 0) ->
  forallb (isSymbolic h) (concat inputv) = true ->
  NoDup (concat inputv) ->
  init fuel live jit h inputv outputv temp0 = Ret this ->
  free_vars_ this = [] ->
  Forall (fun ae => op ae <> OP_PARAMETER) (algorithm_ this).
Proof.
  intros Hok H0 Hsym Hnd Hi Hfree.
  apply init_Ret in Hi
    as (_ & nodes0 & temp1 & a & alg & Hs & Ha & Halg & _ & _ & _ & Hfv).
  cbv zeta in Ha, Halg, Hfv.
  destruct (sort_outputs_sorted _ _ _ _ _ _ Hs H0) as [Hinv Hm].
  pose proof (add_inputs_nodes_ok h _ inputv _ _ Hinv Hm Hsym) as (_ & _ & Hc).
  pose proof (add_inputs_unique h nodes0 temp1 inputv) as Hunique.
  set (nodes := add_inputs temp1 inputv nodes0) in *.
  set (temp2 := number_nodes 0 nodes temp1) in *.
  destruct (build_symb_loc h outputv temp2 nodes
      (mkBuild [] [] (next_output outputv 0) 0 (replicate (length nodes) 0%Z)))
    as [_ Hsymb]; [done|done|done|].
  destruct (build_prefix h outputv temp2 nodes
      (mkBuild [] [] (next_output outputv 0) 0 (replicate (length nodes) 0%Z)))
    as (Hlen & _ & Hins); [done|lia|done|apply out_pos_start|].
  fold (build h outputv temp2 nodes) in Hsymb, Hlen, Hins.
  set (b := build h outputv temp2 nodes) in *.
  set (temp3 := mark_symb (b_symb_loc b) (reset_nodes nodes temp2)) in *.
  assert (forall k ae, alg !! k = Some ae -> op ae = OP_PARAMETER ->
            exists p, (k, p) ∈ b_symb_loc b /\ temp3 p = S k) as Hbase.
  { intros k ae Hk Ho.
    pose proof (allocate_ops live (mkAlloc (b_refcount b) (replicate (length nodes) 0) [] 0)
                  (b_algorithm b)) as Hops.
    rewrite Ha in Hops. simpl in Hops.
    assert (map op alg !! k = Some OP_PARAMETER) as Hk'
      by (by rewrite list_lookup_fmap, Hk, <- Ho).
    rewrite Hops, list_lookup_fmap in Hk'.
    destruct (b_algorithm b !! k) as [ae0|] eqn:E0; [|discriminate Hk'].
    simpl in Hk'. injection Hk' as Ho0.
    apply lookup_lt_Some in E0 as Hlt. rewrite Hlen in Hlt.
    destruct (lookup_lt_is_Some_2 nodes k Hlt) as [n Hn].
    destruct (Hins k n Hn) as (ae1 & E1 & Hspec).
    rewrite E0 in E1. injection E1 as <-.
    destruct n as [p|]; simpl in Hspec.
    - destruct Hspec as (Hop & _). exists p.
      assert ((k, p) ∈ b_symb_loc b) as Hkp.
      { apply Hsymb. split; [done|]. unfold isSymbolic. apply Operation_eqb_eq.
        congruence. }
      split; [done|]. apply mark_symb_unique; [done|].
      intros k' Hk'. apply Hsymb in Hk' as [Hk' _].
      by apply (Hunique p k' k).
    - destruct Hspec as (Hop & _). congruence. }
  pose proof (input_instructions_parameters (b_symb_loc b) 0 inputv alg temp3 Hbase)
    as Hfinal.
  rewrite Hfree in Hfv. symmetry in Hfv.
  apply Forall_forall. intros ae Hae Ho.
  rewrite Halg in Hae. apply list_elem_of_lookup in Hae as [k Hk].
  destruct (Hfinal k ae Hk Ho) as (p & Hp & Ht).
  pose proof (locate_free_none _ _ k p Hfv Hp) as Hz. congruence.
Qed.

(** Reading fewer slots keeps an algorithm valid. *)
Lemma valid_from_reads_incl (reads reads' : AlgEl T -> list nat) pre alg :
  Forall (fun ae => forall s, s ∈ reads' ae -> s ∈ reads ae) alg ->
  valid_from reads pre alg = true -> valid_from reads' pre alg = true.
Proof.
  intros Hall. revert pre. induction Hall as [|ae alg Hae _ IH]; intros pre; [done|].
  simpl. intros [Hr Hv]%andb_true_iff. apply andb_true_iff. split; [|by apply IH].
  rewrite forallb_forall in Hr. apply forallb_forall. intros s Hs.
  apply Hr. apply list_elem_of_In. apply Hae. by apply list_elem_of_In.
Qed.

(** What the derivative sweeps read is among the operands, for an
    instruction that names a single operand twice and is not a symbol. *)
Lemma sweep_reads_operands (ae : AlgEl T) s :
  second_is_first ae -> op ae <> OP_PARAMETER ->
  s ∈ sweep_reads ae -> s ∈ operand_slots ae.
Proof.
  unfold second_is_first, sweep_reads, operand_slots. intros H2 Hp.
  destruct (op ae) eqn:Eo; try done; simpl in *;
    try (rewrite H2 by done; intros Hs;
         apply elem_of_cons in Hs as [->|Hs]; [by left|];
         apply list_elem_of_singleton in Hs as ->; by left).
Qed.

(** The algorithms of [init] without free variables are valid for the
    derivative sweeps of [evaluateGen]. *)
Lemma init_sweep_valid fuel live jit h inputv outputv temp0 this :
  arena_ok h = true ->
  (forall p, temp0 p = 0) ->
  forallb (isSymbolic h) (concat inputv) = true ->
  NoDup (concat inputv) ->
  init fuel live jit h inputv outputv temp0 = Ret this ->
  free_vars_ this = [] ->
  sweep_valid (algorithm_ this) = true.
Proof.
  intros Hok H0 Hsym Hnd Hi Hfree.
  pose proof (init_no_parameter _ _ _ _ _ _ _ _ Hok H0 Hsym Hnd Hi Hfree) as Hnp.
  apply init_Ret in Hi as (_ & nodes0 & temp1 & a & alg & Hs & Ha & Halg & _).
  cbv zeta in Ha, Halg.
  destruct (sort_outputs_sorted _ _ _ _ _ _ Hs H0) as [Hinv Hm].
  pose proof (add_inputs_nodes_ok h _ inputv _ _ Hinv Hm Hsym) as Hn.
  set (nodes := add_inputs temp1 inputv nodes0) in *.
  pose proof (build_virtual_valid h outputv temp1 nodes Hok Hn) as Hvv.
  assert (Forall second_is_first (algorithm_ this)) as H2.
  { rewrite Halg. apply input_instructions_Forall.
    - intros ae i j Hn'. by destruct ae.
    - change alg with (a, alg).2. rewrite <- Ha.
      apply allocate_Forall. intros; apply alloc_step_second_is_first. }
  unfold sweep_valid.
  apply (valid_from_reads_incl operand_slots).
  { rewrite Forall_forall in H2, Hnp. apply Forall_forall. intros ae Hae s.
    apply sweep_reads_operands; auto. }
  rewrite Halg.
  apply (valid_from_marked operand_slots [] [] alg).
  - intros ae E. unfold operand_slots. by rewrite E.
  - by apply input_instructions_marked, marked_refl.
  - constructor.
  - change alg with (a, alg).2. rewrite <- Ha.
    apply (allocate_valid live _ [] []); [done|done| |done].
    simpl. rewrite length_replicate.
    destruct Hn as (_ & _ & Hc).
    destruct (build_prefix h outputv (number_nodes 0 nodes temp1) nodes
        (mkBuild [] [] (next_output outputv 0) 0 (replicate (length nodes) 0%Z)))
      as (Hlen & _); [done|lia|done|apply out_pos_start|].
    unfold build. lia.
Qed.

(** C2.  For every algorithm of the linearizer [init] (no free variable
    left, as [evaluateGen] asks), all input values and all seeds: the
    reverse sweep of every adjoint direction, started on accumulators that
    are all zero, leaves every accumulator exactly zero, so that the next
    direction starts from zero; and [evaluateGen], called with adjoint
    directions, returns with every entry of the work vector exactly
    zero. *)
Theorem adjoint_accumulator_closure fuel live jit h inputv outputv temp0
    this nfdir nadir e :
  arena_ok h = true ->
  (forall p, temp0 p = 0) ->
  forallb (isSymbolic h) (concat inputv) = true ->
  NoDup (concat inputv) ->
  init fuel live jit h inputv outputv temp0 = Ret this ->
  free_vars_ this = [] ->
  0 < nadir ->
  (forall pdwork fx dir n,
     (adj_sweep (algorithm_ this) pdwork (replicate n zero, fx) dir).1
     = replicate n zero) /\
  exists e', evaluateGen this nfdir nadir e = Ret e' /\
             work_ e' = replicate (length (work_ e)) zero.
Proof.
  intros Hok H0 Hsym Hnd Hi Hfree Hn.
  apply adj_closure_valid; [|done|done].
  by apply (init_sweep_valid fuel live jit h inputv outputv temp0).
Qed.

End InitAlgorithms.

(** ** The instructions of the inputs and of the outputs *)

Section Marking.
Context {T : Type} `{Zero T}.
Implicit Types (alg : list (AlgEl T)) (temp : nat -> nat).

Lemma input_nonzeros_fold ind nz v (st : list (AlgEl T) * (nat -> nat)) :
  input_nonzeros ind nz v st =
  fold_left mark_input (imap (fun j p => (ind, nz + j, p)) v) st.
Proof.
  revert nz st. induction v as [|p v IH]; intros nz [alg temp]; [done|].
  rewrite imap_cons. simpl. rewrite Nat.add_0_r. rewrite IH.
  rewrite (imap_ext _ ((fun j p => (ind, nz + j, p)) ∘ S) v)
    by (intros; simpl; f_equal; f_equal; lia).
  by destruct (temp p).
Qed.

Lemma input_instructions_fold ind inputv (st : list (AlgEl T) * (nat -> nat)) :
  input_instructions ind inputv st = fold_left mark_input (input_places ind inputv) st.
Proof.
  unfold input_places. revert ind st.
  induction inputv as [|v inputv IH]; intros ind st; [done|].
  rewrite imap_cons. simpl. rewrite fold_left_app, IH, input_nonzeros_fold.
  rewrite Nat.add_0_r. f_equal.
  f_equal. apply imap_ext. intros i x _. simpl. apply imap_ext. intros j p _.
  f_equal. f_equal. lia.
Qed.

Lemma input_places_spec ind inputv i j p :
  (i, j, p) ∈ input_places ind inputv <->
  exists k row, i = ind + k /\ inputv !! k = Some row /\ row !! j = Some p.
Proof.
  unfold input_places. rewrite list_elem_of_In, in_concat. split.
  - intros (l & Hl & Hin). apply list_elem_of_In in Hl, Hin.
    apply elem_of_lookup_imap_1 in Hl as (k & row & -> & Hk).
    apply elem_of_lookup_imap_1 in Hin as (j' & p' & [= -> -> ->] & Hj).
    by exists k, row.
  - intros (k & row & -> & Hk & Hj).
    exists (imap (fun j p => (ind + k, j, p)) row). split; apply list_elem_of_In.
    + by apply (elem_of_lookup_imap_2 (fun i v => imap (fun j p => (ind + i, j, p)) v)).
    + by apply (elem_of_lookup_imap_2 (fun j p => (ind + k, j, p))).
Qed.

Lemma input_places_symbols ind inputv :
  map snd (input_places ind inputv) = concat inputv.
Proof.
  unfold input_places. revert ind. induction inputv as [|v inputv IH]; intros ind; [done|].
  rewrite imap_cons. simpl. rewrite map_app. f_equal.
  - change (map snd ?l) with (snd <$> l). rewrite fmap_imap.
    rewrite (imap_ext _ (const id) v) by done. by rewrite imap_const, list_fmap_id.
  - rewrite <- (IH (S ind)). f_equal. f_equal. apply imap_ext. intros i x _. simpl.
    apply imap_ext. intros j p _. f_equal. f_equal. lia.
Qed.

(** The marks are the indices of the located symbols, one symbol each. *)
Definition marks_distinct temp : Prop :=
  forall p q i, temp p = S i -> temp q = S i -> p = q.

(** What the loops over the inputs make of the algorithm: the instruction
    of every marked input symbol becomes the input instruction of the
    symbol's place, and nothing else changes. *)
Lemma fold_mark_input (ts : list (nat * nat * nat)) alg temp :
  NoDup (map snd ts) -> marks_distinct temp ->
  let st := fold_left mark_input ts (alg, temp) in
  length st.1 = length alg /\
  (forall p, st.2 p = if bool_decide (p ∈ map snd ts) then 0 else temp p) /\
  forall k ae, alg !! k = Some ae ->
    (forall ind nz p, (ind, nz, p) ∈ ts -> temp p = S k ->
       st.1 !! k = Some (set_arg_i 1 nz (set_arg_i 0 ind (set_op OP_INPUT ae)))) /\
    ((forall ind nz p, (ind, nz, p) ∈ ts -> temp p <> S k) -> st.1 !! k = Some ae).
Proof.
  intros Hnd Hinj. induction ts as [|[[ind0 nz0] p0] ts IH] using rev_ind.
  { simpl. split; [done|]. split; [done|]. intros k ae Hk. split; [|done].
    by intros ind nz p ?%elem_of_nil. }
  rewrite map_app in Hnd. apply NoDup_app in Hnd as (Hnd & Hdis & _).
  specialize (IH Hnd). rewrite fold_left_app. simpl.
  destruct (fold_left mark_input ts (alg, temp)) as [alg1 temp1].
  simpl in IH. destruct IH as (Hlen & Htemp & Halg).
  assert (p0 ∉ map snd ts) as Hp0.
  { intros Hin. apply (Hdis p0 Hin). by left. }
  assert (temp1 p0 = temp p0) as E0.
  { rewrite Htemp. by rewrite bool_decide_eq_false_2. }
  assert (forall ind nz p, (ind, nz, p) ∈ ts -> p <> p0) as Hne.
  { intros ind nz p Hin ->. apply Hp0.
    change (map snd ts) with (snd <$> ts). apply list_elem_of_fmap.
    by exists (ind, nz, p0). }
  unfold mark_input. cbn [fst snd].
  rewrite E0. destruct (temp p0) as [|i] eqn:Et; cbn [fst snd].
  - split; [done|]. split.
    + intros p. rewrite Htemp, map_app. simpl.
      destruct (decide (p = p0)) as [->|Hpp].
      * rewrite bool_decide_eq_false_2 by done.
        rewrite bool_decide_eq_true_2; [done|]. apply elem_of_app. right. by left.
      * rewrite (bool_decide_ext (p ∈ map snd ts ++ [p0]) (p ∈ map snd ts)); [done|].
        rewrite elem_of_app, list_elem_of_singleton. tauto.
    + intros k ae Hk. destruct (Halg k ae Hk) as [H1 H2]. split.
      * intros ind nz p Hin Hp. apply elem_of_app in Hin as [Hin|Hin]; [by eapply H1|].
        apply list_elem_of_singleton in Hin as [= -> -> ->]. congruence.
      * intros Hall. apply H2. intros ind nz p Hin. apply (Hall ind nz p).
        apply elem_of_app. by left.
  - split; [by rewrite length_alter|]. split.
    + intros p. rewrite map_app. simpl.
      destruct (decide (p = p0)) as [->|Hpp].
      * rewrite setTemp_eq. rewrite bool_decide_eq_true_2; [done|].
        apply elem_of_app. right. by left.
      * rewrite setTemp_ne by done. rewrite Htemp.
        rewrite (bool_decide_ext (p ∈ map snd ts ++ [p0]) (p ∈ map snd ts)); [done|].
        rewrite elem_of_app, list_elem_of_singleton. tauto.
    + intros k ae Hk. destruct (Halg k ae Hk) as [H1 H2]. split.
      * intros ind nz p Hin Hp. apply elem_of_app in Hin as [Hin|Hin].
        -- rewrite list_lookup_alter_ne; [by eapply H1|].
           intros ->. apply (Hne ind nz p Hin). by apply (Hinj p p0 k).
        -- apply list_elem_of_singleton in Hin as [= -> -> ->].
           assert (i = k) as -> by congruence.
           rewrite list_lookup_alter_eq. rewrite H2; [done|].
           intros ind' nz' p' Hin' Hp'. apply (Hne ind' nz' p' Hin').
           by apply (Hinj p' p0 k).
      * intros Hall. assert (i <> k) as Hik.
        { intros ->. apply (Hall ind0 nz0 p0); [|done]. apply elem_of_app. right. by left. }
        rewrite list_lookup_alter_ne by done. apply H2.
        intros ind nz p Hin. apply (Hall ind nz p). apply elem_of_app. by left.
Qed.

End Marking.

Section InitAnatomy.
Context {T : Type} `{Scalar T}.
Implicit Types (h : list (SXNode T)) (temp : nat -> nat) (alg : list (AlgEl T)).

Lemma reset_nodes_spec (nodes : list (option nat)) temp p :
  reset_nodes nodes temp p = if bool_decide (Some p ∈ nodes) then 0 else temp p.
Proof.
  induction nodes as [|x nodes IH] using rev_ind.
  { unfold reset_nodes. cbn [fold_left]. rewrite bool_decide_eq_false_2; [done|].
    by intros ?%elem_of_nil. }
  unfold reset_nodes in *. rewrite fold_left_app. simpl.
  destruct x as [q|].
  - destruct (decide (p = q)) as [->|Hne].
    + rewrite setTemp_eq. rewrite bool_decide_eq_true_2; [done|].
      apply elem_of_app. right. by left.
    + rewrite setTemp_ne by done. rewrite IH.
      rewrite (bool_decide_ext (Some p ∈ nodes ++ [Some q]) (Some p ∈ nodes)); [done|].
      rewrite elem_of_app, list_elem_of_singleton. split; [|tauto].
      intros [?|[= ?]]; done.
  - rewrite IH.
    rewrite (bool_decide_ext (Some p ∈ nodes ++ [None]) (Some p ∈ nodes)); [done|].
    rewrite elem_of_app, list_elem_of_singleton. split; [|tauto].
    intros [?|?]; done.
Qed.

Lemma number_nodes_other i (nodes : list (option nat)) temp p :
  Some p ∉ nodes -> number_nodes i nodes temp p = temp p.
Proof.
  induction nodes as [|x nodes IH] using rev_ind; intros Hp; [done|].
  rewrite number_nodes_snoc.
  assert (Some p ∉ nodes) as Hp' by (intros Hin; apply Hp, elem_of_app; by left).
  destruct x as [q|]; [|by apply IH].
  rewrite setTemp_ne; [by apply IH|].
  intros ->. apply Hp, elem_of_app. right. by left.
Qed.

(** A mark is the index of a located symbol. *)
Lemma mark_symb_inv (symb_loc : list (nat * nat)) temp p k :
  (forall q, temp q = 0) -> mark_symb symb_loc temp p = S k -> (k, p) ∈ symb_loc.
Proof.
  intros H0. induction symb_loc as [|[i q] l IH] using rev_ind.
  { simpl. by rewrite H0. }
  rewrite mark_symb_snoc. destruct (decide (p = q)) as [->|Hne].
  - rewrite setTemp_eq. intros [= ->]. apply elem_of_app. right. by left.
  - rewrite setTemp_ne by done. intros Hk. apply elem_of_app. left. by apply IH.
Qed.

Lemma alloc_step_output live st (ae : AlgEl T) :
  op ae = OP_OUTPUT ->
  res (alloc_step live st ae).2 = res ae /\ arg_i1 (alloc_step live st ae).2 = arg_i1 ae.
Proof.
  intros Ho. unfold alloc_step, store. rewrite Ho. simpl.
  unfold make_binary. rewrite op_locate_deps, Ho. simpl.
  rewrite res_locate_deps. split; [done|].
  unfold locate_deps. rewrite Ho. simpl. by destruct ae.
Qed.

Lemma allocate_output_locs live st alg :
  output_locs (allocate live st alg).2 = output_locs alg.
Proof.
  revert st. induction alg as [|ae alg IH]; intros st; simpl; [done|].
  pose proof (alloc_step_operands live st ae) as Hstep.
  pose proof (alloc_step_output live st ae) as Hout.
  destruct (alloc_step live st ae) as [st1 ae'].
  destruct Hstep as (Hop & _).
  specialize (IH st1). destruct (allocate live st1 alg) as [st2 r'].
  simpl in *. unfold output_locs in *. simpl. rewrite Hop.
  destruct (Operation_eqb (op ae) OP_OUTPUT) eqn:E; [|done].
  apply Operation_eqb_eq in E. destruct (Hout E) as [-> ->]. by rewrite IH.
Qed.

Lemma locations_from_app ind (s1 s2 : list nat) :
  locations_from ind (s1 ++ s2) =
  locations_from ind s1 ++ locations_from (ind + length s1) s2.
Proof.
  revert ind. induction s1 as [|n s1 IH]; intros ind; simpl.
  - by rewrite Nat.add_0_r.
  - rewrite IH, <- app_assoc. do 3 f_equal. lia.
Qed.

Lemma length_locations_from ind (l : list (list nat)) :
  length (locations_from ind (map length l)) = length (concat l).
Proof.
  revert ind. induction l as [|v l IH]; intros ind; simpl; [done|].
  by rewrite !length_app, length_map, length_seq, IH.
Qed.

(** The [m]-th place is where the walk through the outputs stands. *)
Lemma out_pos_location (outputv : list (list nat)) oind nz m :
  out_pos outputv oind nz m -> m < length (concat outputv) ->
  locations (map length outputv) !! m = Some (oind, nz).
Proof.
  intros [Hm Hpos] Hlt.
  destruct Hpos as [(out & Ho & Hnz)|[-> ->]].
  2:{ rewrite firstn_all in Hm. lia. }
  unfold locations.
  rewrite <- (take_drop_middle outputv oind out Ho) at 1.
  rewrite map_app, locations_from_app. simpl.
  rewrite lookup_app_r; rewrite length_locations_from; [|lia].
  replace (m - _) with nz by lia.
  rewrite lookup_app_l by (by rewrite length_map, length_seq).
  change (map (pair (length (map length (take oind outputv)))) (seq 0 (length out)))
    with (pair (length (map length (take oind outputv))) <$> seq 0 (length out)).
  rewrite list_lookup_fmap, lookup_seq_lt by done. simpl.
  rewrite length_map, length_take.
  apply lookup_lt_Some in Ho. do 2 f_equal. lia.
Qed.

Lemma output_locs_app (alg1 alg2 : list (AlgEl T)) :
  output_locs (alg1 ++ alg2) = output_locs alg1 ++ output_locs alg2.
Proof. unfold output_locs. apply omap_app. Qed.

(** The output instructions of the build name the places of the outputs,
    in order. *)
Lemma build_output_locs h outputv temp nodes st0 :
  arena_ok h = true ->
  count_markers nodes <= length (concat outputv) ->
  b_algorithm st0 = [] ->
  out_pos outputv (b_curr_oind st0) (b_curr_nz st0) 0 ->
  output_locs (b_algorithm (fold_left (build_step h outputv temp) nodes st0)) =
  take (count_markers nodes) (locations (map length outputv)).
Proof.
  intros Hok Hcnt Hnil Hpos0.
  induction nodes as [|x nodes IH] using rev_ind.
  { simpl. by rewrite Hnil. }
  rewrite count_markers_app in Hcnt. specialize (IH ltac:(lia)).
  destruct (build_prefix h outputv temp nodes st0) as (_ & Hpos & _);
    [done|lia|done|done|].
  rewrite fold_left_app. simpl.
  set (st := fold_left _ nodes st0) in *. clearbody st.
  rewrite count_markers_app. destruct x as [p|].
  - destruct (build_step_node h outputv temp st p) as (ae & -> & _ & _ & _ & _ & Hop & _).
    { by apply arena_ok_getOp. }
    rewrite output_locs_app, IH. unfold output_locs at 1. simpl.
    rewrite Hop. destruct (arena_ok_getOp h p Hok) as [Hno _].
    destruct (Operation_eqb (getOp h p) OP_OUTPUT) eqn:E.
    { by apply Operation_eqb_eq in E. }
    simpl. rewrite app_nil_r. f_equal. unfold count_markers. simpl. lia.
  - destruct (build_step_marker h outputv temp st) as (-> & _).
    rewrite output_locs_app, IH. unfold output_locs at 1. simpl.
    change (count_markers [None]) with 1 in *.
    rewrite Nat.add_1_r.
    rewrite (take_S_r _ _ (b_curr_oind st, b_curr_nz st)); [done|].
    apply out_pos_location; [done|lia].
Qed.

End InitAnatomy.

Section InitLinks.
Context {T : Type} `{Scalar T}.
Implicit Types (h : list (SXNode T)) (temp : nat -> nat) (alg : list (AlgEl T)).

(** [operations_] lists the nodes that are neither constants nor symbols. *)
Lemma sort_by_type_operations h (nodes : list (option nat)) :
  (sort_by_type h nodes).2 =
  omap (fun n => n ≫= fun t =>
          if isConstant h t || isSymbolic h t then None else Some t) nodes.
Proof.
  unfold sort_by_type.
  assert (forall cs os,
    (fold_left (fun '(cs, os) n =>
       match n with
       | Some t => if isConstant h t then (cs ++ [t], os)
                   else if negb (isSymbolic h t) then (cs, os ++ [t])
                   else (cs, os)
       | None => (cs, os)
       end) nodes (cs, os)).2 =
    os ++ omap (fun n => n ≫= fun t =>
          if isConstant h t || isSymbolic h t then None else Some t) nodes) as Hgen.
  { induction nodes as [|n nodes IH]; intros cs os; simpl; [by rewrite app_nil_r|].
    destruct n as [t|]; simpl; [|apply IH].
    destruct (isConstant h t), (isSymbolic h t); simpl; rewrite IH; try done.
    by rewrite <- app_assoc. }
  apply Hgen.
Qed.

(** What a normal return of [init] is made of: the sorted nodes, the
    algorithm before and after the places are given, and the marks. *)
Lemma init_anatomy_alloc fuel live jit h inputv outputv temp0 this :
  arena_ok h = true ->
  (forall p, temp0 p = 0) ->
  forallb (isSymbolic h) (concat inputv) = true ->
  NoDup (concat inputv) ->
  init fuel live jit h inputv outputv temp0 = Ret this ->
  exists (nodes : list (option nat)) alg temp3,
    (algorithm_ this = (fold_left mark_input (input_places 0 inputv) (alg, temp3)).1 /\
     pdwork_size this = length (sort_by_type h nodes).2 /\
     length alg = length nodes /\
     (forall k n, nodes !! k = Some n ->
        exists ae, alg !! k = Some ae /\
                   op ae = match n with Some p => getOp h p | None => OP_OUTPUT end) /\
     output_locs alg = locations (map length outputv) /\
     (forall p k, temp3 p = S k <->
                  nodes !! k = Some (Some p) /\ isSymbolic h p = true) /\
     (forall p, p ∈ concat inputv -> exists k, nodes !! k = Some (Some p))) /\
    exists valg refcount a,
      virtual_valid valg /\ length valg = length nodes /\
      allocate live (mkAlloc refcount (replicate (length nodes) 0) [] 0) valg
        = (a, alg) /\
      worksize_ this = a_worksize a /\
      constants_ this = (sort_by_type h nodes).1 /\
      operations_ this = (sort_by_type h nodes).2.
Proof.
  intros Hok H0 Hsym Hnd Hi.
  assert (constants_ this =
          (sort_by_type h (match sort_outputs fuel h outputv temp0 with
                           | Some (nodes0, temp1) => add_inputs temp1 inputv nodes0
                           | None => []
                           end)).1) as Hcs.
  { unfold init in Hi.
    destruct (sort_outputs fuel h outputv temp0) as [[nodes0 temp1]|]; [|discriminate].
    destruct (sort_by_type h _) as [cs os].
    destruct (allocate live _ _) as [a alg].
    destruct (input_instructions 0 inputv _) as [alg' temp4].
    destruct (locate_free _ temp4) as [fv temp5].
    destruct jit; [destruct (negb _); discriminate|].
    by injection Hi as <-. }
  apply init_Ret in Hi
    as (_ & nodes0 & temp1 & a & alg & Hs & Ha & Halg & Hw & Hpd & Hos & _).
  rewrite Hs in Hcs.
  cbv zeta in Ha, Halg, Hpd, Hos.
  destruct (sort_outputs_sorted _ _ _ _ _ _ Hs H0) as [Hinv Hm].
  pose proof (add_inputs_nodes_ok h _ inputv _ _ Hinv Hm Hsym) as Hnok.
  pose proof (build_virtual_valid h outputv temp1 _ Hok Hnok) as Hvv.
  destruct Hnok as (_ & _ & Hc).
  pose proof (add_inputs_unique h nodes0 temp1 inputv) as Hunique.
  assert (forall p, p ∈ concat inputv ->
            Some p ∈ add_inputs temp1 inputv nodes0) as Hin.
  { intros p Hp. rewrite add_inputs_concat, add_inputs_app. apply elem_of_app.
    destruct (Nat.eqb_spec (temp1 p) 0) as [E|E].
    - right. change (map Some ?l) with (Some <$> l). apply list_elem_of_fmap.
      exists p. split; [done|]. apply list_elem_of_In, filter_In.
      split; [by apply list_elem_of_In|]. by apply Nat.eqb_eq.
    - left. by apply Hinv. }
  assert (forall p, temp1 p <> 0 -> Some p ∈ add_inputs temp1 inputv nodes0) as Hold.
  { intros p Hp. rewrite add_inputs_concat, add_inputs_app. apply elem_of_app.
    left. by apply Hinv. }
  set (nodes := add_inputs temp1 inputv nodes0) in *.
  set (temp2 := number_nodes 0 nodes temp1) in *.
  destruct (build_symb_loc h outputv temp2 nodes
      (mkBuild [] [] (next_output outputv 0) 0 (replicate (length nodes) 0%Z)))
    as [_ Hsymb]; [done|done|done|].
  destruct (build_prefix h outputv temp2 nodes
      (mkBuild [] [] (next_output outputv 0) 0 (replicate (length nodes) 0%Z)))
    as (Hlen & _ & Hins); [done|lia|done|apply out_pos_start|].
  pose proof (build_output_locs h outputv temp2 nodes
      (mkBuild [] [] (next_output outputv 0) 0 (replicate (length nodes) 0%Z))
      Hok ltac:(lia) eq_refl (out_pos_start outputv)) as Hout.
  fold (build h outputv temp2 nodes) in Hsymb, Hlen, Hins, Hout.
  set (b := build h outputv temp2 nodes) in *.
  set (tempR := reset_nodes nodes temp2) in *.
  set (temp3 := mark_symb (b_symb_loc b) tempR) in *.
  pose proof (allocate_ops live (mkAlloc (b_refcount b) (replicate (length nodes) 0) [] 0)
                (b_algorithm b)) as Hops.
  pose proof (allocate_output_locs live
                (mkAlloc (b_refcount b) (replicate (length nodes) 0) [] 0)
                (b_algorithm b)) as Houts.
  rewrite Ha in Hops, Houts. simpl in Hops, Houts.
  assert (forall q, tempR q = 0) as HR.
  { intros q. unfold tempR. rewrite reset_nodes_spec.
    destruct (decide (Some q ∈ nodes)) as [Hq|Hq].
    - by rewrite bool_decide_eq_true_2.
    - rewrite bool_decide_eq_false_2 by done. unfold temp2.
      rewrite number_nodes_other by done.
      destruct (Nat.eq_dec (temp1 q) 0) as [|Hne]; [done|].
      exfalso. by apply Hq, Hold. }
  exists nodes, alg, temp3. split.
  2:{ exists (b_algorithm b), (b_refcount b), a. done. }
  split.
  { by rewrite Halg, input_instructions_fold. }
  split; [done|]. split.
  { rewrite <- Hlen, <- (length_map op alg), Hops. apply length_map. }
  split.
  { intros k n Hn. destruct (Hins k n Hn) as (ae0 & E0 & Hspec).
    assert (map op alg !! k = Some (op ae0)) as Hk
      by (by rewrite Hops, list_lookup_fmap, E0).
    rewrite list_lookup_fmap in Hk.
    destruct (alg !! k) as [ae|]; [|discriminate Hk].
    simpl in Hk. injection Hk as Hk. exists ae. split; [done|]. rewrite Hk.
    destruct n; by destruct Hspec as [-> _]. }
  split.
  { rewrite Houts, Hout, Hc. apply firstn_all2.
    unfold locations. by rewrite length_locations_from. }
  split.
  { intros p k. split.
    - intros Hk. apply Hsymb. by apply (mark_symb_inv _ tempR).
    - intros Hk. apply mark_symb_unique; [by apply Hsymb|].
      intros k' Hk'. apply Hsymb in Hk' as [Hk' _]. destruct Hk as [Hk _].
      by apply (Hunique p k' k). }
  intros p Hp. by apply list_elem_of_lookup, Hin.
Qed.

Lemma init_anatomy fuel live jit h inputv outputv temp0 this :
  arena_ok h = true ->
  (forall p, temp0 p = 0) ->
  forallb (isSymbolic h) (concat inputv) = true ->
  NoDup (concat inputv) ->
  init fuel live jit h inputv outputv temp0 = Ret this ->
  exists (nodes : list (option nat)) alg temp3,
    algorithm_ this = (fold_left mark_input (input_places 0 inputv) (alg, temp3)).1 /\
    pdwork_size this = length (sort_by_type h nodes).2 /\
    length alg = length nodes /\
    (forall k n, nodes !! k = Some n ->
       exists ae, alg !! k = Some ae /\
                  op ae = match n with Some p => getOp h p | None => OP_OUTPUT end) /\
    output_locs alg = locations (map length outputv) /\
    (forall p k, temp3 p = S k <->
                 nodes !! k = Some (Some p) /\ isSymbolic h p = true) /\
    (forall p, p ∈ concat inputv -> exists k, nodes !! k = Some (Some p)).
Proof.
  intros Hok H0 Hsym Hnd Hi.
  destruct (init_anatomy_alloc _ _ _ _ _ _ _ _ Hok H0 Hsym Hnd Hi)
    as (nodes & alg & temp3 & Hmain & _).
  by exists nodes, alg, temp3.
Qed.

End InitLinks.

Section ListCounting.
Context {A B C : Type}.

Lemma NoDup_omap_lookup (f : A -> option B) (l : list A) :
  (forall i j a b x, l !! i = Some a -> l !! j = Some b ->
     f a = Some x -> f b = Some x -> i = j) ->
  NoDup (omap f l).
Proof.
  induction l as [|a l IH]; intros Hinj; simpl; [constructor|].
  assert (NoDup (omap f l)) as Hl.
  { apply IH. intros i j a' b' x Hi Hj Ha Hb.
    pose proof (Hinj (S i) (S j) a' b' x Hi Hj Ha Hb). lia. }
  destruct (f a) as [x|] eqn:E; [|done].
  constructor; [|done]. intros Hin.
  apply list_elem_of_omap in Hin as (a' & Ha' & Hfa').
  apply list_elem_of_lookup in Ha' as [j Hj].
  pose proof (Hinj 0 (S j) a a' x eq_refl Hj E Hfa'). lia.
Qed.

Lemma length_filter_omap (P : A -> Prop) `{forall x, Decision (P x)}
    (g : B -> option C) (l : list A) (l' : list B) :
  Forall2 (fun a b => P a <-> is_Some (g b)) l l' ->
  length (filter P l) = length (omap g l').
Proof.
  induction 1 as [|a b l l' Hab _ IH]; [done|].
  rewrite filter_cons. simpl. destruct (decide (P a)) as [Ha|Ha].
  - apply Hab in Ha as [c ->]. simpl. by rewrite IH.
  - destruct (g b) as [c|] eqn:E; [|done]. exfalso. apply Ha, Hab. by exists c.
Qed.

End ListCounting.

Section Marked.
Context {T : Type} `{Scalar T}.
Variables (h : list (SXNode T)) (inputv : list (list nat))
          (nodes : list (option nat)) (alg : list (AlgEl T)) (temp3 : nat -> nat).
Hypothesis Hok : arena_ok h = true.
Hypothesis Hnd : NoDup (concat inputv).
Hypothesis Hops : forall k n, nodes !! k = Some n ->
  exists ae, alg !! k = Some ae /\
             op ae = match n with Some p => getOp h p | None => OP_OUTPUT end.
Hypothesis Hlen : length alg = length nodes.
Hypothesis Hmarks : forall p k,
  temp3 p = S k <-> nodes !! k = Some (Some p) /\ isSymbolic h p = true.
Hypothesis Hsym : forallb (isSymbolic h) (concat inputv) = true.
Hypothesis Hin : forall p, p ∈ concat inputv -> exists k, nodes !! k = Some (Some p).
Local Set Default Proof Using "All".

Local Abbreviation marked_alg :=
  (fold_left mark_input (input_places 0 inputv) (alg, temp3)).1.

(** Every instruction after the marking: left as it was, or the symbol of
    an input turned into the input instruction of its place. *)
Lemma marked_entry k ae :
  alg !! k = Some ae ->
  exists ae', marked_alg !! k = Some ae' /\
    ((ae' = ae /\ forall ind nz p, (ind, nz, p) ∈ input_places 0 inputv ->
                                   temp3 p <> S k) \/
     (exists ind nz p, (ind, nz, p) ∈ input_places 0 inputv /\ temp3 p = S k /\
        ae' = set_arg_i 1 nz (set_arg_i 0 ind (set_op OP_INPUT ae)) /\
        op ae = OP_PARAMETER)).
Proof.
  intros Hk.
  destruct (fold_mark_input (input_places 0 inputv) alg temp3) as (_ & _ & Hspec).
  { by rewrite input_places_symbols. }
  { intros p q i Hp Hq. apply Hmarks in Hp as [Hp _], Hq as [Hq _]. congruence. }
  destruct (Hspec k ae Hk) as [H1 H2].
  destruct (Forall_Exists_dec (fun t : nat * nat * nat => temp3 t.2 <> S k)
              (fun t => temp3 t.2 = S k)
              (fun t => match Nat.eq_dec (temp3 t.2) (S k) with
                        | left e => right e | right n => left n end)
              (input_places 0 inputv)) as [Hall|Hex].
  - exists ae. rewrite Forall_forall in Hall. split.
    + apply H2. intros ind nz p Hi. apply (Hall (ind, nz, p) Hi).
    + left. split; [done|]. intros ind nz p Hi. apply (Hall (ind, nz, p) Hi).
  - apply Exists_exists in Hex as ([[ind nz] p] & Hi & Hp). simpl in Hp.
    eexists. split; [by apply (H1 ind nz p)|]. right. exists ind, nz, p.
    split; [done|]. split; [done|]. split; [done|].
    apply Hmarks in Hp as [Hn Hs]. destruct (Hops k _ Hn) as (ae0 & E0 & Hop).
    rewrite Hk in E0. injection E0 as <-. rewrite Hop.
    by apply Operation_eqb_eq in Hs.
Qed.

Lemma length_marked : length marked_alg = length alg.
Proof.
  destruct (fold_mark_input (input_places 0 inputv) alg temp3) as (Hl & _); [| |done].
  { by rewrite input_places_symbols. }
  { intros p q i Hp Hq. apply Hmarks in Hp as [Hp _], Hq as [Hq _]. congruence. }
Qed.

(** The marking leaves the output instructions alone. *)
Lemma marked_output_locs : output_locs marked_alg = output_locs alg.
Proof.
  unfold output_locs. apply list_omap_ext.
  apply Forall2_same_length_lookup_2; [apply length_marked|].
  intros k ae' ae Hk' Hk. destruct (marked_entry k ae Hk) as (ae2 & E & Hcase).
  rewrite Hk' in E. injection E as <-.
  destruct Hcase as [[-> _]|(ind & nz & p & _ & _ & -> & Hop)]; [done|].
  by rewrite Hop.
Qed.

(** No instruction is an input before the marking. *)
Lemma unmarked_not_input k ae : alg !! k = Some ae -> op ae <> OP_INPUT.
Proof.
  intros Hk. apply lookup_lt_Some in Hk as Hlt. rewrite Hlen in Hlt.
  destruct (lookup_lt_is_Some_2 nodes k Hlt) as [n Hn].
  destruct (Hops k n Hn) as (ae0 & E0 & Hop).
  rewrite Hk in E0. injection E0 as <-. rewrite Hop.
  destruct n as [p|]; [|done]. by apply arena_ok_getOp.
Qed.

(** An input instruction stands at the mark of the symbol of its place. *)
Lemma marked_input k ae' :
  marked_alg !! k = Some ae' -> op ae' = OP_INPUT ->
  exists p, (arg_i0 ae', arg_i1 ae', p) ∈ input_places 0 inputv /\ temp3 p = S k.
Proof.
  intros Hk' Ho. apply lookup_lt_Some in Hk' as Hlt. rewrite length_marked in Hlt.
  destruct (lookup_lt_is_Some_2 alg k Hlt) as [ae Hk].
  destruct (marked_entry k ae Hk) as (ae2 & E & Hcase).
  rewrite Hk' in E. injection E as <-.
  destruct Hcase as [[-> _]|(ind & nz & p & Hi & Hp & -> & _)].
  - exfalso. by apply (unmarked_not_input k ae).
  - exists p. by destruct ae.
Qed.

(** Every input nonzero is loaded by exactly one instruction. *)
Lemma marked_input_locs : input_locs marked_alg ≡ₚ locations (map length inputv).
Proof.
  apply NoDup_Permutation.
  - unfold input_locs. apply NoDup_omap_lookup. intros i j a b x Hi Hj Ha Hb.
    destruct (Operation_eqb (op a) OP_INPUT) eqn:Ea; [|discriminate Ha].
    destruct (Operation_eqb (op b) OP_INPUT) eqn:Eb; [|discriminate Hb].
    apply Operation_eqb_eq in Ea, Eb. injection Ha as <-. injection Hb as Hb0 Hb1.
    destruct (marked_input i a Hi Ea) as (p & Hp & Hpi).
    destruct (marked_input j b Hj Eb) as (q & Hq & Hqj).
    rewrite Hb0, Hb1 in Hq.
    apply input_places_spec in Hp as (k & row & E1 & Hk & Hr).
    apply input_places_spec in Hq as (k' & row' & E1' & Hk' & Hr').
    assert (k' = k) as -> by lia. rewrite Hk in Hk'. injection Hk' as <-.
    rewrite Hr in Hr'. injection Hr' as <-. congruence.
  - apply NoDup_locations_from.
  - intros [ind nz]. unfold locations. rewrite locations_from_spec. simpl.
    unfold input_locs. rewrite list_elem_of_omap. split.
    + intros (ae' & Hae' & Hloc).
      destruct (Operation_eqb (op ae') OP_INPUT) eqn:E; [|discriminate Hloc].
      apply Operation_eqb_eq in E. injection Hloc as <- <-.
      apply list_elem_of_lookup in Hae' as [k Hk].
      destruct (marked_input k ae' Hk E) as (p & Hp & _).
      apply input_places_spec in Hp as (i & row & E1 & Hi & Hr).
      exists i, (length row). split; [done|]. split.
      * by rewrite list_lookup_fmap, Hi.
      * by apply lookup_lt_Some in Hr.
    + intros (i & n & -> & Hi & Hlt). rewrite list_lookup_fmap in Hi.
      destruct (inputv !! i) as [row|] eqn:Erow; [|discriminate Hi].
      simpl in Hi. injection Hi as <-.
      destruct (lookup_lt_is_Some_2 row nz Hlt) as [p Hp].
      assert ((i, nz, p) ∈ input_places 0 inputv) as Hplace.
      { apply input_places_spec. by exists i, row. }
      assert (p ∈ concat inputv) as Hpin.
      { rewrite <- (input_places_symbols 0). change (map snd ?l) with (snd <$> l).
        apply list_elem_of_fmap. by exists (i, nz, p). }
      destruct (Hin p Hpin) as [k Hk].
      assert (temp3 p = S k) as Hmark.
      { apply Hmarks. split; [done|]. rewrite forallb_forall in Hsym.
        by apply Hsym, list_elem_of_In. }
      destruct (Hops k _ Hk) as (ae & Hae & _).
      destruct (marked_entry k ae Hae) as (ae' & Hae' & Hcase).
      exists ae'. split; [by apply list_elem_of_lookup_2 in Hae'|].
      destruct Hcase as [[_ Hno]|(ind' & nz' & p' & Hi' & Hp' & -> & _)].
      { exfalso. by apply (Hno i nz p). }
      assert (p' = p) as ->.
      { apply Hmarks in Hp' as [Hp' _]. congruence. }
      assert (NoDup (snd <$> input_places 0 inputv)) as Hnd'.
      { change (NoDup (map snd (input_places 0 inputv))).
        by rewrite input_places_symbols. }
      apply list_elem_of_lookup in Hplace as [a Ha], Hi' as [b Hb].
      assert (a = b) as ->.
      { apply (NoDup_lookup _ a b p Hnd'); rewrite list_lookup_fmap.
        - by rewrite Ha.
        - by rewrite Hb. }
      rewrite Ha in Hb. injection Hb as <- <-. by destruct ae.
Qed.

(** The instructions that take an entry of the tape are those of the
    nodes in [operations_]. *)
Lemma marked_tape_count :
  Forall (fun ae => op ae <> OP_PARAMETER) marked_alg ->
  length (filter (fun ae => Is_true (takes_tape ae)) marked_alg) =
  length (sort_by_type h nodes).2.
Proof.
  intros Hnp. rewrite sort_by_type_operations.
  apply length_filter_omap.
  apply Forall2_same_length_lookup_2; [by rewrite length_marked|].
  intros k ae' n Hk' Hn.
  destruct (Hops k n Hn) as (ae & Hk & Hop).
  destruct (marked_entry k ae Hk) as (ae2 & E & Hcase).
  rewrite Hk' in E. injection E as <-.
  rewrite Forall_forall in Hnp.
  pose proof (Hnp ae' (list_elem_of_lookup_2 _ _ _ Hk')) as Hnp'.
  unfold takes_tape.
  destruct Hcase as [[-> _]|(ind & nz & q & _ & _ & -> & Hpar)].
  - rewrite Hop in *. destruct n as [p|]; simpl.
    + unfold isConstant, isSymbolic.
      destruct (arena_ok_getOp h p Hok) as [Hno Hni].
      destruct (getOp h p); simpl; try done;
        (split; [done|by intros [? ?]]) || (split; [done|by eexists]).
    + split; [done|by intros [? ?]].
  - rewrite Hop in Hpar. destruct n as [p|]; [|done]. simpl.
    unfold isConstant, isSymbolic. rewrite Hpar. simpl.
    split; [by destruct ae|by intros [? ?]].
Qed.

End Marked.

Section InitFits.
Context {T : Type} `{Scalar T}.

(** The tape of [init] has one entry for every instruction that takes
    one. *)
Lemma init_tape_fits fuel live jit (h : list (SXNode T)) inputv outputv temp0 this :
  arena_ok h = true ->
  (forall p, temp0 p = 0) ->
  forallb (isSymbolic h) (concat inputv) = true ->
  NoDup (concat inputv) ->
  init fuel live jit h inputv outputv temp0 = Ret this ->
  free_vars_ this = [] ->
  tape_fits (algorithm_ this) (pdwork_size this) = true.
Proof.
  intros Hok H0 Hsym Hnd Hi Hfree.
  pose proof (init_no_parameter _ _ _ _ _ _ _ _ Hok H0 Hsym Hnd Hi Hfree) as Hnp.
  destruct (init_anatomy _ _ _ _ _ _ _ _ Hok H0 Hsym Hnd Hi)
    as (nodes & alg & temp3 & Halg & Hpd & Hlen & Hops & _ & Hmarks & Hin).
  unfold tape_fits. apply andb_true_iff. split.
  - apply Nat.eqb_eq. rewrite Hpd, Halg.
    apply (marked_tape_count h inputv nodes alg temp3); try done.
    by rewrite <- Halg.
  - apply forallb_forall. intros ae Hae. apply list_elem_of_In in Hae.
    rewrite Forall_forall in Hnp. specialize (Hnp ae Hae).
    destruct (Operation_eqb (op ae) OP_PARAMETER) eqn:E; [|done].
    by apply Operation_eqb_eq in E.
Qed.

(** The algorithm of [init] loads every nonzero of buffers that have the
    sizes of the inputs once, and stores every nonzero of buffers that have
    the sizes of the outputs once. *)
Lemma init_covers fuel live jit (h : list (SXNode T)) inputv outputv temp0 this
    (fx : FXInternal T) :
  arena_ok h = true ->
  (forall p, temp0 p = 0) ->
  forallb (isSymbolic h) (concat inputv) = true ->
  NoDup (concat inputv) ->
  init fuel live jit h inputv outputv temp0 = Ret this ->
  input_sizes fx = map length inputv ->
  output_sizes fx = map length outputv ->
  covers (algorithm_ this) fx = true.
Proof.
  intros Hok H0 Hsym Hnd Hi Hisz Hosz.
  destruct (init_anatomy _ _ _ _ _ _ _ _ Hok H0 Hsym Hnd Hi)
    as (nodes & alg & temp3 & Halg & Hpd & Hlen & Hops & Hout & Hmarks & Hin).
  unfold covers. rewrite Hisz, Hosz, Halg. apply andb_true_iff.
  split; apply bool_decide_eq_true_2.
  - by apply (marked_input_locs h inputv nodes alg temp3).
  - rewrite (marked_output_locs h inputv nodes alg temp3) by done.
    by rewrite Hout.
Qed.

End InitFits.

Section LinearizedDuality.
Context {T : Type} `{Scalar T}.
Variables (sub : T -> T -> T) (opp : T -> T).
Hypothesis Rth : ring_theory zero one add mul sub opp (@eq T).
Local Set Default Proof Using "All".

(** C3, over exact scalars.  For every algorithm of the linearizer [init]
    without free variables, on buffers that have the sizes of the inputs
    and of the outputs, with the tape that [init] sizes: [evaluateGen] with
    the forward direction [df] and the adjoint direction [da] returns, it
    leaves the two seed bundles as they were, and the inner product of the
    adjoint seeds with the forward sensitivities equals the inner product
    of the forward seeds with the adjoint sensitivities.  The scalars are
    those of a commutative ring. *)
Theorem forward_adjoint_duality fuel live jit (h : list (SXNode T))
    inputv outputv temp0 this nfdir nadir e df da :
  arena_ok h = true ->
  (forall p, temp0 p = 0) ->
  forallb (isSymbolic h) (concat inputv) = true ->
  NoDup (concat inputv) ->
  init fuel live jit h inputv outputv temp0 = Ret this ->
  free_vars_ this = [] ->
  length (pdwork_ e) = pdwork_size this ->
  input_sizes (fx_ e) = map length inputv ->
  output_sizes (fx_ e) = map length outputv ->
  shaped (fx_ e) df da = true ->
  df < nfdir -> da < nadir ->
  exists e', evaluateGen this nfdir nadir e = Ret e' /\
    fwdSeed_dir (fx_ e') df = fwdSeed_dir (fx_ e) df /\
    adjSeed_dir (fx_ e') da = adjSeed_dir (fx_ e) da /\
    dot2 (adjSeed_dir (fx_ e') da) (fwdSens_dir (fx_ e') df) =
    dot2 (fwdSeed_dir (fx_ e') df) (adjSens_dir (fx_ e') da).
Proof.
  intros Hok H0 Hsym Hnd Hi Hfree Hpd Hisz Hosz Hsh Hdf Hda.
  apply (duality_valid sub opp Rth); try done.
  - by apply (init_sweep_valid fuel live jit h inputv outputv temp0).
  - rewrite Hpd. by apply (init_tape_fits fuel live jit h inputv outputv temp0).
  - by apply (init_covers fuel live jit h inputv outputv temp0).
Qed.

End LinearizedDuality.


(** ** What the depth-first sort schedules *)

Section DepthFirstReach.
Context {T : Type}.
Implicit Types (h : list (SXNode T)) (temp : nat -> nat).
Implicit Types (nodes s : list (option nat)).

Lemma reachable_dep h o p i d :
  reachable h o p -> dep h p i = Some d -> reachable h o d.
Proof.
  induction 1 as [p|p j e q He _ IH]; intros Hd.
  - eapply reachable_step; [done|]. apply reachable_refl.
  - eapply reachable_step; [done|]. by apply IH.
Qed.

(** The nodes that the loop appends were on the stack or are operands,
    direct or not, of nodes that were. *)
Lemma sort_depth_first_reach h (R : nat -> Prop) fuel st st' :
  (forall p i d, R p -> dep h p i = Some d -> R d) ->
  sort_depth_first fuel h st = Some st' ->
  (forall q, Some q ∈ dfs_s st -> R q) ->
  forall q, Some q ∈ dfs_nodes st' -> Some q ∈ dfs_nodes st \/ R q.
Proof.
  intros HR. revert st. induction fuel as [|fuel IH]; intros [s nodes temp]; simpl.
  - destruct s; [|discriminate]. intros [= <-] _ q Hq. by left.
  - destruct s as [|t s]; [intros [= <-] _ q Hq; by left|].
    intros Hs Hst q Hq.
    destruct (IH _ Hs) with (q := q) as [Hin|Hr]; [|done| |by right].
    + intros q'. unfold dfs_turn. destruct t as [p|].
      * destruct (Nat.eqb (temp p) 0).
        -- destruct (0 <=? dep_with_max_deps h temp p)%Z; simpl.
           ++ intros [E|Hq']%elem_of_cons; [|by apply Hst].
              apply (HR p (Z.to_nat (dep_with_max_deps h temp p))); [|done].
              apply Hst. by left.
           ++ intros Hq'. apply Hst. by right.
        -- simpl. intros Hq'. apply Hst. by right.
      * simpl. intros Hq'. apply Hst. by right.
    + revert Hin. unfold dfs_turn. destruct t as [p|]; [|by left].
      destruct (Nat.eqb (temp p) 0); [|by left].
      destruct (0 <=? dep_with_max_deps h temp p)%Z; simpl; [by left|].
      intros [Hin|Hin]%elem_of_app; [by left|].
      apply list_elem_of_singleton in Hin as [= ->]. right. apply Hst. by left.
Qed.

(** X1.  On an acyclic graph, the loop of [sort_depth_first], entered with
    one node [o] on the stack and a list that is sorted so far, comes back
    within [2*|h|+2] turns with an empty stack; it appends to the list
    exactly the nodes that [o] reaches (itself included) and that were not
    listed, and in the new list every node still comes after all its
    operands, is listed once, and is marked. *)
Theorem sort_depth_first_schedules h o nodes temp :
  acyclic h -> o < length h -> sorted_so_far h nodes temp ->
  exists st',
    sort_depth_first (dfs_fuel h) h (mkDfs [Some o] nodes temp) = Some st' /\
    dfs_s st' = [] /\
    sorted_so_far h (dfs_nodes st') (dfs_temp st') /\
    exists added,
      dfs_nodes st' = nodes ++ map Some added /\
      forall q, q ∈ added <-> reachable h o q /\ Some q ∉ nodes.
Proof.
  intros Hac Ho Hinv.
  destruct (sort_depth_first_terminates h (dfs_fuel h) o nodes temp Hac Ho)
    as [st' Hs]; [done|].
  destruct (sort_depth_first_sorted h _ _ st' Hs Hinv)
    as (Hempty & Hinv' & [added Hadd] & Hst).
  simpl in Hadd, Hst.
  exists st'. split; [done|]. split; [done|]. split; [done|].
  exists added. split; [done|].
  change (map Some added) with (Some <$> added) in Hadd.
  assert (forall q, q ∈ added -> Some q ∉ nodes) as Hfresh.
  { intros q Hq Hin.
    apply list_elem_of_lookup in Hq as [j Hj].
    apply list_elem_of_lookup in Hin as [i Hi].
    destruct Hinv' as [_ H2].
    destruct (H2 (take (length nodes + j) (dfs_nodes st')) q
                 (drop (S (length nodes + j)) (dfs_nodes st'))) as [_ Hn].
    { rewrite take_drop_middle; [done|]. rewrite Hadd.
      rewrite lookup_app_r by lia. replace (_ + j - _) with j by lia.
      by rewrite list_lookup_fmap, Hj. }
    apply Hn. apply elem_of_take. exists i.
    split; [|apply lookup_lt_Some in Hi; lia].
    rewrite Hadd. by apply lookup_app_l_Some. }
  intros q. split.
  - intros Hq. split; [|by apply Hfresh].
    assert (Some q ∈ dfs_nodes st') as Hq'.
    { rewrite Hadd. apply elem_of_app. right. apply list_elem_of_fmap. by exists q. }
    destruct (sort_depth_first_reach h (reachable h o) _ _ st'
                (fun p i d Hp Hd => reachable_dep h o p i d Hp Hd) Hs) with (q := q)
      as [Hin|Hr]; [| done | | done].
    + simpl. intros q' [[= ->]|Hn]%elem_of_cons; [apply reachable_refl|].
      by apply elem_of_nil in Hn.
    + simpl in Hin. exfalso. by apply (Hfresh q).
  - intros [Hr Hn].
    assert (Some q ∈ dfs_nodes st') as Hq.
    { apply (sorted_so_far_reachable h _ _ o q Hinv' Hr). apply Hst. by left. }
    rewrite Hadd in Hq. apply elem_of_app in Hq as [?|Hq]; [done|].
    apply list_elem_of_fmap in Hq as (q' & [= ->] & Hq'). done.
Qed.

End DepthFirstReach.

(** ** What [init] leaves behind *)

Section InitLeaves.
Context {T : Type} `{Scalar T}.
Implicit Types (h : list (SXNode T)) (temp : nat -> nat) (alg : list (AlgEl T)).

Lemma fold_mark_input_temp (ts : list (nat * nat * nat)) alg temp p :
  temp p = 0 -> (fold_left mark_input ts (alg, temp)).2 p = 0.
Proof.
  revert alg temp. induction ts as [|[[ind nz] q] ts IH]; intros alg temp Hp; [done|].
  simpl. destruct (temp q) as [|i] eqn:E; cbn [fst snd]; apply IH; [done|].
  destruct (decide (p = q)) as [->|Hne]; [apply setTemp_eq|by rewrite setTemp_ne].
Qed.

Lemma locate_free_temp (symb_loc : list (nat * nat)) temp p :
  (temp p <> 0 -> exists k, (k, p) ∈ symb_loc) ->
  (locate_free symb_loc temp).2 p = 0.
Proof.
  unfold locate_free. intros Hp0.
  enough (forall fv : list nat,
    (fold_left (fun '((fv, temp) : list nat * (nat -> nat)) '((_, p) : nat * nat) =>
       if Nat.eqb (temp p) 0 then (fv, temp) else (fv ++ [p], setTemp temp p 0))
       symb_loc (fv, temp)).2 p = 0) as Hgen by apply Hgen.
  revert temp Hp0. induction symb_loc as [|[i q] l IH]; intros temp Hp fv; simpl.
  { destruct (Nat.eq_dec (temp p) 0) as [|Hne]; [done|].
    destruct (Hp Hne) as [k Hk]. by apply elem_of_nil in Hk. }
  destruct (Nat.eqb_spec (temp q) 0) as [E|E]; apply IH.
  - intros Hne. destruct (Hp Hne) as [k Hk].
    apply elem_of_cons in Hk as [[= -> ->]|Hk]; [done|by exists k].
  - destruct (decide (p = q)) as [->|Hpq].
    + by rewrite setTemp_eq.
    + rewrite setTemp_ne by done. intros Hne. destruct (Hp Hne) as [k Hk].
      apply elem_of_cons in Hk as [[= -> ->]|Hk]; [done|by exists k].
Qed.

Lemma init_temp fuel live jit h inputv outputv temp0 this :
  init fuel live jit h inputv outputv temp0 = Ret this ->
  exists nodes0 temp1 a alg,
    sort_outputs fuel h outputv temp0 = Some (nodes0, temp1) /\
    let nodes := add_inputs temp1 inputv nodes0 in
    let temp2 := number_nodes 0 nodes temp1 in
    let b := build h outputv temp2 nodes in
    let temp3 := mark_symb (b_symb_loc b) (reset_nodes nodes temp2) in
    let r := input_instructions 0 inputv (alg, temp3) in
    allocate live (mkAlloc (b_refcount b) (replicate (length nodes) 0) [] 0)
             (b_algorithm b) = (a, alg) /\
    temp_ this = (locate_free (b_symb_loc b) r.2).2 /\
    constants_ this = (sort_by_type h nodes).1.
Proof.
  unfold init. intros Hi.
  destruct (sort_outputs fuel h outputv temp0) as [[nodes0 temp1]|] eqn:Hs;
    [|discriminate].
  destruct (sort_by_type h _) as [cs os] eqn:Ht.
  destruct (allocate live _ _) as [a alg] eqn:Ha.
  destruct (input_instructions 0 inputv _) as [alg' temp4] eqn:Hin.
  destruct (locate_free _ temp4) as [fv temp5] eqn:Hf.
  destruct jit.
  { destruct (negb _); discriminate. }
  injection Hi as <-. exists nodes0, temp1, a, alg. split; [done|].
  cbv zeta. split; [done|]. rewrite Hin. cbn [fst snd temp_ constants_].
  by rewrite Hf, Ht.
Qed.

(** X2.  When [init] returns, every temporary is zero again: the marks of
    the sort, the numbers of the nodes and the marks of the symbols are all
    reset, those of the free variables included. *)
Theorem init_resets_temporaries fuel live jit h inputv outputv temp0 this :
  (forall p, temp0 p = 0) ->
  init fuel live jit h inputv outputv temp0 = Ret this ->
  forall p, temp_ this p = 0.
Proof.
  intros H0 Hi p.
  destruct (init_temp _ _ _ _ _ _ _ _ Hi)
    as (nodes0 & temp1 & a & alg & Hs & _ & Ht & _).
  cbv zeta in Ht. rewrite Ht.
  destruct (sort_outputs_sorted _ _ _ _ _ _ Hs H0) as [Hinv _].
  set (nodes := add_inputs temp1 inputv nodes0) in *.
  set (temp2 := number_nodes 0 nodes temp1) in *.
  set (b := build h outputv temp2 nodes) in *.
  assert (forall q, reset_nodes nodes temp2 q = 0) as HR.
  { intros q. rewrite reset_nodes_spec.
    destruct (decide (Some q ∈ nodes)) as [Hq|Hq].
    - by rewrite bool_decide_eq_true_2.
    - rewrite bool_decide_eq_false_2 by done. unfold temp2.
      rewrite number_nodes_other by done.
      destruct (Nat.eq_dec (temp1 q) 0) as [|Hne]; [done|].
      exfalso. apply Hq. unfold nodes. apply add_inputs_keeps. by apply Hinv. }
  apply locate_free_temp. intros Hne.
  rewrite input_instructions_fold in Hne.
  destruct (Nat.eq_dec (mark_symb (b_symb_loc b) (reset_nodes nodes temp2) p) 0)
    as [E|E].
  { exfalso. apply Hne. by apply fold_mark_input_temp. }
  destruct (mark_symb (b_symb_loc b) (reset_nodes nodes temp2) p) as [|k] eqn:Ek;
    [done|].
  exists k. by apply (mark_symb_inv _ (reset_nodes nodes temp2)).
Qed.

End InitLeaves.

(** ** The algorithm of [init] and the vectors it is run on *)

Section InitBounds.
Context {T : Type} `{Scalar T}.
Implicit Types (h : list (SXNode T)) (temp : nat -> nat) (alg : list (AlgEl T)).
Implicit Types (ae : AlgEl T) (st : alloc_state).

(** One instruction of the second loop of [init]: the places stay below
    the size of the work vector. *)
Lemma alloc_step_bounds live st ae :
  Forall (fun s => s < a_worksize st) (a_unused st) ->
  (forall c, c < ndeps (op ae) ->
     default 0 (a_place st !! arg_i ae c) < a_worksize st) ->
  a_worksize st <= a_worksize (alloc_step live st ae).1 /\
  Forall (fun s => s < a_worksize (alloc_step live st ae).1)
         (a_unused (alloc_step live st ae).1) /\
  (op ae <> OP_OUTPUT ->
     res (alloc_step live st ae).2 < a_worksize (alloc_step live st ae).1).
Proof.
  intros Hu Hops. unfold alloc_step.
  set (st1 := consume_deps ae st).
  assert (a_worksize st1 = a_worksize st) as Hw by apply consume_deps_worksize.
  assert (Forall (fun s => s < a_worksize st1) (a_unused st1)) as Hu1.
  { unfold st1, consume_deps.
    destruct (fold_consume_unused (map (arg_i ae) (rev (seq 0 (ndeps (op ae))))) st)
      as (pushed & -> & Hp & _).
    destruct (fold_consume_frame (map (arg_i ae) (rev (seq 0 (ndeps (op ae))))) st)
      as [_ ->].
    apply Forall_app. split; [|done]. apply Forall_forall. intros s Hs.
    destruct (Hp s Hs) as (ch & n & Hch & -> & _).
    change (map (arg_i ae) ?l) with (arg_i ae <$> l) in Hch.
    apply list_elem_of_fmap in Hch as (c & -> & Hc).
    apply list_elem_of_In, in_rev, in_seq in Hc. apply Hops. lia. }
  clearbody st1. unfold store.
  destruct (Operation_eqb (op ae) OP_OUTPUT) eqn:Eo; simpl.
  { split; [lia|]. split; [done|]. intros Hne. by apply Operation_eqb_eq in Eo. }
  destruct live, (a_unused st1) as [|top rest] eqn:Eu; simpl;
    rewrite ?res_make_binary, ?res_locate_deps; simpl.
  - split; [lia|]. split; [constructor|lia].
  - apply Forall_cons in Hu1 as [Htop Hrest]. split; [lia|]. split; [done|]. lia.
  - split; [lia|]. split; [constructor|lia].
  - split; [lia|]. split; [|lia]. eapply Forall_impl; [exact Hu1|]. simpl. lia.
Qed.

(** The second loop of [init] over instructions that name the indices of
    earlier instructions. *)
Lemma allocate_bounds live alg pre0 st :
  virtual_valid (pre0 ++ alg) ->
  length (pre0 ++ alg) <= length (a_place st) ->
  (forall j ae_j, pre0 !! j = Some ae_j -> op ae_j <> OP_OUTPUT -> res ae_j = j ->
     default 0 (a_place st !! j) < a_worksize st) ->
  Forall (fun s => s < a_worksize st) (a_unused st) ->
  a_worksize st <= a_worksize (allocate live st alg).1 /\
  Forall (fun ae' => op ae' <> OP_OUTPUT ->
                     res ae' < a_worksize (allocate live st alg).1)
         (allocate live st alg).2.
Proof.
  revert pre0 st. induction alg as [|ae alg IH]; intros pre0 st Hv Hpl Hinv Hu.
  { simpl. split; [lia|constructor]. }
  simpl. pose proof (alloc_step_operands live st ae) as Hstep.
  destruct (Hv (length pre0) ae) as [Hres Hdeps]; [by apply list_lookup_middle|].
  destruct (alloc_step_bounds live st ae Hu) as (Hw & Hu' & Hr).
  { intros c Hc. destruct (Hdeps c Hc) as (j & ae_j & Hj & Hjl & Hjo & Hjr & ->).
    rewrite lookup_app_l in Hjl by done. by apply (Hinv j ae_j). }
  destruct (alloc_step live st ae) as [st1 ae'].
  destruct Hstep as (Hop & _ & Hplace). simpl in Hw, Hu', Hr.
  destruct (IH (pre0 ++ [ae]) st1) as [Hw2 Hall].
  - by rewrite <- app_assoc.
  - rewrite <- app_assoc. simpl.
    destruct (Operation_eqb (op ae) OP_OUTPUT); rewrite Hplace; [done|].
    by rewrite length_insert.
  - intros j ae_j Hj Hjo Hjr.
    destruct (decide (j < length pre0)) as [Hlt|Hge].
    + rewrite lookup_app_l in Hj by done.
      assert (a_place st1 !! j = a_place st !! j) as ->.
      { destruct (Operation_eqb (op ae) OP_OUTPUT) eqn:Eo; rewrite Hplace; [done|].
        apply Operation_eqb_neq in Eo. apply list_lookup_insert_ne.
        specialize (Hres Eo). lia. }
      specialize (Hinv j ae_j Hj Hjo Hjr). lia.
    + assert (j = length pre0) as ->.
      { apply lookup_lt_Some in Hj. rewrite length_app in Hj. simpl in Hj. lia. }
      rewrite list_lookup_middle in Hj by done. injection Hj as <-.
      apply Operation_eqb_neq in Hjo as Eo. rewrite Eo in Hplace.
      rewrite Hplace, Hjr.
      rewrite list_lookup_insert_eq by (rewrite length_app in Hpl; simpl in Hpl; lia).
      simpl. by apply Hr.
  - done.
  - destruct (allocate live st1 alg) as [st2 alg']. simpl in *.
    split; [lia|]. constructor; [|done].
    intros Ho. rewrite Hop in Ho. specialize (Hr Ho). lia.
Qed.

(** The operands of the algorithm of [init] are results of earlier
    instructions. *)
Lemma init_valid_operands fuel live jit h inputv outputv temp0 this :
  arena_ok h = true ->
  (forall p, temp0 p = 0) ->
  forallb (isSymbolic h) (concat inputv) = true ->
  init fuel live jit h inputv outputv temp0 = Ret this ->
  valid_from operand_slots [] (algorithm_ this) = true /\
  Forall second_is_first (algorithm_ this).
Proof.
  intros Hok H0 Hsym Hi.
  apply init_Ret in Hi as (_ & nodes0 & temp1 & a & alg & Hs & Ha & Halg & _).
  cbv zeta in Ha, Halg.
  destruct (sort_outputs_sorted _ _ _ _ _ _ Hs H0) as [Hinv Hm].
  pose proof (add_inputs_nodes_ok h _ inputv _ _ Hinv Hm Hsym) as Hn.
  set (nodes := add_inputs temp1 inputv nodes0) in *.
  pose proof (build_virtual_valid h outputv temp1 nodes Hok Hn) as Hvv.
  split.
  - rewrite Halg.
    apply (valid_from_marked operand_slots [] [] alg).
    + intros ae E. unfold operand_slots. by rewrite E.
    + by apply input_instructions_marked, marked_refl.
    + constructor.
    + change alg with (a, alg).2. rewrite <- Ha.
      apply (allocate_valid live _ [] []); [done|done| |done].
      simpl. rewrite length_replicate.
      destruct Hn as (_ & _ & Hc).
      destruct (build_prefix h outputv (number_nodes 0 nodes temp1) nodes
          (mkBuild [] [] (next_output outputv 0) 0 (replicate (length nodes) 0%Z)))
        as (Hlen & _); [done|lia|done|apply out_pos_start|].
      unfold build. lia.
  - rewrite Halg. apply input_instructions_Forall.
    + intros ae i j Hn'. by destruct ae.
    + change alg with (a, alg).2. rewrite <- Ha.
      apply allocate_Forall. intros; apply alloc_step_second_is_first.
Qed.

(** X3.  Every index into the work vector that the algorithm of [init]
    names is below [worksize], the size that [init] gives to [work_]: the
    result of every instruction that is not an output marker, the operand
    of every output marker, and both operands of every operation (the
    second operand of a unary operation is its first). *)
Theorem init_work_vector_bounds fuel live jit h inputv outputv temp0 this :
  arena_ok h = true ->
  (forall p, temp0 p = 0) ->
  forallb (isSymbolic h) (concat inputv) = true ->
  NoDup (concat inputv) ->
  init fuel live jit h inputv outputv temp0 = Ret this ->
  forall ae, ae ∈ algorithm_ this ->
    (op ae <> OP_OUTPUT -> res ae < worksize_ this) /\
    (op ae = OP_OUTPUT -> arg_i0 ae < worksize_ this) /\
    (is_builtin (op ae) = true ->
       arg_i0 ae < worksize_ this /\ arg_i1 ae < worksize_ this).
Proof.
  intros Hok H0 Hsym Hnd Hi.
  destruct (init_valid_operands _ _ _ _ _ _ _ _ Hok H0 Hsym Hi) as [Hvalid H2].
  destruct (init_anatomy_alloc _ _ _ _ _ _ _ _ Hok H0 Hsym Hnd Hi)
    as (nodes & alg & temp3 & (Halg & _ & Hlen & Hops & _ & Hmarks & Hin) &
        valg & rc & a & Hvv & Hvl & Ha & Hw & _).
  assert (Hres : forall ae, ae ∈ algorithm_ this -> op ae <> OP_OUTPUT ->
            res ae < worksize_ this).
  { destruct (allocate_bounds live valg []
                (mkAlloc rc (replicate (length nodes) 0) [] 0)) as [_ Hall].
    - done.
    - simpl. rewrite length_replicate. lia.
    - by intros j ae_j ?.
    - constructor.
    - rewrite Ha in Hall. simpl in Hall. rewrite Hw.
      rewrite Forall_forall in Hall.
      intros ae Hae Ho. rewrite Halg in Hae.
      apply list_elem_of_lookup in Hae as [k Hk].
      assert (k < length alg) as Hlt.
      { apply lookup_lt_Some in Hk.
        by rewrite (length_marked h inputv nodes alg temp3) in Hk. }
      destruct (lookup_lt_is_Some_2 alg k Hlt) as [ae0 Hk0].
      destruct (marked_entry h inputv nodes alg temp3 Hok Hnd Hops Hlen Hmarks
                  Hsym Hin k ae0 Hk0) as (ae' & Hk' & Hcase).
      rewrite Hk in Hk'. injection Hk' as <-.
      pose proof (Hall ae0 (list_elem_of_lookup_2 _ _ _ Hk0)) as Hb.
      destruct Hcase as [[-> _]|(ind & nz & p & _ & _ & -> & Hpar)]; [by apply Hb|].
      destruct ae0. simpl in *. apply Hb. by rewrite Hpar. }
  intros ae Hae.
  assert (Hslots : forall s, s ∈ operand_slots ae -> s < worksize_ this).
  { intros s Hs. apply list_elem_of_lookup in Hae as [k Hk].
    destruct (valid_from_earlier operand_slots _ k ae s Hvalid Hk Hs)
      as (j & ae' & _ & Hj & Ho & <-).
    apply Hres; [by apply list_elem_of_lookup_2 in Hj|done]. }
  split; [by apply Hres|]. split.
  - intros Ho. apply Hslots. unfold operand_slots. rewrite Ho. simpl. by left.
  - intros Hb.
    assert (arg_i0 ae < worksize_ this) as H0'.
    { apply Hslots. unfold operand_slots.
      destruct (op ae); try discriminate Hb; simpl; by left. }
    split; [done|].
    rewrite Forall_forall in H2. specialize (H2 ae Hae). unfold second_is_first in H2.
    destruct (Nat.eq_dec (ndeps (op ae)) 1) as [E1|E1].
    + rewrite H2; [done|done|]. intros Ho. by rewrite Ho in Hb.
    + apply Hslots. unfold operand_slots.
      destruct (op ae); try discriminate Hb; simpl in *; try lia;
        right; by left.
Qed.

End InitBounds.

(** ** The input and output instructions, and the tape *)

Section InitInstructions.
Context {T : Type} `{Scalar T}.
Implicit Types (h : list (SXNode T)).

(** X4.  In the algorithm of [init], every nonzero of every input is
    loaded by exactly one [OP_INPUT] instruction, which names the place
    [(ind, nz)] of the nonzero, and the [OP_OUTPUT] instructions name the
    places of the nonzeros of the outputs, every place once, in the order
    of the outputs. *)
Theorem init_io_instructions fuel live jit h inputv outputv temp0 this :
  arena_ok h = true ->
  (forall p, temp0 p = 0) ->
  forallb (isSymbolic h) (concat inputv) = true ->
  NoDup (concat inputv) ->
  init fuel live jit h inputv outputv temp0 = Ret this ->
  input_locs (algorithm_ this) ≡ₚ locations (map length inputv) /\
  output_locs (algorithm_ this) = locations (map length outputv).
Proof.
  intros Hok H0 Hsym Hnd Hi.
  destruct (init_anatomy _ _ _ _ _ _ _ _ Hok H0 Hsym Hnd Hi)
    as (nodes & alg & temp3 & Halg & Hpd & Hlen & Hops & Hout & Hmarks & Hin).
  rewrite Halg. split.
  - by apply (marked_input_locs h inputv nodes alg temp3).
  - rewrite (marked_output_locs h inputv nodes alg temp3) by done.
    by rewrite Hout.
Qed.

(** [constants_] lists the nodes that are constants. *)
Lemma sort_by_type_constants h (nodes : list (option nat)) :
  (sort_by_type h nodes).1 =
  omap (fun n => n ≫= fun t => if isConstant h t then Some t else None) nodes.
Proof.
  unfold sort_by_type.
  assert (forall cs os,
    (fold_left (fun '(cs, os) n =>
       match n with
       | Some t => if isConstant h t then (cs ++ [t], os)
                   else if negb (isSymbolic h t) then (cs, os ++ [t])
                   else (cs, os)
       | None => (cs, os)
       end) nodes (cs, os)).1 =
    cs ++ omap (fun n => n ≫= fun t => if isConstant h t then Some t else None)
               nodes) as Hgen.
  { induction nodes as [|n nodes IH]; intros cs os; simpl; [by rewrite app_nil_r|].
    destruct n as [t|]; simpl; [|apply IH].
    destruct (isConstant h t), (isSymbolic h t); simpl; rewrite IH; try done;
      by rewrite <- app_assoc. }
  apply Hgen.
Qed.

(** X5.  When [init] leaves no free variable, no instruction is an
    [OP_PARAMETER]; the instructions that write an entry of the tape (the
    operations) are as many as the entries that [init] gives the tape and
    as the nodes in [operations_]; and the [OP_CONST] instructions are as
    many as the nodes in [constants_]. *)
Theorem init_tape_exact fuel live jit h inputv outputv temp0 this :
  arena_ok h = true ->
  (forall p, temp0 p = 0) ->
  forallb (isSymbolic h) (concat inputv) = true ->
  NoDup (concat inputv) ->
  init fuel live jit h inputv outputv temp0 = Ret this ->
  free_vars_ this = [] ->
  Forall (fun ae => op ae <> OP_PARAMETER) (algorithm_ this) /\
  length (filter (fun ae => Is_true (takes_tape ae)) (algorithm_ this))
    = pdwork_size this /\
  pdwork_size this = length (operations_ this) /\
  length (filter (fun ae => Is_true (Operation_eqb (op ae) OP_CONST))
                 (algorithm_ this))
    = length (constants_ this).
Proof.
  intros Hok H0 Hsym Hnd Hi Hfree.
  pose proof (init_no_parameter _ _ _ _ _ _ _ _ Hok H0 Hsym Hnd Hi Hfree) as Hnp.
  destruct (init_anatomy_alloc _ _ _ _ _ _ _ _ Hok H0 Hsym Hnd Hi)
    as (nodes & alg & temp3 & (Halg & Hpd & Hlen & Hops & _ & Hmarks & Hin) &
        valg & rc & a & _ & _ & _ & _ & Hcs & Hos).
  split; [done|]. split; [|split].
  - rewrite Hpd, Halg.
    apply (marked_tape_count h inputv nodes alg temp3); try done.
    by rewrite <- Halg.
  - by rewrite Hpd, Hos.
  - rewrite Hcs, sort_by_type_constants, Halg.
    apply length_filter_omap.
    apply Forall2_same_length_lookup_2.
    { by rewrite (length_marked h inputv nodes alg temp3). }
    intros k ae' n Hk' Hn.
    destruct (Hops k n Hn) as (ae & Hk & Hop).
    destruct (marked_entry h inputv nodes alg temp3 Hok Hnd Hops Hlen Hmarks
                Hsym Hin k ae Hk) as (ae2 & E & Hcase).
    rewrite Hk' in E. injection E as <-.
    destruct Hcase as [[-> _]|(ind & nz & q & _ & _ & -> & Hpar)].
    + rewrite Hop. destruct n as [p|]; simpl.
      * unfold isConstant. destruct (Operation_eqb (getOp h p) OP_CONST) eqn:E.
        -- split; [by eexists|done].
        -- split; [done|by intros [? ?]].
      * split; [done|by intros [? ?]].
    + rewrite Hop in Hpar. destruct n as [p|]; [|done]. simpl.
      unfold isConstant. rewrite Hpar. simpl.
      split; [by destruct ae|by intros [? ?]].
Qed.

End InitInstructions.

(** ** What [evaluateGen] leaves alone *)

Section Frame.
Context {T : Type} `{Scalar T}.
Implicit Types (alg : list (AlgEl T)) (it : AlgEl T) (fx : FXInternal T).

Lemma read_only_upd_output oind f fx : read_only (upd_output oind f fx) = read_only fx.
Proof.
  unfold read_only, upd_output. simpl. f_equal. by apply map_alter_same.
Qed.

Lemma read_only_upd_fwdSens oind dir f fx :
  read_only (upd_fwdSens oind dir f fx) = read_only fx.
Proof.
  unfold read_only, upd_fwdSens. simpl. f_equal. by apply map_alter_same.
Qed.

Lemma read_only_upd_adjSens iind dir f fx :
  read_only (upd_adjSens iind dir f fx) = read_only fx.
Proof.
  unfold read_only, upd_adjSens. simpl. f_equal. f_equal; by apply map_alter_same.
Qed.

Lemma read_only_eval_step (st : list T * FXInternal T) it :
  read_only (eval_step st it).2 = read_only st.2.
Proof.
  destruct st as [w fx]. unfold eval_step.
  destruct (op it); cbn [snd]; try done; apply read_only_upd_output.
Qed.

Lemma read_only_tape_step (st : list T * list (T * T) * FXInternal T) it :
  read_only (tape_step st it).2 = read_only st.2.
Proof.
  destruct st as [[w tp] fx]. unfold tape_step.
  destruct (op it); cbn [snd]; try done; apply read_only_upd_output.
Qed.

Lemma read_only_fwd_step d (st : sweep_state) it :
  read_only (sw_fx (fwd_step d st it)) = read_only (sw_fx st).
Proof.
  unfold fwd_step. destruct (op it); cbn [sw_fx]; try done.
  apply read_only_upd_fwdSens.
Qed.

Lemma read_only_adj_step d (st : sweep_state) it :
  read_only (sw_fx (adj_step d st it)) = read_only (sw_fx st).
Proof.
  unfold adj_step. destruct (op it); cbn [sw_fx]; try done.
  apply read_only_upd_adjSens.
Qed.

Lemma fold_read_only {S A : Type} (f : S -> A -> S) (proj : S -> FXInternal T) l s :
  (forall s x, read_only (proj (f s x)) = read_only (proj s)) ->
  read_only (proj (fold_left f l s)) = read_only (proj s).
Proof.
  intros Hf. revert s. induction l as [|x l IH]; intros s; [done|].
  simpl. by rewrite IH, Hf.
Qed.

Lemma eval_step_sens (st : list T * FXInternal T) it :
  map dataF (output_ (eval_step st it).2) = map dataF (output_ st.2) /\
  map dataA (input_ (eval_step st it).2) = map dataA (input_ st.2).
Proof.
  destruct st as [w fx]. unfold eval_step.
  destruct (op it); cbn [snd]; try done.
  unfold upd_output. simpl. split; [|done]. by apply map_alter_same.
Qed.

Lemma eval_steps_sens alg (st : list T * FXInternal T) :
  map dataF (output_ (fold_left eval_step alg st).2) = map dataF (output_ st.2) /\
  map dataA (input_ (fold_left eval_step alg st).2) = map dataA (input_ st.2).
Proof.
  revert st. induction alg as [|it alg IH]; intros st; [done|].
  simpl. destruct (IH (eval_step st it)) as [-> ->]. apply eval_step_sens.
Qed.

Lemma length_eval_steps alg (st : list T * FXInternal T) :
  length (fold_left eval_step alg st).1 = length st.1.
Proof.
  revert st. induction alg as [|a alg IH]; intros st; simpl; [done|].
  rewrite IH. destruct st as [w fx]. unfold eval_step.
  destruct (op a); simpl; by rewrite ?length_wr.
Qed.

Lemma length_adj_sweeps alg pdwork dirs (st : list T * FXInternal T) :
  length (fold_left (adj_sweep alg pdwork) dirs st).1 = length st.1.
Proof.
  revert st. induction dirs as [|dir dirs IH]; intros st; simpl; [done|].
  rewrite IH. unfold adj_sweep. simpl. by rewrite length_fold_adj_step.
Qed.

Lemma fwd_sweeps_adjSens alg pd dirs (st : list T * FXInternal T) d :
  adjSens_dir (fold_left (fwd_sweep alg pd) dirs st).2 d = adjSens_dir st.2 d.
Proof. unfold adjSens_dir. by rewrite fwd_sweeps_input. Qed.

Lemma adj_sweeps_fwdSens alg pd dirs (st : list T * FXInternal T) d :
  fwdSens_dir (fold_left (adj_sweep alg pd) dirs st).2 d = fwdSens_dir st.2 d.
Proof. unfold fwdSens_dir. by rewrite adj_sweeps_output. Qed.

(** X6.  A call of [evaluateGen] that returns has written neither the
    values of the inputs nor a forward or an adjoint seed, it has left the
    sensitivities of the directions beyond [nfdir] and [nadir] as they
    were, and the work vector has the size it had. *)
Theorem evaluateGen_frame (this : @SXFunctionInternal T) nfdir nadir e e' :
  evaluateGen this nfdir nadir e = Ret e' ->
  map data (input_ (fx_ e')) = map data (input_ (fx_ e)) /\
  map dataF (input_ (fx_ e')) = map dataF (input_ (fx_ e)) /\
  map dataA (output_ (fx_ e')) = map dataA (output_ (fx_ e)) /\
  (forall d, nfdir <= d -> fwdSens_dir (fx_ e') d = fwdSens_dir (fx_ e) d) /\
  (forall d, nadir <= d -> adjSens_dir (fx_ e') d = adjSens_dir (fx_ e) d) /\
  length (work_ e') = length (work_ e).
Proof.
  unfold evaluateGen. intros He.
  destruct (negb (Nat.eqb (length (free_vars_ this)) 0)); [discriminate He|].
  enough (read_only (fx_ e') = read_only (fx_ e) /\
          (forall d, nfdir <= d -> fwdSens_dir (fx_ e') d = fwdSens_dir (fx_ e) d) /\
          (forall d, nadir <= d -> adjSens_dir (fx_ e') d = adjSens_dir (fx_ e) d) /\
          length (work_ e') = length (work_ e)) as (Hro & ? & ? & ?).
  { unfold read_only in Hro. injection Hro as ? ? ?. done. }
  destruct (negb ((0 <? nfdir) || (0 <? nadir))).
  - pose proof (fold_read_only eval_step snd (algorithm_ this) (work_ e, fx_ e)
                  read_only_eval_step) as Hro.
    pose proof (eval_steps_sens (algorithm_ this) (work_ e, fx_ e)) as [HF HA].
    pose proof (length_eval_steps (algorithm_ this) (work_ e, fx_ e)) as Hl.
    destruct (fold_left eval_step _ _) as [w fx]. injection He as <-.
    cbn [fx_ work_ fst snd] in *. split; [done|].
    unfold fwdSens_dir, adjSens_dir.
    split; [|split; [|done]]; intros d _.
    + rewrite <- (map_map dataF (fun l => default [] (l !! d))), HF. by rewrite map_map.
    + rewrite <- (map_map dataA (fun l => default [] (l !! d))), HA. by rewrite map_map.
  - pose proof (fold_read_only tape_step snd (algorithm_ this) (work_ e, [], fx_ e)
                  read_only_tape_step) as Hro.
    pose proof (length_tape_steps (algorithm_ this) (work_ e, [], fx_ e)) as Hl.
    assert (forall d, fwdSens_dir (fold_left tape_step (algorithm_ this)
                                     (work_ e, [], fx_ e)).2 d =
                      fwdSens_dir (fx_ e) d) as HF
      by (intros d; apply tape_steps_fwdSens).
    assert (forall d, adjSens_dir (fold_left tape_step (algorithm_ this)
                                     (work_ e, [], fx_ e)).2 d =
                      adjSens_dir (fx_ e) d) as HA.
    { intros d. unfold adjSens_dir. by rewrite tape_steps_input. }
    destruct (fold_left tape_step _ _) as [[w tp] fx]. injection He as <-.
    cbn [fx_ work_ fst snd] in *.
    set (pd := tp ++ drop (length tp) (pdwork_ e)).
    set (st1 := fold_left (fwd_sweep (algorithm_ this) pd) (seq 0 nfdir) (w, fx)).
    set (st2 := if 0 <? nadir then (replicate (length st1.1) zero, st1.2) else st1).
    assert (st2.2 = st1.2) as E2 by (unfold st2; by destruct (0 <? nadir)).
    assert (length st2.1 = length st1.1) as L2.
    { unfold st2. destruct (0 <? nadir); [|done]. simpl. apply length_replicate. }
    assert (read_only st1.2 = read_only fx) as Hro1.
    { unfold st1. apply (fold_read_only _ snd). intros s d. unfold fwd_sweep.
      cbn [snd]. apply (fold_read_only _ sw_fx). intros; apply read_only_fwd_step. }
    split; [|split; [|split]].
    + rewrite <- Hro, <- Hro1, <- E2.
      apply (fold_read_only _ snd). intros s d. unfold adj_sweep.
      cbn [snd]. apply (fold_read_only _ sw_fx). intros; apply read_only_adj_step.
    + intros d Hd. rewrite adj_sweeps_fwdSens, E2. unfold st1.
      rewrite fwd_sweeps_fwdSens_ne; [apply HF|].
      intros Hin. apply elem_of_seq in Hin. lia.
    + intros d Hd. rewrite adj_sweeps_adjSens_ne.
      * rewrite E2. unfold st1. rewrite fwd_sweeps_adjSens. apply HA.
      * intros Hin. apply elem_of_seq in Hin. lia.
    + rewrite length_adj_sweeps, L2. unfold st1. by rewrite length_fwd_sweeps.
Qed.

End Frame.


(** ** The constructors *)

Section ConstructorChecks.
Context {T : Type} `{Zero T}.

Lemma first_not_symbolic_spec (h : list (SXNode T)) inputv i :
  match first_not_symbolic h i inputv with
  | Some k =>
      exists j v, k = i + j /\ inputv !! j = Some v /\
        forallb (isSymbolic h) v = false /\
        forallb (isSymbolic h) (concat (take j inputv)) = true
  | None => forallb (isSymbolic h) (concat inputv) = true
  end.
Proof.
  revert i. induction inputv as [|v r IH]; intros i; [done|].
  cbn [first_not_symbolic]. destruct (forallb (isSymbolic h) v) eqn:Ev.
  - specialize (IH (S i)). destruct (first_not_symbolic h (S i) r) as [k|].
    + destruct IH as (j & w & -> & Hj & Hw & Hbefore).
      exists (S j), w. split; [lia|]. split; [done|]. split; [done|].
      cbn [take concat]. by rewrite forallb_app, Ev, Hbefore.
    + cbn [concat]. by rewrite forallb_app, Ev, IH.
  - exists 0, v. split; [lia|]. by rewrite Ev.
Qed.

Lemma note_duplicates_spec l d (temp : nat -> nat) :
  ((fold_left note_duplicate l (d, temp)).1 = true <->
     d = true \/ ~ NoDup l \/ exists p, p ∈ l /\ temp p <> 0) /\
  forall p, (fold_left note_duplicate l (d, temp)).2 p =
            if bool_decide (p ∈ l) then 1 else temp p.
Proof.
  revert d temp. induction l as [|q l IH]; intros d temp.
  - cbn [fold_left fst snd]. split.
    + split; [by left|]. intros [?|[Hn|(p & Hp & _)]]; [done| |].
      * destruct Hn. constructor.
      * by apply elem_of_nil in Hp.
    + intros p. rewrite bool_decide_eq_false_2; [done|]. apply not_elem_of_nil.
  - cbn [fold_left]. unfold note_duplicate at 2.
    destruct (IH (d || negb (temp q =? 0)) (setTemp temp q 1)) as [IH1 IH2].
    split.
    + rewrite IH1, orb_true_iff, negb_true_iff, Nat.eqb_neq, NoDup_cons.
      split.
      * intros [[?|Hq]|[Hn|(p & Hp & Htp)]].
        -- by left.
        -- right; right. exists q. split; [left|done].
        -- right; left. tauto.
        -- unfold setTemp in Htp. destruct (Nat.eqb_spec p q) as [->|Hpq].
           ++ right; left. tauto.
           ++ right; right. exists p. split; [by right|done].
      * intros [?|[Hn|(p & Hp & Htp)]].
        -- by left; left.
        -- destruct (decide (q ∈ l)) as [Hq|Hq].
           ++ right; right. exists q. split; [done|].
              unfold setTemp. by rewrite Nat.eqb_refl.
           ++ right; left. tauto.
        -- apply elem_of_cons in Hp as [->|Hp].
           ++ by left; right.
           ++ right; right. exists p. split; [done|]. unfold setTemp.
              destruct (Nat.eqb_spec p q) as [->|Hpq]; [lia|done].
    + intros p. rewrite IH2. unfold setTemp.
      destruct (decide (p ∈ l)) as [Hp|Hp].
      * rewrite bool_decide_eq_true_2 by done.
        rewrite bool_decide_eq_true_2; [done|by right].
      * rewrite (bool_decide_eq_false_2 (p ∈ l)) by done.
        destruct (Nat.eqb_spec p q) as [->|Hpq].
        -- rewrite bool_decide_eq_true_2; [done|left].
        -- rewrite bool_decide_eq_false_2; [done|].
           rewrite elem_of_cons. tauto.
Qed.

Lemma reset_inputs_spec l (temp : nat -> nat) p :
  fold_left (fun temp p => setTemp temp p 0) l temp p =
  if bool_decide (p ∈ l) then 0 else temp p.
Proof.
  revert temp. induction l as [|q l IH]; intros temp.
  - cbn [fold_left]. rewrite bool_decide_eq_false_2; [done|apply not_elem_of_nil].
  - cbn [fold_left]. rewrite IH. unfold setTemp.
    destruct (decide (p ∈ l)) as [Hp|Hp].
    + rewrite bool_decide_eq_true_2 by done.
      rewrite bool_decide_eq_true_2; [done|by right].
    + rewrite (bool_decide_eq_false_2 (p ∈ l)) by done.
      destruct (Nat.eqb_spec p q) as [->|Hpq].
      * rewrite bool_decide_eq_true_2; [done|left].
      * rewrite bool_decide_eq_false_2; [done|].
        rewrite elem_of_cons. tauto.
Qed.

Lemma allocate_io_sizes (l : list (list nat)) :
  map (fun io : FunctionIO T => length (data io)) (map allocate_io l) = map length l.
Proof.
  rewrite map_map. apply map_ext. intros v. unfold allocate_io.
  cbn [data]. apply length_replicate.
Qed.

(** X7. The constructor of [SXFunctionInternal] accepts its arguments
    exactly when every nonzero of every input is a symbol, no symbol occurs
    twice, no symbol carries a nonzero temporary, and there is an output;
    each of its three errors is thrown in exactly its own case, the one for
    the first offending input first.  The function it builds has an input
    and an output buffer of the size of each argument, and, unless the
    inputs were not symbolic, the temporaries of the inputs are 0
    afterwards and no other temporary has changed. *)
Theorem SXFunctionInternal_new_checks (h : list (SXNode T)) inputv outputv temp :
  match (SXFunctionInternal_new h inputv outputv temp).1 with
  | inl (NotSymbolic i) =>
      exists v, inputv !! i = Some v /\ forallb (isSymbolic h) v = false /\
        forallb (isSymbolic h) (concat (take i inputv)) = true
  | inl NotIndependent =>
      forallb (isSymbolic h) (concat inputv) = true /\
      (~ NoDup (concat inputv) \/ exists p, p ∈ concat inputv /\ temp p <> 0)
  | inl NoOutputs =>
      forallb (isSymbolic h) (concat inputv) = true /\
      NoDup (concat inputv) /\ (forall p, p ∈ concat inputv -> temp p = 0) /\
      outputv = []
  | inr fx =>
      forallb (isSymbolic h) (concat inputv) = true /\
      NoDup (concat inputv) /\ (forall p, p ∈ concat inputv -> temp p = 0) /\
      outputv <> [] /\
      input_sizes fx = map length inputv /\
      output_sizes fx = map length outputv
  end /\
  forall p, (SXFunctionInternal_new h inputv outputv temp).2 p =
    match (SXFunctionInternal_new h inputv outputv temp).1 with
    | inl (NotSymbolic _) => temp p
    | _ => if bool_decide (p ∈ concat inputv) then 0 else temp p
    end.
Proof.
  unfold SXFunctionInternal_new, XFunctionInternal_new.
  pose proof (first_not_symbolic_spec h inputv 0) as Hs.
  destruct (first_not_symbolic h 0 inputv) as [k|].
  { cbn [fst snd]. split; [|done].
    destruct Hs as (j & v & -> & Hj & Hv & Hb). exists v. done. }
  pose proof (note_duplicates_spec (concat inputv) false temp) as [Hd Ht].
  destruct (fold_left note_duplicate (concat inputv) (false, temp))
    as [dup temp1] eqn:Ef.
  cbn [fst snd] in Hd, Ht.
  assert (Hafter : forall p,
    fold_left (fun temp p => setTemp temp p 0) (concat inputv) temp1 p =
    if bool_decide (p ∈ concat inputv) then 0 else temp p).
  { intros p. rewrite reset_inputs_spec, Ht. by destruct (bool_decide _). }
  assert (Hclean : dup = false ->
    NoDup (concat inputv) /\ forall p, p ∈ concat inputv -> temp p = 0).
  { intros ->. split.
    - destruct (decide (NoDup (concat inputv))) as [|Hn]; [done|].
      assert (false = true) by (apply Hd; tauto). done.
    - intros p Hp. destruct (Nat.eq_dec (temp p) 0) as [|Hn]; [done|].
      assert (false = true) by (apply Hd; right; right; by exists p). done. }
  destruct dup.
  { cbn [fst snd]. split; [|done]. split; [done|].
    destruct (proj1 Hd eq_refl) as [?|?]; [done|done]. }
  destruct (Hclean eq_refl) as [Hnd Hz].
  destruct (Nat.eqb_spec (length outputv) 0) as [Hl|Hl]; cbn [fst snd].
  { split; [|done]. repeat split; try done. by apply nil_length_inv. }
  split; [|done]. repeat split; try done.
  - intros ->. by apply Hl.
  - apply allocate_io_sizes.
  - apply allocate_io_sizes.
Qed.

End ConstructorChecks.


(** ** The numbers of directions *)

Section ResizeFacts.
Context {A : Type}.

Lemma length_resize n (x : A) v : length (resize n x v) = n.
Proof. unfold resize. rewrite length_app, length_take, length_replicate. lia. Qed.

Lemma lookup_resize n (x : A) v d :
  d < n -> resize n x v !! d = Some (default x (v !! d)).
Proof.
  intros Hd. unfold resize. destruct (decide (d < length v)) as [Hl|Hl].
  - rewrite lookup_app_l by (rewrite length_take; lia).
    rewrite lookup_take_lt by done.
    destruct (lookup_lt_is_Some_2 v d Hl) as [y Hy]. by rewrite Hy.
  - rewrite lookup_app_r by (rewrite length_take; lia).
    rewrite length_take, (lookup_ge_None_2 v d) by lia.
    cbn [default]. apply lookup_replicate_2. lia.
Qed.

Lemma Forall_resize (P : A -> Prop) n x v :
  P x -> Forall P v -> Forall P (resize n x v).
Proof.
  intros Hx Hv. unfold resize. apply Forall_app. split.
  - by apply Forall_take.
  - by apply Forall_replicate.
Qed.

End ResizeFacts.

Section NumSensFacts.
Context {T Self : Type} `{Scalar T}.

Lemma shaped_io_resize nf na (io : FunctionIO T) :
  shaped_io 0 0 io = true -> shaped_io nf na (resize_io nf na io) = true.
Proof.
  unfold shaped_io, resize_io. cbn [data dataF dataA Nat.leb andb].
  rewrite !andb_true_iff, !forallb_forall. intros [HF HA].
  rewrite !length_resize, !Nat.leb_refl. split; [split; [done|]|].
  - intros v Hv. rewrite <- list_elem_of_In in Hv. revert v Hv.
    apply Forall_forall, Forall_resize.
    + apply Nat.eqb_refl.
    + apply Forall_forall. intros v Hv. apply HF. by apply list_elem_of_In.
  - intros v Hv. rewrite <- list_elem_of_In in Hv. revert v Hv.
    apply Forall_forall, Forall_resize.
    + apply Nat.eqb_refl.
    + apply Forall_forall. intros v Hv. apply HA. by apply list_elem_of_In.
Qed.

Lemma updateNumSens_Some (this this' : FXNumSens T Self) :
  updateNumSens this = Some this' ->
  (0 <= number_of_fwd_dir (options_ this))%Z /\
  (0 <= number_of_adj_dir (options_ this))%Z /\
  this' = mkFXNumSens (options_ this)
            (number_of_fwd_dir (options_ this)) (number_of_adj_dir (options_ this))
            (mkFXObject (self_ (object_ this))
               (resize (Z.to_nat (number_of_fwd_dir (options_ this))) false
                       (compressed_fwd_ (object_ this)))
               (resize (Z.to_nat (number_of_adj_dir (options_ this))) false
                       (compressed_adj_ (object_ this)))
               (mkFXInternal
                  (map (resize_io (Z.to_nat (number_of_fwd_dir (options_ this)))
                                  (Z.to_nat (number_of_adj_dir (options_ this))))
                       (input_ (buffers_ (object_ this))))
                  (map (resize_io (Z.to_nat (number_of_fwd_dir (options_ this)))
                                  (Z.to_nat (number_of_adj_dir (options_ this))))
                       (output_ (buffers_ (object_ this)))))).
Proof.
  unfold updateNumSens.
  destruct (Z.ltb_spec (number_of_fwd_dir (options_ this)) 0);
    destruct (Z.ltb_spec (number_of_adj_dir (options_ this)) 0);
    cbn [orb]; try done.
  intros [= <-]. done.
Qed.

(** X8. [FXInternal::updateNumSens] throws exactly when one of the two
    options is negative.  Otherwise the two counts become the options, the
    two flag vectors get one entry for each direction, and, when every
    direction that was there had the size of its input or output, so has
    every direction afterwards, each input and each output having exactly
    [nfdir_] forward and [nadir_] adjoint ones: the shape that
    [evaluateCompressed] works on.  The values of the inputs and outputs
    are not touched, a direction that is kept keeps its entries, and a new
    direction is a copy of the values. *)
Theorem updateNumSens_shapes (this : FXNumSens T Self) :
  shaped_all (buffers_ (object_ this)) 0 0 = true ->
  match updateNumSens this with
  | None => (number_of_fwd_dir (options_ this) < 0)%Z \/
            (number_of_adj_dir (options_ this) < 0)%Z
  | Some this' =>
      let nf := Z.to_nat (nfdir_ this') in
      let na := Z.to_nat (nadir_ this') in
      nfdir_ this' = number_of_fwd_dir (options_ this) /\
      nadir_ this' = number_of_adj_dir (options_ this) /\
      (0 <= nfdir_ this')%Z /\ (0 <= nadir_ this')%Z /\
      length (compressed_fwd_ (object_ this')) = nf /\
      length (compressed_adj_ (object_ this')) = na /\
      shaped_all (buffers_ (object_ this')) nf na = true /\
      Forall2 (fun io io' =>
                 data io' = data io /\
                 length (dataF io') = nf /\ length (dataA io') = na /\
                 (forall d, d < nf ->
                    dataF io' !! d = Some (default (data io) (dataF io !! d))) /\
                 (forall d, d < na ->
                    dataA io' !! d = Some (default (data io) (dataA io !! d))))
        (input_ (buffers_ (object_ this)) ++ output_ (buffers_ (object_ this)))
        (input_ (buffers_ (object_ this')) ++ output_ (buffers_ (object_ this')))
  end.
Proof.
  intros Hshape. destruct (updateNumSens this) as [this'|] eqn:E.
  - apply updateNumSens_Some in E as (Hf & Ha & ->). cbv zeta.
    cbn [nfdir_ nadir_ object_ compressed_fwd_ compressed_adj_ buffers_
         input_ output_].
    rewrite !length_resize. repeat split; try done.
    + unfold shaped_all in *. cbn [input_ output_]. rewrite <- map_app.
      rewrite forallb_forall in Hshape. apply forallb_forall.
      intros io' Hio'. apply in_map_iff in Hio' as (io & <- & Hio).
      apply shaped_io_resize. by apply Hshape.
    + rewrite <- map_app. apply Forall2_fmap_r, Forall_Forall2_diag.
      apply Forall_forall. intros io _. unfold resize_io, compose.
      cbn [data dataF dataA]. rewrite !length_resize.
      repeat split; try done; intros d Hd; by apply lookup_resize.
  - unfold updateNumSens in E.
    destruct (Z.ltb_spec (number_of_fwd_dir (options_ this)) 0);
      destruct (Z.ltb_spec (number_of_adj_dir (options_ this)) 0);
      cbn [orb] in E; try done; tauto.
Qed.

(** X9. When [FXInternal::requestNumSens] returns, the function has at
    least as many forward directions as were asked for, as it had before
    and as the option [number_of_fwd_dir] says, up to the maximum set by
    the option [max_number_of_fwd_dir]: at least the least of that maximum
    and the greatest of the three; and the same holds for the adjoint
    directions.  Either nothing at all has changed, or both counts are now
    within their maxima, equal to the two options, and every input and
    output has been resized to them; so a call that asks for more adjoint
    directions cuts a number of forward directions that was above its
    maximum down to it. *)
Theorem requestNumSens_guarantee (nfwd nadj : Z) (this this' : FXNumSens T Self) :
  requestNumSens nfwd nadj this = Some this' ->
  (Z.min (Z.max nfwd (Z.max (nfdir_ this) (number_of_fwd_dir (options_ this))))
         (max_number_of_fwd_dir (options_ this)) <= nfdir_ this')%Z /\
  (Z.min (Z.max nadj (Z.max (nadir_ this) (number_of_adj_dir (options_ this))))
         (max_number_of_adj_dir (options_ this)) <= nadir_ this')%Z /\
  max_number_of_fwd_dir (options_ this') = max_number_of_fwd_dir (options_ this) /\
  max_number_of_adj_dir (options_ this') = max_number_of_adj_dir (options_ this) /\
  (this' = this \/
   ((nfdir_ this < nfdir_ this' \/ nadir_ this < nadir_ this')%Z /\
    (0 <= nfdir_ this' <= max_number_of_fwd_dir (options_ this))%Z /\
    (0 <= nadir_ this' <= max_number_of_adj_dir (options_ this))%Z /\
    number_of_fwd_dir (options_ this') = nfdir_ this' /\
    number_of_adj_dir (options_ this') = nadir_ this' /\
    Forall (fun io => length (dataF io) = Z.to_nat (nfdir_ this') /\
                      length (dataA io) = Z.to_nat (nadir_ this'))
      (input_ (buffers_ (object_ this')) ++ output_ (buffers_ (object_ this'))))).
Proof.
  unfold requestNumSens.
  set (nf := Z.min (Z.max nfwd (Z.max (nfdir_ this) (number_of_fwd_dir (options_ this))))
                   (max_number_of_fwd_dir (options_ this))).
  set (na := Z.min (Z.max nadj (Z.max (nadir_ this) (number_of_adj_dir (options_ this))))
                   (max_number_of_adj_dir (options_ this))).
  destruct ((nfdir_ this <? nf)%Z || (nadir_ this <? na)%Z) eqn:Eu.
  - intros E. apply updateNumSens_Some in E as (Hf & Ha & ->).
    cbn [options_ nfdir_ nadir_ object_ buffers_ input_ output_
         number_of_fwd_dir number_of_adj_dir max_number_of_fwd_dir
         max_number_of_adj_dir] in *.
    apply orb_true_iff in Eu. rewrite !Z.ltb_lt in Eu.
    split; [subst nf; lia|]. split; [subst na; lia|].
    split; [done|]. split; [done|]. right.
    split; [done|]. split; [subst nf; lia|]. split; [subst na; lia|].
    split; [done|]. split; [done|].
    rewrite <- map_app. apply Forall_fmap, Forall_forall. intros io _.
    unfold compose, resize_io. cbn [dataF dataA]. by rewrite !length_resize.
  - intros [= <-]. apply orb_false_iff in Eu. rewrite !Z.ltb_ge in Eu.
    split; [subst nf; lia|]. split; [subst na; lia|]. tauto.
Qed.

End NumSensFacts.


(** ** The dependency bits and the derivative sweeps *)

Section DependencyWords.
Context {T : Type} `{Zero T}.
Implicit Types (fx : FXInternal T).

Lemma rd_wr_total (w : list T) i x s :
  rd (wr w i x) s = if Nat.eqb s i && (i <? length w) then x else rd w s.
Proof.
  destruct (Nat.eqb_spec s i) as [->|Hne]; simpl.
  - destruct (Nat.ltb_spec i (length w)) as [Hlt|Hge].
    + rewrite rd_wr by done. by rewrite Nat.eqb_refl.
    + unfold wr. by rewrite list_insert_ge.
  - by apply rd_wr_ne.
Qed.

Lemma outputNoCheck_upd fx o k x o' :
  outputNoCheck (upd_output o (fun v => wr v k x) fx) o' =
  if Nat.eqb o' o then wr (outputNoCheck fx o) k x else outputNoCheck fx o'.
Proof.
  unfold outputNoCheck, upd_output. cbn [output_].
  destruct (Nat.eqb_spec o' o) as [->|Hne].
  - rewrite list_lookup_alter_eq. by destruct (output_ fx !! o).
  - by rewrite list_lookup_alter_ne.
Qed.

Lemma inputNoCheck_upd_output fx o f i :
  inputNoCheck (upd_output o f fx) i = inputNoCheck fx i.
Proof. done. Qed.

End DependencyWords.

Section BitInputs.
Implicit Types (fx : FXInternal bvec_t).

Lemma inputNoCheck_upd fx i k x i' :
  inputNoCheck (upd_input i (fun v => wr v k x) fx) i' =
  if Nat.eqb i' i then wr (inputNoCheck fx i) k x else inputNoCheck fx i'.
Proof.
  unfold inputNoCheck, upd_input. cbn [input_].
  destruct (Nat.eqb_spec i' i) as [->|Hne].
  - rewrite list_lookup_alter_eq. by destruct (input_ fx !! i).
  - by rewrite list_lookup_alter_ne.
Qed.

Lemma outputNoCheck_upd_input fx i f o :
  outputNoCheck (upd_input i f fx) o = outputNoCheck fx o.
Proof. done. Qed.

End BitInputs.

Section SparsitySound.
Context {T : Type} `{Scalar T}.
Variables (sub : T -> T -> T) (opp : T -> T).
Hypothesis Rth : ring_theory zero one add mul sub opp (@eq T).
Add Ring TringS : Rth.
Local Set Default Proof Using "All".
Variable j : N.

Implicit Types (st : sweep_state (T:=T)) (it : AlgEl T) (alg pre : list (AlgEl T)).
Implicit Types (iw : list bvec_t) (bfx : FXInternal bvec_t).

Lemma zero_unless_zero (w : bvec_t) : zero_unless j w (zero : T).
Proof using Type. by intros _. Qed.

Lemma zero_unless_lor (a b : bvec_t) (x y p q : T) :
  zero_unless j a x -> zero_unless j b y ->
  zero_unless j (N.lor a b) (add (mul p x) (mul q y)).
Proof.
  intros Hx Hy Hb. rewrite N.lor_spec in Hb. apply orb_false_iff in Hb as [Ha Hb].
  rewrite (Hx Ha), (Hy Hb). ring.
Qed.

Lemma zero_unless_acc (a b : bvec_t) (x y p : T) :
  zero_unless j a x -> zero_unless j b y ->
  zero_unless j (N.lor a b) (add x (mul p y)).
Proof.
  intros Hx Hy Hb. rewrite N.lor_spec in Hb. apply orb_false_iff in Hb as [Ha Hb].
  rewrite (Hx Ha), (Hy Hb). ring.
Qed.

Lemma zero_unless_add (a b : bvec_t) (x y : T) :
  zero_unless j a x -> zero_unless j b y ->
  zero_unless j (N.lor a b) (add x y).
Proof.
  intros Hx Hy Hb. rewrite N.lor_spec in Hb. apply orb_false_iff in Hb as [Ha Hb].
  rewrite (Hx Ha), (Hy Hb). ring.
Qed.

(** Writing a pair that is related keeps the two vectors related. *)
Lemma zero_unless_wr (P : nat -> Prop) iw (w : list T) i (xb : bvec_t) (xr : T) s :
  length iw = length w ->
  (forall s, P s -> zero_unless j (rd iw s) (rd w s)) ->
  zero_unless j xb xr ->
  P s \/ s = i ->
  zero_unless j (rd (wr iw i xb) s) (rd (wr w i xr) s).
Proof using Type.
  intros Hl Hw Hx Hs. rewrite !rd_wr_total, Hl.
  destruct (Nat.eqb_spec s i) as [->|Hne]; cbn [andb].
  - destruct (Nat.ltb_spec i (length w)) as [Hlt|Hge]; [done|].
    intros _. by apply rd_ge.
  - apply Hw. by destruct Hs.
Qed.

Lemma fwd_step_builtin d st it :
  is_builtin (op it) = true ->
  fwd_step d st it =
  mkSweep (wr (sw_work st) (res it)
              (add (mul (tape_hd (sw_it st)).1 (rd (sw_work st) (arg_i0 it)))
                   (mul (tape_hd (sw_it st)).2 (rd (sw_work st) (arg_i1 it)))))
          (tail (sw_it st)) (sw_fx st).
Proof using Type. unfold fwd_step. by destruct (op it). Qed.

Lemma adj_step_builtin d st it :
  is_builtin (op it) = true ->
  adj_step d st it =
  (let dd := tape_hd (sw_it st) in
   let seed := rd (sw_work st) (res it) in
   let work1 := wr (sw_work st) (res it) zero in
   let work2 := wr work1 (arg_i0 it) (add (rd work1 (arg_i0 it)) (mul dd.1 seed)) in
   let work3 := wr work2 (arg_i1 it) (add (rd work2 (arg_i1 it)) (mul dd.2 seed)) in
   mkSweep work3 (tail (sw_it st)) (sw_fx st)).
Proof using Type. unfold adj_step. by destruct (op it). Qed.

Lemma fwd_related_step d pre bst st it :
  op it <> OP_PARAMETER ->
  forallb (produced pre) (sweep_reads it) = true ->
  fwd_related j d pre bst st ->
  fwd_related j d (pre ++ [it]) (sp_fwd_step bst it) (fwd_step d st it).
Proof.
  intros Hnp Hr (Hl & Hseed & Hw & Hout). destruct bst as [iw bfx].
  cbn [fst snd] in *.
  assert (Hprod : forall s, produced (pre ++ [it]) s = true ->
            op it <> OP_OUTPUT /\ (produced pre s = true \/ s = res it) \/
            op it = OP_OUTPUT /\ produced pre s = true).
  { intros s. rewrite produced_snoc.
    destruct (Operation_eqb (op it) OP_OUTPUT) eqn:Eo.
    - apply Operation_eqb_eq in Eo. cbn [negb andb]. rewrite orb_false_r. auto.
    - apply Operation_eqb_neq in Eo. cbn [negb andb].
      intros [?|E]%orb_true_iff; [auto|]. apply Nat.eqb_eq in E. auto. }
  destruct (is_builtin_cases (op it)) as [Hb|[Eo|[Eo|[Eo|Eo]]]]; [| |done| |].
  - (* unary or binary *)
    rewrite sp_fwd_step_builtin, fwd_step_builtin by done.
    unfold sweep_reads in Hr.
    assert (forallb (produced pre) [arg_i0 it; arg_i1 it] = true) as Hr'
      by (by destruct (op it)).
    cbn [forallb] in Hr'. apply andb_true_iff in Hr' as [H0 Hr'].
    apply andb_true_iff in Hr' as [H1 _].
    assert (op it <> OP_OUTPUT) as Hno by (intros E; by rewrite E in Hb).
    split; [|split; [|split]]; cbn [fst snd sw_work sw_fx].
    + by rewrite !length_wr.
    + done.
    + intros s Hs.
      apply (zero_unless_wr (fun s => produced pre s = true)); [done|done| |].
      * apply zero_unless_lor; by apply Hw.
      * destruct (Hprod s Hs) as [[_ ?]|[? _]]; done.
    + intros loc. rewrite output_locs_snoc.
      apply Operation_eqb_neq in Hno. rewrite Hno, app_nil_r. apply Hout.
  - (* a constant *)
    unfold sp_fwd_step, fwd_step. rewrite Eo.
    split; [|split; [|split]]; cbn [fst snd sw_work sw_fx].
    + by rewrite !length_wr.
    + done.
    + intros s Hs.
      apply (zero_unless_wr (fun s => produced pre s = true)); [done|done| |].
      * apply zero_unless_zero.
      * destruct (Hprod s Hs) as [[_ ?]|[E _]]; [done|]. by rewrite Eo in E.
    + intros loc. rewrite output_locs_snoc, Eo. cbn [Operation_eqb].
      rewrite app_nil_r. apply Hout.
  - (* an input *)
    unfold sp_fwd_step, fwd_step. rewrite Eo.
    split; [|split; [|split]]; cbn [fst snd sw_work sw_fx].
    + by rewrite !length_wr.
    + done.
    + intros s Hs.
      apply (zero_unless_wr (fun s => produced pre s = true)); [done|done| |].
      * rewrite fwdSeedNoCheck_rd. apply Hseed.
      * destruct (Hprod s Hs) as [[_ ?]|[E _]]; [done|]. by rewrite Eo in E.
    + intros loc. rewrite output_locs_snoc, Eo. cbn [Operation_eqb].
      rewrite app_nil_r. apply Hout.
  - (* an output *)
    unfold sweep_reads in Hr. rewrite Eo in Hr. cbn [forallb] in Hr.
    apply andb_true_iff in Hr as [H0 _].
    pose proof (fwd_step_fwdSens d st it) as Hsens.
    pose proof (fwd_step_input d st it) as Hinp.
    rewrite Eo in Hsens. cbn [Operation_eqb] in Hsens.
    assert (sw_work (fwd_step d st it) = sw_work st) as Hwk
      by (unfold fwd_step; by rewrite Eo).
    unfold sp_fwd_step. rewrite Eo.
    split; [|split; [|split]]; cbn [fst snd].
    + by rewrite Hwk.
    + intros i k. unfold fwdSeed_dir. rewrite Hinp. apply Hseed.
    + intros s Hs. rewrite Hwk. apply Hw.
      destruct (Hprod s Hs) as [[E _]|[_ ?]]; [by rewrite Eo in E|done].
    + intros loc. rewrite output_locs_snoc, Eo. cbn [Operation_eqb].
      rewrite Hsens, outputNoCheck_upd. intros Hloc.
      destruct (decide (loc = (res it, arg_i1 it))) as [->|Hne].
      * cbn [fst snd]. rewrite Nat.eqb_refl, length_wr. intros Hin.
        rewrite rd_wr by done. rewrite Nat.eqb_refl.
        destruct (lt_dec (arg_i1 it)
                    (length (default [] (fwdSens_dir (sw_fx st) d !! res it))))
          as [Hrange|Hrange];
          change (arg_i1 it < _) with
            (in_range (fwdSens_dir (sw_fx st) d) (res it, arg_i1 it)) in Hrange.
        -- rewrite rd2_wr2_eq by done. by apply Hw.
        -- intros _. apply rd2_out_of_range. intros Hr'. apply Hrange.
           revert Hr'. apply in_range_length, length_wr2.
      * rewrite rd2_wr2_ne by done.
        apply elem_of_app in Hloc as [Hloc|Hloc];
          [|apply list_elem_of_singleton in Hloc; done].
        destruct loc as [o k]. cbn [fst snd].
        destruct (Nat.eqb_spec o (res it)) as [->|Ho].
        -- rewrite length_wr. intros Hin. rewrite rd_wr_ne by congruence.
           by apply (Hout (res it, k)).
        -- apply (Hout (o, k) Hloc).
Qed.

Lemma fwd_related_fold d alg : forall pre bst st,
  Forall (fun ae => op ae <> OP_PARAMETER) alg ->
  valid_from sweep_reads pre alg = true ->
  fwd_related j d pre bst st ->
  fwd_related j d (pre ++ alg) (fold_left sp_fwd_step alg bst)
              (fold_left (fwd_step d) alg st).
Proof.
  induction alg as [|it alg IH]; intros pre bst st Hnp Hv Hrel.
  { by rewrite app_nil_r. }
  apply Forall_cons in Hnp as [Hnp1 Hnp].
  cbn [valid_from] in Hv. apply andb_true_iff in Hv as [Hr Hv].
  cbn [fold_left]. replace (pre ++ it :: alg) with ((pre ++ [it]) ++ alg)
    by (by rewrite <- app_assoc).
  apply IH; [done|done|]. by apply fwd_related_step.
Qed.


Lemma adj_related_step d locs bst st it :
  op it <> OP_PARAMETER ->
  adj_related j d locs bst st ->
  adj_related j d (locs ++ (if Operation_eqb (op it) OP_INPUT
                          then [(arg_i0 it, arg_i1 it)] else []))
              (sp_adj_step bst it) (adj_step d st it).
Proof.
  intros Hnp (Hl & Hseed & Hw & Hin). destruct bst as [iw bfx].
  cbn [fst snd] in *.
  assert (Hwr : forall iw' (w' : list T) i xb xr,
            length iw' = length w' ->
            (forall s, zero_unless j (rd iw' s) (rd w' s)) ->
            zero_unless j xb xr ->
            forall s, zero_unless j (rd (wr iw' i xb) s) (rd (wr w' i xr) s)).
  { intros iw' w' i xb xr Hl' Hw' Hx s.
    apply (zero_unless_wr (fun _ => True)); auto. }
  destruct (is_builtin_cases (op it)) as [Hb|[Eo|[Eo|[Eo|Eo]]]]; [| |done| |].
  - (* unary or binary *)
    rewrite sp_adj_step_builtin, adj_step_builtin by done. cbv zeta.
    assert (Operation_eqb (op it) OP_INPUT = false) as ->
      by (apply Operation_eqb_neq; intros E; by rewrite E in Hb).
    rewrite app_nil_r.
    split; [|split; [|split]]; cbn [fst snd sw_work sw_fx]; [|done| |done].
    + by rewrite !length_wr.
    + apply Hwr; [by rewrite !length_wr| |].
      * apply Hwr; [by rewrite !length_wr| |].
        -- apply Hwr; [done|done|apply zero_unless_zero].
        -- apply zero_unless_acc; [|done].
           apply Hwr; [done|done|apply zero_unless_zero].
      * apply zero_unless_acc; [|done].
        apply Hwr; [by rewrite !length_wr| |].
        -- apply Hwr; [done|done|apply zero_unless_zero].
        -- apply zero_unless_acc; [|done].
           apply Hwr; [done|done|apply zero_unless_zero].
  - (* a constant *)
    unfold sp_adj_step, adj_step. rewrite Eo. cbn [Operation_eqb].
    rewrite app_nil_r.
    split; [|split; [|split]]; cbn [fst snd sw_work sw_fx]; [|done| |done].
    + by rewrite !length_wr.
    + apply Hwr; [done|done|apply zero_unless_zero].
  - (* an input *)
    pose proof (adj_step_adjSens d st it) as Hsens.
    pose proof (adj_step_output d st it) as Hout.
    rewrite Eo in Hsens. cbn [Operation_eqb] in Hsens.
    assert (sw_work (adj_step d st it) = wr (sw_work st) (res it) zero) as Hwk
      by (unfold adj_step; by rewrite Eo).
    unfold sp_adj_step. rewrite Eo. cbn [Operation_eqb].
    split; [|split; [|split]]; cbn [fst snd].
    + by rewrite Hwk, !length_wr.
    + intros o k. unfold adjSeed_dir. rewrite Hout. apply Hseed.
    + rewrite Hwk. apply Hwr; [done|done|apply zero_unless_zero].
    + intros loc Hloc. rewrite Hsens, inputNoCheck_upd.
      destruct (decide (loc = (arg_i0 it, arg_i1 it))) as [->|Hne].
      * cbn [fst snd]. rewrite Nat.eqb_refl, length_wr. intros Hr.
        rewrite rd_wr by done. rewrite Nat.eqb_refl.
        destruct (lt_dec (arg_i1 it)
                    (length (default [] (adjSens_dir (sw_fx st) d !! arg_i0 it))))
          as [Hrange|Hrange];
          change (arg_i1 it < _) with
            (in_range (adjSens_dir (sw_fx st) d) (arg_i0 it, arg_i1 it)) in Hrange.
        -- rewrite rd2_wr2_eq by done. apply Hw.
        -- intros _. apply rd2_out_of_range. intros Hr'. apply Hrange.
           revert Hr'. apply in_range_length, length_wr2.
      * rewrite rd2_wr2_ne by done.
        apply elem_of_app in Hloc as [Hloc|Hloc];
          [|apply list_elem_of_singleton in Hloc; done].
        destruct loc as [i k]. cbn [fst snd].
        destruct (Nat.eqb_spec i (arg_i0 it)) as [->|Hi].
        -- rewrite length_wr. intros Hr. rewrite rd_wr_ne by congruence.
           by apply (Hin (arg_i0 it, k)).
        -- apply (Hin (i, k) Hloc).
  - (* an output *)
    unfold sp_adj_step, adj_step. rewrite Eo. cbn [Operation_eqb].
    rewrite app_nil_r.
    split; [|split; [|split]]; cbn [fst snd sw_work sw_fx]; [|done| |done].
    + by rewrite !length_wr.
    + apply Hwr; [done|done|]. apply zero_unless_add; [done|].
      rewrite adjSeedNoCheck_rd. apply Hseed.
Qed.

Lemma adj_related_fold d l : forall locs bst st,
  Forall (fun ae => op ae <> OP_PARAMETER) l ->
  adj_related j d locs bst st ->
  adj_related j d (locs ++ input_locs l) (fold_left sp_adj_step l bst)
              (fold_left (adj_step d) l st).
Proof.
  induction l as [|it l IH]; intros locs bst st Hnp Hrel.
  { unfold input_locs. cbn [omap]. by rewrite app_nil_r. }
  apply Forall_cons in Hnp as [Hnp1 Hnp]. cbn [fold_left].
  replace (locs ++ input_locs (it :: l)) with
    ((locs ++ (if Operation_eqb (op it) OP_INPUT
               then [(arg_i0 it, arg_i1 it)] else [])) ++ input_locs l).
  - apply IH; [done|]. by apply adj_related_step.
  - rewrite input_locs_cons, <- app_assoc.
    by destruct (Operation_eqb (op it) OP_INPUT).
Qed.

End SparsitySound.


Section SparsityBuffers.
Context {T : Type}.
Implicit Types (alg : list (AlgEl T)) (iw : list bvec_t) (bfx : FXInternal bvec_t).

Lemma sp_fwd_fold_shape alg : forall iw bfx,
  let r := fold_left sp_fwd_step alg (iw, bfx) in
  length r.1 = length iw /\ input_ r.2 = input_ bfx /\
  forall o, length (outputNoCheck r.2 o) = length (outputNoCheck bfx o).
Proof.
  induction alg as [|it alg IH]; intros iw bfx; [done|].
  cbn [fold_left]. cbv zeta.
  assert (exists iw' bfx', sp_fwd_step (iw, bfx) it = (iw', bfx') /\
            length iw' = length iw /\ input_ bfx' = input_ bfx /\
            forall o, length (outputNoCheck bfx' o) = length (outputNoCheck bfx o))
    as (iw' & bfx' & -> & Hl & Hi & Ho).
  { unfold sp_fwd_step. destruct (op it); eexists _, _;
      (split; [reflexivity|]); rewrite ?length_wr; (split; [done|]);
      (split; [done|]); try done.
    intros o. rewrite outputNoCheck_upd.
    destruct (Nat.eqb_spec o (res it)) as [->|]; [|done]. by rewrite length_wr. }
  destruct (IH iw' bfx') as (Hl' & Hi' & Ho'). cbv zeta in Hl', Hi', Ho'.
  split; [congruence|]. split; [congruence|]. intros o. by rewrite Ho'.
Qed.

Lemma sp_adj_fold_shape alg : forall iw bfx,
  let r := fold_left sp_adj_step alg (iw, bfx) in
  length r.1 = length iw /\ output_ r.2 = output_ bfx /\
  forall i, length (inputNoCheck r.2 i) = length (inputNoCheck bfx i).
Proof.
  induction alg as [|it alg IH]; intros iw bfx; [done|].
  cbn [fold_left]. cbv zeta.
  assert (exists iw' bfx', sp_adj_step (iw, bfx) it = (iw', bfx') /\
            length iw' = length iw /\ output_ bfx' = output_ bfx /\
            forall i, length (inputNoCheck bfx' i) = length (inputNoCheck bfx i))
    as (iw' & bfx' & -> & Hl & Hi & Ho).
  { unfold sp_adj_step. destruct (op it); eexists _, _;
      (split; [reflexivity|]); rewrite ?length_wr; (split; [done|]);
      (split; [done|]); try done.
    intros i. rewrite inputNoCheck_upd.
    destruct (Nat.eqb_spec i (arg_i0 it)) as [->|]; [|done]. by rewrite length_wr. }
  destruct (IH iw' bfx') as (Hl' & Hi' & Ho'). cbv zeta in Hl', Hi', Ho'.
  split; [congruence|]. split; [congruence|]. intros o. by rewrite Ho'.
Qed.

Lemma locations_outputNoCheck {A : Type} (fx : FXInternal A) o k :
  (o, k) ∈ locations (map (fun io => length (data io)) (output_ fx)) <->
  k < length (outputNoCheck fx o).
Proof.
  unfold locations. rewrite locations_from_spec. cbn [fst snd].
  unfold outputNoCheck. split.
  - intros (o' & n & -> & Hn & Hk). cbn [Nat.add] in *.
    rewrite list_lookup_fmap in Hn.
    destruct (output_ fx !! o') as [io|]; [|done]. cbn in Hn.
    injection Hn as <-. exact Hk.
  - intros Hk. destruct (output_ fx !! o) as [io|] eqn:E; [|cbn in Hk; lia].
    exists o, (length (data io)). split; [done|]. split; [|done].
    by rewrite list_lookup_fmap, E.
Qed.

Lemma locations_inputNoCheck {A : Type} (fx : FXInternal A) i k :
  (i, k) ∈ locations (map (fun io => length (data io)) (input_ fx)) <->
  k < length (inputNoCheck fx i).
Proof.
  unfold locations. rewrite locations_from_spec. cbn [fst snd].
  unfold inputNoCheck. split.
  - intros (o' & n & -> & Hn & Hk). cbn [Nat.add] in *.
    rewrite list_lookup_fmap in Hn.
    destruct (input_ fx !! o') as [io|]; [|done]. cbn in Hn.
    injection Hn as <-. exact Hk.
  - intros Hk. destruct (input_ fx !! i) as [io|] eqn:E; [|cbn in Hk; lia].
    exists i, (length (data io)). split; [done|]. split; [|done].
    by rewrite list_lookup_fmap, E.
Qed.

End SparsityBuffers.

Section SensNoCheck.
Context {T : Type} `{Scalar T}.

Lemma fwdSensNoCheck_rd (fx : FXInternal T) o dir k :
  rd (fwdSensNoCheck fx o dir) k = rd2 (fwdSens_dir fx dir) (o, k).
Proof.
  unfold fwdSensNoCheck, rd2, fwdSens_dir. simpl. rewrite list_lookup_fmap.
  by destruct (output_ fx !! o).
Qed.

Lemma adjSensNoCheck_rd (fx : FXInternal T) i dir k :
  rd (adjSensNoCheck fx i dir) k = rd2 (adjSens_dir fx dir) (i, k).
Proof.
  unfold adjSensNoCheck, rd2, adjSens_dir. simpl. rewrite list_lookup_fmap.
  by destruct (input_ fx !! i).
Qed.

End SensNoCheck.

Section SparsityOfDerivatives.
Context {T : Type} `{Scalar T}.
Variables (sub : T -> T -> T) (opp : T -> T).
Hypothesis Rth : ring_theory zero one add mul sub opp (@eq T).
Local Set Default Proof Using "All".

(** X10. The forward propagation of dependency bits is sound for the
    forward sweep of [evaluateGen], over exact scalars and for every
    function that [init] has built.  Take a bit [j] and a forward direction
    [d] whose seed is 0 at every input nonzero whose word has bit [j]
    clear.  Then [evaluateGen] returns, and at every output nonzero whose
    word has bit [j] clear after [spEvaluate(true)], the forward
    sensitivity of direction [d] is 0.  The bit vectors take the place of
    the work vector and of the input and output buffers, so they have
    their sizes. *)
Theorem spEvaluate_forward_sound fuel live jit (h : list (SXNode T)) inputv outputv
    temp0 (this : @SXFunctionInternal T) nfdir nadir e iwork
    (bfx : FXInternal bvec_t) d j :
  arena_ok h = true ->
  (forall p, temp0 p = 0) ->
  forallb (isSymbolic h) (concat inputv) = true ->
  NoDup (concat inputv) ->
  init fuel live jit h inputv outputv temp0 = Ret this ->
  free_vars_ this = [] ->
  length (pdwork_ e) = pdwork_size this ->
  input_sizes (fx_ e) = map length inputv ->
  output_sizes (fx_ e) = map length outputv ->
  length iwork = length (work_ e) ->
  map (fun io => length (data io)) (output_ bfx) = map length outputv ->
  d < nfdir ->
  (forall i k, N.testbit (rd (inputNoCheck bfx i) k) j = false ->
               rd (fwdSeedNoCheck (fx_ e) i d) k = zero) ->
  exists e',
    evaluateGen this nfdir nadir e = Ret e' /\
    forall o k, k < length (outputNoCheck bfx o) ->
      N.testbit
        (rd (outputNoCheck (spEvaluate (algorithm_ this) true (iwork, bfx)).2 o) k)
        j = false ->
      rd (fwdSensNoCheck (fx_ e') o d) k = zero.
Proof.
  intros Hok H0 Hsym Hnd Hi Hfree Hpd Hisz Hosz Hlw Hbsz Hd Hseed.
  pose proof (init_sweep_valid _ _ _ _ _ _ _ _ Hok H0 Hsym Hnd Hi Hfree) as Hv.
  pose proof (init_tape_fits _ _ _ _ _ _ _ _ Hok H0 Hsym Hnd Hi Hfree) as Hfit.
  pose proof (init_no_parameter _ _ _ _ _ _ _ _ Hok H0 Hsym Hnd Hi Hfree) as Hnp.
  pose proof (init_covers _ _ _ _ _ _ _ _ (fx_ e) Hok H0 Hsym Hnd Hi Hisz Hosz) as Hcov.
  rewrite <- Hpd in Hfit.
  destruct (evaluateGen_anatomy this nfdir nadir e Hfree Hv Hfit ltac:(lia))
    as (e' & He' & Hfwd & _).
  exists e'. split; [done|]. intros o k Hk Hbit.
  destruct (Hfwd d Hd) as (wpre & fxpre & Hlen & Hsd & _ & Hsens).
  rewrite fwdSensNoCheck_rd, Hsens.
  set (alg := algorithm_ this) in *.
  set (st := mkSweep wpre _ fxpre).
  assert (fwd_related j d [] (iwork, bfx) st) as Hrel.
  { unfold st. split; [|split; [|split]]; cbn [fst snd sw_work sw_fx].
    - by rewrite Hlen.
    - intros i k'. unfold zero_unless. rewrite Hsd, <- fwdSeedNoCheck_rd. apply Hseed.
    - intros s Hs. done.
    - intros loc Hloc. by apply elem_of_nil in Hloc. }
  pose proof (fwd_related_fold sub opp Rth j d alg [] _ _ Hnp Hv Hrel)
    as (_ & _ & _ & Hout).
  cbn [app fst snd] in Hout.
  destruct (sp_fwd_fold_shape alg iwork bfx) as (_ & _ & Hshape).
  cbv zeta in Hshape.
  apply (Hout (o, k)).
  - unfold covers in Hcov. apply andb_true_iff in Hcov as [_ Hco].
    apply bool_decide_eq_true in Hco. rewrite Hco, Hosz, <- Hbsz.
    by apply locations_outputNoCheck.
  - cbn [fst snd]. by rewrite Hshape.
  - exact Hbit.
Qed.

(** X11. The backward propagation of dependency bits is sound for the
    adjoint sweep of [evaluateGen], in the same way.  Take a bit [j] and
    an adjoint direction [d] whose seed is 0 at every output nonzero whose
    word has bit [j] clear.  Then at every input nonzero whose word has bit
    [j] clear after [spInit(false)] and [spEvaluate(false)], the adjoint
    sensitivity of direction [d] that [evaluateGen] leaves is 0. *)
Theorem spEvaluate_backward_sound fuel live jit (h : list (SXNode T)) inputv outputv
    temp0 (this : @SXFunctionInternal T) nfdir nadir e iwork
    (bfx : FXInternal bvec_t) d j :
  arena_ok h = true ->
  (forall p, temp0 p = 0) ->
  forallb (isSymbolic h) (concat inputv) = true ->
  NoDup (concat inputv) ->
  init fuel live jit h inputv outputv temp0 = Ret this ->
  free_vars_ this = [] ->
  length (pdwork_ e) = pdwork_size this ->
  input_sizes (fx_ e) = map length inputv ->
  output_sizes (fx_ e) = map length outputv ->
  length iwork = length (work_ e) ->
  map (fun io => length (data io)) (input_ bfx) = map length inputv ->
  d < nadir ->
  (forall o k, N.testbit (rd (outputNoCheck bfx o) k) j = false ->
               rd (adjSeedNoCheck (fx_ e) o d) k = zero) ->
  exists e',
    evaluateGen this nfdir nadir e = Ret e' /\
    forall i k, k < length (inputNoCheck bfx i) ->
      N.testbit
        (rd (inputNoCheck
               (spEvaluate (algorithm_ this) false (spInit false iwork, bfx)).2 i) k)
        j = false ->
      rd (adjSensNoCheck (fx_ e') i d) k = zero.
Proof.
  intros Hok H0 Hsym Hnd Hi Hfree Hpd Hisz Hosz Hlw Hbsz Hd Hseed.
  pose proof (init_sweep_valid _ _ _ _ _ _ _ _ Hok H0 Hsym Hnd Hi Hfree) as Hv.
  pose proof (init_tape_fits _ _ _ _ _ _ _ _ Hok H0 Hsym Hnd Hi Hfree) as Hfit.
  pose proof (init_no_parameter _ _ _ _ _ _ _ _ Hok H0 Hsym Hnd Hi Hfree) as Hnp.
  pose proof (init_covers _ _ _ _ _ _ _ _ (fx_ e) Hok H0 Hsym Hnd Hi Hisz Hosz) as Hcov.
  rewrite <- Hpd in Hfit.
  destruct (evaluateGen_anatomy this nfdir nadir e Hfree Hv Hfit ltac:(lia))
    as (e' & He' & _ & Hadj).
  exists e'. split; [done|]. intros i k Hk Hbit.
  destruct (Hadj d Hd) as (fxpre & Hsd & _ & Hsens).
  rewrite adjSensNoCheck_rd, Hsens.
  set (alg := algorithm_ this) in *.
  set (st := mkSweep _ _ fxpre).
  assert (adj_related j d [] (spInit false iwork, bfx) st) as Hrel.
  { unfold st. split; [|split; [|split]]; cbn [fst snd sw_work sw_fx spInit].
    - by rewrite !length_replicate.
    - intros o k'. unfold zero_unless. rewrite Hsd, <- adjSeedNoCheck_rd. apply Hseed.
    - intros s _. apply rd_replicate_zero.
    - intros loc Hloc. by apply elem_of_nil in Hloc. }
  assert (Forall (fun ae => op ae <> OP_PARAMETER) (rev alg)) as Hnp'.
  { apply Forall_forall. intros ae Hae. rewrite Forall_forall in Hnp.
    apply Hnp. apply list_elem_of_In. apply in_rev. by apply list_elem_of_In. }
  pose proof (adj_related_fold sub opp Rth j d (rev alg) [] _ _ Hnp' Hrel)
    as (_ & _ & _ & Hin).
  cbn [app fst snd] in Hin.
  destruct (sp_adj_fold_shape (rev alg) (spInit false iwork) bfx) as (_ & _ & Hshape).
  cbv zeta in Hshape.
  apply (Hin (i, k)).
  - apply input_locs_rev.
    unfold covers in Hcov. apply andb_true_iff in Hcov as [Hci _].
    apply bool_decide_eq_true in Hci. rewrite Hci, Hisz, <- Hbsz.
    by apply locations_inputNoCheck.
  - cbn [fst snd]. by rewrite Hshape.
  - exact Hbit.
Qed.

End SparsityOfDerivatives.


(** ** What the propagation of dependency bits needs of the work vector *)

Section SparsityWorkVector.
Context {T : Type} `{Scalar T}.
Implicit Types (alg pre : list (AlgEl T)) (it : AlgEl T).
Implicit Types (iw : list bvec_t) (bfx : FXInternal bvec_t).

Lemma sp_reads_operands (ae : AlgEl T) s :
  second_is_first ae -> s ∈ sp_reads ae -> s ∈ operand_slots ae.
Proof.
  unfold second_is_first, sp_reads, operand_slots. intros H2.
  destruct (op ae) eqn:Eo; try done; simpl in *;
    try (rewrite H2 by done; intros Hs;
         apply elem_of_cons in Hs as [->|Hs]; [by left|];
         apply list_elem_of_singleton in Hs as ->; by left).
Qed.

Lemma init_sp_valid fuel live jit (h : list (SXNode T)) inputv outputv temp0 this :
  arena_ok h = true ->
  (forall p, temp0 p = 0) ->
  forallb (isSymbolic h) (concat inputv) = true ->
  init fuel live jit h inputv outputv temp0 = Ret this ->
  valid_from sp_reads [] (algorithm_ this) = true.
Proof.
  intros Hok H0 Hsym Hi.
  destruct (init_valid_operands _ _ _ _ _ _ _ _ Hok H0 Hsym Hi) as [Hv H2].
  apply (valid_from_reads_incl operand_slots); [|done].
  rewrite Forall_forall in H2. apply Forall_forall. intros ae Hae s.
  apply sp_reads_operands. by apply H2.
Qed.

Lemma sp_adj_step_length iw bfx it :
  length (sp_adj_step (iw, bfx) it).1 = length iw.
Proof. unfold sp_adj_step. destruct (op it); cbn [fst]; by rewrite ?length_wr. Qed.

(** One instruction of the backward propagation: the words that can be
    nonzero afterwards belong to instructions that are still to come. *)
Lemma sp_adj_step_quiet pre it iw bfx :
  forallb (produced pre) (sp_reads it) = true ->
  (forall s, s < length iw -> produced (pre ++ [it]) s = false -> rd iw s = 0%N) ->
  forall s, s < length iw -> produced pre s = false ->
    rd (sp_adj_step (iw, bfx) it).1 s = 0%N.
Proof.
  intros Hr Hq s Hs Hp.
  assert (Hres : forall w, length w = length iw ->
            (forall s', s' <> res it -> s' < length iw -> produced pre s' = false ->
               rd w s' = 0%N) -> rd (wr w (res it) 0%N) s = 0%N).
  { intros w Hl Hw. destruct (decide (s = res it)) as [->|Hne].
    - rewrite rd_wr by lia. by rewrite Nat.eqb_refl.
    - rewrite rd_wr_ne by done. by apply Hw. }
  assert (Hold : op it <> OP_OUTPUT -> forall s', s' <> res it -> s' < length iw ->
            produced pre s' = false -> rd iw s' = 0%N).
  { intros Ho s' Hne Hs' Hp'. apply Hq; [done|].
    apply produced_snoc_other; [done|]. by intros _ ?. }
  destruct (is_builtin_cases (op it)) as [Hb|[Eo|[Eo|[Eo|Eo]]]].
  - rewrite sp_adj_step_builtin by done. cbv zeta. cbn [fst].
    assert (forallb (produced pre) [arg_i0 it; arg_i1 it] = true) as Hr'
      by (unfold sp_reads in Hr; by destruct (op it)).
    cbn [forallb] in Hr'. apply andb_true_iff in Hr' as [H0 Hr'].
    apply andb_true_iff in Hr' as [H1 _].
    pose proof (produced_true_false _ _ _ H0 Hp) as Hn0.
    pose proof (produced_true_false _ _ _ H1 Hp) as Hn1.
    rewrite 2!rd_wr_ne by done. apply Hres; [done|].
    apply Hold. intros E. by rewrite E in Hb.
  - unfold sp_adj_step. rewrite Eo. cbn [fst]. apply Hres; [done|].
    apply Hold. by rewrite Eo.
  - unfold sp_adj_step. rewrite Eo. cbn [fst]. apply Hres; [done|].
    apply Hold. by rewrite Eo.
  - unfold sp_adj_step. rewrite Eo. cbn [fst]. apply Hres; [done|].
    apply Hold. by rewrite Eo.
  - unfold sp_adj_step. rewrite Eo. cbn [fst].
    unfold sp_reads in Hr. rewrite Eo in Hr. cbn [forallb] in Hr.
    apply andb_true_iff in Hr as [H0 _].
    pose proof (produced_true_false _ _ _ H0 Hp) as Hn0.
    rewrite rd_wr_ne by done. apply Hq; [done|].
    apply produced_snoc_other; [done|]. by rewrite Eo.
Qed.

Lemma sp_adj_fold_quiet alg : forall iw bfx,
  valid_from sp_reads [] alg = true ->
  (forall s, s < length iw -> produced alg s = false -> rd iw s = 0%N) ->
  forall s, s < length iw ->
    rd (fold_left sp_adj_step (rev alg) (iw, bfx)).1 s = 0%N.
Proof.
  induction alg as [|it alg IH] using rev_ind; intros iw bfx Hv Hq s Hs.
  { by apply Hq. }
  rewrite valid_from_snoc in Hv. apply andb_prop in Hv as [Hv Hr].
  rewrite rev_unit. cbn [fold_left].
  pose proof (sp_adj_step_quiet alg it iw bfx Hr Hq) as Hq'.
  pose proof (sp_adj_step_length iw bfx it) as Hl.
  destruct (sp_adj_step (iw, bfx) it) as [iw' bfx']. cbn [fst] in *.
  apply IH; [done| |lia]. intros s' Hs'. apply Hq'. lia.
Qed.

(** Two forward propagations over the same input words, from any two work
    vectors and any old output words. *)
Lemma sp_fwd_fold_agree alg : forall pre iw1 iw2 bfx1 bfx2,
  valid_from sp_reads pre alg = true ->
  length iw1 = length iw2 ->
  (forall i, inputNoCheck bfx1 i = inputNoCheck bfx2 i) ->
  (forall o, length (outputNoCheck bfx1 o) = length (outputNoCheck bfx2 o)) ->
  (forall s, produced pre s = true -> rd iw1 s = rd iw2 s) ->
  (forall loc, loc ∈ output_locs pre ->
     rd (outputNoCheck bfx1 loc.1) loc.2 = rd (outputNoCheck bfx2 loc.1) loc.2) ->
  forall loc, loc ∈ output_locs (pre ++ alg) ->
    rd (outputNoCheck (fold_left sp_fwd_step alg (iw1, bfx1)).2 loc.1) loc.2 =
    rd (outputNoCheck (fold_left sp_fwd_step alg (iw2, bfx2)).2 loc.1) loc.2.
Proof.
  induction alg as [|it alg IH]; intros pre iw1 iw2 bfx1 bfx2 Hv Hl Hi Hsh Hw Ho.
  { rewrite app_nil_r. exact Ho. }
  cbn [valid_from] in Hv. apply andb_true_iff in Hv as [Hr Hv].
  cbn [fold_left]. replace (pre ++ it :: alg) with ((pre ++ [it]) ++ alg)
    by (by rewrite <- app_assoc).
  assert (Hwr : forall x1 x2, x1 = x2 -> op it <> OP_OUTPUT ->
            forall s, produced (pre ++ [it]) s = true ->
              rd (wr iw1 (res it) x1) s = rd (wr iw2 (res it) x2) s).
  { intros x1 x2 -> Hno s. rewrite produced_snoc.
    apply Operation_eqb_neq in Hno. rewrite Hno. cbn [negb andb].
    rewrite !rd_wr_total, Hl. intros Hs.
    destruct (Nat.eqb_spec s (res it)) as [->|Hne]; cbn [andb].
    - destruct (res it <? length iw2) eqn:E; [done|].
      apply Nat.ltb_ge in E. rewrite !rd_ge by lia. done.
    - apply Hw. apply orb_true_iff in Hs as [?|E]; [done|].
      apply Nat.eqb_eq in E. congruence. }
  assert (Hkeep : op it <> OP_OUTPUT ->
            forall loc, loc ∈ output_locs (pre ++ [it]) ->
              rd (outputNoCheck bfx1 loc.1) loc.2 = rd (outputNoCheck bfx2 loc.1) loc.2).
  { intros Hno loc. rewrite output_locs_snoc.
    apply Operation_eqb_neq in Hno. rewrite Hno, app_nil_r. apply Ho. }
  destruct (is_builtin_cases (op it)) as [Hb|[Eo|[Eo|[Eo|Eo]]]].
  - rewrite !sp_fwd_step_builtin by done.
    assert (forallb (produced pre) [arg_i0 it; arg_i1 it] = true) as Hr'
      by (unfold sp_reads in Hr; by destruct (op it)).
    cbn [forallb] in Hr'. apply andb_true_iff in Hr' as [H0 Hr'].
    apply andb_true_iff in Hr' as [H1 _].
    assert (op it <> OP_OUTPUT) as Hno by (intros E; by rewrite E in Hb).
    apply IH; try done.
    + by rewrite !length_wr.
    + apply Hwr; [|done]. by rewrite (Hw _ H0), (Hw _ H1).
    + by apply Hkeep.
  - unfold sp_fwd_step. rewrite Eo.
    apply IH; try done.
    + by rewrite !length_wr.
    + apply Hwr; [done|]. by rewrite Eo.
    + apply Hkeep. by rewrite Eo.
  - unfold sp_fwd_step. rewrite Eo.
    apply IH; try done.
    + by rewrite !length_wr.
    + apply Hwr; [done|]. by rewrite Eo.
    + apply Hkeep. by rewrite Eo.
  - unfold sp_fwd_step. rewrite Eo.
    apply IH; try done.
    + by rewrite !length_wr.
    + apply Hwr; [|by rewrite Eo]. by rewrite Hi.
    + apply Hkeep. by rewrite Eo.
  - unfold sp_fwd_step. rewrite Eo.
    unfold sp_reads in Hr. rewrite Eo in Hr. cbn [forallb] in Hr.
    apply andb_true_iff in Hr as [H0 _].
    apply IH; try done.
    + intros o. rewrite !outputNoCheck_upd.
      destruct (Nat.eqb o (res it)); by rewrite ?length_wr.
    + intros s. rewrite produced_snoc, Eo. cbn [Operation_eqb negb andb].
      rewrite orb_false_r. apply Hw.
    + intros loc. rewrite output_locs_snoc, Eo. cbn [Operation_eqb].
      rewrite !outputNoCheck_upd. intros Hloc.
      destruct loc as [o k]. cbn [fst snd].
      destruct (Nat.eqb_spec o (res it)) as [->|Hne].
      * rewrite !rd_wr_total, (Hsh (res it)), (Hw _ H0).
        destruct (Nat.eqb_spec k (arg_i1 it)) as [->|Hk]; cbn [andb].
        -- destruct (arg_i1 it <? length (outputNoCheck bfx2 (res it))) eqn:E;
             [done|].
           apply Nat.ltb_ge in E. rewrite !rd_ge; [done|lia|]. by rewrite Hsh.
        -- apply elem_of_app in Hloc as [Hloc|Hloc]; [by apply (Ho (res it, k))|].
           apply list_elem_of_singleton in Hloc. congruence.
      * apply elem_of_app in Hloc as [Hloc|Hloc]; [by apply (Ho (o, k))|].
        apply list_elem_of_singleton in Hloc. congruence.
Qed.

(** X12. What [spInit] does is enough, for every function that [init] has
    built, with or without free variables.  Forward, it does nothing: the
    words that [spEvaluate(true)] leaves in the nonzeros of the outputs are
    the same from every content of the work vector and of the output
    buffers.  Backward, it clears the work vector once: a backward
    propagation that starts on a cleared work vector ends on a cleared
    one, from all words in the buffers, so that the next one needs no
    clearing. *)
Theorem spInit_is_enough fuel live jit (h : list (SXNode T)) inputv outputv temp0
    (this : @SXFunctionInternal T) :
  arena_ok h = true ->
  (forall p, temp0 p = 0) ->
  forallb (isSymbolic h) (concat inputv) = true ->
  NoDup (concat inputv) ->
  init fuel live jit h inputv outputv temp0 = Ret this ->
  (forall iw1 iw2 bfx1 bfx2,
     length iw1 = length iw2 ->
     map data (input_ bfx1) = map data (input_ bfx2) ->
     map (fun io => length (data io)) (output_ bfx1) = map length outputv ->
     map (fun io => length (data io)) (output_ bfx2) = map length outputv ->
     forall o,
       outputNoCheck (spEvaluate (algorithm_ this) true (spInit true iw1, bfx1)).2 o =
       outputNoCheck (spEvaluate (algorithm_ this) true (spInit true iw2, bfx2)).2 o) /\
  (forall iw bfx,
     (spEvaluate (algorithm_ this) false (spInit false iw, bfx)).1 =
     replicate (length iw) 0%N).
Proof.
  intros Hok H0 Hsym Hnd Hi.
  pose proof (init_sp_valid _ _ _ _ _ _ _ _ Hok H0 Hsym Hi) as Hv.
  split.
  - intros iw1 iw2 bfx1 bfx2 Hl Hinp Hs1 Hs2 o. cbn [spInit spEvaluate].
    assert (Hsh : forall o, length (outputNoCheck bfx1 o) = length (outputNoCheck bfx2 o)).
    { intros o'. unfold outputNoCheck.
      assert (map (fun io : FunctionIO bvec_t => length (data io)) (output_ bfx1) !! o' =
              map (fun io : FunctionIO bvec_t => length (data io)) (output_ bfx2) !! o')
        as E by (by rewrite Hs1, Hs2).
      rewrite !list_lookup_fmap in E.
      destruct (output_ bfx1 !! o'), (output_ bfx2 !! o'); cbn in *; congruence. }
    destruct (sp_fwd_fold_shape (algorithm_ this) iw1 bfx1) as (_ & _ & Hsh1).
    destruct (sp_fwd_fold_shape (algorithm_ this) iw2 bfx2) as (_ & _ & Hsh2).
    cbv zeta in Hsh1, Hsh2.
    assert (Hinp' : forall i, inputNoCheck bfx1 i = inputNoCheck bfx2 i).
    { intros i. unfold inputNoCheck.
      assert (map data (input_ bfx1) !! i = map data (input_ bfx2) !! i) as E
        by (by rewrite Hinp).
      rewrite !list_lookup_fmap in E.
      destruct (input_ bfx1 !! i), (input_ bfx2 !! i); cbn in *; congruence. }
    apply rd_ext; [by rewrite Hsh1, Hsh2|].
    intros k Hk. rewrite Hsh1 in Hk.
    apply (sp_fwd_fold_agree (algorithm_ this) [] iw1 iw2 bfx1 bfx2 Hv Hl Hinp' Hsh
             ltac:(done) ltac:(intros loc Hloc; by apply elem_of_nil in Hloc) (o, k)).
    cbn [app].
    destruct (init_anatomy _ _ _ _ _ _ _ _ Hok H0 Hsym Hnd Hi)
      as (nodes & alg & temp3 & Halg & _ & Hlen & Hops & Hout & Hmarks & Hin).
    rewrite Halg.
    rewrite (marked_output_locs h inputv nodes alg temp3); try done.
    rewrite Hout, <- Hs1. by apply locations_outputNoCheck.
  - intros iw bfx. cbn [spInit spEvaluate].
    pose proof (sp_adj_fold_shape (rev (algorithm_ this)) (replicate (length iw) 0%N) bfx)
      as (Hl & _). cbv zeta in Hl. rewrite length_replicate in Hl.
    apply rd_ext; [by rewrite Hl, length_replicate|].
    intros s Hs. rewrite Hl in Hs.
    rewrite sp_adj_fold_quiet; [|done| |by rewrite length_replicate].
    + unfold rd. by rewrite lookup_replicate_2.
    + intros s' Hs' _. rewrite length_replicate in Hs'.
      unfold rd. by rewrite lookup_replicate_2.
Qed.

End SparsityWorkVector.


(** ** The propagation of [SXFunctionInternal] against the default *)

Section AllDepend.

Lemma fold_lor_testbit (l : list bvec_t) (a : bvec_t) b :
  N.testbit (fold_left N.lor l a) b =
  N.testbit a b || existsb (fun w => N.testbit w b) l.
Proof.
  revert a. induction l as [|w l IH]; intros a; cbn [fold_left existsb].
  - by rewrite orb_false_r.
  - by rewrite IH, N.lor_spec, orb_assoc.
Qed.

Lemma all_depend_of_testbit (ios : list (FunctionIO bvec_t)) b :
  N.testbit (all_depend_of ios) b =
  existsb (fun io => existsb (fun w => N.testbit w b) (data io)) ios.
Proof.
  unfold all_depend_of.
  enough (forall a, N.testbit (fold_left (fun a io => fold_left N.lor (data io) a) ios a) b =
                    N.testbit a b ||
                    existsb (fun io => existsb (fun w => N.testbit w b) (data io)) ios)
    as Hg by (by rewrite Hg).
  induction ios as [|io ios IH]; intros a; cbn [fold_left existsb].
  - by rewrite orb_false_r.
  - by rewrite IH, fold_lor_testbit, orb_assoc.
Qed.

(** [w] has no bit that [a] has not. *)
Lemma lor_absorb (w a : bvec_t) :
  N.lor w a = a <-> forall b, N.testbit w b = true -> N.testbit a b = true.
Proof.
  split.
  - intros E b Hb. rewrite <- E, N.lor_spec, Hb. done.
  - intros Hw. apply N.bits_inj. intros b. rewrite N.lor_spec.
    destruct (N.testbit w b) eqn:E; [|done]. by rewrite (Hw b E).
Qed.

Lemma lor_absorb_lor (a x y : bvec_t) :
  N.lor x a = a -> N.lor y a = a -> N.lor (N.lor x y) a = a.
Proof. intros Hx Hy. by rewrite <- N.lor_assoc, Hy, Hx. Qed.

Lemma rd_inputNoCheck_all_depend (fx : FXInternal bvec_t) i k :
  N.lor (rd (inputNoCheck fx i) k) (all_depend_of (input_ fx)) =
  all_depend_of (input_ fx).
Proof.
  apply lor_absorb. intros b Hb. rewrite all_depend_of_testbit.
  unfold inputNoCheck, rd in Hb.
  destruct (input_ fx !! i) as [io|] eqn:Ei; cbn in Hb;
    [|by destruct k].
  destruct (data io !! k) as [w|] eqn:Ek; cbn in Hb; [|done].
  apply existsb_exists. exists io. split.
  - apply list_elem_of_In. by apply list_elem_of_lookup_2 in Ei.
  - apply existsb_exists. exists w. split; [|done].
    apply list_elem_of_In. by apply list_elem_of_lookup_2 in Ek.
Qed.

Lemma rd_outputNoCheck_all_depend (fx : FXInternal bvec_t) o k :
  N.lor (rd (outputNoCheck fx o) k) (all_depend_of (output_ fx)) =
  all_depend_of (output_ fx).
Proof.
  apply lor_absorb. intros b Hb. rewrite all_depend_of_testbit.
  unfold outputNoCheck, rd in Hb.
  destruct (output_ fx !! o) as [io|] eqn:Ei; cbn in Hb;
    [|by destruct k].
  destruct (data io !! k) as [w|] eqn:Ek; cbn in Hb; [|done].
  apply existsb_exists. exists io. split.
  - apply list_elem_of_In. by apply list_elem_of_lookup_2 in Ei.
  - apply existsb_exists. exists w. split; [|done].
    apply list_elem_of_In. by apply list_elem_of_lookup_2 in Ek.
Qed.

(** The words that the default leaves. *)
Lemma default_forward_word (fx : FXInternal bvec_t) o k :
  rd (outputNoCheck (FXInternal_spEvaluate true fx) o) k =
  if k <? length (outputNoCheck fx o) then all_depend_of (input_ fx) else 0%N.
Proof.
  unfold FXInternal_spEvaluate, outputNoCheck. cbn [output_].
  rewrite list_lookup_fmap.
  destruct (output_ fx !! o) as [io|];
    cbn [fmap option_fmap option_map default].
  - unfold rd, set_data, id. cbn [data]. rewrite list_lookup_fmap.
    destruct (Nat.ltb_spec k (length (data io))) as [Hk|Hk].
    + destruct (lookup_lt_is_Some_2 (data io) k Hk) as [w ->]. done.
    + by rewrite lookup_ge_None_2.
  - by destruct k.
Qed.

Lemma default_backward_word (fx : FXInternal bvec_t) i k :
  rd (inputNoCheck (FXInternal_spEvaluate false fx) i) k =
  if k <? length (inputNoCheck fx i)
  then N.lor (rd (inputNoCheck fx i) k) (all_depend_of (output_ fx)) else 0%N.
Proof.
  unfold FXInternal_spEvaluate, inputNoCheck, set_data, bvec_t in *. cbn [input_].
  rewrite list_lookup_fmap.
  destruct (input_ fx !! i) as [io|];
    cbn [fmap option_fmap option_map default].
  - unfold rd, set_data, id. cbn [data]. rewrite list_lookup_fmap.
    destruct (Nat.ltb_spec k (length (data io))) as [Hk|Hk].
    + destruct (lookup_lt_is_Some_2 (data io) k Hk) as [w ->]. done.
    + by rewrite lookup_ge_None_2.
  - by destruct k.
Qed.

End AllDepend.

Section SparsityInvariant.
Context {T : Type}.
Variable P : bvec_t -> Prop.
Hypothesis P_zero : P 0%N.
Hypothesis P_lor : forall x y, P x -> P y -> P (N.lor x y).
Local Set Default Proof Using "All".
Implicit Types (alg pre : list (AlgEl T)) (it : AlgEl T).
Implicit Types (iw : list bvec_t) (bfx : FXInternal bvec_t).

Lemma P_wr iw i x s : (s <> i -> P (rd iw s)) -> P x -> P (rd (wr iw i x) s).
Proof.
  intros Hs Hx. rewrite rd_wr_total.
  destruct (Nat.eqb_spec s i) as [->|Hne]; cbn [andb].
  - destruct (Nat.ltb_spec i (length iw)); [done|]. by rewrite rd_ge.
  - by apply Hs.
Qed.

(** A property of words that 0 has and that [|] keeps, and that the words
    of the inputs have, holds for the words left in the outputs. *)
Lemma sp_fwd_fold_inv alg : forall pre iw bfx,
  valid_from sp_reads pre alg = true ->
  (forall i k, P (rd (inputNoCheck bfx i) k)) ->
  (forall s, produced pre s = true -> P (rd iw s)) ->
  (forall loc, loc ∈ output_locs pre -> P (rd (outputNoCheck bfx loc.1) loc.2)) ->
  forall loc, loc ∈ output_locs (pre ++ alg) ->
    P (rd (outputNoCheck (fold_left sp_fwd_step alg (iw, bfx)).2 loc.1) loc.2).
Proof.
  induction alg as [|it alg IH]; intros pre iw bfx Hv Hi Hw Ho.
  { rewrite app_nil_r. exact Ho. }
  cbn [valid_from] in Hv. apply andb_true_iff in Hv as [Hr Hv].
  cbn [fold_left]. replace (pre ++ it :: alg) with ((pre ++ [it]) ++ alg)
    by (by rewrite <- app_assoc).
  assert (Hwr : forall x, P x -> op it <> OP_OUTPUT ->
            forall s, produced (pre ++ [it]) s = true -> P (rd (wr iw (res it) x) s)).
  { intros x Hx Hno s. rewrite produced_snoc.
    apply Operation_eqb_neq in Hno. rewrite Hno. cbn [negb andb]. intros Hs.
    apply P_wr; [|done]. intros Hne. apply Hw.
    apply orb_true_iff in Hs as [?|E]; [done|]. apply Nat.eqb_eq in E. congruence. }
  assert (Hkeep : op it <> OP_OUTPUT ->
            forall loc, loc ∈ output_locs (pre ++ [it]) ->
              P (rd (outputNoCheck bfx loc.1) loc.2)).
  { intros Hno loc. rewrite output_locs_snoc.
    apply Operation_eqb_neq in Hno. rewrite Hno, app_nil_r. apply Ho. }
  destruct (is_builtin_cases (op it)) as [Hb|[Eo|[Eo|[Eo|Eo]]]].
  - rewrite !sp_fwd_step_builtin by done.
    assert (forallb (produced pre) [arg_i0 it; arg_i1 it] = true) as Hr'
      by (unfold sp_reads in Hr; by destruct (op it)).
    cbn [forallb] in Hr'. apply andb_true_iff in Hr' as [H0 Hr'].
    apply andb_true_iff in Hr' as [H1 _].
    assert (op it <> OP_OUTPUT) as Hno by (intros E; by rewrite E in Hb).
    apply IH; [done|done| |by apply Hkeep].
    apply Hwr; [|done]. apply P_lor; by apply Hw.
  - unfold sp_fwd_step. rewrite Eo.
    apply IH; [done|done| |apply Hkeep; by rewrite Eo].
    apply Hwr; [done|by rewrite Eo].
  - unfold sp_fwd_step. rewrite Eo.
    apply IH; [done|done| |apply Hkeep; by rewrite Eo].
    apply Hwr; [done|by rewrite Eo].
  - unfold sp_fwd_step. rewrite Eo.
    apply IH; [done|done| |apply Hkeep; by rewrite Eo].
    apply Hwr; [apply Hi|by rewrite Eo].
  - unfold sp_fwd_step. rewrite Eo.
    unfold sp_reads in Hr. rewrite Eo in Hr. cbn [forallb] in Hr.
    apply andb_true_iff in Hr as [H0 _].
    apply IH; [done|done| |].
    + intros s. rewrite produced_snoc, Eo. cbn [Operation_eqb negb andb].
      rewrite orb_false_r. apply Hw.
    + intros loc. rewrite output_locs_snoc, Eo. cbn [Operation_eqb].
      rewrite outputNoCheck_upd. intros Hloc.
      destruct loc as [o k]. cbn [fst snd].
      destruct (Nat.eqb_spec o (res it)) as [->|Hne].
      * apply P_wr; [|by apply Hw]. intros Hk.
        apply elem_of_app in Hloc as [Hloc|Hloc]; [by apply (Ho (res it, k))|].
        apply list_elem_of_singleton in Hloc. congruence.
      * apply elem_of_app in Hloc as [Hloc|Hloc]; [by apply (Ho (o, k))|].
        apply list_elem_of_singleton in Hloc. congruence.
Qed.

(** The same backward: from the words of the outputs to the words left in
    the inputs. *)
Lemma sp_adj_fold_inv (l : list (AlgEl T)) : forall locs iw bfx,
  (forall o k, P (rd (outputNoCheck bfx o) k)) ->
  (forall s, P (rd iw s)) ->
  (forall loc, loc ∈ locs -> P (rd (inputNoCheck bfx loc.1) loc.2)) ->
  forall loc, loc ∈ locs ++ input_locs l ->
    P (rd (inputNoCheck (fold_left sp_adj_step l (iw, bfx)).2 loc.1) loc.2).
Proof.
  induction l as [|it l IH]; intros locs iw bfx Ho Hw Hi.
  { unfold input_locs. cbn [omap]. rewrite app_nil_r. exact Hi. }
  cbn [fold_left].
  replace (locs ++ input_locs (it :: l)) with
    ((locs ++ (if Operation_eqb (op it) OP_INPUT
               then [(arg_i0 it, arg_i1 it)] else [])) ++ input_locs l)
    by (rewrite input_locs_cons, <- app_assoc;
        by destruct (Operation_eqb (op it) OP_INPUT)).
  destruct (is_builtin_cases (op it)) as [Hb|[Eo|[Eo|[Eo|Eo]]]].
  - rewrite sp_adj_step_builtin by done. cbv zeta.
    assert (Operation_eqb (op it) OP_INPUT = false) as ->
      by (apply Operation_eqb_neq; intros E; by rewrite E in Hb).
    rewrite app_nil_r. apply IH; [done| |done].
    intros s. apply P_wr.
    + intros _. apply P_wr; [|]. 
      * intros _. apply P_wr; [done|done].
      * apply P_lor; [|done]. apply P_wr; [done|done].
    + apply P_lor; [|done]. apply P_wr.
      * intros _. apply P_wr; [done|done].
      * apply P_lor; [|done]. apply P_wr; [done|done].
  - unfold sp_adj_step. rewrite Eo. cbn [Operation_eqb]. rewrite app_nil_r.
    apply IH; [done| |done]. intros s. by apply P_wr.
  - unfold sp_adj_step. rewrite Eo. cbn [Operation_eqb]. rewrite app_nil_r.
    apply IH; [done| |done]. intros s. by apply P_wr.
  - unfold sp_adj_step. rewrite Eo. cbn [Operation_eqb].
    apply IH; [done| |].
    + intros s. by apply P_wr.
    + intros loc Hloc. rewrite inputNoCheck_upd.
      destruct loc as [i k]. cbn [fst snd].
      destruct (Nat.eqb_spec i (arg_i0 it)) as [->|Hne].
      * apply P_wr; [|done]. intros Hk.
        apply elem_of_app in Hloc as [Hloc|Hloc]; [by apply (Hi (arg_i0 it, k))|].
        apply list_elem_of_singleton in Hloc. congruence.
      * apply elem_of_app in Hloc as [Hloc|Hloc]; [by apply (Hi (i, k))|].
        apply list_elem_of_singleton in Hloc. congruence.
  - unfold sp_adj_step. rewrite Eo. cbn [Operation_eqb]. rewrite app_nil_r.
    apply IH; [done| |done]. intros s. apply P_wr; [done|].
    apply P_lor; [done|]. apply Ho.
Qed.

End SparsityInvariant.

Section AgainstDefault.
Context {T : Type} `{Scalar T}.

(** X13. [SXFunctionInternal::spEvaluate] refines the default of
    [FXInternal], "everything is assumed to depend on everything", for
    every function that [init] has built.  Forward, every bit that it
    leaves in the word of an output nonzero is a bit of the word that the
    default leaves there, which is the [|] of the words of all input
    nonzeros.  Backward, after [spInit], every bit that it leaves in the
    word of an input nonzero is a bit of the [|] of the words of all output
    nonzeros, and so of the word that the default leaves there. *)
Theorem spEvaluate_refines_default fuel live jit (h : list (SXNode T)) inputv outputv
    temp0 (this : @SXFunctionInternal T) iw (bfx : FXInternal bvec_t) :
  arena_ok h = true ->
  (forall p, temp0 p = 0) ->
  forallb (isSymbolic h) (concat inputv) = true ->
  NoDup (concat inputv) ->
  init fuel live jit h inputv outputv temp0 = Ret this ->
  map (fun io => length (data io)) (input_ bfx) = map length inputv ->
  map (fun io => length (data io)) (output_ bfx) = map length outputv ->
  (forall o k,
     N.lor (rd (outputNoCheck (spEvaluate (algorithm_ this) true
                                 (spInit true iw, bfx)).2 o) k)
           (rd (outputNoCheck (FXInternal_spEvaluate true bfx) o) k) =
     rd (outputNoCheck (FXInternal_spEvaluate true bfx) o) k) /\
  (forall i k,
     N.lor (rd (inputNoCheck (spEvaluate (algorithm_ this) false
                                (spInit false iw, bfx)).2 i) k)
           (all_depend_of (output_ bfx)) = all_depend_of (output_ bfx) /\
     N.lor (rd (inputNoCheck (spEvaluate (algorithm_ this) false
                                (spInit false iw, bfx)).2 i) k)
           (rd (inputNoCheck (FXInternal_spEvaluate false bfx) i) k) =
     rd (inputNoCheck (FXInternal_spEvaluate false bfx) i) k).
Proof.
  intros Hok H0 Hsym Hnd Hi Hisz Hosz.
  pose proof (init_sp_valid _ _ _ _ _ _ _ _ Hok H0 Hsym Hi) as Hv.
  destruct (init_anatomy _ _ _ _ _ _ _ _ Hok H0 Hsym Hnd Hi)
    as (nodes & alg & temp3 & Halg & _ & Hlen & Hops & Hout & Hmarks & Hin).
  assert (Hol : output_locs (algorithm_ this) = locations (map length outputv)).
  { rewrite Halg, (marked_output_locs h inputv nodes alg temp3); done. }
  assert (Hil : input_locs (algorithm_ this) ≡ₚ locations (map length inputv)).
  { rewrite Halg. by apply (marked_input_locs h inputv nodes alg temp3). }
  split.
  - intros o k. rewrite default_forward_word. cbn [spInit spEvaluate].
    destruct (sp_fwd_fold_shape (algorithm_ this) iw bfx) as (_ & _ & Hsh).
    cbv zeta in Hsh.
    destruct (Nat.ltb_spec k (length (outputNoCheck bfx o))) as [Hk|Hk].
    + apply (sp_fwd_fold_inv
               (fun w => N.lor w (all_depend_of (input_ bfx)) = all_depend_of (input_ bfx))
               ltac:(done)
               (lor_absorb_lor _)
               (algorithm_ this) [] iw bfx Hv
               ltac:(intros; apply rd_inputNoCheck_all_depend)
               ltac:(done)
               ltac:(intros loc Hloc; by apply elem_of_nil in Hloc) (o, k)).
      cbn [app]. rewrite Hol, <- Hosz. by apply locations_outputNoCheck.
    + rewrite rd_ge; [done|]. by rewrite Hsh.
  - intros i k. cbn [spInit spEvaluate].
    destruct (sp_adj_fold_shape (rev (algorithm_ this)) (replicate (length iw) 0%N) bfx)
      as (_ & _ & Hsh). cbv zeta in Hsh.
    assert (N.lor (rd (inputNoCheck
                         (fold_left sp_adj_step (rev (algorithm_ this))
                            (replicate (length iw) 0%N, bfx)).2 i) k)
                  (all_depend_of (output_ bfx)) = all_depend_of (output_ bfx)) as Hle.
    { destruct (Nat.ltb_spec k (length (inputNoCheck bfx i))) as [Hk|Hk].
      - apply (sp_adj_fold_inv
                 (fun w => N.lor w (all_depend_of (output_ bfx)) =
                           all_depend_of (output_ bfx))
                 ltac:(done)
                 (lor_absorb_lor _)
                 (rev (algorithm_ this)) [] (replicate (length iw) 0%N) bfx
                 ltac:(intros; apply rd_outputNoCheck_all_depend)
                 ltac:(intros s; unfold rd; destruct (replicate _ _ !! s) eqn:E;
                       [apply lookup_replicate in E as [-> _]|]; done)
                 ltac:(intros loc Hloc; by apply elem_of_nil in Hloc) (i, k)).
        cbn [app]. apply input_locs_rev. rewrite Hil, <- Hisz.
        by apply locations_inputNoCheck.
      - rewrite rd_ge; [done|]. by rewrite Hsh. }
    split; [done|].
    rewrite default_backward_word.
    destruct (Nat.ltb_spec k (length (inputNoCheck bfx i))) as [Hk|Hk].
    + apply lor_absorb. intros b Hb. rewrite N.lor_spec.
      apply (proj1 (lor_absorb _ _) Hle) in Hb. rewrite Hb. apply orb_true_r.
    + rewrite rd_ge; [done|]. by rewrite Hsh.
Qed.

End AgainstDefault.


(** ** Live variables: a place is reused only when its value is dead *)

Section LiveVariables.
Context {T : Type}.
Implicit Types (pre alg : list (AlgEl T)) (ae : AlgEl T) (st : alloc_state).

Lemma uses_cons ae alg j :
  uses (ae :: alg) j = count_occ Nat.eq_dec (operand_slots ae) j + uses alg j.
Proof. unfold uses. cbn [map concat]. apply count_occ_app. Qed.

Lemma uses_nil j : uses (T:=T) [] j = 0.
Proof. done. Qed.

Lemma uses_drop_le alg k j : uses (drop k alg) j <= uses alg j.
Proof.
  revert k. induction alg as [|ae alg IH]; intros k.
  - by rewrite drop_nil.
  - destruct k as [|k]; [done|]. cbn [drop]. rewrite uses_cons.
    specialize (IH k). lia.
Qed.

Lemma uses_operand alg k ae c :
  alg !! k = Some ae -> c < ndeps (op ae) -> 0 < uses (drop k alg) (arg_i ae c).
Proof.
  intros Hk Hc. rewrite (drop_S _ _ _ Hk), uses_cons.
  enough (0 < count_occ Nat.eq_dec (operand_slots ae) (arg_i ae c)) by lia.
  apply count_occ_In. unfold operand_slots. apply in_map, in_seq. lia.
Qed.

Lemma producer_lt pre j : producer pre j -> j < length pre.
Proof. intros (ae & Hj & _). by apply lookup_lt_Some in Hj. Qed.

Lemma producer_snoc pre ae j :
  producer (pre ++ [ae]) j <->
  producer pre j \/ (j = length pre /\ op ae <> OP_OUTPUT).
Proof.
  unfold producer. split.
  - intros (ae' & Hj & Ho).
    apply lookup_app_Some in Hj as [Hj|[Hl Hj]]; [left; by exists ae'|].
    apply list_lookup_singleton_Some in Hj as [Hj <-].
    right. split; [lia|done].
  - intros [(ae' & Hj & Ho)|[-> Ho]].
    + exists ae'. split; [|done]. by apply lookup_app_l_Some.
    + exists ae. split; [|done]. by apply list_lookup_middle.
Qed.

Lemma alloc_inv_ext pre (count count' : nat -> nat) st :
  (forall j, count j = count' j) -> alloc_inv pre count st -> alloc_inv pre count' st.
Proof.
  intros E (R & U1 & B1 & B2 & U2 & P).
  split; [|split; [|split; [|split; [|split]]]]; try done.
  - intros j Hj. rewrite <- E. by apply R.
  - intros j Hp Hc. rewrite <- E in Hc. by apply U2.
  - intros j1 j2 H1 H2 Hne Hc1 Hc2. rewrite <- E in Hc1, Hc2. by apply P.
Qed.

(** [--refcount[ch_ind]], and the place is pushed when the count reaches 0. *)
Lemma consume_inv pre count st ch :
  alloc_inv pre count st -> producer pre ch -> ch < length (a_refcount st) ->
  0 < count ch ->
  alloc_inv pre (fun j => if Nat.eqb j ch then count j - 1 else count j)
            (consume st ch).
Proof.
  intros (R & U1 & B1 & B2 & U2 & P) Hch Hlt Hc.
  unfold consume. cbv zeta. rewrite (R ch Hlt). cbn [default]. unfold id.
  assert (Hrem : (Z.of_nat (count ch) - 1 =? 0)%Z = Nat.eqb (count ch) 1).
  { destruct (Z.eqb_spec (Z.of_nat (count ch) - 1) 0);
      destruct (Nat.eqb_spec (count ch) 1); lia. }
  rewrite Hrem.
  split; [|split; [|split; [|split; [|split]]]];
    cbn [a_refcount a_unused a_worksize].
  - intros j. rewrite length_insert. intros Hj.
    destruct (Nat.eqb_spec j ch) as [->|Hne].
    + rewrite list_lookup_insert_eq by done. f_equal. lia.
    + rewrite list_lookup_insert_ne by done. by apply R.
  - destruct (Nat.eqb_spec (count ch) 1) as [E|E]; [|done].
    apply NoDup_cons. split; [|done]. fold (placeof st ch). by apply U2.
  - destruct (Nat.eqb (count ch) 1); [|done].
    apply Forall_cons. split; [|done]. by apply B2.
  - intros j Hj. by apply B2.
  - intros j Hj. destruct (Nat.eqb_spec j ch) as [->|Hne]; intros Hcj.
    + destruct (Nat.eqb_spec (count ch) 1) as [E|E]; [lia|].
      apply U2; [done|lia].
    + destruct (Nat.eqb (count ch) 1).
      * apply not_elem_of_cons. split; [|by apply U2].
        fold (placeof st ch). by apply P.
      * by apply U2.
  - intros j1 j2 H1 H2 Hne Hc1 Hc2. apply P; try done.
    + destruct (Nat.eqb j1 ch); lia.
    + destruct (Nat.eqb j2 ch); lia.
Qed.

Lemma consume_frame st ch :
  a_place (consume st ch) = a_place st /\
  a_worksize (consume st ch) = a_worksize st /\
  length (a_refcount (consume st ch)) = length (a_refcount st).
Proof. unfold consume. cbn. by rewrite length_insert. Qed.

Lemma fold_consume_inv pre (l : list nat) : forall count st,
  alloc_inv pre count st ->
  (forall ch, ch ∈ l -> producer pre ch /\ ch < length (a_refcount st)) ->
  (forall j, count_occ Nat.eq_dec l j <= count j) ->
  alloc_inv pre (fun j => count j - count_occ Nat.eq_dec l j) (fold_left consume l st).
Proof.
  induction l as [|ch l IH]; intros count st Hinv Hl Hc.
  { cbn [fold_left]. apply (alloc_inv_ext pre count); [|done].
    intros j. cbn [count_occ]. lia. }
  cbn [fold_left].
  destruct (Hl ch) as [Hp Hlt]; [left|].
  pose proof (Hc ch) as Hcc. cbn [count_occ] in Hcc.
  destruct (Nat.eq_dec ch ch) as [_|]; [|done].
  pose proof (consume_inv pre count st ch Hinv Hp Hlt ltac:(lia)) as Hinv'.
  destruct (consume_frame st ch) as (Hpl & Hw & Hlen).
  apply (alloc_inv_ext pre
           (fun j => (if Nat.eqb j ch then count j - 1 else count j) -
                     count_occ Nat.eq_dec l j)).
  - intros j. cbn [count_occ].
    destruct (Nat.eq_dec ch j) as [->|Hne].
    + rewrite Nat.eqb_refl. lia.
    + destruct (Nat.eqb_spec j ch); [congruence|lia].
  - apply IH; [done| |].
    + intros ch' Hch'. rewrite Hlen. apply Hl. by right.
    + intros j. specialize (Hc j). cbn [count_occ] in Hc.
      destruct (Nat.eq_dec ch j) as [->|Hne].
      * rewrite Nat.eqb_refl. lia.
      * destruct (Nat.eqb_spec j ch); [congruence|lia].
Qed.

Lemma count_occ_rev (l : list nat) j :
  count_occ Nat.eq_dec (rev l) j = count_occ Nat.eq_dec l j.
Proof.
  induction l as [|x l IH]; [done|]. cbn [rev]. rewrite count_occ_app, IH.
  cbn [count_occ]. destruct (Nat.eq_dec x j); lia.
Qed.

(** The first half of a turn: the operands are consumed. *)
Lemma consume_deps_inv pre ae alg st :
  alloc_inv pre (uses (ae :: alg)) st ->
  (forall c, c < ndeps (op ae) ->
     producer pre (arg_i ae c) /\ arg_i ae c < length (a_refcount st)) ->
  alloc_inv pre (uses alg) (consume_deps ae st) /\
  a_place (consume_deps ae st) = a_place st /\
  a_worksize (consume_deps ae st) = a_worksize st /\
  length (a_refcount (consume_deps ae st)) = length (a_refcount st).
Proof.
  intros Hinv Hops. unfold consume_deps.
  set (l := map (arg_i ae) (rev (seq 0 (ndeps (op ae))))).
  assert (Hl : forall j, count_occ Nat.eq_dec l j =
                         count_occ Nat.eq_dec (operand_slots ae) j).
  { intros j. unfold l, operand_slots. rewrite map_rev. apply count_occ_rev. }
  split.
  - apply (alloc_inv_ext pre
             (fun j => uses (ae :: alg) j - count_occ Nat.eq_dec l j)).
    + intros j. rewrite uses_cons, Hl. lia.
    + apply fold_consume_inv; [done| |].
      * intros ch Hch. unfold l in Hch. apply list_elem_of_In, in_map_iff in Hch
          as (c & <- & Hc). apply in_rev, in_seq in Hc. apply Hops. lia.
      * intros j. rewrite uses_cons, Hl. lia.
  - destruct (fold_consume_frame l st) as [Hp Hw]. split; [done|]. split; [done|].
    clear. revert st. induction l as [|ch l IH]; intros st; [done|].
    cbn [fold_left]. rewrite IH. by destruct (consume_frame st ch) as (_ & _ & ->).
Qed.

(** The second half: "Find a place to store the variable". *)
Lemma store_inv live pre count ae st :
  alloc_inv pre count st -> op ae <> OP_OUTPUT -> res ae = length pre ->
  length pre < length (a_place st) ->
  alloc_inv (pre ++ [ae]) count (store live ae st).1 /\
  a_place (store live ae st).1 =
    <[length pre := res (store live ae st).2]> (a_place st) /\
  a_worksize st <= a_worksize (store live ae st).1 /\
  res (store live ae st).2 < a_worksize (store live ae st).1 /\
  length (a_refcount (store live ae st).1) = length (a_refcount st) /\
  (forall j, producer pre j -> 0 < count j ->
     placeof st j <> res (store live ae st).2).
Proof.
  intros (R & U1 & B1 & B2 & U2 & P) Ho Hres Hlen.
  unfold store. apply Operation_eqb_neq in Ho as Eo. rewrite Eo.
  assert (Hother : forall s j, producer pre j ->
            default 0 (<[length pre := s]> (a_place st) !! j) = placeof st j).
  { intros s j Hj. apply producer_lt in Hj.
    rewrite list_lookup_insert_ne by lia. done. }
  assert (Hnew : forall s,
            default 0 (<[length pre := s]> (a_place st) !! length pre) = s).
  { intros s. by rewrite list_lookup_insert_eq. }
  assert (Hgen : forall s rest ws,
            NoDup rest -> Forall (fun x => x < ws) rest -> s < ws ->
            a_worksize st <= ws -> s ∉ rest ->
            (forall x, x ∈ rest -> x ∈ a_unused st) ->
            (forall j, producer pre j -> 0 < count j -> placeof st j <> s) ->
            alloc_inv (pre ++ [ae]) count
              (mkAlloc (a_refcount st) (<[length pre := s]> (a_place st)) rest ws)).
  { intros s rest ws Hnd Hb Hs Hws Hsr Hsub Hfresh.
    split; [|split; [|split; [|split; [|split]]]];
      cbn [a_refcount a_unused a_worksize a_place]; unfold placeof;
      cbn [a_place]; try done.
    - intros j [Hj|[-> _]]%producer_snoc.
      + rewrite Hother by done. specialize (B2 j Hj). lia.
      + by rewrite Hnew.
    - intros j [Hj|[-> _]]%producer_snoc Hc.
      + rewrite Hother by done. intros Hin. by apply (U2 j Hj Hc), Hsub.
      + by rewrite Hnew.
    - intros j1 j2 [H1|[-> _]]%producer_snoc [H2|[-> _]]%producer_snoc Hne Hc1 Hc2.
      + rewrite !Hother by done. by apply P.
      + rewrite Hnew, (Hother _ j1) by done. by apply Hfresh.
      + rewrite Hnew, (Hother _ j2) by done. intros E. by apply (Hfresh j2 H2 Hc2).
      + done. }
  assert (Hfresh : alloc_inv (pre ++ [ae]) count
            (mkAlloc (a_refcount st) (<[length pre := a_worksize st]> (a_place st))
                     (a_unused st) (S (a_worksize st))) /\
          forall j, producer pre j -> 0 < count j -> placeof st j <> a_worksize st).
  { assert (forall j, producer pre j -> placeof st j <> a_worksize st) as Hne.
    { intros j Hj. specialize (B2 j Hj). lia. }
    split; [|by auto]. apply Hgen; try done.
    - eapply Forall_impl; [exact B1|]. intros x Hx. simpl in Hx. lia.
    - lia.
    - lia.
    - intros Hin. rewrite Forall_forall in B1. specialize (B1 _ Hin). lia.
    - by auto. }
  rewrite Hres.
  destruct live; [destruct (a_unused st) as [|top rest] eqn:Eu|];
    cbn [fst snd res set_res a_place a_worksize a_refcount].
  - destruct Hfresh as [Hi Hf].
    split; [exact Hi|]. split; [done|]. split; [lia|]. split; [lia|].
    split; [done|exact Hf].
  - apply NoDup_cons in U1 as [Htop Hnd]. apply Forall_cons in B1 as [Htb Hrb].
    assert (forall j, producer pre j -> 0 < count j -> placeof st j <> top) as Hf.
    { intros j Hj Hc E. apply (U2 j Hj Hc). rewrite E. left. }
    split; [|split; [done|split; [lia|split; [done|split; [done|exact Hf]]]]].
    apply Hgen; try done.
    intros x Hx. by right.
  - destruct Hfresh as [Hi Hf].
    split; [exact Hi|]. split; [done|]. split; [lia|]. split; [lia|].
    split; [done|exact Hf].
Qed.

Lemma alloc_inv_output pre count ae st :
  op ae = OP_OUTPUT -> alloc_inv pre count st -> alloc_inv (pre ++ [ae]) count st.
Proof.
  intros Ho (R & U1 & B1 & B2 & U2 & P).
  assert (forall j, producer (pre ++ [ae]) j -> producer pre j) as Hp.
  { intros j [Hj|[_ Hne]]%producer_snoc; done. }
  split; [|split; [|split; [|split; [|split]]]]; try done.
  - intros j Hj. by apply B2, Hp.
  - intros j Hj. by apply U2, Hp.
  - intros j1 j2 H1 H2. apply P; by apply Hp.
Qed.

(** One turn of the loop. *)
Lemma alloc_step_inv live pre ae alg st :
  virtual_valid (pre ++ ae :: alg) ->
  single_assignment (pre ++ ae :: alg) ->
  length (pre ++ ae :: alg) <= length (a_place st) ->
  length (a_place st) <= length (a_refcount st) ->
  alloc_inv pre (uses (ae :: alg)) st ->
  let st' := (alloc_step live st ae).1 in
  let ae' := (alloc_step live st ae).2 in
  alloc_inv (pre ++ [ae]) (uses alg) st' /\
  length (a_place st') = length (a_place st) /\
  length (a_refcount st') = length (a_refcount st) /\
  a_worksize st <= a_worksize st' /\
  (forall j, producer pre j -> placeof st' j = placeof st j) /\
  (op ae <> OP_OUTPUT ->
     placeof st' (length pre) = res ae' /\ res ae' < a_worksize st' /\
     forall j, producer pre j -> 0 < uses alg j -> placeof st j <> res ae').
Proof.
  intros Hv Hssa Hlen Hrc Hinv. cbv zeta.
  destruct (Hv (length pre) ae) as [_ Hdeps]; [by apply list_lookup_middle|].
  assert (Hops : forall c, c < ndeps (op ae) ->
            producer pre (arg_i ae c) /\ arg_i ae c < length (a_refcount st)).
  { intros c Hc. destruct (Hdeps c Hc) as (j & ae_j & Hj & Hlk & Hoj & _ & ->).
    rewrite lookup_app_l in Hlk by done. split; [by exists ae_j|].
    rewrite length_app in Hlen. cbn [length] in Hlen. lia. }
  destruct (consume_deps_inv pre ae alg st Hinv Hops) as (Hinv1 & Hpl1 & Hw1 & Hl1).
  unfold alloc_step.
  destruct (Operation_eqb (op ae) OP_OUTPUT) eqn:Eo.
  - apply Operation_eqb_eq in Eo.
    assert (store live ae (consume_deps ae st) = (consume_deps ae st, ae)) as ->
      by (unfold store; by rewrite Eo).
    cbn [fst snd]. split; [by apply alloc_inv_output|].
    rewrite Hpl1, Hl1, Hw1. split; [done|]. split; [done|]. split; [done|].
    split; [|done]. intros j _. unfold placeof. by rewrite Hpl1.
  - apply Operation_eqb_neq in Eo.
    assert (Hres : res ae = length pre).
    { apply Hssa; [by apply list_lookup_middle|done]. }
    assert (Hlt : length pre < length (a_place (consume_deps ae st))).
    { rewrite Hpl1. rewrite length_app in Hlen. cbn [length] in Hlen. lia. }
    destruct (store_inv live pre (uses alg) ae (consume_deps ae st) Hinv1 Eo Hres Hlt)
      as (Hinv2 & Hpl2 & Hw2 & Hb2 & Hl2 & Hfresh).
    destruct (store live ae (consume_deps ae st)) as [st2 ae2]. cbn [fst snd] in *.
    rewrite res_make_binary, res_locate_deps.
    split; [done|]. rewrite Hpl2, length_insert, Hpl1, Hl2, Hl1.
    split; [done|]. split; [done|]. split; [lia|]. split.
    + intros j Hj. apply producer_lt in Hj. unfold placeof.
      rewrite Hpl2, list_lookup_insert_ne by lia. by rewrite Hpl1.
    + intros _. split; [|split; [done|]].
      * unfold placeof. rewrite Hpl2, list_lookup_insert_eq; [done|].
        rewrite Hpl1. rewrite length_app in Hlen. cbn [length] in Hlen. lia.
      * intros j Hj Hc. specialize (Hfresh j Hj Hc). unfold placeof in *.
        by rewrite Hpl1 in Hfresh.
Qed.

Lemma alloc_step_worksize_le live st ae :
  a_worksize st <= a_worksize (alloc_step live st ae).1.
Proof.
  unfold alloc_step.
  pose proof (consume_deps_worksize ae st) as Hw.
  destruct (store live ae (consume_deps ae st)) as [st2 ae2] eqn:Es. cbn [fst].
  unfold store in Es. destruct (Operation_eqb (op ae) OP_OUTPUT).
  - injection Es as <- _. lia.
  - destruct live; [destruct (a_unused (consume_deps ae st))|];
      injection Es as <- _; cbn [a_worksize]; lia.
Qed.

Lemma allocate_worksize_le live alg : forall st,
  a_worksize st <= a_worksize (allocate live st alg).1.
Proof.
  induction alg as [|ae alg IH]; intros st; [done|].
  cbn [allocate]. pose proof (alloc_step_worksize_le live st ae) as Hw.
  destruct (alloc_step live st ae) as [st1 ae1]. specialize (IH st1).
  destruct (allocate live st1 alg) as [st2 alg']. cbn [fst] in *. lia.
Qed.

(** The loop: an instruction is never given the place of an earlier value
    that a later instruction still reads. *)
Lemma allocate_live_safe live alg : forall pre st,
  virtual_valid (pre ++ alg) ->
  single_assignment (pre ++ alg) ->
  length (pre ++ alg) <= length (a_place st) ->
  length (a_place st) <= length (a_refcount st) ->
  alloc_inv pre (uses alg) st ->
  forall k ae', (allocate live st alg).2 !! k = Some ae' -> op ae' <> OP_OUTPUT ->
    res ae' < a_worksize (allocate live st alg).1 /\
    (forall j, producer pre j -> 0 < uses (drop (S k) alg) j ->
       placeof st j <> res ae') /\
    (forall i ae_i, i < k -> (allocate live st alg).2 !! i = Some ae_i ->
       op ae_i <> OP_OUTPUT -> 0 < uses (drop (S k) alg) (length pre + i) ->
       res ae_i <> res ae').
Proof.
  induction alg as [|ae alg IH]; intros pre st Hv Hssa Hlen Hrc Hinv k ae' Hk Ho.
  { done. }
  cbn [allocate] in *.
  pose proof (alloc_step_inv live pre ae alg st Hv Hssa Hlen Hrc Hinv) as Hstep.
  pose proof (alloc_step_operands live st ae) as Hopnd.
  destruct (alloc_step live st ae) as [st1 ae1]. cbv zeta in Hstep. cbn [fst snd] in Hstep.
  destruct Hstep as (Hinv1 & Hl1 & Hr1 & Hw1 & Hsame & Hnew).
  destruct Hopnd as (Hop1 & _ & _).
  assert (Hv' : virtual_valid ((pre ++ [ae]) ++ alg)) by (by rewrite <- app_assoc).
  assert (Hssa' : single_assignment ((pre ++ [ae]) ++ alg)) by (by rewrite <- app_assoc).
  assert (Hlen' : length ((pre ++ [ae]) ++ alg) <= length (a_place st1))
    by (by rewrite <- app_assoc, Hl1).
  assert (Hrc' : length (a_place st1) <= length (a_refcount st1)) by lia.
  specialize (IH (pre ++ [ae]) st1 Hv' Hssa' Hlen' Hrc' Hinv1).
  destruct (allocate live st1 alg) as [st2 alg'] eqn:Ea. cbn [fst snd] in *.
  destruct k as [|k]; cbn [lookup list_lookup drop] in *.
  - injection Hk as <-. rewrite Hop1 in Ho.
    destruct (Hnew Ho) as (Hpl & Hb & Hfresh).
    split; [|split; [done|intros i ae_i Hi; lia]].
    pose proof (allocate_worksize_le live alg st1) as Hmono.
    rewrite Ea in Hmono. cbn [fst] in Hmono. lia.
  - destruct (IH k ae' Hk Ho) as (Hb & Hpre & Hmid).
    split; [done|]. split.
    + intros j Hj Hc. rewrite <- (Hsame j Hj). apply Hpre; [|done].
      apply producer_snoc. by left.
    + intros i ae_i Hi Hlk Hoi Hc. destruct i as [|i]; cbn [lookup list_lookup] in Hlk.
      * injection Hlk as <-. rewrite Hop1 in Hoi.
        destruct (Hnew Hoi) as (Hpl & _ & _). rewrite <- Hpl.
        apply Hpre; [|by rewrite Nat.add_0_r in Hc].
        apply producer_snoc. right. done.
      * apply (Hmid i ae_i); [lia|done|done|].
        rewrite length_app. cbn [length]. by replace (length pre + 1 + i)
          with (length pre + S i) by lia.
Qed.

End LiveVariables.


(** ** The reference counts and the instructions that [init] builds *)

Section BuildFacts.
Context {T : Type} `{Zero T}.
Implicit Types (h : list (SXNode T)) (alg : list (AlgEl T)) (ae : AlgEl T).

Lemma uses_snoc alg ae j :
  uses (alg ++ [ae]) j = uses alg j + count_occ Nat.eq_dec (operand_slots ae) j.
Proof.
  unfold uses. rewrite map_app, concat_app, count_occ_app. cbn [map concat].
  by rewrite app_nil_r.
Qed.

Lemma fold_succ_lookup (l : list nat) : forall (rc : list Z) j,
  fold_left (fun rc x => alter Z.succ x rc) l rc !! j =
  (fun n => (n + Z.of_nat (count_occ Nat.eq_dec l j))%Z) <$> rc !! j.
Proof.
  induction l as [|x l IH]; intros rc j; cbn [fold_left count_occ].
  - destruct (rc !! j); cbn; [f_equal; lia|done].
  - rewrite IH. destruct (Nat.eq_dec x j) as [->|Hne].
    + rewrite list_lookup_alter_eq. destruct (rc !! j); cbn; [f_equal; lia|done].
    + rewrite list_lookup_alter_ne by done. done.
Qed.

Lemma count_deps_lookup ae (rc : list Z) j :
  count_deps ae rc !! j =
  (fun n => (n + Z.of_nat (count_occ Nat.eq_dec (operand_slots ae) j))%Z) <$> rc !! j.
Proof.
  unfold count_deps, operand_slots.
  rewrite <- (fold_succ_lookup (map (arg_i ae) (seq 0 (ndeps (op ae)))) rc j).
  f_equal. generalize (seq 0 (ndeps (op ae))). intros l. revert rc.
  induction l as [|c l IH]; intros rc; [done|]. cbn [fold_left map]. apply IH.
Qed.

Lemma build_step_const h outputv temp st p :
  getOp h p = OP_CONST ->
  b_algorithm (build_step h outputv temp st (Some p)) =
  b_algorithm st ++ [mkAlgEl OP_CONST (temp p) (getValue h p) 0 0].
Proof. intros E. unfold build_step. by rewrite E. Qed.

(** The reference counts that the first loop leaves, the constants of the
    instructions, and the output nonzero that every output instruction
    stands for. *)
Lemma build_refcount_values h outputv temp nodes st0 :
  arena_ok h = true ->
  count_markers nodes <= length (concat outputv) ->
  b_algorithm st0 = [] ->
  out_pos outputv (b_curr_oind st0) (b_curr_nz st0) 0 ->
  let st := fold_left (build_step h outputv temp) nodes st0 in
  (forall j, b_refcount st !! j =
     (fun n => (n + Z.of_nat (uses (b_algorithm st) j))%Z) <$> b_refcount st0 !! j) /\
  forall k n, nodes !! k = Some n ->
    exists ae, b_algorithm st !! k = Some ae /\
      match n with
      | Some p => op ae = OP_CONST -> arg_d ae = getValue h p
      | None =>
          exists out q,
            outputv !! res ae = Some out /\ out !! arg_i1 ae = Some q /\
            concat outputv !! count_markers (take k nodes) = Some q
      end.
Proof.
  intros Hok Hcnt Hnil Hpos0.
  induction nodes as [|x nodes IH] using rev_ind.
  { cbn [fold_left]. rewrite Hnil. split; [|by intros k n].
    intros j. destruct (b_refcount st0 !! j); cbn; [f_equal; lia|done]. }
  rewrite count_markers_app in Hcnt.
  destruct IH as (Hrc & Hins); [lia|].
  destruct (build_prefix h outputv temp nodes st0 Hok ltac:(lia) Hnil Hpos0)
    as (Hlen & Hpos & _).
  rewrite fold_left_app. cbn [fold_left].
  set (st := fold_left _ nodes st0) in *. clearbody st.
  assert (Hold : forall ae' k n, nodes !! k = Some n ->
    exists ae, (b_algorithm st ++ [ae']) !! k = Some ae /\
      match n with
      | Some p => op ae = OP_CONST -> arg_d ae = getValue h p
      | None =>
          exists out q,
            outputv !! res ae = Some out /\ out !! arg_i1 ae = Some q /\
            concat outputv !! count_markers (take k (nodes ++ [x])) = Some q
      end).
  { intros ae' k n Hk. destruct (Hins k n Hk) as (ae & Hae & Hspec).
    exists ae. split; [by apply lookup_app_l_Some|].
    apply lookup_lt_Some in Hk as Hlt.
    destruct n; [done|]. by rewrite take_app_le by lia. }
  assert (Hlast : forall k n, (nodes ++ [x]) !! k = Some n ->
            k < length nodes /\ nodes !! k = Some n \/ k = length nodes /\ n = x).
  { intros k n Hk. destruct (decide (k < length nodes)) as [Hlt|Hge].
    - left. split; [done|]. by rewrite lookup_app_l in Hk.
    - right. assert (k = length nodes) as ->.
      { apply lookup_lt_Some in Hk. rewrite length_app in Hk. cbn in Hk. lia. }
      rewrite list_lookup_middle in Hk by done. split; [done|congruence]. }
  destruct x as [p|].
  - destruct (build_step_node h outputv temp st p) as
      (ae & Ealg & _ & _ & _ & Erc & Hop & _ & _).
    { by apply arena_ok_getOp. }
    rewrite Ealg, Erc. split.
    + intros j. rewrite count_deps_lookup, Hrc, uses_snoc.
      destruct (b_refcount st0 !! j); cbn; [f_equal; lia|done].
    + intros k n Hk. destruct (Hlast k n Hk) as [[Hlt Hk']|[-> ->]].
      * by apply Hold.
      * exists ae. split; [rewrite <- Hlen; by apply list_lookup_middle|].
        intros Eo. rewrite Hop in Eo.
        pose proof (build_step_const h outputv temp st p Eo) as Ec.
        rewrite Ealg in Ec. apply app_inj_tail in Ec as [_ ->]. done.
  - destruct (build_step_marker h outputv temp st) as (Ealg & _ & _ & Erc).
    cbv zeta in Ealg, Erc. rewrite Ealg, Erc. split.
    + intros j. rewrite count_deps_lookup, Hrc, uses_snoc.
      destruct (b_refcount st0 !! j); cbn; [f_equal; lia|done].
    + intros k n Hk. destruct (Hlast k n Hk) as [[Hlt Hk']|[-> ->]].
      * by apply Hold.
      * eexists. split; [rewrite <- Hlen; by apply list_lookup_middle|].
        cbn [res arg_i1]. rewrite take_app_length.
        change (count_markers [None]) with 1 in Hcnt.
        destruct (out_pos_step outputv _ _ _ Hpos ltac:(lia)) as [Hval _].
        cbv zeta in Hval.
        destruct (lookup_lt_is_Some_2 (concat outputv) (count_markers nodes)
                    ltac:(lia)) as [q Hq].
        rewrite Hq in Hval.
        destruct (outputv !! b_curr_oind st) as [out|] eqn:Eout; [|done].
        exists out, q. done.
Qed.

End BuildFacts.

Section AllocateSpec.
Context {T : Type}.
Implicit Types (pre alg : list (AlgEl T)) (ae : AlgEl T) (st : alloc_state).

Lemma arg_d_set_arg_i c v ae : arg_d (set_arg_i c v ae) = arg_d ae.
Proof. by destruct c. Qed.

Lemma arg_d_alloc_step live st ae : arg_d (alloc_step live st ae).2 = arg_d ae.
Proof.
  unfold alloc_step.
  assert (Hs : arg_d (store live ae (consume_deps ae st)).2 = arg_d ae).
  { unfold store. destruct (Operation_eqb _ _); [done|].
    destruct live, (a_unused _); done. }
  destruct (store live ae (consume_deps ae st)) as [st2 ae2]. cbn [snd] in *.
  rewrite <- Hs. unfold make_binary.
  assert (Hl : forall place (a : AlgEl T), arg_d (locate_deps place a) = arg_d a).
  { intros place a. unfold locate_deps. generalize (seq 0 (ndeps (op a))).
    intros l. revert a. induction l as [|c l IH]; intros a; [done|].
    cbn [fold_left]. by rewrite IH, arg_d_set_arg_i. }
  destruct (_ && _); [rewrite arg_d_set_arg_i|]; apply Hl.
Qed.

(** What the second loop of [init] makes of every instruction: the place
    [place[k]] of its result, which no earlier value that is still to be
    read has, and the places of its operands. *)
Lemma allocate_spec live alg : forall pre st,
  virtual_valid (pre ++ alg) ->
  single_assignment (pre ++ alg) ->
  length (pre ++ alg) <= length (a_place st) ->
  length (a_place st) <= length (a_refcount st) ->
  alloc_inv pre (uses alg) st ->
  (forall j, producer pre j ->
     placeof (allocate live st alg).1 j = placeof st j) /\
  forall k ae, alg !! k = Some ae ->
    exists ae', (allocate live st alg).2 !! k = Some ae' /\
      op ae' = op ae /\ arg_d ae' = arg_d ae /\
      (op ae = OP_OUTPUT -> res ae' = res ae /\ arg_i1 ae' = arg_i1 ae) /\
      (op ae <> OP_OUTPUT ->
         res ae' = placeof (allocate live st alg).1 (length pre + k) /\
         res ae' < a_worksize (allocate live st alg).1 /\
         forall j, producer (pre ++ take k alg) j ->
                   0 < uses (drop (S k) alg) j ->
                   placeof (allocate live st alg).1 j <> res ae') /\
      (forall c, c < ndeps (op ae) ->
         arg_i ae' c = placeof (allocate live st alg).1 (arg_i ae c)).
Proof.
  induction alg as [|ae0 alg IH]; intros pre st Hv Hssa Hlen Hrc Hinv.
  { split; [done|]. by intros k ae. }
  cbn [allocate].
  pose proof (alloc_step_inv live pre ae0 alg st Hv Hssa Hlen Hrc Hinv) as Hstep.
  pose proof (alloc_step_operands live st ae0) as Hopnd.
  pose proof (arg_d_alloc_step live st ae0) as Hd.
  pose proof (alloc_step_output live st ae0) as Hout.
  destruct (alloc_step live st ae0) as [st1 ae1]. cbv zeta in Hstep.
  cbn [fst snd] in Hstep, Hd, Hout.
  destruct Hstep as (Hinv1 & Hl1 & Hr1 & Hw1 & Hsame & Hnew).
  destruct Hopnd as (Hop1 & Harg1 & _).
  assert (Hv' : virtual_valid ((pre ++ [ae0]) ++ alg)) by (by rewrite <- app_assoc).
  assert (Hssa' : single_assignment ((pre ++ [ae0]) ++ alg)) by (by rewrite <- app_assoc).
  assert (Hlen' : length ((pre ++ [ae0]) ++ alg) <= length (a_place st1))
    by (by rewrite <- app_assoc, Hl1).
  assert (Hrc' : length (a_place st1) <= length (a_refcount st1)) by lia.
  destruct (IH (pre ++ [ae0]) st1 Hv' Hssa' Hlen' Hrc' Hinv1) as (Hpl & Hk).
  pose proof (allocate_worksize_le live alg st1) as Hmono.
  destruct (allocate live st1 alg) as [st2 alg']. cbn [fst snd] in *.
  assert (Hpl0 : forall j, producer pre j -> placeof st2 j = placeof st j).
  { intros j Hj. rewrite Hpl by (apply producer_snoc; by left). by apply Hsame. }
  split; [done|].
  intros k ae Hlk. destruct k as [|k]; cbn [lookup list_lookup] in Hlk.
  - injection Hlk as <-. exists ae1. split; [done|]. split; [done|]. split; [done|].
    split; [done|]. split.
    + intros Ho. destruct (Hnew Ho) as (Hp & Hb & Hfresh).
      rewrite Nat.add_0_r, Hpl by (apply producer_snoc; by right).
      split; [done|]. split; [lia|].
      intros j Hj Hc. cbn [take] in Hj. rewrite app_nil_r in Hj.
      rewrite Hpl0 by done. cbn [drop] in Hc. by apply Hfresh.
    + intros c Hc. rewrite Harg1 by done.
      destruct (Hv (length pre) ae0) as [_ Hdeps]; [by apply list_lookup_middle|].
      destruct (Hdeps c Hc) as (j & ae_j & Hj & Hlkj & Hoj & _ & ->).
      rewrite lookup_app_l in Hlkj by done.
      rewrite Hpl; [done|]. apply producer_snoc. left. by exists ae_j.
  - destruct (Hk k ae Hlk) as (ae' & Hlk' & Hop & Hdd & Ho & Hno & Hargs).
    exists ae'. split; [done|]. split; [done|]. split; [done|]. split; [done|].
    split; [|done].
    intros Hne. destruct (Hno Hne) as (Hr & Hb & Hsafe).
    rewrite length_app in Hr. cbn [length] in Hr.
    replace (length pre + 1 + k) with (length pre + S k) in Hr by lia.
    split; [done|]. split; [done|].
    intros j Hj Hc. apply Hsafe; [|done].
    cbn [take] in Hj. by rewrite <- app_assoc.
Qed.

End AllocateSpec.


(** ** The value pass over an algorithm with places *)

Section OmapInjective.
Context {A B : Type}.

Lemma NoDup_omap_inj (f : A -> option B) (l : list A) i j a b x :
  NoDup (omap f l) -> l !! i = Some a -> l !! j = Some b ->
  f a = Some x -> f b = Some x -> i = j.
Proof.
  revert i j. induction l as [|y l IH]; intros i j Hnd Hi Hj Ha Hb; [done|].
  simpl in Hnd.
  assert (Hin : forall k c, l !! k = Some c -> f c = Some x -> x ∈ omap f l).
  { intros k c Hk Hc. apply list_elem_of_omap. exists c. split; [|done].
    by apply list_elem_of_lookup_2 in Hk. }
  destruct i as [|i], j as [|j]; cbn [lookup list_lookup] in Hi, Hj.
  - done.
  - assert (y = a) by congruence. subst y. rewrite Ha in Hnd. cbn in Hnd.
    apply NoDup_cons in Hnd as [Hn _]. exfalso. apply Hn. by apply (Hin j b).
  - assert (y = b) by congruence. subst y. rewrite Hb in Hnd. cbn in Hnd.
    apply NoDup_cons in Hnd as [Hn _]. exfalso. apply Hn. by apply (Hin i a).
  - f_equal. apply IH; try done.
    destruct (f y); cbn in Hnd; [by apply NoDup_cons in Hnd as [_ ?]|done].
Qed.

End OmapInjective.

Section Simulation.
Context {T : Type} `{Scalar T}.
Variables (valg alg : list (AlgEl T)) (pl : nat -> nat) (V : nat -> T).
Variables (work0 : list T) (fx0 : FXInternal T).
Hypothesis Hvv : virtual_valid valg.
Hypothesis Hlen : length alg = length valg.
Hypothesis Hinstr : forall k ae ae',
  valg !! k = Some ae -> alg !! k = Some ae' ->
  instr_ok valg pl V (length work0) fx0 k ae ae'.
Hypothesis Hlocs : NoDup (output_locs alg).
Hypothesis Hrange : forall loc,
  loc ∈ output_locs alg -> loc.2 < length (outputNoCheck fx0 loc.1).
Local Set Default Proof Using "All".

Lemma eval_step_builtin (w : list T) (fx : FXInternal T) it :
  is_builtin (op it) = true ->
  eval_step (w, fx) it =
  (wr w (res it) (fun_builtin (op it) (rd w (arg_i0 it)) (rd w (arg_i1 it))), fx).
Proof using Type. unfold eval_step. by destruct (op it). Qed.

Local Abbreviation inv := (sim_inv valg alg pl V work0 fx0).

Lemma producer_take_S k j :
  producer (take (S k) valg) j -> j = k \/ producer (take k valg) j.
Proof.
  intros (ae & Hj & Ho). apply lookup_take_Some in Hj as [Hj Hlt].
  destruct (decide (j = k)) as [->|Hne]; [by left|]. right.
  exists ae. split; [|done]. apply lookup_take_Some. split; [done|lia].
Qed.

Lemma sim_step k ae ae' st :
  valg !! k = Some ae -> alg !! k = Some ae' ->
  inv k st -> inv (S k) (eval_step st ae').
Proof.
  intros Hk Hk' (Hl & Hin & Hsh & Hval & Hout). destruct st as [w fx].
  cbn [fst snd] in *.
  destruct (Hinstr k ae ae' Hk Hk') as (Hnp & Hio & Hip).
  destruct (Hvv k ae Hk) as [_ Hdeps].
  assert (Hopnd : forall c, c < ndeps (op ae) -> rd w (pl (arg_i ae c)) = V (arg_i ae c)).
  { intros c Hc. destruct (Hdeps c Hc) as (j & ae_j & Hj & Hlk & Hoj & _ & Ej).
    apply Hval.
    - exists ae_j. rewrite Ej. split; [|done]. apply lookup_take_Some. done.
    - by apply (uses_operand valg k ae c). }
  assert (Hmono : forall j, 0 < uses (drop (S k) valg) j -> 0 < uses (drop k valg) j).
  { intros j Hj. rewrite (drop_S _ _ _ Hk), uses_cons. lia. }
  assert (Hwrite : op ae <> OP_OUTPUT -> forall v, v = V k ->
            inv (S k) (wr w (res ae') v, fx)).
  { intros Hno v ->. destruct (Hip Hno) as (Hno' & Hres & Hb & Hsafe & _).
    split; [|split; [|split; [|split]]]; cbn [fst snd].
    - by rewrite length_wr.
    - done.
    - done.
    - intros j Hj Hc. rewrite Hres.
      destruct (producer_take_S k j Hj) as [->|Hj'].
      + rewrite rd_wr by lia. by rewrite Nat.eqb_refl.
      + rewrite rd_wr_ne by (by apply Hsafe). apply Hval; [done|by apply Hmono].
    - intros i a a' Hi Hvi Hai Hoi.
      destruct (decide (i = k)) as [->|Hne]; [congruence|].
      apply (Hout i a a'); [lia|done|done|done]. }
  destruct (is_builtin_cases (op ae')) as [Hb|[Eo|[Eo|[Eo|Eo]]]]; [| |done| |].
  - (* unary or binary *)
    assert (op ae <> OP_OUTPUT) as Hno.
    { intros E. destruct (Hio E) as [E' _]. by rewrite E' in Hb. }
    destruct (Hip Hno) as (_ & _ & _ & _ & _ & _ & Hbi).
    destruct (Hbi Hb) as (Eop & E0 & j1 & Hj1 & E1 & EV).
    rewrite eval_step_builtin by done. apply Hwrite; [done|].
    rewrite EV, E0, E1. f_equal.
    + apply (Hopnd 0). rewrite Eop. destruct (op ae'); cbn in *; try done; lia.
    + destruct Hj1 as [->|[Hn ->]].
      * apply (Hopnd 0). rewrite Eop. destruct (op ae'); cbn in *; try done; lia.
      * apply (Hopnd 1). done.
  - (* a constant *)
    assert (op ae <> OP_OUTPUT) as Hno.
    { intros E. destruct (Hio E) as [E' _]. by rewrite E' in Eo. }
    destruct (Hip Hno) as (_ & _ & _ & _ & Hc & _).
    unfold eval_step. rewrite Eo. apply Hwrite; [done|]. by rewrite Hc.
  - (* an input *)
    assert (op ae <> OP_OUTPUT) as Hno.
    { intros E. destruct (Hio E) as [E' _]. by rewrite E' in Eo. }
    destruct (Hip Hno) as (_ & _ & _ & _ & _ & Hi & _).
    unfold eval_step. rewrite Eo. apply Hwrite; [done|]. by rewrite Hi, Hin.
  - (* an output *)
    assert (op ae = OP_OUTPUT) as Eoa.
    { destruct (Operation_eqb (op ae) OP_OUTPUT) eqn:E.
      - by apply Operation_eqb_eq.
      - apply Operation_eqb_neq in E. destruct (Hip E) as (Hno' & _). done. }
    destruct (Hio Eoa) as [_ E0].
    unfold eval_step. rewrite Eo.
    assert (Hloc : (res ae', arg_i1 ae') ∈ output_locs alg).
    { unfold output_locs. apply list_elem_of_omap. exists ae'.
      split; [by apply list_elem_of_lookup_2 in Hk'|]. by rewrite Eo. }
    split; [|split; [|split; [|split]]]; cbn [fst snd].
    + done.
    + done.
    + intros o. rewrite outputNoCheck_upd.
      destruct (Nat.eqb o (res ae')) eqn:E; [|done].
      apply Nat.eqb_eq in E as ->. by rewrite length_wr.
    + intros j Hj Hc.
      destruct (producer_take_S k j Hj) as [->|Hj'].
      * destruct Hj as (a & Ha & Hoa). apply lookup_take_Some in Ha as [Ha _].
        congruence.
      * apply Hval; [done|by apply Hmono].
    + intros i a a' Hi Hvi Hai Hoi. rewrite outputNoCheck_upd.
      destruct (decide (i = k)) as [->|Hne].
      * assert (a' = ae') as -> by congruence. assert (a = ae) as -> by congruence.
        rewrite Nat.eqb_refl. rewrite rd_wr.
        -- rewrite Nat.eqb_refl, E0. apply (Hopnd 0). rewrite Eoa. cbn. lia.
        -- rewrite Hsh. by apply (Hrange (res ae', arg_i1 ae')).
      * assert ((res a', arg_i1 a') <> (res ae', arg_i1 ae')) as Hdiff.
        { intros E. apply Hne.
          apply (NoDup_omap_inj _ alg i k a' ae' (res ae', arg_i1 ae') Hlocs Hai Hk').
          - by rewrite Hoi, E.
          - by rewrite Eo. }
        destruct (Nat.eqb_spec (res a') (res ae')) as [E|E].
        -- rewrite rd_wr_ne by congruence.
           rewrite <- E. apply (Hout i a a'); [lia|done|done|done].
        -- apply (Hout i a a'); [lia|done|done|done].
Qed.

Lemma sim_prefix k :
  k <= length alg -> inv k (fold_left eval_step (take k alg) (work0, fx0)).
Proof.
  induction k as [|k IH]; intros Hk.
  - cbn [take fold_left]. split; [done|]. split; [done|]. split; [done|].
    split; [|intros; lia]. intros j (ae & Hj & _). done.
  - destruct (lookup_lt_is_Some_2 alg k ltac:(lia)) as [ae' Hk'].
    destruct (lookup_lt_is_Some_2 valg k ltac:(lia)) as [ae Hkv].
    rewrite (take_S_r _ _ _ Hk'), fold_left_app. cbn [fold_left].
    apply (sim_step k ae ae'); [done|done|]. apply IH. lia.
Qed.

(** The value pass leaves in every output nonzero the value of the
    operand of its output instruction. *)
Lemma eval_simulation k ae ae' :
  valg !! k = Some ae -> alg !! k = Some ae' -> op ae' = OP_OUTPUT ->
  rd (outputNoCheck (fold_left eval_step alg (work0, fx0)).2 (res ae')) (arg_i1 ae') =
  V (arg_i0 ae).
Proof.
  intros Hk Hk' Ho.
  pose proof (sim_prefix (length alg) ltac:(lia)) as (_ & _ & _ & _ & Hout).
  rewrite firstn_all in Hout. apply (Hout k ae ae'); try done.
  by apply lookup_lt_Some in Hk'.
Qed.

End Simulation.


(** ** The value pass computes the value of the expression graph *)

Section GraphAnatomy.
Context {T : Type} `{Scalar T}.
Implicit Types (h : list (SXNode T)) (temp : nat -> nat) (alg : list (AlgEl T)).

(** The parts of [init], with the instructions of the first loop and their
    reference counts. *)
Lemma init_anatomy_graph fuel live jit h inputv outputv temp0 this :
  arena_ok h = true ->
  (forall p, temp0 p = 0) ->
  forallb (isSymbolic h) (concat inputv) = true ->
  NoDup (concat inputv) ->
  init fuel live jit h inputv outputv temp0 = Ret this ->
  exists (nodes : list (option nat)) alg temp3 temp2 a,
    (algorithm_ this = (fold_left mark_input (input_places 0 inputv) (alg, temp3)).1 /\
     pdwork_size this = length (sort_by_type h nodes).2 /\
     length alg = length nodes /\
     (forall k n, nodes !! k = Some n -> exists ae, alg !! k = Some ae /\
        op ae = match n with Some p => getOp h p | None => OP_OUTPUT end) /\
     output_locs alg = locations (map length outputv) /\
     (forall p k, temp3 p = S k <-> nodes !! k = Some (Some p) /\ isSymbolic h p = true) /\
     (forall p, p ∈ concat inputv -> exists k, nodes !! k = Some (Some p))) /\
    let b := build h outputv temp2 nodes in
    nodes_ok h (concat outputv) nodes /\
    (forall d j, nodes !! j = Some (Some d) -> temp2 d = j) /\
    virtual_valid (b_algorithm b) /\
    length (b_algorithm b) = length nodes /\
    (forall k n, nodes !! k = Some n ->
       exists ae, b_algorithm b !! k = Some ae /\
         instr_spec h outputv temp2 nodes k n ae /\
         match n with
         | Some p => op ae = OP_CONST -> arg_d ae = getValue h p
         | None =>
             exists out q,
               outputv !! res ae = Some out /\ out !! arg_i1 ae = Some q /\
               concat outputv !! count_markers (take k nodes) = Some q
         end) /\
    (forall j, j < length nodes ->
       b_refcount b !! j = Some (Z.of_nat (uses (b_algorithm b) j))) /\
    length (b_refcount b) = length nodes /\
    output_locs (b_algorithm b) = locations (map length outputv) /\
    allocate live (mkAlloc (b_refcount b) (replicate (length nodes) 0) [] 0)
             (b_algorithm b) = (a, alg) /\
    worksize_ this = a_worksize a.
Proof.
  intros Hok H0 Hsym Hnd Hi.
  apply init_Ret in Hi
    as (_ & nodes0 & temp1 & a & alg & Hs & Ha & Halg & Hw & Hpd & Hos & _).
  cbv zeta in Ha, Halg, Hpd, Hos.
  destruct (sort_outputs_sorted _ _ _ _ _ _ Hs H0) as [Hinv Hm].
  pose proof (add_inputs_nodes_ok h _ inputv _ _ Hinv Hm Hsym) as Hnok.
  pose proof (build_virtual_valid h outputv temp1 _ Hok Hnok) as Hvv.
  pose proof Hnok as (_ & _ & Hc).
  pose proof (add_inputs_unique h nodes0 temp1 inputv) as Hunique.
  assert (forall p, p ∈ concat inputv ->
            Some p ∈ add_inputs temp1 inputv nodes0) as Hin.
  { intros p Hp. rewrite add_inputs_concat, add_inputs_app. apply elem_of_app.
    destruct (Nat.eqb_spec (temp1 p) 0) as [E|E].
    - right. change (map Some ?l) with (Some <$> l). apply list_elem_of_fmap.
      exists p. split; [done|]. apply list_elem_of_In, filter_In.
      split; [by apply list_elem_of_In|]. by apply Nat.eqb_eq.
    - left. by apply Hinv. }
  assert (forall p, temp1 p <> 0 -> Some p ∈ add_inputs temp1 inputv nodes0) as Hold.
  { intros p Hp. rewrite add_inputs_concat, add_inputs_app. apply elem_of_app.
    left. by apply Hinv. }
  set (nodes := add_inputs temp1 inputv nodes0) in *.
  set (temp2 := number_nodes 0 nodes temp1) in *.
  destruct (build_symb_loc h outputv temp2 nodes
      (mkBuild [] [] (next_output outputv 0) 0 (replicate (length nodes) 0%Z)))
    as [_ Hsymb]; [done|done|done|].
  destruct (build_prefix h outputv temp2 nodes
      (mkBuild [] [] (next_output outputv 0) 0 (replicate (length nodes) 0%Z)))
    as (Hlen & _ & Hins); [done|lia|done|apply out_pos_start|].
  pose proof (build_output_locs h outputv temp2 nodes
      (mkBuild [] [] (next_output outputv 0) 0 (replicate (length nodes) 0%Z))
      Hok ltac:(lia) eq_refl (out_pos_start outputv)) as Hout.
  fold (build h outputv temp2 nodes) in Hsymb, Hlen, Hins, Hout.
  set (b := build h outputv temp2 nodes) in *.
  set (tempR := reset_nodes nodes temp2) in *.
  set (temp3 := mark_symb (b_symb_loc b) tempR) in *.
  pose proof (allocate_ops live (mkAlloc (b_refcount b) (replicate (length nodes) 0) [] 0)
                (b_algorithm b)) as Hops.
  pose proof (allocate_output_locs live
                (mkAlloc (b_refcount b) (replicate (length nodes) 0) [] 0)
                (b_algorithm b)) as Houts.
  rewrite Ha in Hops, Houts. simpl in Hops, Houts.
  assert (forall q, tempR q = 0) as HR.
  { intros q. unfold tempR. rewrite reset_nodes_spec.
    destruct (decide (Some q ∈ nodes)) as [Hq|Hq].
    - by rewrite bool_decide_eq_true_2.
    - rewrite bool_decide_eq_false_2 by done. unfold temp2.
      rewrite number_nodes_other by done.
      destruct (Nat.eq_dec (temp1 q) 0) as [|Hne]; [done|].
      exfalso. by apply Hq, Hold. }
  exists nodes, alg, temp3, temp2, a. split.
  2:{ fold b. cbv zeta.
    destruct (build_refcount_values h outputv temp2 nodes
        (mkBuild [] [] (next_output outputv 0) 0 (replicate (length nodes) 0%Z)))
      as (Hrc & Hvals); [done|lia|done|apply out_pos_start|].
    fold (build h outputv temp2 nodes) in Hrc, Hvals. fold b in Hrc, Hvals.
    cbn [b_refcount] in Hrc.
    split; [done|]. split.
    { intros d j Hj. apply number_nodes_once. split; [done|].
      intros j' Hj'. by apply (Hunique d j' j). }
    split; [done|]. split; [done|]. split.
    { intros k n Hn. destruct (Hins k n Hn) as (ae & E & Hspec).
      destruct (Hvals k n Hn) as (ae2 & E2 & Hv2).
      assert (ae2 = ae) as -> by congruence.
      exists ae. split; [done|]. split; [done|]. exact Hv2. }
    split.
    { intros j Hj. rewrite Hrc, lookup_replicate_2 by done. reflexivity. }
    split.
    { assert (length (b_refcount b) = length (replicate (length nodes) 0%Z)) as ->;
        [|apply length_replicate].
      apply Nat.le_antisymm.
      - destruct (Nat.le_gt_cases (length (b_refcount b))
                    (length (replicate (length nodes) 0%Z))) as [|Hgt]; [done|].
        destruct (lookup_lt_is_Some_2 (b_refcount b) _ Hgt) as [x Hx].
        rewrite Hrc, lookup_ge_None_2 in Hx by done. done.
      - destruct (Nat.le_gt_cases (length (replicate (length nodes) 0%Z))
                    (length (b_refcount b))) as [|Hgt]; [done|].
        destruct (lookup_lt_is_Some_2 (replicate (length nodes) 0%Z) _ Hgt) as [x Hx].
        pose proof (Hrc (length (b_refcount b))) as E.
        rewrite Hx, lookup_ge_None_2 in E by done. done. }
    split.
    { rewrite Hout, Hc. apply firstn_all2.
      unfold locations. by rewrite length_locations_from. }
    done. }
  split.
  { by rewrite Halg, input_instructions_fold. }
  split; [done|]. split.
  { rewrite <- Hlen, <- (length_map op alg), Hops. apply length_map. }
  split.
  { intros k n Hn. destruct (Hins k n Hn) as (ae0 & E0 & Hspec).
    assert (map op alg !! k = Some (op ae0)) as Hk
      by (by rewrite Hops, list_lookup_fmap, E0).
    rewrite list_lookup_fmap in Hk.
    destruct (alg !! k) as [ae|]; [|discriminate Hk].
    simpl in Hk. injection Hk as Hk. exists ae. split; [done|]. rewrite Hk.
    destruct n; by destruct Hspec as [-> _]. }
  split.
  { rewrite Houts, Hout, Hc. apply firstn_all2.
    unfold locations. by rewrite length_locations_from. }
  split.
  { intros p k. split.
    - intros Hk. apply Hsymb. by apply (mark_symb_inv _ tempR).
    - intros Hk. apply mark_symb_unique; [by apply Hsymb|].
      intros k' Hk'. apply Hsymb in Hk' as [Hk' _]. destruct Hk as [Hk _].
      by apply (Hunique p k' k). }
  intros p Hp. by apply list_elem_of_lookup, Hin.
Qed.

End GraphAnatomy.


Section GraphValues.
Context {T : Type} `{Scalar T}.
Implicit Types (h : list (SXNode T)) (env : nat -> T).

Lemma value_of_fuel h env :
  acyclic h ->
  forall f1 f2 p, p < f1 -> p < f2 -> value_of f1 h env p = value_of f2 h env p.
Proof.
  intros Hac. induction f1 as [|f1 IH]; intros f2 p H1 H2; [lia|].
  destruct f2 as [|f2]; [lia|]. cbn [value_of].
  assert (Hd : forall i d, dep h p i = Some d ->
            value_of f1 h env d = value_of f2 h env d).
  { intros i d Hi. apply Hac in Hi. apply IH; lia. }
  destruct (dep h p 0) as [d0|] eqn:E0; destruct (dep h p 1) as [d1|] eqn:E1;
    rewrite ?(Hd _ _ E0), ?(Hd _ _ E1); reflexivity.
Qed.

(** The value of a node from the values of its operands. *)
Lemma graph_value_eq h env p :
  acyclic h ->
  graph_value h env p =
  match getOp h p with
  | OP_CONST => getValue h p
  | OP_PARAMETER => env p
  | o =>
      let x := match dep h p 0 with
               | Some d => graph_value h env d
               | None => zero
               end in
      let y := if Nat.eqb (ndeps o) 1 then x
               else match dep h p 1 with
                    | Some d => graph_value h env d
                    | None => zero
                    end in
      fun_builtin o x y
  end.
Proof.
  intros Hac. unfold graph_value. cbn [value_of].
  assert (Hd : forall i d, dep h p i = Some d ->
            value_of p h env d = value_of (S d) h env d).
  { intros i d Hi. apply Hac in Hi. apply value_of_fuel; [done|lia|lia]. }
  destruct (dep h p 0) as [d0|] eqn:E0; destruct (dep h p 1) as [d1|] eqn:E1;
    rewrite ?(Hd _ _ E0), ?(Hd _ _ E1); reflexivity.
Qed.

Lemma graph_value_builtin h env p d0 :
  acyclic h -> is_builtin (getOp h p) = true -> dep h p 0 = Some d0 ->
  (ndeps (getOp h p) = 1 ->
     graph_value h env p =
     fun_builtin (getOp h p) (graph_value h env d0) (graph_value h env d0)) /\
  (forall d1, ndeps (getOp h p) <> 1 -> dep h p 1 = Some d1 ->
     graph_value h env p =
     fun_builtin (getOp h p) (graph_value h env d0) (graph_value h env d1)).
Proof.
  intros Hac Hb E0. rewrite (graph_value_eq h env p Hac), E0.
  destruct (getOp h p); try discriminate Hb; cbn [ndeps Nat.eqb];
    (split;
     [ intros E; try discriminate E; reflexivity
     | intros d1 Hne E1; rewrite ?E1; try (exfalso; by apply Hne); reflexivity ]).
Qed.

(** A symbol that stands in an input has the value of that nonzero. *)
Lemma input_env_place inputv (fx : FXInternal T) ind nz p :
  NoDup (concat inputv) ->
  (ind, nz, p) ∈ input_places 0 inputv ->
  input_env inputv fx p = rd (inputNoCheck fx ind) nz.
Proof.
  intros Hnd Hin. unfold input_env.
  rewrite <- (input_places_symbols 0) in Hnd.
  destruct (list_find _ _) as [[i [[ind' nz'] p']]|] eqn:E.
  - apply list_find_Some in E as (Hi & Hp & _). cbn in Hp. subst p'.
    apply list_elem_of_lookup in Hin as [i2 Hi2].
    assert (i = i2) as <-.
    { apply (NoDup_lookup _ i i2 p Hnd).
      - change (map snd ?l) with (snd <$> l). by rewrite list_lookup_fmap, Hi.
      - change (map snd ?l) with (snd <$> l). by rewrite list_lookup_fmap, Hi2. }
    rewrite Hi in Hi2. by injection Hi2 as -> ->.
  - apply list_find_None in E. rewrite Forall_forall in E.
    exfalso. by apply (E _ Hin).
Qed.

End GraphValues.

Section ValuePass.
Context {T : Type} `{Scalar T}.
Implicit Types (alg : list (AlgEl T)) (fx : FXInternal T).

(** Taping does not change the values. *)
Lemma tape_eval_steps alg : forall (w : list T) tp fx,
  ((fold_left tape_step alg (w, tp, fx)).1.1, (fold_left tape_step alg (w, tp, fx)).2) =
  fold_left eval_step alg (w, fx).
Proof.
  induction alg as [|it alg IH]; intros w tp fx; [done|].
  cbn [fold_left].
  assert (exists w' tp' fx', tape_step (w, tp, fx) it = (w', tp', fx') /\
            eval_step (w, fx) it = (w', fx')) as (w' & tp' & fx' & -> & ->).
  { unfold tape_step, eval_step. destruct (op it); by eexists _, _, _. }
  apply IH.
Qed.

Lemma fwd_step_data d (st : sweep_state) it :
  map data (output_ (sw_fx (fwd_step d st it))) = map data (output_ (sw_fx st)).
Proof.
  unfold fwd_step. destruct (op it); cbn [sw_fx]; try done.
  unfold upd_fwdSens. cbn [output_]. by apply map_alter_same.
Qed.

Lemma adj_step_data d (st : sweep_state) it :
  map data (output_ (sw_fx (adj_step d st it))) = map data (output_ (sw_fx st)).
Proof. by rewrite adj_step_output. Qed.

Lemma fwd_sweeps_data alg pd dirs : forall (st : list T * FXInternal T),
  map data (output_ (fold_left (fwd_sweep alg pd) dirs st).2) = map data (output_ st.2).
Proof.
  induction dirs as [|d dirs IH]; intros st; [done|].
  cbn [fold_left]. rewrite IH. unfold fwd_sweep. cbn [snd].
  assert (forall l s, map data (output_ (sw_fx (fold_left (fwd_step d) l s))) =
                      map data (output_ (sw_fx s))) as Hf.
  { induction l as [|it l IHl]; intros s; [done|].
    cbn [fold_left]. by rewrite IHl, fwd_step_data. }
  by rewrite Hf.
Qed.

Lemma adj_sweeps_data alg pd dirs : forall (st : list T * FXInternal T),
  map data (output_ (fold_left (adj_sweep alg pd) dirs st).2) = map data (output_ st.2).
Proof.
  induction dirs as [|d dirs IH]; intros st; [done|].
  cbn [fold_left]. rewrite IH. unfold adj_sweep. cbn [snd].
  assert (forall l s, map data (output_ (sw_fx (fold_left (adj_step d) l s))) =
                      map data (output_ (sw_fx s))) as Hf.
  { induction l as [|it l IHl]; intros s; [done|].
    cbn [fold_left]. by rewrite IHl, adj_step_data. }
  by rewrite Hf.
Qed.

(** The values that [evaluateGen] leaves in the outputs are those of the
    value pass, with or without derivative directions. *)
Lemma evaluateGen_outputs (this : @SXFunctionInternal T) nfdir nadir e e' :
  evaluateGen this nfdir nadir e = Ret e' ->
  map data (output_ (fx_ e')) =
  map data (output_ (fold_left eval_step (algorithm_ this) (work_ e, fx_ e)).2).
Proof.
  unfold evaluateGen. destruct (negb _); [done|].
  destruct (negb ((0 <? nfdir) || (0 <? nadir))).
  - destruct (fold_left eval_step _ _) as [w fx]. by intros [= <-].
  - pose proof (tape_eval_steps (algorithm_ this) (work_ e) [] (fx_ e)) as Ht.
    destruct (fold_left tape_step _ _) as [[w tp] fx]. cbn [fst snd] in Ht.
    rewrite <- Ht. intros [= <-]. cbn [fx_ snd].
    rewrite adj_sweeps_data.
    destruct (0 <? nadir); cbn [snd]; by rewrite fwd_sweeps_data.
Qed.

End ValuePass.


Section GraphEvaluation.
Context {T : Type} `{Scalar T}.
Implicit Types (h : list (SXNode T)) (alg : list (AlgEl T)).

Lemma is_builtin_ndeps (o : Operation) :
  is_builtin o = true -> ndeps o = 1 \/ ndeps o = 2.
Proof. destruct o; cbn; intros; try discriminate; auto. Qed.

Lemma set_input_fields ind nz (ae : AlgEl T) :
  let ae' := set_arg_i 1 nz (set_arg_i 0 ind (set_op OP_INPUT ae)) in
  op ae' = OP_INPUT /\ res ae' = res ae /\ arg_i0 ae' = ind /\ arg_i1 ae' = nz.
Proof. by destruct ae. Qed.

(** X14. [evaluateGen] computes the function that the expression graph
    denotes.  For every function that [init] has built without free
    variables, with live variables or without, for all values of the
    inputs in buffers of the sizes of the arguments and all numbers of
    directions: [evaluateGen] returns, and
    afterwards every nonzero of every output holds the value of its
    expression, which is defined on the graph itself: a constant has its
    value, a symbol the value of the input nonzero where it stands, an
    operation the value of its numeric function at the values of its
    operands.  The reuse of the places of the work vector never hands out
    a place whose value is still to be read. *)
Theorem evaluateGen_computes_graph fuel live jit (h : list (SXNode T)) inputv outputv
    temp0 (this : @SXFunctionInternal T) nfdir nadir e :
  arena_ok h = true ->
  (forall p, temp0 p = 0) ->
  forallb (isSymbolic h) (concat inputv) = true ->
  NoDup (concat inputv) ->
  init fuel live jit h inputv outputv temp0 = Ret this ->
  free_vars_ this = [] ->
  length (work_ e) = worksize_ this ->
  length (pdwork_ e) = pdwork_size this ->
  input_sizes (fx_ e) = map length inputv ->
  output_sizes (fx_ e) = map length outputv ->
  exists e',
    evaluateGen this nfdir nadir e = Ret e' /\
    forall o out nz q, outputv !! o = Some out -> out !! nz = Some q ->
      rd (outputNoCheck (fx_ e') o) nz =
      graph_value h (input_env inputv (fx_ e)) q.
Proof.
  intros Hok H0 Hsym Hnd Hi Hfree Hw _ _ Hosz.
  destruct (evaluateGen_returns this nfdir nadir e Hfree) as [e' He'].
  exists e'. split; [done|].
  pose proof (evaluateGen_outputs this nfdir nadir e e' He') as Hdata.
  pose proof (init_no_parameter _ _ _ _ _ _ _ _ Hok H0 Hsym Hnd Hi Hfree) as Hnp.
  destruct (init_valid_operands _ _ _ _ _ _ _ _ Hok H0 Hsym Hi) as [_ H2].
  pose proof (arena_ok_acyclic h Hok) as Hac.
  destruct (init_anatomy_graph _ _ _ _ _ _ _ _ Hok H0 Hsym Hnd Hi)
    as (nodes & alg & temp3 & temp2 & a &
        (Halg & _ & Hlen & Hops & Hout & Hmarks & Hin) & G).
  cbv zeta in G.
  destruct G as (Hnok & Htemp & Hvv & Hvlen & Hins & Hrc & Hrlen & Hvout & Ha & Hws).
  set (valg := b_algorithm (build h outputv temp2 nodes)) in *.
  set (rc0 := b_refcount (build h outputv temp2 nodes)) in *.
  set (env := input_env inputv (fx_ e)).
  set (V := fun k => match nodes !! k with
                     | Some (Some p) => graph_value h env p
                     | _ => zero
                     end).
  destruct Hnok as (Hnode & Hmark & Hcount).
  assert (Hssa : single_assignment valg).
  { intros k ae Hk Ho.
    destruct (lookup_lt_is_Some_2 nodes k) as [n Hn];
      [rewrite <- Hvlen; by apply lookup_lt_Some in Hk|].
    destruct (Hins k n Hn) as (ae0 & E0 & Hspec & _).
    assert (ae0 = ae) as -> by congruence.
    destruct n as [p|]; [|by destruct Hspec as [? _]].
    destruct Hspec as (_ & -> & _). by apply Htemp. }
  set (st0 := mkAlloc rc0 (replicate (length nodes) 0) [] 0) in *.
  assert (Hinv0 : alloc_inv (T:=T) [] (uses valg) st0).
  { split; [|split; [|split; [|split; [|split]]]]; cbn [a_refcount a_unused].
    - intros j Hj. apply Hrc. by rewrite <- Hrlen.
    - constructor.
    - constructor.
    - intros j (ae & Hj & _). done.
    - intros j (ae & Hj & _). done.
    - intros j1 j2 (ae & Hj & _). done. }
  destruct (allocate_spec live valg [] st0) as [_ Hk]; try done.
  { cbn [app a_place st0]. by rewrite length_replicate, Hvlen. }
  { cbn [a_place a_refcount st0]. by rewrite length_replicate, Hrlen. }
  rewrite Ha in Hk. cbn [fst snd app length Nat.add] in Hk.
  set (pl := placeof a) in *.
  assert (Hflen : length (algorithm_ this) = length valg).
  { rewrite Halg, Hvlen, <- Hlen.
    by apply (length_marked h inputv nodes alg temp3). }
  assert (Hinstr : forall k ae ae'',
            valg !! k = Some ae -> algorithm_ this !! k = Some ae'' ->
            instr_ok valg pl V (length (work_ e)) (fx_ e) k ae ae'').
  { intros k ae ae'' Hkv Hkf.
    destruct (lookup_lt_is_Some_2 nodes k) as [n Hn];
      [rewrite <- Hvlen; by apply lookup_lt_Some in Hkv|].
    destruct (Hins k n Hn) as (ae0 & E0 & Hspec & Hval).
    assert (ae0 = ae) as -> by congruence.
    destruct (Hk k ae Hkv) as (ae' & Hk' & Hop' & Hd' & Hout' & Hno' & Hargs').
    destruct (marked_entry h inputv nodes alg temp3 Hok Hnd Hops Hlen Hmarks Hsym Hin
                k ae' Hk') as (ae3 & Hk3 & Hcase).
    rewrite <- Halg in Hk3. assert (ae3 = ae'') as -> by congruence.
    assert (Hnp'' : op ae'' <> OP_PARAMETER).
    { rewrite Forall_forall in Hnp. apply Hnp. by apply list_elem_of_lookup_2 in Hkf. }
    assert (H2'' : second_is_first ae'').
    { rewrite Forall_forall in H2. apply H2. by apply list_elem_of_lookup_2 in Hkf. }
    destruct n as [p|].
    - destruct Hspec as (Eop & Eres & Earg).
      destruct (arena_ok_getOp h p Hok) as [Hnout Hninp].
      assert (Hno : op ae <> OP_OUTPUT) by congruence.
      destruct (Hno' Hno) as (Hres & Hb & Hsafe).
      assert (EV : V k = graph_value h env p) by (unfold V; by rewrite Hn).
      split; [done|]. split; [intros E; congruence|]. intros _.
      destruct Hcase as [[-> Hunmarked]|(ind & nz & p' & Hpl & Ht & -> & Hpar)].
      + split; [congruence|]. split; [done|]. split; [by rewrite Hw, Hws, <- Hres|].
        split; [intros j Hj Hc; rewrite <- Hres; by apply Hsafe|]. split.
        { intros Ec. rewrite EV, (graph_value_eq h env p Hac).
          rewrite <- Eop, <- Hop', Ec. rewrite Hd'. symmetry. apply Hval. congruence. }
        split; [intros Ei; congruence|].
        intros Hbi. split; [done|].
        assert (Hbp : is_builtin (getOp h p) = true) by (by rewrite <- Eop, <- Hop').
        destruct (is_builtin_ndeps _ Hbp) as [En|En].
        * destruct (arena_ok_dep h p 0 Hok ltac:(lia)) as [d0 Ed0].
          destruct (Hnode k p Hn 0 d0 ltac:(lia) Ed0) as (j0 & Hj0 & Hon0).
          assert (E0' : arg_i0 ae = j0).
          { change (arg_i0 ae) with (arg_i ae 0). rewrite Earg by lia.
            rewrite Ed0. cbn [temp_of]. apply Htemp, Hon0. }
          assert (EV0 : V j0 = graph_value h env d0).
          { unfold V. destruct Hon0 as [-> _]. done. }
          split.
          { change (arg_i0 ae') with (arg_i ae' 0). rewrite Hargs' by (rewrite Eop; lia).
            done. }
          exists (arg_i0 ae). split; [by left|]. split.
          { rewrite H2''; [|congruence|congruence].
            change (arg_i0 ae') with (arg_i ae' 0). rewrite Hargs' by (rewrite Eop; lia).
            done. }
          rewrite EV, E0', EV0, Hop', Eop.
          destruct (graph_value_builtin h env p d0 Hac Hbp Ed0) as [Hu _]. by apply Hu.
        * destruct (arena_ok_dep h p 0 Hok ltac:(lia)) as [d0 Ed0].
          destruct (arena_ok_dep h p 1 Hok ltac:(lia)) as [d1 Ed1].
          destruct (Hnode k p Hn 0 d0 ltac:(lia) Ed0) as (j0 & Hj0 & Hon0).
          destruct (Hnode k p Hn 1 d1 ltac:(lia) Ed1) as (j1 & Hj1 & Hon1).
          assert (E0' : arg_i0 ae = j0).
          { change (arg_i0 ae) with (arg_i ae 0). rewrite Earg by lia.
            rewrite Ed0. cbn [temp_of]. apply Htemp, Hon0. }
          assert (E1' : arg_i1 ae = j1).
          { change (arg_i1 ae) with (arg_i ae 1). rewrite Earg by lia.
            rewrite Ed1. cbn [temp_of]. apply Htemp, Hon1. }
          assert (EV0 : V j0 = graph_value h env d0).
          { unfold V. destruct Hon0 as [-> _]. done. }
          assert (EV1 : V j1 = graph_value h env d1).
          { unfold V. destruct Hon1 as [-> _]. done. }
          split.
          { change (arg_i0 ae') with (arg_i ae' 0). rewrite Hargs' by (rewrite Eop; lia).
            done. }
          exists (arg_i1 ae). split; [right; split; [rewrite Eop; lia|done]|]. split.
          { change (arg_i1 ae') with (arg_i ae' 1). rewrite Hargs' by (rewrite Eop; lia).
            done. }
          rewrite EV, E0', E1', EV0, EV1, Hop', Eop.
          destruct (graph_value_builtin h env p d0 Hac Hbp Ed0) as [_ Hbin].
          apply Hbin; [lia|done].
      + destruct (set_input_fields ind nz ae') as (Ei & Er & Ea0 & Ea1).
        cbv zeta in Ei, Er, Ea0, Ea1.
        apply Hmarks in Ht as [Hn' _].
        assert (p' = p) as -> by congruence.
        split; [by rewrite Ei|]. split; [by rewrite Er|].
        split; [by rewrite Hw, Hws, <- Hres|].
        split; [intros j Hj Hc; rewrite <- Hres; by apply Hsafe|].
        split; [intros Ec; by rewrite Ei in Ec|]. split.
        * intros _. rewrite EV, (graph_value_eq h env p Hac).
          rewrite <- Eop, <- Hop', Hpar, Ea0, Ea1.
          by apply input_env_place.
        * intros Hbi. by rewrite Ei in Hbi.
    - destruct Hspec as (Eop & _).
      assert (ae'' = ae') as ->.
      { destruct Hcase as [[-> _]|(ind & nz & p' & _ & _ & _ & Hpar)]; [done|].
        congruence. }
      split; [done|]. split; [|intros Hne; done].
      intros _. split; [congruence|].
      change (arg_i0 ae') with (arg_i ae' 0). rewrite Hargs' by (rewrite Eop; cbn; lia).
      done. }
  assert (Hlocs : output_locs (algorithm_ this) = locations (map length outputv)).
  { rewrite Halg, (marked_output_locs h inputv nodes alg temp3); done. }
  intros o out nz q Ho Hq.
  assert (Hloc : (o, nz) ∈ output_locs valg).
  { rewrite Hvout. unfold locations. apply locations_from_spec.
    exists o, (length out). cbn [fst snd]. split; [done|]. split.
    - change (map length outputv) with (length <$> outputv).
      by rewrite list_lookup_fmap, Ho.
    - by apply lookup_lt_Some in Hq. }
  unfold output_locs in Hloc. apply list_elem_of_omap in Hloc as (ae & Hae & Hf).
  destruct (Operation_eqb (op ae) OP_OUTPUT) eqn:Eo; [|done].
  apply Operation_eqb_eq in Eo. injection Hf as Hr Ha1.
  apply list_elem_of_lookup in Hae as [k Hkv].
  destruct (lookup_lt_is_Some_2 nodes k) as [n Hn];
    [rewrite <- Hvlen; by apply lookup_lt_Some in Hkv|].
  destruct (Hins k n Hn) as (ae0 & E0 & Hspec & Hval).
  assert (ae0 = ae) as -> by congruence.
  destruct n as [p|].
  { destruct Hspec as (Eop & _). destruct (arena_ok_getOp h p Hok). congruence. }
  destruct Hspec as (_ & Harg0).
  destruct Hval as (out' & q' & Ho' & Hq' & Hm).
  rewrite Hr, Ho in Ho'. injection Ho' as <-.
  rewrite Ha1, Hq in Hq'. injection Hq' as <-.
  destruct (Hmark k Hn) as (q2 & j & Hm2 & Hj & Hon).
  rewrite Hm in Hm2. injection Hm2 as <-.
  destruct (lookup_lt_is_Some_2 (algorithm_ this) k) as [ae'' Hkf];
    [rewrite Hflen; by apply lookup_lt_Some in Hkv|].
  destruct (Hinstr k ae ae'' Hkv Hkf) as (_ & Hio & _).
  destruct (Hio Eo) as [Eo'' _].
  destruct (Hk k ae Hkv) as (ae' & Hk' & Hop' & _ & Hout' & _ & _).
  destruct (Hout' Eo) as [Hr' Ha1'].
  destruct (marked_entry h inputv nodes alg temp3 Hok Hnd Hops Hlen Hmarks Hsym Hin
              k ae' Hk') as (ae3 & Hk3 & Hcase).
  rewrite <- Halg in Hk3. assert (ae3 = ae'') as -> by congruence.
  assert (ae'' = ae') as ->.
  { destruct Hcase as [[-> _]|(ind & nz' & p' & _ & _ & _ & Hpar)]; [done|].
    congruence. }
  pose proof (eval_simulation valg (algorithm_ this) pl V (work_ e) (fx_ e)
                Hvv Hflen Hinstr) as Hsim.
  rewrite Hlocs in Hsim.
  specialize (Hsim (NoDup_locations_from 0 (map length outputv))).
  assert (Hrange : forall loc, loc ∈ locations (map length outputv) ->
            loc.2 < length (outputNoCheck (fx_ e) loc.1)).
  { intros [o' nz'] Hl. rewrite <- Hosz in Hl. by apply locations_outputNoCheck. }
  specialize (Hsim Hrange k ae ae' Hkv Hkf Eo'').
  rewrite Hr', Ha1', Hr, Ha1 in Hsim.
  assert (Hout_eq : forall fx1 fx2 : FXInternal T,
            map data (output_ fx1) = map data (output_ fx2) ->
            outputNoCheck fx1 o = outputNoCheck fx2 o).
  { intros fx1 fx2 E. unfold outputNoCheck.
    assert (map data (output_ fx1) !! o = map data (output_ fx2) !! o) as E'
      by (by rewrite E).
    change (map data ?l) with (data <$> l) in E'.
    rewrite !list_lookup_fmap in E'.
    destruct (output_ fx1 !! o), (output_ fx2 !! o); cbn in *; congruence. }
  rewrite (Hout_eq _ _ Hdata), Hsim.
  change (arg_i0 ae) with (arg_i ae 0).
  assert (arg_i ae 0 = j) as ->.
  { cbn [arg_i]. rewrite (Harg0 q Hm). apply Htemp, Hon. }
  unfold V. destruct Hon as [-> _]. done.
Qed.

End GraphEvaluation.

(** ** The properties on the example graphs *)

(** C10 on Scenario A: the sine instruction of [x*y + sin(x)] names its
    operand twice. *)
Lemma init_unary_second_operand_scenarioA :
  arg_i1 (mkAlgEl OP_SIN 0 0%Z 0 0) = arg_i0 (mkAlgEl OP_SIN 0 0%Z 0 0) /\
  forall dir st,
    sw_work (fwd_step dir st (mkAlgEl OP_SIN 0 0%Z 0 0)) =
    wr (sw_work st) (res (mkAlgEl OP_SIN 0 0%Z 0 0))
       (add (mul (tape_hd (sw_it st)).1
                 (rd (sw_work st) (arg_i0 (mkAlgEl OP_SIN 0 0%Z 0 0))))
            (mul (tape_hd (sw_it st)).2
                 (rd (sw_work st) (arg_i0 (mkAlgEl OP_SIN 0 0%Z 0 0))))).
Proof.
  apply (init_unary_second_operand (H:=Z_scalar) 12 true false Examples.scenarioA
           [[0]; [1]] [[4]] Examples.temp0
           (Examples.linearized Examples.scenarioA [[0]; [1]] [[4]])).
  - vm_compute. reflexivity.
  - apply (list_elem_of_lookup_2 _ 3). vm_compute. reflexivity.
  - reflexivity.
  - discriminate.
Defined.

(** C1 on Scenario A. *)
Lemma init_topologically_valid_scenarioA :
  topologically_valid
    (algorithm_ (Examples.linearized (T:=Z) Examples.scenarioA [[0]; [1]] [[4]]))
    = true /\
  forall k ae c,
    algorithm_ (Examples.linearized (T:=Z) Examples.scenarioA [[0]; [1]] [[4]]) !! k
      = Some ae ->
    c < ndeps (op ae) ->
    exists j ae',
      j < k /\
      algorithm_ (Examples.linearized (T:=Z) Examples.scenarioA [[0]; [1]] [[4]]) !! j
        = Some ae' /\
      op ae' <> OP_OUTPUT /\ res ae' = arg_i ae c.
Proof.
  apply (init_topologically_valid (T:=Z) 12 true false Examples.scenarioA
           [[0]; [1]] [[4]] Examples.temp0).
  - vm_compute. reflexivity.
  - intros p. reflexivity.
  - vm_compute. reflexivity.
  - vm_compute. reflexivity.
Defined.

(** C3 at work: [f(x,y) = x*y + x] at (3,4) over the integers; both inner
    products are 92. *)
Lemma forward_adjoint_duality_bilinear :
  exists e',
    evaluateGen (Examples.linearized Examples.bilinear [[0]; [1]] [[3]]) 1 1
      (init_eval (Examples.linearized Examples.bilinear [[0]; [1]] [[3]])
                 Examples.bilinear_fx) = Ret e' /\
    fwdSeed_dir (fx_ e') 0 = fwdSeed_dir Examples.bilinear_fx 0 /\
    adjSeed_dir (fx_ e') 0 = adjSeed_dir Examples.bilinear_fx 0 /\
    dot2 (adjSeed_dir (fx_ e') 0) (fwdSens_dir (fx_ e') 0) =
    dot2 (fwdSeed_dir (fx_ e') 0) (adjSens_dir (fx_ e') 0).
Proof.
  apply (@forward_adjoint_duality Z Z_scalar Z.sub Z.opp Zth
           (dfs_fuel Examples.bilinear) true false Examples.bilinear
           [[0]; [1]] [[3]] Examples.temp0
           (Examples.linearized Examples.bilinear [[0]; [1]] [[3]]) 1 1
           (init_eval (Examples.linearized Examples.bilinear [[0]; [1]] [[3]])
                      Examples.bilinear_fx) 0 0).
  - vm_compute. reflexivity.
  - intros p. reflexivity.
  - vm_compute. reflexivity.
  - simpl. apply NoDup_cons. split.
    + intros E. apply list_elem_of_singleton in E. lia.
    + apply NoDup_singleton.
  - vm_compute. reflexivity.
  - vm_compute. reflexivity.
  - vm_compute. reflexivity.
  - vm_compute. reflexivity.
  - vm_compute. reflexivity.
  - vm_compute. reflexivity.
  - lia.
  - lia.
Defined.

(** C2 on [x*y + x], with one adjoint direction. *)
Lemma adjoint_accumulator_closure_bilinear :
  (forall pdwork fx dir n,
     (adj_sweep (algorithm_ (Examples.linearized (T:=Z) Examples.bilinear
                               [[0]; [1]] [[3]]))
                pdwork (replicate n zero, fx) dir).1 = replicate n zero) /\
  exists e',
    evaluateGen (Examples.linearized Examples.bilinear [[0]; [1]] [[3]]) 1 1
      (init_eval (Examples.linearized Examples.bilinear [[0]; [1]] [[3]])
                 Examples.bilinear_fx) = Ret e' /\
    work_ e' =
    replicate
      (length (work_ (init_eval (Examples.linearized Examples.bilinear
                                   [[0]; [1]] [[3]]) Examples.bilinear_fx)))
      zero.
Proof.
  apply (adjoint_accumulator_closure (H:=Z_scalar)
           (dfs_fuel Examples.bilinear) true false Examples.bilinear
           [[0]; [1]] [[3]] Examples.temp0
           (Examples.linearized (T:=Z) Examples.bilinear [[0]; [1]] [[3]]) 1 1
           (init_eval (Examples.linearized Examples.bilinear [[0]; [1]] [[3]])
                      Examples.bilinear_fx)).
  - vm_compute. reflexivity.
  - intros p. reflexivity.
  - vm_compute. reflexivity.
  - simpl. apply NoDup_cons. split.
    + intros E. apply list_elem_of_singleton in E. lia.
    + apply NoDup_singleton.
  - vm_compute. reflexivity.
  - vm_compute. reflexivity.
  - lia.
Defined.

(** C6 on [x*y + (x+y)*(z+w)]: at the sum, the sort pushes [x*y], the first
    of the two operands, which both have two operands. *)
Lemma sort_depth_first_descends_unbalanced :
  exists i d,
    dep (T:=Z) Examples.unbalanced 8 i = Some d /\ Examples.temp0 d = 0 /\
    dfs_turn Examples.unbalanced (Some 8) [] [] Examples.temp0
      = mkDfs (Some d :: Some 8 :: []) [] Examples.temp0 /\
    (forall i' d', dep (T:=Z) Examples.unbalanced 8 i' = Some d' ->
       Examples.temp0 d' = 0 ->
       ndep (T:=Z) Examples.unbalanced d' <= ndep (T:=Z) Examples.unbalanced d) /\
    (forall i' d', i' < i -> dep (T:=Z) Examples.unbalanced 8 i' = Some d' ->
       Examples.temp0 d' = 0 ->
       ndep (T:=Z) Examples.unbalanced d' < ndep (T:=Z) Examples.unbalanced d).
Proof.
  apply (sort_depth_first_descends (T:=Z) Examples.unbalanced Examples.temp0 8 [] []).
  - reflexivity.
  - exists 0, 4. split; reflexivity.
Defined.

(** C9 on Scenario A with [y] left out of the inputs. *)
Lemma free_variable_reported_scenarioA :
  exists this,
    init (T:=Z) 12 true false Examples.scenarioA [[0]] [[4]] Examples.temp0
      = Ret this /\
    1 ∈ free_vars_ this /\
    forall nfdir nadir e,
      evaluateGen this nfdir nadir e = casadi_error (FreeVariables (free_vars_ this)).
Proof.
  apply (free_variable_reported (H:=Z_scalar) 12 true Examples.scenarioA [[0]] [[4]]
           Examples.temp0 4 1).
  - vm_compute. reflexivity.
  - intros q. reflexivity.
  - vm_compute. reflexivity.
  - vm_compute. lia.
  - vm_compute. left.
  - apply (reachable_step _ 4 0 2 1); [reflexivity|].
    apply (reachable_step _ 2 1 1 1); [reflexivity|]. apply reachable_refl.
  - vm_compute. reflexivity.
  - vm_compute. intros Hin. apply list_elem_of_singleton in Hin. discriminate Hin.
Defined.

(** Just-in-time compilation, which the specification leaves out, refuses
    a function with a free variable: with the option [just_in_time] on,
    [init] has found the free symbol [y] of Scenario A all the same, and
    fails with an error that names it. *)
Lemma free_variable_just_in_time :
  reachable (T:=Z) Examples.scenarioA 4 1 /\
  isSymbolic (T:=Z) Examples.scenarioA 1 = true /\
  (1 ∉ concat [[0]]) /\
  init (T:=Z) 12 true true Examples.scenarioA [[0]] [[4]] Examples.temp0
    = casadi_error (FreeVariablesJIT [1]).
Proof.
  split; [|split; [|split]].
  - apply (reachable_step _ 4 0 2 1); [reflexivity|].
    apply (reachable_step _ 2 1 1 1); [reflexivity|]. apply reachable_refl.
  - reflexivity.
  - simpl. intros Hin. apply list_elem_of_singleton in Hin. discriminate Hin.
  - vm_compute. reflexivity.
Qed.


(** X1 on [x*y + (x+y)*(z+w)], sorted from the sum. *)
Lemma sort_depth_first_schedules_unbalanced :
  exists st',
    sort_depth_first (dfs_fuel (Examples.unbalanced (T:=Z))) Examples.unbalanced
      (mkDfs [Some 8] [] Examples.temp0) = Some st' /\
    dfs_s st' = [] /\
    sorted_so_far (Examples.unbalanced (T:=Z)) (dfs_nodes st') (dfs_temp st') /\
    exists added,
      dfs_nodes st' = [] ++ map Some added /\
      forall q, q ∈ added <->
                reachable (Examples.unbalanced (T:=Z)) 8 q /\ Some q ∉ [].
Proof.
  apply (sort_depth_first_schedules (T:=Z) Examples.unbalanced 8 [] Examples.temp0).
  - apply arena_ok_acyclic. vm_compute. reflexivity.
  - simpl. lia.
  - apply sorted_so_far_nil. reflexivity.
Defined.

(** X2 on Scenario A. *)
Lemma init_resets_temporaries_scenarioA :
  init 12 true false (Examples.scenarioA (T:=Z)) [[0]; [1]] [[4]] Examples.temp0
    = Ret (Examples.linearized Examples.scenarioA [[0]; [1]] [[4]]) /\
  forall p, temp_ (Examples.linearized (T:=Z) Examples.scenarioA [[0]; [1]] [[4]]) p = 0.
Proof.
  split; [vm_compute; reflexivity|].
  apply (init_resets_temporaries (H:=Z_scalar) 12 true false Examples.scenarioA
           [[0]; [1]] [[4]] Examples.temp0).
  - intros p. reflexivity.
  - vm_compute. reflexivity.
Defined.

(** X3 on [x*y + x]. *)
Lemma init_work_vector_bounds_bilinear :
  arena_ok (Examples.bilinear (T:=Z)) = true /\
  forall ae, ae ∈ algorithm_ (Examples.linearized (T:=Z) Examples.bilinear
                                [[0]; [1]] [[3]]) ->
    (op ae <> OP_OUTPUT ->
       res ae < worksize_ (Examples.linearized (T:=Z) Examples.bilinear
                             [[0]; [1]] [[3]])) /\
    (op ae = OP_OUTPUT ->
       arg_i0 ae < worksize_ (Examples.linearized (T:=Z) Examples.bilinear
                                [[0]; [1]] [[3]])) /\
    (is_builtin (op ae) = true ->
       arg_i0 ae < worksize_ (Examples.linearized (T:=Z) Examples.bilinear
                                [[0]; [1]] [[3]]) /\
       arg_i1 ae < worksize_ (Examples.linearized (T:=Z) Examples.bilinear
                                [[0]; [1]] [[3]])).
Proof.
  split; [vm_compute; reflexivity|].
  apply (init_work_vector_bounds (H:=Z_scalar) (dfs_fuel Examples.bilinear) true false
           Examples.bilinear [[0]; [1]] [[3]] Examples.temp0).
  - vm_compute. reflexivity.
  - intros p. reflexivity.
  - vm_compute. reflexivity.
  - simpl. apply NoDup_cons. split.
    + intros E. apply list_elem_of_singleton in E. lia.
    + apply NoDup_singleton.
  - vm_compute. reflexivity.
Defined.

(** X4 on [x*y + x]. *)
Lemma init_io_instructions_bilinear :
  input_locs (algorithm_ (Examples.linearized (T:=Z) Examples.bilinear
                            [[0]; [1]] [[3]]))
    ≡ₚ locations (map length [[0]; [1]]) /\
  output_locs (algorithm_ (Examples.linearized (T:=Z) Examples.bilinear
                             [[0]; [1]] [[3]]))
    = locations (map length [[3]]).
Proof.
  apply (init_io_instructions (H:=Z_scalar) (dfs_fuel Examples.bilinear) true false
           Examples.bilinear [[0]; [1]] [[3]] Examples.temp0).
  - vm_compute. reflexivity.
  - intros p. reflexivity.
  - vm_compute. reflexivity.
  - simpl. apply NoDup_cons. split.
    + intros E. apply list_elem_of_singleton in E. lia.
    + apply NoDup_singleton.
  - vm_compute. reflexivity.
Defined.

(** X5 on [x*y + x]. *)
Lemma init_tape_exact_bilinear :
  Forall (fun ae => op ae <> OP_PARAMETER)
         (algorithm_ (Examples.linearized (T:=Z) Examples.bilinear [[0]; [1]] [[3]])) /\
  length (filter (fun ae => Is_true (takes_tape ae))
            (algorithm_ (Examples.linearized (T:=Z) Examples.bilinear
                           [[0]; [1]] [[3]])))
    = pdwork_size (Examples.linearized (T:=Z) Examples.bilinear [[0]; [1]] [[3]]) /\
  pdwork_size (Examples.linearized (T:=Z) Examples.bilinear [[0]; [1]] [[3]])
    = length (operations_ (Examples.linearized (T:=Z) Examples.bilinear
                             [[0]; [1]] [[3]])) /\
  length (filter (fun ae => Is_true (Operation_eqb (op ae) OP_CONST))
            (algorithm_ (Examples.linearized (T:=Z) Examples.bilinear
                           [[0]; [1]] [[3]])))
    = length (constants_ (Examples.linearized (T:=Z) Examples.bilinear
                            [[0]; [1]] [[3]])).
Proof.
  apply (init_tape_exact (H:=Z_scalar) (dfs_fuel Examples.bilinear) true false
           Examples.bilinear [[0]; [1]] [[3]] Examples.temp0).
  - vm_compute. reflexivity.
  - intros p. reflexivity.
  - vm_compute. reflexivity.
  - simpl. apply NoDup_cons. split.
    + intros E. apply list_elem_of_singleton in E. lia.
    + apply NoDup_singleton.
  - vm_compute. reflexivity.
  - vm_compute. reflexivity.
Defined.

(** X6 on [x*y + x] at (3,4), with one forward and one adjoint direction. *)
Lemma evaluateGen_frame_bilinear :
  let this := Examples.linearized (T:=Z) Examples.bilinear [[0]; [1]] [[3]] in
  let e := init_eval this Examples.bilinear_fx in
  let e' := match evaluateGen this 1 1 e with Ret e' => e' | _ => e end in
  evaluateGen this 1 1 e = Ret e' /\
  map data (input_ (fx_ e')) = map data (input_ (fx_ e)) /\
  map dataF (input_ (fx_ e')) = map dataF (input_ (fx_ e)) /\
  map dataA (output_ (fx_ e')) = map dataA (output_ (fx_ e)) /\
  (forall d, 1 <= d -> fwdSens_dir (fx_ e') d = fwdSens_dir (fx_ e) d) /\
  (forall d, 1 <= d -> adjSens_dir (fx_ e') d = adjSens_dir (fx_ e) d) /\
  length (work_ e') = length (work_ e).
Proof.
  split; [vm_compute; reflexivity|].
  apply (evaluateGen_frame (H:=Z_scalar)
           (Examples.linearized (T:=Z) Examples.bilinear [[0]; [1]] [[3]]) 1 1
           (init_eval (Examples.linearized (T:=Z) Examples.bilinear [[0]; [1]] [[3]])
                      Examples.bilinear_fx)).
  vm_compute. reflexivity.
Defined.

(** X8 on a function as the constructor leaves it. *)
Lemma updateNumSens_shapes_fresh :
  let this' := match updateNumSens DependencyExamples.fresh with
               | Some t => t
               | None => DependencyExamples.fresh
               end in
  shaped_all (buffers_ (object_ DependencyExamples.fresh)) 0 0 = true /\
  updateNumSens DependencyExamples.fresh = Some this' /\
  length (compressed_fwd_ (object_ this')) = 2 /\
  length (compressed_adj_ (object_ this')) = 1 /\
  shaped_all (buffers_ (object_ this')) 2 1 = true.
Proof.
  intros this'.
  assert (Hs : shaped_all (buffers_ (object_ DependencyExamples.fresh)) 0 0 = true)
    by (vm_compute; reflexivity).
  assert (E : updateNumSens DependencyExamples.fresh = Some this')
    by (vm_compute; reflexivity).
  pose proof (@updateNumSens_shapes Z unit DependencyExamples.fresh Hs) as Hx.
  rewrite E in Hx. cbv zeta in Hx.
  destruct Hx as (_ & _ & _ & _ & Hcf & Hca & Hsh & _).
  split; [exact Hs|]. split; [exact E|]. split; [exact Hcf|]. split; [exact Hca|].
  exact Hsh.
Defined.

(** X9: three forward directions are asked of a function that has none. *)
Lemma requestNumSens_guarantee_fresh :
  let this' := match requestNumSens 3 0 DependencyExamples.fresh with
               | Some t => t
               | None => DependencyExamples.fresh
               end in
  requestNumSens 3 0 DependencyExamples.fresh = Some this' /\
  (3 <= nfdir_ this')%Z /\ (1 <= nadir_ this')%Z.
Proof.
  intros this'.
  assert (E : requestNumSens 3 0 DependencyExamples.fresh = Some this')
    by (vm_compute; reflexivity).
  destruct (@requestNumSens_guarantee Z unit 3 0 DependencyExamples.fresh this' E)
    as (Hf & Ha & _).
  split; [exact E|]. split; [exact Hf|exact Ha].
Defined.

(** X10 on [(x*y, sin(x))]: the seed is on y only, bit 1 stands for y, and
    the forward sensitivity of [sin(x)] is 0. *)
Lemma spEvaluate_forward_sound_pair :
  let this := Examples.linearized (T:=Z) DependencyExamples.pair [[0]; [1]] [[2]; [3]] in
  let e := init_eval this DependencyExamples.pair_fx in
  exists e',
    evaluateGen this 1 1 e = Ret e' /\
    N.testbit
      (rd (outputNoCheck
             (spEvaluate (algorithm_ this) true
                (replicate (worksize_ this) 0%N, DependencyExamples.pair_bits)).2 1) 0)
      1 = false /\
    rd (fwdSensNoCheck (fx_ e') 1 0) 0 = 0%Z.
Proof.
  intros this e.
  destruct (@spEvaluate_forward_sound Z Z_scalar Z.sub Z.opp Zth
              (dfs_fuel DependencyExamples.pair) true false DependencyExamples.pair
              [[0]; [1]] [[2]; [3]] Examples.temp0 this 1 1 e
              (replicate (worksize_ this) 0%N) DependencyExamples.pair_bits 0 1%N)
    as (e' & He & Hs).
  - vm_compute. reflexivity.
  - intros p. reflexivity.
  - vm_compute. reflexivity.
  - simpl. apply NoDup_cons. split.
    + intros E. apply list_elem_of_singleton in E. lia.
    + apply NoDup_singleton.
  - vm_compute. reflexivity.
  - vm_compute. reflexivity.
  - vm_compute. reflexivity.
  - vm_compute. reflexivity.
  - vm_compute. reflexivity.
  - vm_compute. reflexivity.
  - vm_compute. reflexivity.
  - lia.
  - intros i k. destruct i as [|[|i]]; destruct k as [|k]; vm_compute; done.
  - exists e'. split; [exact He|]. split; [vm_compute; reflexivity|].
    apply Hs; [vm_compute; lia|vm_compute; reflexivity].
Defined.

(** X11 on [(x*y, sin(x))]: the seed is on [sin(x)] only, bit 1 stands for
    it, and the adjoint sensitivity of y is 0. *)
Lemma spEvaluate_backward_sound_pair :
  let this := Examples.linearized (T:=Z) DependencyExamples.pair [[0]; [1]] [[2]; [3]] in
  let e := init_eval this DependencyExamples.pair_fx in
  exists e',
    evaluateGen this 1 1 e = Ret e' /\
    N.testbit
      (rd (inputNoCheck
             (spEvaluate (algorithm_ this) false
                (spInit false (replicate (worksize_ this) 5%N),
                 DependencyExamples.pair_bits)).2 1) 0)
      1 = false /\
    rd (adjSensNoCheck (fx_ e') 1 0) 0 = 0%Z.
Proof.
  intros this e.
  destruct (@spEvaluate_backward_sound Z Z_scalar Z.sub Z.opp Zth
              (dfs_fuel DependencyExamples.pair) true false DependencyExamples.pair
              [[0]; [1]] [[2]; [3]] Examples.temp0 this 1 1 e
              (replicate (worksize_ this) 5%N) DependencyExamples.pair_bits 0 1%N)
    as (e' & He & Hs).
  - vm_compute. reflexivity.
  - intros p. reflexivity.
  - vm_compute. reflexivity.
  - simpl. apply NoDup_cons. split.
    + intros E. apply list_elem_of_singleton in E. lia.
    + apply NoDup_singleton.
  - vm_compute. reflexivity.
  - vm_compute. reflexivity.
  - vm_compute. reflexivity.
  - vm_compute. reflexivity.
  - vm_compute. reflexivity.
  - vm_compute. reflexivity.
  - vm_compute. reflexivity.
  - lia.
  - intros o k. destruct o as [|[|o]]; destruct k as [|k]; vm_compute; done.
  - exists e'. split; [exact He|]. split; [vm_compute; reflexivity|].
    apply Hs; [vm_compute; lia|vm_compute; reflexivity].
Defined.

(** X12 on [(x*y, sin(x))]. *)
Lemma spInit_is_enough_pair :
  let this := Examples.linearized (T:=Z) DependencyExamples.pair [[0]; [1]] [[2]; [3]] in
  (forall iw1 iw2 bfx1 bfx2,
     length iw1 = length iw2 ->
     map data (input_ bfx1) = map data (input_ bfx2) ->
     map (fun io => length (data io)) (output_ bfx1) = map length [[2]; [3]] ->
     map (fun io => length (data io)) (output_ bfx2) = map length [[2]; [3]] ->
     forall o,
       outputNoCheck (spEvaluate (algorithm_ this) true (spInit true iw1, bfx1)).2 o =
       outputNoCheck (spEvaluate (algorithm_ this) true (spInit true iw2, bfx2)).2 o) /\
  (forall iw bfx,
     (spEvaluate (algorithm_ this) false (spInit false iw, bfx)).1 =
     replicate (length iw) 0%N).
Proof.
  intros this.
  apply (@spInit_is_enough Z Z_scalar
           (dfs_fuel DependencyExamples.pair) true false DependencyExamples.pair
           [[0]; [1]] [[2]; [3]] Examples.temp0 this).
  - vm_compute. reflexivity.
  - intros p. reflexivity.
  - vm_compute. reflexivity.
  - simpl. apply NoDup_cons. split.
    + intros E. apply list_elem_of_singleton in E. lia.
    + apply NoDup_singleton.
  - vm_compute. reflexivity.
Defined.

(** X13 on [(x*y, sin(x))], from a work vector that is not cleared. *)
Lemma spEvaluate_refines_default_pair :
  let this := Examples.linearized (T:=Z) DependencyExamples.pair [[0]; [1]] [[2]; [3]] in
  let iw := replicate (worksize_ this) 5%N in
  let bfx := DependencyExamples.pair_bits in
  (forall o k,
     N.lor (rd (outputNoCheck (spEvaluate (algorithm_ this) true
                                 (spInit true iw, bfx)).2 o) k)
           (rd (outputNoCheck (FXInternal_spEvaluate true bfx) o) k) =
     rd (outputNoCheck (FXInternal_spEvaluate true bfx) o) k) /\
  (forall i k,
     N.lor (rd (inputNoCheck (spEvaluate (algorithm_ this) false
                                (spInit false iw, bfx)).2 i) k)
           (all_depend_of (output_ bfx)) = all_depend_of (output_ bfx) /\
     N.lor (rd (inputNoCheck (spEvaluate (algorithm_ this) false
                                (spInit false iw, bfx)).2 i) k)
           (rd (inputNoCheck (FXInternal_spEvaluate false bfx) i) k) =
     rd (inputNoCheck (FXInternal_spEvaluate false bfx) i) k).
Proof.
  intros this iw bfx.
  apply (@spEvaluate_refines_default Z Z_scalar
           (dfs_fuel DependencyExamples.pair) true false DependencyExamples.pair
           [[0]; [1]] [[2]; [3]] Examples.temp0 this iw bfx).
  - vm_compute. reflexivity.
  - intros p. reflexivity.
  - vm_compute. reflexivity.
  - simpl. apply NoDup_cons. split.
    + intros E. apply list_elem_of_singleton in E. lia.
    + apply NoDup_singleton.
  - vm_compute. reflexivity.
  - vm_compute. reflexivity.
  - vm_compute. reflexivity.
Defined.

(** X14 on [x*y + (x+y)*(z+w)] with live variables, where places of the
    work vector are used again: at (2,3) and (5,7) the value is 66. *)
Lemma evaluateGen_computes_graph_unbalanced :
  let this := Examples.linearized (T:=Z) Examples.unbalanced [[0; 1]; [2; 3]] [[8]] in
  let e := init_eval this GraphExamples.unbalanced_fx in
  worksize_ this < length (algorithm_ this) - 1 /\
  exists e',
    evaluateGen this 0 0 e = Ret e' /\
    rd (outputNoCheck (fx_ e') 0) 0 =
      graph_value Examples.unbalanced
        (input_env [[0; 1]; [2; 3]] GraphExamples.unbalanced_fx) 8 /\
    rd (outputNoCheck (fx_ e') 0) 0 = 66%Z.
Proof.
  intros this e. split; [vm_compute; lia|].
  destruct (@evaluateGen_computes_graph Z Z_scalar
              (dfs_fuel Examples.unbalanced) true false Examples.unbalanced
              [[0; 1]; [2; 3]] [[8]] Examples.temp0 this 0 0 e)
    as (e' & He & Hv).
  - vm_compute. reflexivity.
  - intros p. reflexivity.
  - vm_compute. reflexivity.
  - apply (NoDup_ListNoDup [0; 1; 2; 3]). repeat constructor; cbn; lia.
  - vm_compute. reflexivity.
  - vm_compute. reflexivity.
  - vm_compute. reflexivity.
  - vm_compute. reflexivity.
  - vm_compute. reflexivity.
  - vm_compute. reflexivity.
  - exists e'. split; [exact He|].
    assert (E : rd (outputNoCheck (fx_ e') 0) 0 =
                graph_value Examples.unbalanced
                  (input_env [[0; 1]; [2; 3]] GraphExamples.unbalanced_fx) 8)
      by (by apply (Hv 0 [8] 0 8)).
    split; [exact E|]. rewrite E. vm_compute. reflexivity.
Defined.
